(** * School scheduling engine: the greedy five-phase pipeline

    Shallow embedding of the scheduling core of the web engine
    ([web/src/db/schedule-loader.ts]: [createSections], [assignTimeSlots],
    [assignRooms], [runGreedyAssignment], [assignStudentToSection],
    [buildStudentSchedules], [optimizeSections], [calculateScore],
    [generateSchedule]) and of the objective of the ILP model
    ([solveScheduleILP]); further on, of the rest of the ILP model, of the
    engine of the command line ([src/scheduler/index.ts]: its rotating
    [assignTimeSlots], [applyILPAssignments], [runGreedyAssignment],
    [generateSchedule]) and of the validator ([src/validator/index.ts]).

    Conventions of the embedding.
    - Identifiers are strings.  JavaScript counts and indices are [nat].
    - A period key, the string [`${day}-${slot}`], is modelled by the pair
      [(day, slot)]: on natural numbers the rendering is injective, and the
      code only ever inserts, deletes and tests keys.
    - A [Map] used for lookup only is a [gmap]; a [Set] of keys is a [gset].
      A [Map] whose iteration order matters ([sectionsByCourse]) is an
      association list in insertion order.
    - The section array holds mutable objects that are shared with the
      per-course groups; it is modelled as a store (a list indexed by
      position), and the groups hold positions in the store.
    - [Array.prototype.sort] with a comparator [a.k - b.k] is a stable sort;
      its result is the unique stable ascending arrangement, computed here by
      [sortBy] (and characterised by [sortBy_ascending], [sortBy_perm] and
      [sortBy_stable]).
    - A lookup that the source dereferences without a check
      ([map.get(k)!.has(..)]) is fallible: the model fails ([None]) already at
      the lookup, which is at least as often as the source throws. *)

From Stdlib Require Import QArith Qminmax.
From stdpp Require Import gmap gmultiset strings list fin_maps sorting pretty relations.
Close Scope Q_scope.

(** ** Data model *)

Definition StudentId := string.
Definition CourseId := string.
Definition TeacherId := string.
Definition RoomId := string.
Definition SectionId := string.

(** [Period]: [{ day, slot }]. *)
Definition Period : Type := nat * nat.

Module Student.
Record t := mk {
  id : StudentId;
  grade : nat;
  requiredCourses : list CourseId;
  electivePreferences : list CourseId }.
End Student.

Module Teacher.
Record t := mk {
  id : TeacherId;
  subjects : list CourseId;
  maxSections : nat;
  unavailable : list Period }.
End Teacher.

Module Course.
Record t := mk {
  id : CourseId;
  maxStudents : nat;
  gradeRestrictions : option (list nat);
  requiredFeatures : list string;
  sections : nat }.
End Course.

Module Room.
Record t := mk {
  id : RoomId;
  capacity : nat;
  features : list string;
  unavailable : list Period }.
End Room.

Record Section := mkSection {
  id : SectionId;
  courseId : CourseId;
  teacherId : option TeacherId;
  roomId : option RoomId;
  periods : list Period;
  enrolledStudents : list StudentId;
  capacity : nat }.

Record ScheduleConfig := mkConfig {
  periodsPerDay : nat;
  daysPerWeek : nat }.

Record ScheduleInput := mkInput {
  students : list Student.t;
  teachers : list Teacher.t;
  courses : list Course.t;
  rooms : list Room.t;
  config : ScheduleConfig }.

Record UnassignedStudent := mkUnassigned {
  u_studentId : StudentId;
  u_courseId : CourseId;
  u_reason : string }.

(** Field updates of a section object. *)
Definition pushPeriods (ps : list Period) (s : Section) : Section :=
  mkSection (id s) (courseId s) (teacherId s) (roomId s) (periods s ++ ps)
            (enrolledStudents s) (capacity s).

Definition setRoom (r : RoomId) (s : Section) : Section :=
  mkSection (id s) (courseId s) (teacherId s) (Some r) (periods s)
            (enrolledStudents s) (capacity s).

Definition setEnrolled (l : list StudentId) (s : Section) : Section :=
  mkSection (id s) (courseId s) (teacherId s) (roomId s) (periods s) l (capacity s).

(** The fields no phase after the first touches. *)
Definition static (s : Section) : SectionId * CourseId * option TeacherId * nat :=
  (id s, courseId s, teacherId s, capacity s).

(** ** Stable sort by a numeric key ([arr.sort((a, b) => key(a) - key(b))]) *)

Fixpoint insertBy {A} (key : A → nat) (x : A) (l : list A) : list A :=
  match l with
  | [] => [x]
  | y :: l' => if decide (key x ≤ key y) then x :: l else y :: insertBy key x l'
  end.

Definition sortBy {A} (key : A → nat) (l : list A) : list A :=
  foldr (insertBy key) [] l.

(** ** Lookup maps built by [new Map(list.map(x => [x.id, x]))]: a later
    entry with the same id replaces an earlier one. *)

Definition buildCourseMap (cs : list Course.t) : gmap CourseId Course.t :=
  foldl (λ m c, <[Course.id c := c]> m) ∅ cs.

(** ** Phase 1: [createSections] *)

Definition qualifiedTeachers (teachers : list Teacher.t)
    (teacherSectionCount : gmap TeacherId nat) (course : Course.t) : list Teacher.t :=
  filter (λ t, Course.id course ∈ Teacher.subjects t ∧
               default 0 (teacherSectionCount !! Teacher.id t) < Teacher.maxSections t)
         teachers.

(** [qualifiedTeachers[i % qualifiedTeachers.length]]: with an empty pool the
    index is [NaN] and the read yields [undefined]. *)
Definition pickTeacher (qualified : list Teacher.t) (i : nat) : option Teacher.t :=
  if decide (length qualified = 0) then None
  else qualified !! (i mod length qualified).

Definition newSection (course : Course.t) (teacher : option Teacher.t) (i : nat) : Section :=
  {| id := Course.id course +:+ "-" +:+ pretty (i + 1);
     courseId := Course.id course;
     teacherId := Teacher.id <$> teacher;
     roomId := None;
     periods := [];
     enrolledStudents := [];
     capacity := Course.maxStudents course |}.

Definition createSection (course : Course.t) (qualified : list Teacher.t)
    (acc : list Section * gmap TeacherId nat) (i : nat)
    : list Section * gmap TeacherId nat :=
  let teacher := pickTeacher qualified i in
  (acc.1 ++ [newSection course teacher i],
   match teacher with
   | Some t => <[Teacher.id t := default 0 (acc.2 !! Teacher.id t) + 1]> acc.2
   | None => acc.2
   end).

Definition createCourseSections (teachers : list Teacher.t)
    (acc : list Section * gmap TeacherId nat) (course : Course.t)
    : list Section * gmap TeacherId nat :=
  let qualified := qualifiedTeachers teachers acc.2 course in
  foldl (createSection course qualified) acc (seq 0 (Course.sections course)).

Definition createSectionsFrom (teachers : list Teacher.t)
    (acc : list Section * gmap TeacherId nat) (cs : list Course.t)
    : list Section * gmap TeacherId nat :=
  foldl (createCourseSections teachers) acc cs.

Definition createSections (cs : list Course.t) (teachers : list Teacher.t) : list Section :=
  (createSectionsFrom teachers ([], ∅) cs).1.

(** ** Phase 2: [assignTimeSlots] *)

Record TimeState := mkTimeState {
  teacherSchedules : gmap TeacherId (gset Period);
  slotUsage : gmap nat nat;
  gradeSlotUsage : gmap nat (gmap nat nat) }.

Definition initTeacherSchedules (teachers : list Teacher.t) : gmap TeacherId (gset Period) :=
  foldl (λ m t, <[Teacher.id t := list_to_set (Teacher.unavailable t)]> m) ∅ teachers.

Definition initSlotUsage (ppd : nat) : gmap nat nat :=
  foldl (λ m slot, <[slot := 0]> m) ∅ (seq 0 ppd).

(** [sectionsByCourse]: a [Map] from course id to the sections of that
    course, in insertion order; the values are positions in the store. *)
Fixpoint groupInsert (k : CourseId) (i : nat) (g : list (CourseId * list nat))
    : list (CourseId * list nat) :=
  match g with
  | [] => [(k, [i])]
  | (k', l) :: g' =>
      if decide (k = k') then (k', l ++ [i]) :: g' else (k', l) :: groupInsert k i g'
  end.

Definition sectionsByCourse (secs : list Section) : list (CourseId * list nat) :=
  foldl (λ g '(i, s), groupInsert (courseId s) i g) [] (imap pair secs).

(** [teacherId ? teacherSchedules.get(teacherId) : null]: an absent id and
    the empty string are both falsy. *)
Definition lookupTeacherSchedule (ts : gmap TeacherId (gset Period))
    (t : option TeacherId) : option (TeacherId * gset Period) :=
  match t with
  | Some tid => if decide (tid = EmptyString) then None else (λ s, (tid, s)) <$> ts !! tid
  | None => None
  end.

Definition weekPeriods (days slot : nat) : list Period :=
  (λ day, (day, slot)) <$> seq 0 days.

Definition teacherAvailable (days : nat) (sched : option (TeacherId * gset Period))
    (slot : nat) : bool :=
  match sched with
  | None => true
  | Some (_, s) => negb (existsb (λ day, bool_decide ((day, slot) ∈ s)) (seq 0 days))
  end.

(** The penalty of a slot.  [slotUsage.get(slot)!] is defined for every slot
    the loop visits: [initSlotUsage] sets every slot below [periodsPerDay]
    ([initSlotUsage_lookup]) and a commit only adds entries
    ([commitSlot_defined]). *)
Definition slotPenalty (st : TimeState) (courseUsedSlots : gset nat)
    (grades : list nat) (slot : nat) : nat :=
  let penalty := default 0 (slotUsage st !! slot) in
  let penalty := if decide (slot ∈ courseUsedSlots) then penalty + 1000 else penalty in
  foldl (λ penalty grade,
           match gradeSlotUsage st !! grade with
           | Some gradeSlots => penalty + default 0 (gradeSlots !! slot) * 500
           | None => penalty
           end) penalty grades.

Definition availableSlots (cfg : ScheduleConfig) (st : TimeState)
    (courseUsedSlots : gset nat) (grades : list nat)
    (sched : option (TeacherId * gset Period)) : list (nat * nat) :=
  (λ slot, (slot, slotPenalty st courseUsedSlots grades slot)) <$>
    filter (λ slot, teacherAvailable (daysPerWeek cfg) sched slot = true)
           (seq 0 (periodsPerDay cfg)).

(** [availableSlots.sort(..)[0]?.slot ?? 0] *)
Definition chooseSlot (cfg : ScheduleConfig) (st : TimeState)
    (courseUsedSlots : gset nat) (grades : list nat)
    (sched : option (TeacherId * gset Period)) : nat :=
  match sortBy snd (availableSlots cfg st courseUsedSlots grades sched) with
  | (slot, _) :: _ => slot
  | [] => 0
  end.

Definition bumpGrade (slot : nat) (g : gmap nat (gmap nat nat)) (grade : nat)
    : gmap nat (gmap nat nat) :=
  let gradeSlots := default ∅ (g !! grade) in
  <[grade := <[slot := default 0 (gradeSlots !! slot) + 1]> gradeSlots]> g.

Definition commitSlot (cfg : ScheduleConfig) (grades : list nat)
    (sched : option (TeacherId * gset Period)) (slot : nat) (st : TimeState) : TimeState :=
  {| teacherSchedules :=
       match sched with
       | Some (tid, s) =>
           <[tid := s ∪ list_to_set (weekPeriods (daysPerWeek cfg) slot)]> (teacherSchedules st)
       | None => teacherSchedules st
       end;
     slotUsage := <[slot := default 0 (slotUsage st !! slot) + 1]> (slotUsage st);
     gradeSlotUsage := foldl (bumpGrade slot) (gradeSlotUsage st) grades |}.

(** One iteration of the inner loop, on the section at position [idx]. *)
Definition assignSectionSlot (cfg : ScheduleConfig) (grades : list nat)
    (acc : list Section * TimeState * gset nat) (idx : nat)
    : list Section * TimeState * gset nat :=
  let '(secs, st, courseUsedSlots) := acc in
  match secs !! idx with
  | None => acc
  | Some section =>
      let sched := lookupTeacherSchedule (teacherSchedules st) (teacherId section) in
      let chosenSlot := chooseSlot cfg st courseUsedSlots grades sched in
      (<[idx := pushPeriods (weekPeriods (daysPerWeek cfg) chosenSlot) section]> secs,
       commitSlot cfg grades sched chosenSlot st,
       {[chosenSlot]} ∪ courseUsedSlots)
  end.

Definition courseGrades (courseMap : gmap CourseId Course.t) (cid : CourseId) : list nat :=
  default [] (courseMap !! cid ≫= Course.gradeRestrictions).

(** One iteration of the outer loop, on one course group. *)
Definition assignCourseSlots (cfg : ScheduleConfig) (courseMap : gmap CourseId Course.t)
    (acc : list Section * TimeState) (group : CourseId * list nat)
    : list Section * TimeState :=
  let grades := courseGrades courseMap group.1 in
  (foldl (assignSectionSlot cfg grades) (acc.1, acc.2, ∅) group.2).1.

Definition initTimeState (teachers : list Teacher.t) (cfg : ScheduleConfig) : TimeState :=
  {| teacherSchedules := initTeacherSchedules teachers;
     slotUsage := initSlotUsage (periodsPerDay cfg);
     gradeSlotUsage := ∅ |}.

Definition assignTimeSlots (secs : list Section) (teachers : list Teacher.t)
    (cfg : ScheduleConfig) (courseMap : gmap CourseId Course.t) : list Section :=
  (foldl (assignCourseSlots cfg courseMap) (secs, initTimeState teachers cfg)
         (sectionsByCourse secs)).1.

(** ** A left fold in the error monad (a [for] loop whose body may throw) *)

Fixpoint foldM {A B} (f : B → A → option B) (b : B) (l : list A) : option B :=
  match l with
  | [] => Some b
  | x :: l' => b' ← f b x; foldM f b' l'
  end.

(** ** Phase 3: [assignRooms] *)

Definition initRoomSchedules (rooms : list Room.t) : gmap RoomId (gset Period) :=
  foldl (λ m r, <[Room.id r := list_to_set (Room.unavailable r)]> m) ∅ rooms.

Definition roomSuitable (requiredFeatures : list string) (section : Section)
    (r : Room.t) : Prop :=
  ¬ (Room.capacity r < capacity section) ∧
  Forall (λ f, f ∈ Room.features r) requiredFeatures.

Definition suitableRooms (rooms : list Room.t) (requiredFeatures : list string)
    (section : Section) : list Room.t :=
  sortBy Room.capacity (filter (roomSuitable requiredFeatures section) rooms).

(** [section.periods.every(p => !schedule.has(key(p)))] *)
Definition canUse (schedule : gset Period) (section : Section) : bool :=
  forallb (λ p, negb (bool_decide (p ∈ schedule))) (periods section).

(** The walk over the sorted candidates; [roomSchedules.get(room.id)!]. *)
Fixpoint tryRooms (section : Section) (rs : gmap RoomId (gset Period))
    (candidates : list Room.t) : option (Section * gmap RoomId (gset Period)) :=
  match candidates with
  | [] => Some (section, rs)
  | room :: rest =>
      schedule ← rs !! Room.id room;
      if canUse schedule section
      then Some (setRoom (Room.id room) section,
                 <[Room.id room := schedule ∪ list_to_set (periods section)]> rs)
      else tryRooms section rs rest
  end.

Definition courseFeatures (courseMap : gmap CourseId Course.t) (cid : CourseId) : list string :=
  default [] (Course.requiredFeatures <$> courseMap !! cid).

Definition assignRoom (rooms : list Room.t) (courseMap : gmap CourseId Course.t)
    (rs : gmap RoomId (gset Period)) (section : Section)
    : option (Section * gmap RoomId (gset Period)) :=
  tryRooms section rs
    (suitableRooms rooms (courseFeatures courseMap (courseId section)) section).

(** The loop over the sections, in order, from a given occupancy table. *)
Fixpoint assignRoomsFrom (rooms : list Room.t) (courseMap : gmap CourseId Course.t)
    (rs : gmap RoomId (gset Period)) (secs : list Section)
    : option (list Section * gmap RoomId (gset Period)) :=
  match secs with
  | [] => Some ([], rs)
  | section :: rest =>
      '(section', rs') ← assignRoom rooms courseMap rs section;
      '(rest', rs'') ← assignRoomsFrom rooms courseMap rs' rest;
      Some (section' :: rest', rs'')
  end.

Definition assignRooms (secs : list Section) (rooms : list Room.t)
    (courseMap : gmap CourseId Course.t) : option (list Section) :=
  fst <$> assignRoomsFrom rooms courseMap (initRoomSchedules rooms) secs.

(** ** Phase 4: [runGreedyAssignment] and [assignStudentToSection] *)

Definition enrolledCount (secs : list Section) (i : nat) : nat :=
  from_option (λ s, length (enrolledStudents s)) 0 (secs !! i).

(** [sections.filter(s => s.courseId === courseId)], as store positions. *)
Definition courseSectionIdxs (secs : list Section) (cid : CourseId) : list nat :=
  filter (λ i, courseId <$> secs !! i = Some cid) (seq 0 (length secs)).

(** [section.periods.some(p => studentSchedule.has(key(p)))] *)
Definition hasConflict (sched : gset Period) (section : Section) : bool :=
  existsb (λ p, bool_decide (p ∈ sched)) (periods section).

(** The walk over the sorted sections of the course: the first one below
    capacity without a conflict. *)
Fixpoint findSection (secs : list Section) (sched : gset Period)
    (candidates : list nat) : option nat :=
  match candidates with
  | [] => None
  | i :: rest =>
      match secs !! i with
      | Some section =>
          if decide (capacity section ≤ length (enrolledStudents section))
          then findSection secs sched rest
          else if hasConflict sched section then findSection secs sched rest
          else Some i
      | None => findSection secs sched rest
      end
  end.

Definition enroll (sid : StudentId) (s : Section) : Section :=
  setEnrolled (enrolledStudents s ++ [sid]) s.

Definition sectionPeriods (secs : list Section) (i : nat) : list Period :=
  from_option periods [] (secs !! i).

(** [studentSchedules.get(studentId)!]: the source uses the entry when it
    first tests or adds a period, and throws there if the entry is missing;
    the model fails at the lookup already (see the conventions).  The
    engine calls the function for the students of the input, who all have
    an entry. *)
Definition assignStudentToSection (studentId : StudentId) (cid : CourseId)
    (secs : list Section) (scheds : gmap StudentId (gset Period))
    : option (bool * list Section * gmap StudentId (gset Period)) :=
  studentSchedule ← scheds !! studentId;
  let courseSections := sortBy (enrolledCount secs) (courseSectionIdxs secs cid) in
  match findSection secs studentSchedule courseSections with
  | Some i =>
      Some (true, alter (enroll studentId) i secs,
            <[studentId := studentSchedule ∪ list_to_set (sectionPeriods secs i)]> scheds)
  | None => Some (false, secs, scheds)
  end.

Record GreedyState := mkGreedy {
  g_sections : list Section;
  g_schedules : gmap StudentId (gset Period);
  g_unassigned : list UnassignedStudent }.

(** [course.gradeRestrictions && !course.gradeRestrictions.includes(grade)] *)
Definition gradeExcluded (course : Course.t) (grade : nat) : bool :=
  match Course.gradeRestrictions course with
  | Some l => negb (bool_decide (grade ∈ l))
  | None => false
  end.

Definition pushUnassigned (u : UnassignedStudent) (st : GreedyState) : GreedyState :=
  mkGreedy (g_sections st) (g_schedules st) (g_unassigned st ++ [u]).

(** Body of the first pass, for one required course of one student. *)
Definition requiredStep (courseMap : gmap CourseId Course.t) (student : Student.t)
    (st : GreedyState) (cid : CourseId) : option GreedyState :=
  match courseMap !! cid with
  | None => Some (pushUnassigned (mkUnassigned (Student.id student) cid "Course not found") st)
  | Some course =>
      if gradeExcluded course (Student.grade student) then Some st
      else
        '(assigned, secs, scheds) ←
          assignStudentToSection (Student.id student) cid (g_sections st) (g_schedules st);
        let st' := mkGreedy secs scheds (g_unassigned st) in
        Some (if assigned : bool then st'
              else pushUnassigned
                     (mkUnassigned (Student.id student) cid
                        "No available section (conflict or capacity)") st')
  end.

(** Body of the second pass, for one elective of one student. *)
Definition electiveStep (courseMap : gmap CourseId Course.t) (student : Student.t)
    (st : GreedyState) (cid : CourseId) : option GreedyState :=
  match courseMap !! cid with
  | None => Some st
  | Some course =>
      if gradeExcluded course (Student.grade student) then Some st
      else
        '(_, secs, scheds) ←
          assignStudentToSection (Student.id student) cid (g_sections st) (g_schedules st);
        Some (mkGreedy secs scheds (g_unassigned st))
  end.

Definition initStudentSchedules (sts : list Student.t) : gmap StudentId (gset Period) :=
  foldl (λ m s, <[Student.id s := ∅]> m) ∅ sts.

Definition requiredPass (courseMap : gmap CourseId Course.t) (sts : list Student.t)
    (st : GreedyState) : option GreedyState :=
  foldM (λ st student, foldM (requiredStep courseMap student) st
                             (Student.requiredCourses student)) st sts.

Definition electivePass (courseMap : gmap CourseId Course.t) (sts : list Student.t)
    (st : GreedyState) : option GreedyState :=
  foldM (λ st student, foldM (electiveStep courseMap student) st
                             (Student.electivePreferences student)) st sts.

Definition runGreedyAssignment (secs : list Section) (input : ScheduleInput)
    (courseMap : gmap CourseId Course.t) (unassigned : list UnassignedStudent)
    : option GreedyState :=
  st ← requiredPass courseMap (students input)
         (mkGreedy secs (initStudentSchedules (students input)) unassigned);
  electivePass courseMap (students input) st.

(** ** Phase 5: [buildStudentSchedules] and [optimizeSections] *)

(** The inner loops of [buildStudentSchedules]: [if (schedule) { .. }]. *)
Definition addSectionPeriods (section : Section)
    (m : gmap StudentId (gset Period)) (sid : StudentId) : gmap StudentId (gset Period) :=
  match m !! sid with
  | Some schedule => <[sid := schedule ∪ list_to_set (periods section)]> m
  | None => m
  end.

Definition buildStudentSchedules (secs : list Section) (sts : list Student.t)
    : gmap StudentId (gset Period) :=
  foldl (λ m section, foldl (addSectionPeriods section) m (enrolledStudents section))
        (initStudentSchedules sts) secs.

Record OptState := mkOpt {
  o_sections : list Section;
  o_schedules : gmap StudentId (gset Period) }.

(** One candidate of the largest section: the periods of the largest
    section are taken out of the student's schedule; then either the move
    is committed, or the periods are put back.  [smallest] and [largest] are
    store positions, [sm] and [lg] the objects there.  A student without an
    entry in the schedule table makes the model fail at the lookup; the
    source throws at the first period it deletes or tests. *)
Definition tryMove (smallest largest : nat) (sm lg : Section) (st : OptState)
    (studentId : StudentId) : option (bool * OptState) :=
  studentSchedule ← o_schedules st !! studentId;
  let removed := studentSchedule ∖ list_to_set (periods lg) in
  if negb (hasConflict removed sm) &&
     bool_decide (length (enrolledStudents sm) < capacity sm)
  then
    Some (true,
          mkOpt (<[smallest := enroll studentId sm]>
                   (<[largest := setEnrolled
                                   (filter (λ x, x ≠ studentId) (enrolledStudents lg)) lg]>
                      (o_sections st)))
                (<[studentId := removed ∪ list_to_set (periods sm)]> (o_schedules st)))
  else
    Some (false,
          mkOpt (o_sections st)
                (<[studentId := removed ∪ list_to_set (periods lg)]> (o_schedules st))).

(** The loop over the students of the largest section (the array as it is
    when the loop starts; a commit leaves the loop). *)
Fixpoint tryMoves (smallest largest : nat) (sm lg : Section) (st : OptState)
    (candidates : list StudentId) : option (bool * OptState) :=
  match candidates with
  | [] => Some (false, st)
  | studentId :: rest =>
      '(moved, st') ← tryMove smallest largest sm lg st studentId;
      if moved : bool then Some (true, st')
      else tryMoves smallest largest sm lg st' rest
  end.

(** Body of the loop over the course groups.  The group array is sorted in
    place, so the sorted order is what the next iteration starts from. *)
Definition optimizeCourse (st : OptState) (group : list nat)
    : option (bool * OptState * list nat) :=
  if decide (length group < 2) then Some (false, st, group)
  else
    let sorted := sortBy (enrolledCount (o_sections st)) group in
    match head sorted ≫= λ i, pair i <$> o_sections st !! i,
          last sorted ≫= λ i, pair i <$> o_sections st !! i with
    | Some (smallest, sm), Some (largest, lg) =>
        if decide (length (enrolledStudents lg) - length (enrolledStudents sm) ≤ 1)
        then Some (false, st, sorted)
        else
          '(moved, st') ← tryMoves smallest largest sm lg st (enrolledStudents lg);
          Some (moved, st', sorted)
    | _, _ => Some (false, st, sorted)
    end.

(** One iteration of the outer loop: a pass over all course groups. *)
Fixpoint optimizePass (st : OptState) (groups : list (CourseId * list nat))
    : option (bool * OptState * list (CourseId * list nat)) :=
  match groups with
  | [] => Some (false, st, [])
  | (cid, group) :: rest =>
      '(moved, st', group') ← optimizeCourse st group;
      '(improved, st'', rest') ← optimizePass st' rest;
      Some (moved || improved, st'', (cid, group') :: rest')
  end.

(** [for (let iter = 0; iter < maxIterations; iter++) { .. if (!improved) break; }]
    The first component counts the iterations that were executed. *)
Fixpoint optimizeLoop (maxIterations : nat) (st : OptState)
    (groups : list (CourseId * list nat)) : option (nat * OptState) :=
  match maxIterations with
  | 0 => Some (0, st)
  | S n =>
      '(improved, st', groups') ← optimizePass st groups;
      if improved : bool
      then '(k, st'') ← optimizeLoop n st' groups'; Some (S k, st'')
      else Some (1, st')
  end.

Definition optimizeSections (secs : list Section) (scheds : gmap StudentId (gset Period))
    (maxIterations : nat) : option (nat * OptState) :=
  optimizeLoop maxIterations (mkOpt secs scheds) (sectionsByCourse secs).

(** ** [calculateScore] *)

(** [!s.roomId], [!s.teacherId]: absent or the empty string. *)
Definition falsy (x : option string) : bool :=
  match x with
  | Some s => bool_decide (s = EmptyString)
  | None => true
  end.

Definition countWhere {A} (p : A → bool) (l : list A) : Z :=
  Z.of_nat (length (filter (λ x, p x = true) l)).

Definition sizeSpread (secs : list Section) (group : list nat) : Z :=
  let sizes := enrolledCount secs <$> group in
  Z.of_nat (foldr Nat.max 0 sizes) - Z.of_nat (foldr Nat.min (foldr Nat.max 0 sizes) sizes).

(** The score is a multiple of one half between 0 and 100; on such numbers
    the floating-point operations of the source are exact, and the score is
    modelled as a rational. *)
Definition calculateScore (secs : list Section) : Q :=
  let emptySections := countWhere (λ s, bool_decide (length (enrolledStudents s) = 0)) secs in
  let noRoom := countWhere (λ s, falsy (roomId s)) secs in
  let noTeacher := countWhere (λ s, falsy (teacherId s)) secs in
  let score := 100%Q in
  let score := (score - inject_Z emptySections * 5)%Q in
  let score :=
    foldl (λ score group,
             if decide (length group.2 < 2) then score
             else (score - inject_Z (sizeSpread secs group.2) * (1 # 2))%Q)
          score (sectionsByCourse secs) in
  let score := (score - inject_Z noRoom * 10)%Q in
  let score := (score - inject_Z noTeacher * 10)%Q in
  Qmax 0 (Qmin 100 score).

(** ** [generateSchedule] *)

Record SchedulerOptions := mkOptions {
  maxOptimizationIterations : option nat }.

(** The readings of the system clock taken by one run: [Date.now()] at the
    start, [Date.now()] after phase 5, and [new Date().toISOString()]. *)
Record Clock := mkClock {
  startNow : Z;
  endNow : Z;
  isoNow : string }.

Record ScheduleMetadata := mkMetadata {
  generatedAt : string;
  algorithmVersion : string;
  score : Q;
  solveTimeMs : Z;
  constraintsSatisfied : nat;
  constraintsTotal : nat }.

Record ScheduleResult := mkResult {
  r_sections : list Section;
  unassignedStudents : list UnassignedStudent;
  metadata : ScheduleMetadata }.

(** Phases 1 to 4. *)
Definition assignmentPhases (input : ScheduleInput) : option GreedyState :=
  let courseMap := buildCourseMap (courses input) in
  let secs := createSections (courses input) (teachers input) in
  let secs := assignTimeSlots secs (teachers input) (config input) courseMap in
  secs ← assignRooms secs (rooms input) courseMap;
  runGreedyAssignment secs input courseMap [].

(** Phase 5 on the outcome of phase 4. *)
Definition rebalancePhase (input : ScheduleInput) (options : SchedulerOptions)
    (secs : list Section) : option (nat * OptState) :=
  optimizeSections secs (buildStudentSchedules secs (students input))
                   (default 500 (maxOptimizationIterations options)).

(** The progress callback is the only effect besides the clock; it receives
    values and returns nothing, and is left out. *)
Definition generateSchedule (input : ScheduleInput) (options : SchedulerOptions)
    (clock : Clock) : option ScheduleResult :=
  g ← assignmentPhases input;
  '(_, o) ← rebalancePhase input options (g_sections g);
  Some {| r_sections := o_sections o;
          unassignedStudents := g_unassigned g;
          metadata :=
            {| generatedAt := isoNow clock;
               algorithmVersion := "1.0.0-greedy-workers";
               score := calculateScore (o_sections o);
               solveTimeMs := endNow clock - startNow clock;
               constraintsSatisfied := 0;
               constraintsTotal := 0 |} |}.

(** ** The objective of the ILP model ([solveScheduleILP], first loop) *)

(** [list.indexOf(x)]: the first position of [x], or [-1]. *)
Fixpoint indexOf (x : string) (l : list string) : Z :=
  match l with
  | [] => -1
  | y :: l' =>
      if decide (y = x) then 0
      else let r := indexOf x l' in if decide (r = -1) then -1 else r + 1
  end%Z.

(** The weight computed for a pair that passes the grade test. *)
Definition preferenceWeight (student : Student.t) (cid : CourseId) : Z :=
  let weight := 0%Z in
  let weight :=
    if decide (cid ∈ Student.requiredCourses student) then 1000%Z else weight in
  let electiveRank := indexOf cid (Student.electivePreferences student) in
  if decide (electiveRank ≠ (-1)%Z) then (10 - electiveRank)%Z else weight.

(** [course?.gradeRestrictions && !course.gradeRestrictions.includes(grade)] *)
Definition gradeSkipped (courseMap : gmap CourseId Course.t) (student : Student.t)
    (section : Section) : bool :=
  match courseMap !! courseId section with
  | Some course => gradeExcluded course (Student.grade student)
  | None => false
  end.

(** The coefficient of [x_s_k] in the objective, if the term is emitted. *)
Definition objectiveCoefficient (courseMap : gmap CourseId Course.t)
    (student : Student.t) (section : Section) : option Z :=
  if gradeSkipped courseMap student section then None
  else
    let weight := preferenceWeight student (courseId section) in
    if decide (0 < weight)%Z then Some weight else None.

(** [objectiveTerms]: the emitted terms [(weight, s, k)], in order. *)
Definition objectiveTerms (courseMap : gmap CourseId Course.t)
    (sts : list Student.t) (secs : list Section) : list (Z * nat * nat) :=
  mjoin (imap (λ s student,
           mjoin (imap (λ k section,
                    match objectiveCoefficient courseMap student section with
                    | Some w => [(w, s, k)]
                    | None => []
                    end) secs)) sts).

(** ** Vocabulary of the properties *)

(** A list in ascending order of a key. *)
Definition ascending {A} (key : A → nat) (l : list A) : Prop :=
  ∀ i j x y, l !! i = Some x → l !! j = Some y → i < j → key x ≤ key y.

(** [x], at position [i], has the least key of [l], and is the first
    element with that key. *)
Definition firstMin {A} (key : A → nat) (l : list A) (i : nat) (x : A) : Prop :=
  l !! i = Some x ∧
  ∀ j y, l !! j = Some y → key x < key y ∨ (key x = key y ∧ i ≤ j).

(** What a result holds besides the two clock-dependent metadata fields. *)
Definition clockFree (r : ScheduleResult)
    : list Section * list UnassignedStudent * (string * Q * nat * nat) :=
  (r_sections r, unassignedStudents r,
   (algorithmVersion (metadata r), score (metadata r),
    constraintsSatisfied (metadata r), constraintsTotal (metadata r))).

Definition clockFields (r : ScheduleResult) : string * Z :=
  (generatedAt (metadata r), solveTimeMs (metadata r)).

(** ** Concrete inputs *)

Module Examples.

Definition teacherT (maxSections : nat) : Teacher.t :=
  Teacher.mk "T" ["ALG"] maxSections [].

Definition algebra : Course.t := Course.mk "ALG" 5 None [] 2.

Definition roomR : Room.t := Room.mk "R" 30 [] [].

(** A student who lists the same course as required and as an elective. *)
Definition ada : Student.t := Student.mk "ada" 9 ["ALG"] ["ALG"].

Definition twoSlots : ScheduleInput :=
  mkInput [ada] [teacherT 2] [algebra] [roomR] (mkConfig 2 1).

Definition noOptions : SchedulerOptions := mkOptions None.

Definition noon : Clock := mkClock 1000 1007 "2026-01-01T12:00:00.000Z".
Definition later : Clock := mkClock 5000 5003 "2026-01-01T12:00:04.000Z".

(** A course nobody is qualified to teach. *)
Definition art : Course.t := Course.mk "ART" 12 None [] 2.

Definition artOnly : ScheduleInput :=
  mkInput [] [teacherT 2] [art] [roomR] (mkConfig 2 1).

(** A state of the enrollment phases: two sections of one course at
    different slots, two students in the first one. *)
Definition algAt (n slot : nat) (enrolled : list StudentId) : Section :=
  mkSection ("ALG-" +:+ pretty n) "ALG" (Some "T") (Some "R") [(0, slot)] enrolled 5.

Definition unbalanced : OptState :=
  mkOpt [algAt 1 0 ["ada"; "bob"]; algAt 2 1 []]
        (<["bob" := {[ (0, 0) ]}]> (<["ada" := {[ (0, 0) ]}]> ∅)).

(** The same state after ada has been moved to the second section. *)
Definition rebalanced : OptState :=
  mkOpt [algAt 1 0 ["bob"]; algAt 2 1 ["ada"]]
        (<["ada" := ({[ (0, 0) ]} ∖ list_to_set [(0, 0)]) ∪ list_to_set [(0, 1)]]>
           (o_schedules unbalanced)).





(** A course restricted to grade 12 and a teacher who is busy at slot 0. *)
Definition government : Course.t := Course.mk "GOV" 30 (Some [12]) [] 1.

Definition busyTeacher : Teacher.t := Teacher.mk "B" ["GOV"] 3 [(0, 0)].

Definition busyState : TimeState :=
  mkTimeState (initTeacherSchedules [busyTeacher]) (initSlotUsage 3) ∅.



(** Two courses for grade 12, one section and one teacher each. *)
Definition english12 : Course.t := Course.mk "ENG12" 30 (Some [12]) [] 1.

Definition seniors : ScheduleInput :=
  mkInput [Student.mk "s1" 12 ["GOV"; "ENG12"] []; Student.mk "s2" 12 ["GOV"; "ENG12"] []]
          [Teacher.mk "TG" ["GOV"] 5 []; Teacher.mk "TE" ["ENG12"] 5 []]
          [government; english12] [roomR] (mkConfig 4 5).

(** One course with two sections of four seats and six students. *)
Definition crowded : ScheduleInput :=
  mkInput ((λ n, Student.mk ("s" +:+ pretty n) 9 ["ALG"] []) <$> seq 1 6)
          [teacherT 2] [Course.mk "ALG" 4 None [] 2] [roomR] (mkConfig 2 1).

(** A lab course, a lab, and a larger room without the feature. *)
Definition oneLab : ScheduleInput :=
  mkInput [] [] [Course.mk "CHEM" 20 None ["lab"] 1]
          [Room.mk "BIG" 40 [] []; Room.mk "LAB" 25 ["lab"] []] (mkConfig 2 1).


End Examples.

(** ** Shape of the sections between the phases *)

(** A section as phase 1 leaves it. *)
Definition unfurnished (s : Section) : Prop :=
  roomId s = None ∧ periods s = [] ∧ enrolledStudents s = [].

(** The keys of a list in order of first appearance. *)
Definition firstOccurrences (l : list CourseId) : list CourseId :=
  foldl (λ acc k, if decide (k ∈ acc) then acc else acc ++ [k]) [] l.

(** The entry of a key in an insertion-ordered map. *)
Fixpoint glookup (k : CourseId) (g : list (CourseId * list nat)) : option (list nat) :=
  match g with
  | [] => None
  | (k', l) :: g' => if decide (k = k') then Some l else glookup k g'
  end.

(** [secs'] is [secs] with the sections at the positions [idxs] replaced by
    [R]-related ones, and nothing else changed. *)
Definition touched (R : Section → Section → Prop) (idxs : list nat)
    (secs secs' : list Section) : Prop :=
  length secs' = length secs ∧
  ∀ i, (i ∈ idxs → ∃ s s', secs !! i = Some s ∧ secs' !! i = Some s' ∧ R s s') ∧
       (i ∉ idxs → secs' !! i = secs !! i).

(** What phase 2 does to one section: the periods of one slot, on every
    day of the week, are added; the slot is below [periodsPerDay] unless
    there is no slot at all. *)
Definition timed (cfg : ScheduleConfig) (s s' : Section) : Prop :=
  ∃ slot, s' = pushPeriods (weekPeriods (daysPerWeek cfg) slot) s ∧
          (0 < periodsPerDay cfg → slot < periodsPerDay cfg).

(** ** The slot rule of phase 2, in the words of the specification *)



(** [slot_usage[s]] and [grade_slot_usage[g][s]], zero where nothing was
    counted. *)
Definition usage (m : gmap nat nat) (slot : nat) : nat := default 0 (m !! slot).

Definition gradeUsage (g : gmap nat (gmap nat nat)) (grade slot : nat) : nat :=
  default 0 (g !! grade ≫= λ gradeSlots, gradeSlots !! slot).

Definition penalty (st : TimeState) (courseUsedSlots : gset nat) (grades : list nat)
    (slot : nat) : nat :=
  usage (slotUsage st) slot
  + (if decide (slot ∈ courseUsedSlots) then 1000 else 0)
  + sum_list ((λ g, 500 * gradeUsage (gradeSlotUsage st) g slot) <$> grades).


(** ** The room rule of phase 3, in the words of the specification *)

(** The occupied set of a room id in an occupancy table. *)
Definition occupied (rs : gmap RoomId (gset Period)) (rid : RoomId) : gset Period :=
  default ∅ (rs !! rid).

(** The unavailable periods the table starts with for a room id: those of
    the room of that id (of the last one, should several carry it). *)
Definition seedOf (rooms : list Room.t) (rid : RoomId) : gset Period :=
  from_option (λ r, list_to_set (Room.unavailable r)) ∅
              (last (filter (λ r, Room.id r = rid) rooms)).

(** The periods of the sections of a list that were given room [rid]. *)
Definition assignedPeriods (secs : list Section) (rid : RoomId) : gset Period :=
  ⋃ ((λ s, if decide (roomId s = Some rid) then list_to_set (periods s) else ∅) <$> secs).


(** A room is a candidate for a section and free at all its periods. *)
Definition roomFits (courseMap : gmap CourseId Course.t) (occ : RoomId → gset Period)
    (section : Section) (r : Room.t) : Prop :=
  capacity section ≤ Room.capacity r ∧
  (∀ f, f ∈ courseFeatures courseMap (courseId section) → f ∈ Room.features r) ∧
  (∀ p, p ∈ periods section → p ∉ occ (Room.id r)).

(** The first fitting room in ascending capacity order: [r], at position
    [i] of the input, has the least capacity of the fitting rooms and is the
    earliest of that capacity. *)
Definition firstFit (rooms : list Room.t) (fits : Room.t → Prop) (i : nat) (r : Room.t)
    : Prop :=
  rooms !! i = Some r ∧ fits r ∧
  ∀ j r', rooms !! j = Some r' → fits r' →
          Room.capacity r < Room.capacity r' ∨
          (Room.capacity r = Room.capacity r' ∧ i ≤ j).




(** What phase 3 does to one section. *)
Definition roomed (s s' : Section) : Prop :=
  s' = s ∨ ∃ r, s' = setRoom r s.

(** ** Invariants of the enrollment phases *)

(** Everything of a section but its enrolled list. *)
Definition fixedPart (s : Section)
    : SectionId * CourseId * option TeacherId * option RoomId * list Period * nat :=
  (id s, courseId s, teacherId s, roomId s, periods s, capacity s).

(** The schedule of a student holds the periods of every section the
    student is enrolled in. *)
Definition covered (secs : list Section) (scheds : gmap StudentId (gset Period)) : Prop :=
  ∀ i s sid p, secs !! i = Some s → sid ∈ enrolledStudents s → p ∈ periods s →
               ∃ sched, scheds !! sid = Some sched ∧ p ∈ sched.

(** No two sections with a common student share a period. *)
Definition noOverlap (secs : list Section) : Prop :=
  ∀ i j s s' sid p, i ≠ j → secs !! i = Some s → secs !! j = Some s' →
                    sid ∈ enrolledStudents s → sid ∈ enrolledStudents s' →
                    p ∈ periods s → p ∉ periods s'.

Definition consistent (secs : list Section) (scheds : gmap StudentId (gset Period)) : Prop :=
  covered secs scheds ∧ noOverlap secs.

(** Every enrolled student has an entry in the schedule table. *)
Definition enrolledKnown (secs : list Section) (scheds : gmap StudentId (gset Period)) : Prop :=
  ∀ s sid, s ∈ secs → sid ∈ enrolledStudents s → is_Some (scheds !! sid).

(** The invariant of the greedy passes, for the students of the input and
    the fixed parts [F] of the sections that entered phase 4. *)
Definition greedyInv (sts : list Student.t)
    (F : list (SectionId * CourseId * option TeacherId * option RoomId * list Period * nat))
    (st : GreedyState) : Prop :=
  (∀ s, s ∈ sts → is_Some (g_schedules st !! Student.id s)) ∧
  consistent (g_sections st) (g_schedules st) ∧
  (∀ sec sid, sec ∈ g_sections st → sid ∈ enrolledStudents sec →
              sid ∈ Student.id <$> sts) ∧
  fixedPart <$> g_sections st = F.

(** The invariant of the rebalancer. *)
Definition optInv
    (F : list (SectionId * CourseId * option TeacherId * option RoomId * list Period * nat))
    (st : OptState) : Prop :=
  consistent (o_sections st) (o_schedules st) ∧
  enrolledKnown (o_sections st) (o_schedules st) ∧
  fixedPart <$> o_sections st = F.

(** ** The passes of the rebalancing loop *)

(** The state and the groups after [i] full passes. *)
Fixpoint afterPasses (i : nat) (st : OptState) (groups : list (CourseId * list nat))
    : option (OptState * list (CourseId * list nat)) :=
  match i with
  | 0 => Some (st, groups)
  | S i' =>
      '(_, st', groups') ← optimizePass st groups;
      afterPasses i' st' groups'
  end.

(** Pass number [i] (from 0) sets the [improved] flag to [b]. *)
Definition passImproved (i : nat) (st : OptState) (groups : list (CourseId * list nat))
    (b : bool) : Prop :=
  ∃ sti gi st' g', afterPasses i st groups = Some (sti, gi) ∧
                   optimizePass sti gi = Some (b, st', g').

(** ** The moves of the rebalancer *)

(** The students of the sections of a course, with multiplicity. *)
Definition courseStudents (secs : list Section) (cid : CourseId) : gmultiset StudentId :=
  foldr (λ s acc,
           (if decide (courseId s = cid) then list_to_set_disj (enrolledStudents s) else ∅)
           ⊎ acc) ∅ secs.

(** The effect of a committed move on the sections: the student leaves
    the largest section and is appended to the smallest one. *)
Definition moveStudent (smallest largest : nat) (sid : StudentId)
    (secs : list Section) : list Section :=
  alter (enroll sid) smallest
        (alter (λ lg, setEnrolled (filter (λ x, x ≠ sid) (enrolledStudents lg)) lg)
               largest secs).

(** One tentative move: a student of a section is tried for a section of
    the same course that has at least two students less. *)
Definition oneMove (st st' : OptState) : Prop :=
  ∃ smallest largest sm lg sid b,
    o_sections st !! smallest = Some sm ∧ o_sections st !! largest = Some lg ∧
    courseId sm = courseId lg ∧
    length (enrolledStudents sm) + 2 ≤ length (enrolledStudents lg) ∧
    sid ∈ enrolledStudents lg ∧
    tryMove smallest largest sm lg st sid = Some (b, st') ∧
    o_sections st' =
      (if b then moveStudent smallest largest sid (o_sections st) else o_sections st).

(** Every group holds positions of sections of its course. *)
Definition groupsOK (secs : list Section) (groups : list (CourseId * list nat)) : Prop :=
  ∀ cid group i, (cid, group) ∈ groups → i ∈ group → courseId <$> secs !! i = Some cid.

(** No section has spare capacity while a section of the same course has
    two students more. *)
Definition fullBeforeUneven (secs : list Section) : Prop :=
  ∀ i j a b, secs !! i = Some a → secs !! j = Some b → courseId a = courseId b →
             length (enrolledStudents a) + 2 ≤ length (enrolledStudents b) →
             capacity a ≤ length (enrolledStudents a).

(** The sections meet and list no student twice. *)
Definition distinctEnrolled (secs : list Section) : Prop :=
  ∀ s, s ∈ secs → periods s ≠ [] ∧ NoDup (enrolledStudents s).


(** ** Vocabulary of the further properties *)

(** The number of sections of a list that a teacher holds. *)
Definition heldBy (secs : list Section) (tid : TeacherId) : nat :=
  length (filter (λ s, teacherId s = Some tid) secs).

(** No section holds more students than its capacity. *)
Definition withinCapacity (secs : list Section) : Prop :=
  Forall (λ s, length (enrolledStudents s) ≤ capacity s) secs.

(** No two sections in the same room share a period. *)
Definition roomsFree (secs : list Section) : Prop :=
  ∀ i j s s' rid p, i ≠ j → secs !! i = Some s → secs !! j = Some s' →
                    roomId s = Some rid → roomId s' = Some rid →
                    p ∈ periods s → p ∉ periods s'.

(** A student of the input with this id lists the course, as required or
    as an elective; the course is in the course table and admits the grade
    of the student. *)
Definition requested (input : ScheduleInput) (sid : StudentId) (cid : CourseId) : Prop :=
  ∃ student course,
    student ∈ students input ∧ Student.id student = sid ∧
    (cid ∈ Student.requiredCourses student ∨ cid ∈ Student.electivePreferences student) ∧
    buildCourseMap (courses input) !! cid = Some course ∧
    gradeExcluded course (Student.grade student) = false.

Definition onlyRequested (input : ScheduleInput) (secs : list Section) : Prop :=
  ∀ s sid, s ∈ secs → sid ∈ enrolledStudents s → requested input sid (courseId s).

(** The student is in a section of the course. *)
Definition enrolledIn (secs : list Section) (sid : StudentId) (cid : CourseId) : Prop :=
  ∃ s, s ∈ secs ∧ courseId s = cid ∧ sid ∈ enrolledStudents s.

(** The account the first pass gives of a required course of a student. *)
Definition accounted (courseMap : gmap CourseId Course.t) (secs : list Section)
    (unassigned : list UnassignedStudent) (student : Student.t) (cid : CourseId) : Prop :=
  match courseMap !! cid with
  | None => mkUnassigned (Student.id student) cid "Course not found" ∈ unassigned
  | Some course =>
      gradeExcluded course (Student.grade student) = false →
      enrolledIn secs (Student.id student) cid ∨
      mkUnassigned (Student.id student) cid
                   "No available section (conflict or capacity)" ∈ unassigned
  end.

(** An entry of the unassigned list stems from a required course of a
    student of the input. *)
Definition justified (courseMap : gmap CourseId Course.t) (sts : list Student.t)
    (u : UnassignedStudent) : Prop :=
  ∃ student,
    student ∈ sts ∧ u_studentId u = Student.id student ∧
    u_courseId u ∈ Student.requiredCourses student ∧
    match courseMap !! u_courseId u with
    | None => u_reason u = "Course not found"
    | Some course =>
        gradeExcluded course (Student.grade student) = false ∧
        u_reason u = "No available section (conflict or capacity)"
    end.

(** The state of the greedy passes only grows: entries are appended to the
    unassigned list, and a student stays in the courses they are in. *)
Definition grows (st st' : GreedyState) : Prop :=
  (∀ u, u ∈ g_unassigned st → u ∈ g_unassigned st') ∧
  (∀ sid cid, enrolledIn (g_sections st) sid cid → enrolledIn (g_sections st') sid cid).

(** ** The penalty behind the score *)

(** The sum of the size spreads of the course groups with two sections or
    more. *)
Definition spreadSum (secs : list Section) (groups : list (CourseId * list nat)) : Z :=
  foldr (λ group acc,
           Z.add (if decide (length group.2 < 2) then 0%Z else sizeSpread secs group.2) acc)
        0%Z groups.

(** Twice the amount [calculateScore] takes off 100: 5 for an empty
    section, one half for every student of spread, 10 for a section without
    room and 10 for a section without teacher. *)
Definition doublePenalty (secs : list Section) : Z :=
  let emptySections := countWhere (λ s, bool_decide (length (enrolledStudents s) = 0)) secs in
  let noRoom := countWhere (λ s, falsy (roomId s)) secs in
  let noTeacher := countWhere (λ s, falsy (teacherId s)) secs in
  (10 * emptySections + spreadSum secs (sectionsByCourse secs)
   + 20 * noRoom + 20 * noTeacher)%Z.

(** A schedule without blemish: no section is empty or lacks a room or a
    teacher, and the sections of a course have the same size. *)
Definition flawless (secs : list Section) : Prop :=
  Forall (λ s, enrolledStudents s ≠ [] ∧ falsy (roomId s) = false ∧
               falsy (teacherId s) = false) secs ∧
  ∀ i j s s', secs !! i = Some s → secs !! j = Some s' → courseId s = courseId s' →
              length (enrolledStudents s) = length (enrolledStudents s').

(** ** The choice of a section for a student *)

(** The section at position [i] is a section of the course, has a free
    seat and meets at no period of the schedule. *)
Definition admits (secs : list Section) (sched : gset Period) (cid : CourseId) (i : nat)
    : Prop :=
  ∃ s, secs !! i = Some s ∧ courseId s = cid ∧
       length (enrolledStudents s) < capacity s ∧
       ∀ p, p ∈ periods s → p ∉ sched.

(** The test the walk of [findSection] applies to a position. *)
Definition accepts (secs : list Section) (sched : gset Period) (i : nat) : bool :=
  match secs !! i with
  | Some s => bool_decide (length (enrolledStudents s) < capacity s) &&
              negb (hasConflict sched s)
  | None => false
  end.

(** ** The schedule table *)

(** The periods of the sections a student is enrolled in. *)
Definition periodsOf (secs : list Section) (sid : StudentId) : gset Period :=
  ⋃ ((λ s, if decide (sid ∈ enrolledStudents s) then list_to_set (periods s) else ∅)
       <$> secs).

(** The table has an entry for the students of the input and for nobody
    else, and the entry of a student holds the periods of the sections the
    student is in. *)
Definition exactSchedules (sts : list Student.t) (secs : list Section)
    (scheds : gmap StudentId (gset Period)) : Prop :=
  ∀ sid, scheds !! sid =
         if decide (sid ∈ Student.id <$> sts) then Some (periodsOf secs sid) else None.

(** * The scheduler of the command line ([scheduler/index.ts])

    The command-line scheduler shares [createSections], [assignRooms],
    [assignStudentToSection], [optimizeSections] and [calculateScore] with
    the engine above, word for word.  Its [assignTimeSlots] is a different
    function: it gives a section one period for every day, trying the slots
    of the day in rotation from the index the section has within its
    course. *)

Module Legacy.

(** [teacherSchedule && teacherSchedule.has(key)] *)
Definition teacherBusy (teacherSchedule : option (gset Period)) (p : Period) : bool :=
  match teacherSchedule with
  | Some occ => bool_decide (p ∈ occ)
  | None => false
  end.

(** The inner loop over [attempt]: the first slot of the rotation at which
    the teacher, if any, is free on that day. *)
Definition firstFreeSlot (ppd sectionIdx day : nat) (teacherSchedule : option (gset Period))
    : option nat :=
  head (filter (λ slot, teacherBusy teacherSchedule (day, slot) = false)
               ((λ attempt, (sectionIdx + attempt) mod ppd) <$> seq 0 ppd)).

(** One iteration of the loop over the days: the period that is pushed,
    and the key that is added to the teacher's set. *)
Definition assignDay (ppd sectionIdx : nat) (acc : list Period * option (gset Period))
    (day : nat) : list Period * option (gset Period) :=
  match firstFreeSlot ppd sectionIdx day acc.2 with
  | Some slot => (acc.1 ++ [(day, slot)], (λ occ, occ ∪ {[ (day, slot) ]}) <$> acc.2)
  | None => acc
  end.

(** The loop over the days for one section. *)
Definition sectionDays (cfg : ScheduleConfig) (sectionIdx : nat)
    (teacherSchedule : option (gset Period)) : list Period * option (gset Period) :=
  foldl (assignDay (periodsPerDay cfg) sectionIdx) ([], teacherSchedule)
        (seq 0 (daysPerWeek cfg)).

(** One iteration of the loop over the sections of a course: the section
    at store position [idx] is number [sectionIdx] of its course.  The set
    of the teacher is shared with the table, so the keys that were added
    are in the table afterwards. *)
Definition assignSectionPeriods (cfg : ScheduleConfig)
    (acc : list Section * gmap TeacherId (gset Period)) (entry : nat * nat)
    : list Section * gmap TeacherId (gset Period) :=
  let '(sectionIdx, idx) := entry in
  match acc.1 !! idx with
  | None => acc
  | Some section =>
      let sched := lookupTeacherSchedule acc.2 (teacherId section) in
      let '(ps, occ) := sectionDays cfg sectionIdx (snd <$> sched) in
      (<[idx := pushPeriods ps section]> acc.1,
       match sched, occ with
       | Some (tid, _), Some occ' => <[tid := occ']> acc.2
       | _, _ => acc.2
       end)
  end.

(** One iteration of the loop over the course groups. *)
Definition assignCoursePeriods (cfg : ScheduleConfig)
    (acc : list Section * gmap TeacherId (gset Period)) (group : CourseId * list nat)
    : list Section * gmap TeacherId (gset Period) :=
  foldl (assignSectionPeriods cfg) acc (imap pair group.2).

Definition assignTimeSlots (secs : list Section) (teachers : list Teacher.t)
    (cfg : ScheduleConfig) : list Section :=
  (foldl (assignCoursePeriods cfg) (secs, initTeacherSchedules teachers)
         (sectionsByCourse secs)).1.

End Legacy.

(** ** Vocabulary for the periods of a teacher *)

(** The teacher whose schedule phase 2 consults for a section: the id of
    the section, if it is present, not the empty string and the id of a
    teacher of the input. *)
Definition scheduledTeacher (teachers : list Teacher.t) (s : Section) : option TeacherId :=
  match teacherId s with
  | Some tid =>
      if decide (tid = EmptyString) then None
      else if decide (tid ∈ Teacher.id <$> teachers) then Some tid else None
  | None => None
  end.

(** The unavailable periods the table starts with for a teacher id: those
    of the teacher of that id (of the last one, should several carry it). *)
Definition teacherSeed (teachers : list Teacher.t) (tid : TeacherId) : gset Period :=
  from_option (λ t, list_to_set (Teacher.unavailable t)) ∅
              (last (filter (λ t, Teacher.id t = tid) teachers)).

(** One period a day at most, in the order of the days, within the week
    and the day. *)
Definition oncePerDay (cfg : ScheduleConfig) (ps : list Period) : Prop :=
  (∀ day slot, (day, slot) ∈ ps → day < daysPerWeek cfg ∧ slot < periodsPerDay cfg) ∧
  (∀ i j p q, ps !! i = Some p → ps !! j = Some q → i < j → p.1 < q.1).

(** The number a section has within its course: the number of earlier
    sections of the same course. *)
Definition indexInCourse (secs : list Section) (i : nat) : nat :=
  match secs !! i with
  | Some s => length (filter (λ s', courseId s' = courseId s) (take i secs))
  | None => 0
  end.

(** No two sections that phase 2 schedules for the same teacher share a
    period, and none meets at a period at which the teacher is
    unavailable. *)
Definition teachersFree (teachers : list Teacher.t) (secs : list Section) : Prop :=
  (∀ i j s s' tid p, i ≠ j → secs !! i = Some s → secs !! j = Some s' →
     scheduledTeacher teachers s = Some tid → scheduledTeacher teachers s' = Some tid →
     p ∈ periods s → p ∉ periods s') ∧
  (∀ s tid p, s ∈ secs → scheduledTeacher teachers s = Some tid →
     p ∈ periods s → p ∉ teacherSeed teachers tid).

(** The invariant of the loop of the command-line [assignTimeSlots]: the
    table has an entry for every teacher id of the input; an entry holds
    the unavailable periods of the teacher and the periods of the sections
    scheduled for the teacher. *)
Definition legacyInv (teachers : list Teacher.t) (cfg : ScheduleConfig)
    (secs : list Section) (ts : gmap TeacherId (gset Period)) : Prop :=
  (∀ tid, is_Some (ts !! tid) ↔ tid ∈ Teacher.id <$> teachers) ∧
  (∀ tid occ, ts !! tid = Some occ → teacherSeed teachers tid ⊆ occ) ∧
  (∀ tid occ s p, ts !! tid = Some occ → s ∈ secs →
                  scheduledTeacher teachers s = Some tid → p ∈ periods s → p ∈ occ) ∧
  teachersFree teachers secs ∧
  Forall (λ s, oncePerDay cfg (periods s)) secs.

(** What the loop does to the section that is number [k] of its course. *)
Definition rotated (teachers : list Teacher.t) (cfg : ScheduleConfig) (k : nat)
    (s s' : Section) : Prop :=
  ∃ ps, s' = pushPeriods ps s ∧
        (scheduledTeacher teachers s = None → 0 < periodsPerDay cfg →
         ps = (λ day, (day, k mod periodsPerDay cfg)) <$> seq 0 (daysPerWeek cfg)).

(** * The ILP model ([solveScheduleILP])

    The model is written in the CPLEX LP format and handed to the HiGHS
    solver.  The solver is outside the program: it is a parameter of the
    embedding, a function from the text of the model to a solution, which
    may fail.  The constraints are built as data (name, terms, bound) and
    rendered to the lines of the text.  [sectionsByTimeSlot] is built by the
    source and never read; it is left out. *)

Module ILP.

(** [x_${studentIdx}_${sectionIdx}] *)
Definition varName (s k : nat) : string :=
  "x_" +:+ pretty s +:+ "_" +:+ pretty k.

(** A constraint [name: x_.. + x_.. <= bound]. *)
Record Constraint := mkConstraint {
  name : string;
  terms : list (nat * nat);
  bound : nat }.

(** [courseId.replace(/[^a-zA-Z0-9]/g, '_')] *)
Definition alnum (c : Ascii.ascii) : bool :=
  let n := Ascii.nat_of_ascii c in
  (Nat.leb 48 n && Nat.leb n 57) || (Nat.leb 65 n && Nat.leb n 90) ||
  (Nat.leb 97 n && Nat.leb n 122).

Fixpoint sanitize (s : string) : string :=
  match s with
  | EmptyString => EmptyString
  | String c s' => String (if alnum c then c else Ascii.ascii_of_nat 95) (sanitize s')
  end.

(** [isRequired || isElective] *)
Definition requests (student : Student.t) (cid : CourseId) : bool :=
  bool_decide (cid ∈ Student.requiredCourses student) ||
  bool_decide (cid ∈ Student.electivePreferences student).

(** [course?.gradeRestrictions && !course.gradeRestrictions.includes(grade)]
    for the course of an id. *)
Definition courseExcluded (courseMap : gmap CourseId Course.t) (student : Student.t)
    (cid : CourseId) : bool :=
  match courseMap !! cid with
  | Some course => gradeExcluded course (Student.grade student)
  | None => false
  end.

(** The test of [validSections], for the section at a position. *)
Definition validSection (courseMap : gmap CourseId Course.t) (student : Student.t)
    (secs : list Section) (i : nat) : bool :=
  match secs !! i with
  | Some sec => negb (courseExcluded courseMap student (courseId sec))
  | None => false
  end.

(** Constraints 1 and 2: at most one section of a listed course.  The body
    of the loop over the courses of a list, for student number [s]. *)
Definition courseConstraint (prefix : string) (courseMap : gmap CourseId Course.t)
    (secs : list Section) (groups : list (CourseId * list nat))
    (s : nat) (student : Student.t) (cid : CourseId) : list Constraint :=
  match glookup cid groups with
  | None => []
  | Some courseSections =>
      if decide (length courseSections = 0) then []
      else if courseExcluded courseMap student cid then []
      else
        let validSections :=
          filter (λ i, validSection courseMap student secs i = true) courseSections in
        if decide (length validSections = 0) then []
        else [mkConstraint (prefix +:+ pretty s +:+ "_" +:+ sanitize cid)
                           ((λ i, (s, i)) <$> validSections) 1]
  end.

Definition requiredConstraints (courseMap : gmap CourseId Course.t)
    (sts : list Student.t) (secs : list Section) : list Constraint :=
  mjoin (imap (λ s student,
                 mjoin (courseConstraint "req_" courseMap secs (sectionsByCourse secs)
                                         s student <$> Student.requiredCourses student))
              sts).

Definition electiveConstraints (courseMap : gmap CourseId Course.t)
    (sts : list Student.t) (secs : list Section) : list Constraint :=
  mjoin (imap (λ s student,
                 mjoin (courseConstraint "elec_" courseMap secs (sectionsByCourse secs)
                                         s student <$> Student.electivePreferences student))
              sts).

(** Constraint 3: the capacity of section number [k]. *)
Definition capacityTerms (courseMap : gmap CourseId Course.t) (sts : list Student.t)
    (k : nat) (section : Section) : list (nat * nat) :=
  mjoin (imap (λ s student,
                 if gradeSkipped courseMap student section then []
                 else if requests student (courseId section) then [(s, k)] else [])
              sts).

Definition capacityConstraints (courseMap : gmap CourseId Course.t)
    (sts : list Student.t) (secs : list Section) : list Constraint :=
  mjoin (imap (λ k section,
                 let terms := capacityTerms courseMap sts k section in
                 if decide (0 < length terms)
                 then [mkConstraint ("cap_" +:+ pretty k) terms (capacity section)]
                 else [])
              secs).

(** Constraint 4: no two sections at the same time.  [studentTimeSlots] is
    a [Map] from period key to section indices, in insertion order. *)
Fixpoint timeInsert (key : Period) (k : nat) (g : list (Period * list nat))
    : list (Period * list nat) :=
  match g with
  | [] => [(key, [k])]
  | (key', l) :: g' =>
      if decide (key = key') then (key', l ++ [k]) :: g' else (key', l) :: timeInsert key k g'
  end.

Definition studentTimeSlots (courseMap : gmap CourseId Course.t) (student : Student.t)
    (secs : list Section) : list (Period * list nat) :=
  foldl (λ g '(k, section),
           if gradeSkipped courseMap student section then g
           else if negb (requests student (courseId section)) then g
           else foldl (λ g period, timeInsert period k g) g (periods section))
        [] (imap pair secs).

(** [time_${s}_${timeKey.replace('-', '_')}] *)
Definition timeConstraints (courseMap : gmap CourseId Course.t)
    (sts : list Student.t) (secs : list Section) : list Constraint :=
  mjoin (imap (λ s student,
                 mjoin ((λ '(key, sectionIndices),
                           if decide (1 < length sectionIndices)
                           then [mkConstraint
                                   ("time_" +:+ pretty s +:+ "_" +:+ pretty key.1 +:+ "_"
                                            +:+ pretty key.2)
                                   ((λ k, (s, k)) <$> sectionIndices) 1]
                           else [])
                          <$> studentTimeSlots courseMap student secs))
              sts).

(** The constraints, in the order of the text. *)
Definition constraints (courseMap : gmap CourseId Course.t)
    (sts : list Student.t) (secs : list Section) : list Constraint :=
  requiredConstraints courseMap sts secs ++ electiveConstraints courseMap sts secs ++
  capacityConstraints courseMap sts secs ++ timeConstraints courseMap sts secs.

(** The text of the model. *)
Definition renderConstraint (c : Constraint) : string :=
  " " +:+ name c +:+ ": " +:+ String.concat " + " ((λ t, varName t.1 t.2) <$> terms c)
      +:+ " <= " +:+ pretty (bound c).

Definition renderObjective (objective : list (Z * nat * nat)) : string :=
  " obj: " +:+
  (if decide (0 < length objective)
   then String.concat " + " ((λ t, pretty t.1.1 +:+ " " +:+ varName t.1.2 t.2) <$> objective)
   else "0").

Definition binaryVars (numStudents numSections : nat) : list string :=
  s ← seq 0 numStudents; k ← seq 0 numSections; [varName s k].

Definition newline : string := String (Ascii.ascii_of_nat 10) EmptyString.

Definition lpModel (courseMap : gmap CourseId Course.t)
    (sts : list Student.t) (secs : list Section) : string :=
  String.concat newline
    (["Maximize"; renderObjective (objectiveTerms courseMap sts secs); "Subject To"] ++
     (renderConstraint <$> constraints courseMap sts secs) ++
     ["Binary"; " " +:+ String.concat " " (binaryVars (length sts) (length secs)); "End"]).

(** What the solver returns: the status, the primal value of the columns
    it reports, and the value of the objective. *)
Record Solution := mkSolution {
  Status : string;
  Columns : gmap string Q;
  ObjectiveValue : option Q }.

Record ILPResult := mkILPResult {
  success : bool;
  assignments : gmap StudentId (list SectionId);
  objectiveValue : Q;
  solveTimeMs : Z;
  status : string }.

Definition solved (solution : Solution) : bool :=
  bool_decide (Status solution = "Optimal") || bool_decide (Status solution = "Feasible").

(** [varValue && varValue > 0.5] *)
Definition chosen (solution : Solution) (s k : nat) : bool :=
  match Columns solution !! varName s k with
  | Some varValue => if Qlt_le_dec (1 # 2) varValue then true else false
  | None => false
  end.

(** The sections chosen for student number [s], by id, in section order. *)
Definition studentSections (solution : Solution) (secs : list Section) (s : nat)
    : list SectionId :=
  mjoin (imap (λ k section, if chosen solution s k then [id section] else []) secs).

Definition extractAssignments (solution : Solution) (sts : list Student.t)
    (secs : list Section) : gmap StudentId (list SectionId) :=
  if solved solution
  then foldl (λ m '(s, student), <[Student.id student := studentSections solution secs s]> m)
             ∅ (imap pair sts)
  else ∅.

Definition solveScheduleILP (solve : string → option Solution) (clock : Clock)
    (secs : list Section) (input : ScheduleInput) : option ILPResult :=
  let courseMap := buildCourseMap (courses input) in
  solution ← solve (lpModel courseMap (students input) secs);
  Some {| success := solved solution;
          assignments := extractAssignments solution (students input) secs;
          objectiveValue := default 0%Q (ObjectiveValue solution);
          solveTimeMs := endNow clock - startNow clock;
          status := Status solution |}.

End ILP.

(** ** Vocabulary for the solutions of the model *)

(** A 0/1 valuation of the variables satisfies a constraint. *)
Definition satisfies (x : nat → nat → bool) (c : ILP.Constraint) : Prop :=
  sum_list ((λ t, if x t.1 t.2 then 1 else 0) <$> ILP.terms c) ≤ ILP.bound c.

(** Student number [s] may be put into section number [k]: the course of
    the section admits the grade of the student, and the student lists the
    course. *)
Definition eligible (courseMap : gmap CourseId Course.t) (sts : list Student.t)
    (secs : list Section) (s k : nat) : Prop :=
  ∃ student section,
    sts !! s = Some student ∧ secs !! k = Some section ∧
    gradeSkipped courseMap student section = false ∧
    ILP.requests student (courseId section) = true.

(** The load a valuation puts on a list of terms. *)
Definition load (x : nat → nat → bool) (ts : list (nat * nat)) : nat :=
  sum_list ((λ t, if x t.1 t.2 then 1 else 0) <$> ts).

(** The pairs [(period, k)] that [studentTimeSlots] inserts, in order. *)
Definition timeEntries (courseMap : gmap CourseId Course.t) (student : Student.t)
    (secs : list Section) : list (Period * nat) :=
  mjoin (imap (λ k section,
                 if gradeSkipped courseMap student section then []
                 else if negb (ILP.requests student (courseId section)) then []
                 else (λ period, (period, k)) <$> periods section)
              secs).

(** The test behind [eligible]. *)
Definition eligibleb (courseMap : gmap CourseId Course.t) (sts : list Student.t)
    (secs : list Section) (s k : nat) : bool :=
  match sts !! s, secs !! k with
  | Some student, Some section =>
      negb (gradeSkipped courseMap student section) &&
      ILP.requests student (courseId section)
  | _, _ => false
  end.

(** ** A small model *)

Module ModelExamples.

Definition sections : list Section :=
  [Examples.algAt 1 0 []; Examples.algAt 2 0 [];
   mkSection "ART-1" "ART" None None [(0, 0); (0, 1)] [] 3].

Definition bob : Student.t := Student.mk "bob" 9 ["ART"] ["ALG"].

Definition students : list Student.t := [Examples.ada; bob].

Definition courseMap : gmap CourseId Course.t :=
  buildCourseMap [Examples.algebra; Examples.art].

(** Ada in the first section of algebra, Bob in the second one. *)
Definition valuation (s k : nat) : bool :=
  bool_decide ((s, k) = (0, 0) ∨ (s, k) = (1, 1)).

(** The same, and Ada also in the art section, a course she does not list. *)
Definition stray (s k : nat) : bool :=
  bool_decide ((s, k) = (0, 0) ∨ (s, k) = (1, 1) ∨ (s, k) = (0, 2)).

End ModelExamples.

(** The value of the objective under a valuation. *)
Definition objectiveUnder (x : nat → nat → bool) (objective : list (Z * nat * nat)) : Z :=
  foldr (λ t acc, Z.add (if x t.1.2 t.2 then t.1.1 else 0%Z) acc) 0%Z objective.

(** * Applying the solution of the model ([applyILPAssignments]) *)

Module Cli.

(** [new Map(sections.map(s => [s.id, s]))]: the section objects are
    shared with the section array, so the map is modelled by the position
    of the section of an id (of the last one, should several carry it). *)
Definition sectionMap (secs : list Section) : gmap SectionId nat :=
  foldl (λ m '(i, s), <[id s := i]> m) ∅ (imap pair secs).

(** The body of the loop over the section ids assigned to a student. *)
Definition enrollAssigned (positions : gmap SectionId nat) (studentId : StudentId)
    (secs : list Section) (sectionId : SectionId) : list Section :=
  match (positions !! sectionId) ≫= (λ i, pair i <$> (secs !! i)) with
  | Some (i, section) =>
      if decide (studentId ∈ enrolledStudents section) then secs
      else <[i := enroll studentId section]> secs
  | None => secs
  end.

(** [studentObj?.grade && !course.gradeRestrictions.includes(studentObj.grade)],
    under [if (course?.gradeRestrictions)]: the student object is the first
    one of the list with the id, and a grade of 0 is falsy. *)
Definition gradeSkips (sts : list Student.t) (courseMap : gmap CourseId Course.t)
    (studentId : StudentId) (cid : CourseId) : bool :=
  match (courseMap !! cid) ≫= Course.gradeRestrictions with
  | Some gradeRestrictions =>
      match head (filter (λ s, Student.id s = studentId) sts) with
      | Some studentObj =>
          negb (bool_decide (Student.grade studentObj = 0)) &&
          negb (bool_decide (Student.grade studentObj ∈ gradeRestrictions))
      | None => false
      end
  | None => false
  end.

(** The body of the loop over the students. *)
Definition applyStudent (positions : gmap SectionId nat)
    (assignments : gmap StudentId (list SectionId)) (sts : list Student.t)
    (courseMap : gmap CourseId Course.t)
    (acc : list Section * list UnassignedStudent) (student : Student.t)
    : list Section * list UnassignedStudent :=
  let studentSections := default [] (assignments !! Student.id student) in
  let secs := foldl (enrollAssigned positions (Student.id student)) acc.1 studentSections in
  let assignedCourses : list (option CourseId) :=
    (λ sid, courseId <$> ((positions !! sid) ≫= (λ i, secs !! i))) <$> studentSections in
  (secs,
   foldl (λ unassigned cid,
            if gradeSkips sts courseMap (Student.id student) cid then unassigned
            else if decide (Some cid ∈ assignedCourses) then unassigned
            else unassigned ++
                 [mkUnassigned (Student.id student) cid
                    "ILP could not find feasible assignment (conflict or capacity)"])
         acc.2 (Student.requiredCourses student)).

Definition applyILPAssignments (secs : list Section)
    (assignments : gmap StudentId (list SectionId)) (sts : list Student.t)
    (courseMap : gmap CourseId Course.t) (unassigned : list UnassignedStudent)
    : list Section * list UnassignedStudent :=
  foldl (applyStudent (sectionMap secs) assignments sts courseMap) (secs, unassigned) sts.

(** ** The engine of the command line ([generateSchedule] of
    [src/scheduler/index.ts])

    Its [createSections], [assignRooms], [assignStudentToSection],
    [optimizeSections] and [calculateScore] are those of the web engine,
    word for word; its [assignTimeSlots] is the rotating one
    ([Legacy.assignTimeSlots]); its [runGreedyAssignment] is that of the web
    engine followed by the rebalancer, capped at 500 iterations, on the
    schedule table of the passes. *)

Definition runGreedyAssignment (secs : list Section) (input : ScheduleInput)
    (courseMap : gmap CourseId Course.t) (unassigned : list UnassignedStudent)
    : option (list Section * list UnassignedStudent) :=
  g ← runGreedyAssignment secs input courseMap unassigned;
  '(_, o) ← optimizeSections (g_sections g) (g_schedules g) 500;
  Some (o_sections o, g_unassigned g).

(** [ScheduleConstraint] and [SchedulePreference]; their [params], a
    [Record<string, unknown>], are never read. *)
Inductive Priority := hard | soft.

Record ScheduleConstraint := mkConstraint {
  c_id : string;
  c_type : string;
  c_description : string;
  c_priority : Priority;
  c_weight : option Q }.

Record SchedulePreference := mkPreference {
  p_id : string;
  p_type : string;
  p_description : string;
  p_weight : Q }.

(** The [ScheduleInput] of the command line: the data the phases read, and
    the constraint and preference lists. *)
Record Input := mkInput {
  data : ScheduleInput;
  constraints : list ScheduleConstraint;
  preferences : list SchedulePreference }.

Record Options := mkOptions {
  maxOptimizationIterations : option nat;
  useILP : option bool }.

(** [ScheduleMetadata], with the two fields [generateSchedule] adds:
    [algorithm], and [ilpObjective] when the objective is positive. *)
Record Metadata := mkMetadata {
  generatedAt : string;
  algorithmVersion : string;
  iterations : nat;
  score : Q;
  constraintsSatisfied : nat;
  constraintsTotal : nat;
  warnings : list string;
  algorithm : string;
  ilpObjective : option Q }.

Record Schedule := mkSchedule {
  sections : list Section;
  unassignedStudents : list UnassignedStudent;
  metadata : Metadata }.

(** Phases 1 to 3. *)
Definition timetable (input : ScheduleInput) : option (list Section) :=
  let courseMap := buildCourseMap (courses input) in
  let secs := createSections (courses input) (teachers input) in
  let secs := Legacy.assignTimeSlots secs (teachers input) (config input) in
  assignRooms secs (rooms input) courseMap.

(** Phase 4: the outcome is the sections, the unassigned list, the
    algorithm that was used and the objective of the model.  [solve] is the
    HiGHS solver; an exception of [solveScheduleILP] (the solver throws:
    [None]) and a result without success both fall back to the greedy
    assignment. *)
Definition assignStudents (solve : string → option ILP.Solution) (clock : Clock)
    (input : ScheduleInput) (useILP : bool) (secs : list Section)
    : option (list Section * list UnassignedStudent * string * Q) :=
  let courseMap := buildCourseMap (courses input) in
  let greedy :=
    '(secs, unassigned) ← runGreedyAssignment secs input courseMap [];
    Some (secs, unassigned, "greedy", 0%Q) in
  if useILP then
    match ILP.solveScheduleILP solve clock secs input with
    | Some ilpResult =>
        if ILP.success ilpResult then
          let '(secs, unassigned) :=
            applyILPAssignments secs (ILP.assignments ilpResult) (students input)
                                courseMap [] in
          Some (secs, unassigned, "ilp-highs", ILP.objectiveValue ilpResult)
        else greedy
    | None => greedy
    end
  else greedy.

(** The progress callback receives values and returns nothing, and is
    left out. *)
Definition generateSchedule (solve : string → option ILP.Solution) (clock : Clock)
    (input : Input) (options : Options) : option Schedule :=
  let maxOptimizationIterations := default 1000 (maxOptimizationIterations options) in
  let useILP := default true (useILP options) in
  secs ← timetable (data input);
  '(secs, unassigned, algorithmUsed, ilpObjective) ←
    assignStudents solve clock (data input) useILP secs;
  Some {| sections := secs;
          unassignedStudents := unassigned;
          metadata :=
            {| generatedAt := isoNow clock;
               algorithmVersion := "2.0.0-ilp";
               iterations := if decide (algorithmUsed = "ilp-highs") then 1
                             else maxOptimizationIterations;
               score := calculateScore secs;
               constraintsSatisfied := 0;
               constraintsTotal := length (constraints input) + length (preferences input);
               warnings := if decide (algorithmUsed = "greedy")
                           then ["Used greedy fallback instead of ILP"] else [];
               algorithm := algorithmUsed;
               ilpObjective := if Qlt_le_dec 0 ilpObjective then Some ilpObjective
                               else None |} |}.

End Cli.

(** ** Vocabulary for the outcome *)

(** The solver assigned the section at position [i] to a student of the
    input with the id [sid]. *)
Definition assignedTo (secs : list Section) (assignments : gmap StudentId (list SectionId))
    (sts : list Student.t) (sid : StudentId) (i : nat) : Prop :=
  sid ∈ Student.id <$> sts ∧
  ∃ sectionId, sectionId ∈ default [] (assignments !! sid) ∧
               Cli.sectionMap secs !! sectionId = Some i.

(** The loop over the section ids of a student appends the student to the
    section at position [i]: the student is not in the section, and one of
    the ids is that of the section. *)
Definition appended (positions : gmap SectionId nat) (sid : StudentId)
    (ids : list SectionId) (i : nat) (s : Section) : Prop :=
  (sid ∉ enrolledStudents s) ∧
  ∃ sectionId, sectionId ∈ ids ∧ positions !! sectionId = Some i.

(** The entry [applyILPAssignments] makes for a required course. *)
Definition ilpEntry (student : Student.t) (cid : CourseId) : UnassignedStudent :=
  mkUnassigned (Student.id student) cid
               "ILP could not find feasible assignment (conflict or capacity)".

(** The account [applyILPAssignments] gives of a required course. *)
Definition ilpAccounted (sts : list Student.t) (courseMap : gmap CourseId Course.t)
    (acc : list Section * list UnassignedStudent) (student : Student.t) (cid : CourseId)
    : Prop :=
  Cli.gradeSkips sts courseMap (Student.id student) cid = true ∨
  enrolledIn acc.1 (Student.id student) cid ∨
  ilpEntry student cid ∈ acc.2.

(** A solver outcome for the small model: Ada gets the first algebra
    section, Bob nothing. *)
Definition adaOnly : gmap StudentId (list SectionId) := {[ "ada" := ["ALG-1"] ]}.

(** * The validator ([validateSchedule] of [src/validator/index.ts]) *)

Module Validator.

Inductive Severity := error | warning.

(** The [entities] of a violation; an absent field is [None]. *)
Record Entities := mkEntities {
  e_students : option (list StudentId);
  e_teachers : option (list TeacherId);
  e_rooms : option (list RoomId);
  e_sections : option (list SectionId);
  e_periods : option (list Period) }.

Record ConstraintViolation := mkViolation {
  constraintId : string;
  constraintType : string;
  description : string;
  severity : Severity;
  entities : Entities }.

Record ValidationResult := mkValidation {
  valid : bool;
  hardConstraintViolations : list ConstraintViolation;
  softConstraintViolations : list ConstraintViolation;
  score : Z;
  summary : string }.

Definition noEntities : Entities := mkEntities None None None None None.

(** [new Map(list.map(x => [x.id, x]))] *)
Definition buildTeacherMap (ts : list Teacher.t) : gmap TeacherId Teacher.t :=
  foldl (λ m t, <[Teacher.id t := t]> m) ∅ ts.

Definition buildRoomMap (rs : list Room.t) : gmap RoomId Room.t :=
  foldl (λ m r, <[Room.id r := r]> m) ∅ rs.

Definition buildStudentMap (sts : list Student.t) : gmap StudentId Student.t :=
  foldl (λ m s, <[Student.id s := s]> m) ∅ sts.

(** [if (!x) continue]: an id that is present and not the empty string. *)
Definition truthy (x : option string) : option string :=
  match x with
  | Some s => if decide (s = EmptyString) then None else Some s
  | None => None
  end.

(** ** The tables of the three conflict checks

    A [Map] from an id to a [Map] from period keys to lists, both iterated
    in insertion order. *)

Definition Table (V : Type) : Type := list (string * list (Period * list V)).

(** [if (!schedule.has(key)) schedule.set(key, []); schedule.get(key)!.push(v)] *)
Fixpoint slotPush {V} (key : Period) (v : V) (schedule : list (Period * list V))
    : list (Period * list V) :=
  match schedule with
  | [] => [(key, [v])]
  | (key', l) :: rest =>
      if decide (key = key') then (key', l ++ [v]) :: rest
      else (key', l) :: slotPush key v rest
  end.

(** [if (!table.has(k)) table.set(k, new Map())] *)
Fixpoint tableEnsure {V} (k : string) (table : Table V) : Table V :=
  match table with
  | [] => [(k, [])]
  | (k', schedule) :: rest =>
      if decide (k = k') then table else (k', schedule) :: tableEnsure k rest
  end.

(** The update of the schedule object [table.get(k)!]. *)
Fixpoint tableAlter {V} (f : list (Period * list V) → list (Period * list V))
    (k : string) (table : Table V) : Table V :=
  match table with
  | [] => []
  | (k', schedule) :: rest =>
      if decide (k = k') then (k', f schedule) :: rest
      else (k', schedule) :: tableAlter f k rest
  end.

(** The entry of [k] is made if need be, and [v] is pushed at every period. *)
Definition tablePush {V} (k : string) (v : V) (ps : list Period) (table : Table V)
    : Table V :=
  foldl (λ table period, tableAlter (slotPush period v) k table) (tableEnsure k table) ps.

(** The loops over the table: a violation for every list with more than
    one element. *)
Definition conflicts {V} (violation : string → Period → list V → ConstraintViolation)
    (table : Table V) : list ConstraintViolation :=
  '(k, schedule) ← table;
  '(period, l) ← schedule;
  if decide (1 < length l) then [violation k period l] else [].

(** ** Hard constraints *)

Definition teacherTable (secs : list Section) : Table (SectionId * CourseId) :=
  foldl (λ table section,
           match truthy (teacherId section) with
           | Some tid => tablePush tid (id section, courseId section) (periods section) table
           | None => table
           end) [] secs.

Definition checkTeacherConflicts (secs : list Section) : list ConstraintViolation :=
  conflicts (λ teacherId period sectionInfos,
               {| constraintId := "no_teacher_conflict";
                  constraintType := "no_teacher_conflict";
                  description :=
                    "Teacher " +:+ teacherId +:+ " has " +:+ pretty (length sectionInfos)
                      +:+ " sections at day " +:+ pretty period.1
                      +:+ ", period " +:+ pretty period.2;
                  severity := error;
                  entities := mkEntities None (Some [teacherId]) None
                                         (Some (fst <$> sectionInfos)) (Some [period]) |})
            (teacherTable secs).

Definition studentTable (secs : list Section) : Table SectionId :=
  foldl (λ table section,
           foldl (λ table studentId, tablePush studentId (id section) (periods section) table)
                 table (enrolledStudents section)) [] secs.

Definition checkStudentConflicts (secs : list Section) : list ConstraintViolation :=
  conflicts (λ studentId period sectionIds,
               {| constraintId := "no_student_conflict";
                  constraintType := "no_student_conflict";
                  description :=
                    "Student " +:+ studentId +:+ " has " +:+ pretty (length sectionIds)
                      +:+ " classes at day " +:+ pretty period.1
                      +:+ ", period " +:+ pretty period.2;
                  severity := error;
                  entities := mkEntities (Some [studentId]) None None
                                         (Some sectionIds) (Some [period]) |})
            (studentTable secs).

Definition roomTable (secs : list Section) : Table SectionId :=
  foldl (λ table section,
           match truthy (roomId section) with
           | Some rid => tablePush rid (id section) (periods section) table
           | None => table
           end) [] secs.

Definition checkRoomConflicts (secs : list Section) : list ConstraintViolation :=
  conflicts (λ roomId period sectionIds,
               {| constraintId := "no_room_conflict";
                  constraintType := "no_room_conflict";
                  description :=
                    "Room " +:+ roomId +:+ " has " +:+ pretty (length sectionIds)
                      +:+ " sections at day " +:+ pretty period.1
                      +:+ ", period " +:+ pretty period.2;
                  severity := error;
                  entities := mkEntities None None (Some [roomId])
                                         (Some sectionIds) (Some [period]) |})
            (roomTable secs).

Definition checkRoomCapacity (secs : list Section) (roomMap : gmap RoomId Room.t)
    : list ConstraintViolation :=
  section ← secs;
  match truthy (roomId section) with
  | Some rid =>
      match roomMap !! rid with
      | Some room =>
          if decide (Room.capacity room < length (enrolledStudents section))
          then [{| constraintId := "room_capacity";
                   constraintType := "room_capacity";
                   description :=
                     "Section " +:+ id section +:+ " has "
                       +:+ pretty (length (enrolledStudents section))
                       +:+ " students but room " +:+ rid +:+ " capacity is "
                       +:+ pretty (Room.capacity room);
                   severity := error;
                   entities := mkEntities None None (Some [rid]) (Some [id section]) None |}]
          else []
      | None => []
      end
  | None => []
  end.

(** [teacher.unavailable.some(u => u.day === period.day && u.slot === period.slot)];
    a teacher without the field has no unavailable periods. *)
Definition checkTeacherAvailability (secs : list Section)
    (teacherMap : gmap TeacherId Teacher.t) : list ConstraintViolation :=
  section ← secs;
  match truthy (teacherId section) with
  | Some tid =>
      match teacherMap !! tid with
      | Some teacher =>
          period ← periods section;
          if decide (period ∈ Teacher.unavailable teacher)
          then [{| constraintId := "teacher_availability";
                   constraintType := "teacher_availability";
                   description :=
                     "Teacher " +:+ tid +:+ " is unavailable at day " +:+ pretty period.1
                       +:+ ", period " +:+ pretty period.2 +:+ " but assigned to "
                       +:+ id section;
                   severity := error;
                   entities := mkEntities None (Some [tid]) None (Some [id section])
                                          (Some [period]) |}]
          else []
      | None => []
      end
  | None => []
  end.

(** [if (!course?.requiredFeatures?.length) continue] *)
Definition checkRoomFeatures (secs : list Section) (courseMap : gmap CourseId Course.t)
    (roomMap : gmap RoomId Room.t) : list ConstraintViolation :=
  section ← secs;
  match truthy (roomId section) with
  | Some rid =>
      match courseMap !! courseId section with
      | Some course =>
          if decide (length (Course.requiredFeatures course) = 0) then []
          else
            match roomMap !! rid with
            | Some room =>
                let missingFeatures :=
                  filter (λ f, f ∉ Room.features room) (Course.requiredFeatures course) in
                if decide (0 < length missingFeatures)
                then [{| constraintId := "room_features";
                         constraintType := "custom";
                         description :=
                           "Section " +:+ id section +:+ " needs features ["
                             +:+ String.concat ", " missingFeatures +:+ "] but room "
                             +:+ rid +:+ " lacks them";
                         severity := error;
                         entities := mkEntities None None (Some [rid])
                                                (Some [id section]) None |}]
                else []
            | None => []
            end
      | None => []
      end
  | None => []
  end.

(** [student && !course.gradeRestrictions.includes(student.grade)] *)
Definition invalidGrade (studentMap : gmap StudentId Student.t)
    (gradeRestrictions : list nat) (studentId : StudentId) : bool :=
  match studentMap !! studentId with
  | Some student => negb (bool_decide (Student.grade student ∈ gradeRestrictions))
  | None => false
  end.

Definition checkGradeRestrictions (secs : list Section) (courseMap : gmap CourseId Course.t)
    (studentMap : gmap StudentId Student.t) : list ConstraintViolation :=
  section ← secs;
  match courseMap !! courseId section ≫= Course.gradeRestrictions with
  | Some gradeRestrictions =>
      let invalidStudents :=
        filter (λ studentId, invalidGrade studentMap gradeRestrictions studentId = true)
               (enrolledStudents section) in
      if decide (0 < length invalidStudents)
      then [{| constraintId := "grade_restriction";
               constraintType := "custom";
               description :=
                 "Section " +:+ id section +:+ " has " +:+ pretty (length invalidStudents)
                   +:+ " students from invalid grades";
               severity := error;
               entities := mkEntities (Some invalidStudents) None None
                                      (Some [id section]) None |}]
      else []
  | None => []
  end.

Definition checkTeacherQualifications (secs : list Section)
    (teacherMap : gmap TeacherId Teacher.t) : list ConstraintViolation :=
  section ← secs;
  match truthy (teacherId section) with
  | Some tid =>
      match teacherMap !! tid with
      | Some teacher =>
          if decide (courseId section ∈ Teacher.subjects teacher) then []
          else [{| constraintId := "teacher_qualified";
                   constraintType := "same_teacher_same_course";
                   description :=
                     "Teacher " +:+ tid +:+ " is not qualified to teach "
                       +:+ courseId section;
                   severity := error;
                   entities := mkEntities None (Some [tid]) None (Some [id section]) None |}]
      | None => []
      end
  | None => []
  end.

(** ** Soft constraints *)

(** [Math.max(...sizes)] and [Math.min(...sizes)] of a list that is not
    empty. *)
Definition maxOf (sizes : list nat) : nat := foldr Nat.max 0 sizes.
Definition minOf (sizes : list nat) : nat := foldr Nat.min (maxOf sizes) sizes.

Definition checkBalancedSections (secs : list Section) : list ConstraintViolation :=
  '(cid, courseSections) ← sectionsByCourse secs;
  if decide (length courseSections < 2) then []
  else
    let sizes := enrolledCount secs <$> courseSections in
    let max := maxOf sizes in
    let min := minOf sizes in
    let diff := max - min in
    if decide (5 < diff)
    then [{| constraintId := "balanced_sections";
             constraintType := "balanced_class_sizes";
             description :=
               "Course " +:+ cid +:+ " has unbalanced sections (" +:+ pretty min +:+ "-"
                 +:+ pretty max +:+ " students, diff=" +:+ pretty diff +:+ ")";
             severity := warning;
             entities := mkEntities None None None
                           (Some (omap (λ i, id <$> secs !! i) courseSections)) None |}]
    else [].

(** The enrollment lookup of the last two checks: the courses of the
    sections that list a student. *)
Definition studentEnrollments (secs : list Section) : gmap StudentId (gset CourseId) :=
  foldl (λ m section,
           foldl (λ m studentId,
                    <[studentId := default ∅ (m !! studentId) ∪ {[courseId section]}]> m)
                 m (enrolledStudents section)) ∅ secs.

Definition checkElectivePreferences (secs : list Section) (sts : list Student.t)
    : list ConstraintViolation :=
  let enrollments := studentEnrollments secs in
  let studentsWithNoElectives :=
    foldl (λ n student,
             if decide (length (Student.electivePreferences student) = 0) then n
             else
               let enrolled := default ∅ (enrollments !! Student.id student) in
               let hasElective :=
                 existsb (λ e, bool_decide (e ∈ enrolled))
                         (Student.electivePreferences student) in
               if hasElective then n else n + 1) 0 sts in
  if decide (0 < studentsWithNoElectives)
  then [{| constraintId := "student_elective_preference";
           constraintType := "student_elective_preference";
           description :=
             pretty studentsWithNoElectives
               +:+ " students did not receive any of their elective preferences";
           severity := warning;
           entities := noEntities |}]
  else [].

Definition checkMissingRequiredCourses (secs : list Section) (sts : list Student.t)
    : list ConstraintViolation :=
  let enrollments := studentEnrollments secs in
  let '(totalMissing, studentsWithMissing) :=
    foldl (λ '(totalMissing, studentsWithMissing) student,
             let enrolled := default ∅ (enrollments !! Student.id student) in
             let missing := filter (λ c, c ∉ enrolled) (Student.requiredCourses student) in
             if decide (0 < length missing)
             then (totalMissing + length missing, studentsWithMissing ++ [Student.id student])
             else (totalMissing, studentsWithMissing)) (0, []) sts in
  if decide (0 < totalMissing)
  then [{| constraintId := "required_courses";
           constraintType := "custom";
           description :=
             pretty (length studentsWithMissing) +:+ " students are missing "
               +:+ pretty totalMissing +:+ " required course enrollments";
           severity := warning;
           entities := mkEntities (Some (take 10 studentsWithMissing)) None None None None |}]
  else [].

(** ** The report *)

(** [s.repeat(n)] *)
Fixpoint repeatString (s : string) (n : nat) : string :=
  match n with
  | 0 => EmptyString
  | S n' => s +:+ repeatString s n'
  end.

Definition generateSummary (secs : list Section) (unassigned : list UnassignedStudent)
    (hardViolations softViolations : list ConstraintViolation) (input : ScheduleInput)
    : string :=
  let totalEnrollments := foldl (λ sum s, sum + length (enrolledStudents s)) 0 secs in
  String.concat ILP.newline
    ([repeatString "=" 60; "SCHEDULE VALIDATION SUMMARY"; repeatString "=" 60; EmptyString] ++
     [if decide (length hardViolations = 0)
      then "STATUS: VALID (all hard constraints satisfied)"
      else "STATUS: INVALID (" +:+ pretty (length hardViolations)
             +:+ " hard constraint violations)";
      EmptyString] ++
     ["STATISTICS:";
      "  Total sections: " +:+ pretty (length secs);
      "  Total students: " +:+ pretty (length (students input));
      "  Total enrollments: " +:+ pretty totalEnrollments;
      "  Unassigned students: " +:+ pretty (length unassigned);
      EmptyString] ++
     ["CONSTRAINTS:";
      "  Hard violations: " +:+ pretty (length hardViolations);
      "  Soft violations: " +:+ pretty (length softViolations);
      EmptyString] ++
     (if decide (0 < length hardViolations)
      then ["HARD CONSTRAINT VIOLATIONS:"] ++
           ((λ v, "  - " +:+ description v) <$> take 10 hardViolations) ++
           (if decide (10 < length hardViolations)
            then ["  ... and " +:+ pretty (length hardViolations - 10) +:+ " more"]
            else []) ++
           [EmptyString]
      else []) ++
     (if decide (0 < length softViolations)
      then ["SOFT CONSTRAINT VIOLATIONS (warnings):"] ++
           ((λ v, "  - " +:+ description v) <$> softViolations) ++
           [EmptyString]
      else []) ++
     [repeatString "=" 60]).

(** The eight hard checks, in order. *)
Definition hardViolations (secs : list Section) (input : ScheduleInput)
    : list ConstraintViolation :=
  let courseMap := buildCourseMap (courses input) in
  let teacherMap := buildTeacherMap (teachers input) in
  let roomMap := buildRoomMap (rooms input) in
  let studentMap := buildStudentMap (students input) in
  checkTeacherConflicts secs ++
  checkStudentConflicts secs ++
  checkRoomConflicts secs ++
  checkRoomCapacity secs roomMap ++
  checkTeacherAvailability secs teacherMap ++
  checkRoomFeatures secs courseMap roomMap ++
  checkGradeRestrictions secs courseMap studentMap ++
  checkTeacherQualifications secs teacherMap.

(** The three soft checks, in order. *)
Definition softViolations (secs : list Section) (input : ScheduleInput)
    : list ConstraintViolation :=
  checkBalancedSections secs ++
  checkElectivePreferences secs (students input) ++
  checkMissingRequiredCourses secs (students input).

(** [validateSchedule(schedule, input)]: of the schedule the sections and
    the unassigned list are read. *)
Definition validateSchedule (secs : list Section) (unassigned : list UnassignedStudent)
    (input : ScheduleInput) : ValidationResult :=
  let hardViolations := hardViolations secs input in
  let softViolations := softViolations secs input in
  let hardPenalty := Z.of_nat (length hardViolations * 20) in
  let softPenalty :=
    foldl (λ sum v, (sum + match severity v with warning => 2 | error => 5 end)%Z)
          0%Z softViolations in
  {| valid := bool_decide (length hardViolations = 0);
     hardConstraintViolations := hardViolations;
     softConstraintViolations := softViolations;
     score := Z.max 0 (100 - hardPenalty - softPenalty);
     summary := generateSummary secs unassigned hardViolations softViolations input |}.

End Validator.

(** ** Vocabulary for the checks *)

(** The pairs of a teacher and a period the sections claim, one for every
    period of every section with a teacher. *)
Definition teacherEntries (secs : list Section) : list (TeacherId * Period) :=
  section ← secs;
  match Validator.truthy (teacherId section) with
  | Some tid => pair tid <$> periods section
  | None => []
  end.

(** The pairs of a student and a period, one for every period of every
    section and every time the section lists the student. *)
Definition studentEntries (secs : list Section) : list (StudentId * Period) :=
  section ← secs; sid ← enrolledStudents section; pair sid <$> periods section.

(** The pairs of a room and a period, one for every period of every
    section with a room. *)
Definition roomEntries (secs : list Section) : list (RoomId * Period) :=
  section ← secs;
  match Validator.truthy (roomId section) with
  | Some rid => pair rid <$> periods section
  | None => []
  end.

(** The value of a key in an insertion-ordered map. *)
Fixpoint assocGet {K V} `{EqDecision K} (k : K) (l : list (K * V)) : option V :=
  match l with
  | [] => None
  | (k', v) :: rest => if decide (k = k') then Some v else assocGet k rest
  end.

(** The list a table holds for an id and a period; empty if there is none. *)
Definition cell {V} (table : Validator.Table V) (k : string) (p : Period) : list V :=
  default [] (assocGet k table ≫= assocGet p).

(** The keys of a table, and of each of its schedules, are distinct. *)
Definition tableOK {V} (table : Validator.Table V) : Prop :=
  NoDup table.*1 ∧ ∀ k schedule, (k, schedule) ∈ table → NoDup schedule.*1.

(** A section that meets lists no student twice. *)
Definition meetingDistinct (secs : list Section) : Prop :=
  ∀ s, s ∈ secs → periods s ≠ [] → NoDup (enrolledStudents s).

(** Every teacher of a section is a teacher of the input who lists the
    course of the section. *)
Definition staffed (input : ScheduleInput) (secs : list Section) : Prop :=
  ∀ s tid, s ∈ secs → teacherId s = Some tid →
    ∃ t, t ∈ teachers input ∧ Teacher.id t = tid ∧ courseId s ∈ Teacher.subjects t.

(** The room of a section is a room of the input that holds the capacity
    of the section and has the features the course requires. *)
Definition housed (input : ScheduleInput) (secs : list Section) : Prop :=
  ∀ s rid, s ∈ secs → roomId s = Some rid →
    ∃ room, room ∈ rooms input ∧ Room.id room = rid ∧
            capacity s ≤ Room.capacity room ∧
            ∀ f, f ∈ courseFeatures (buildCourseMap (courses input)) (courseId s) →
                 f ∈ Room.features room.

(** What the first three phases of the command-line engine establish, and
    the later ones keep: a section has one period a day at most; two
    sections with the same teacher, or in the same room, share no period; a
    teacher is available at the periods of their sections and lists the
    course; the room of a section holds its capacity and has the features
    its course requires. *)
Definition timetabled (input : ScheduleInput) (secs : list Section) : Prop :=
  Forall (λ s, oncePerDay (config input) (periods s)) secs ∧
  (∀ i j s s' tid p, i ≠ j → secs !! i = Some s → secs !! j = Some s' →
     Validator.truthy (teacherId s) = Some tid → Validator.truthy (teacherId s') = Some tid →
     p ∈ periods s → p ∉ periods s') ∧
  (∀ s tid p, s ∈ secs → Validator.truthy (teacherId s) = Some tid → p ∈ periods s →
     p ∉ teacherSeed (teachers input) tid) ∧
  staffed input secs ∧
  roomsFree secs ∧
  housed input secs.

(** The ids of the teachers, of the rooms and of the students of the input
    are distinct. *)
Definition distinctIds (input : ScheduleInput) : Prop :=
  NoDup (Teacher.id <$> teachers input) ∧
  NoDup (Room.id <$> rooms input) ∧
  NoDup (Student.id <$> students input).

(** ** A run of the command-line engine without the solver *)

Definition seniorsCli : Cli.Input := Cli.mkInput Examples.seniors [] [].

Definition greedyOnly : Cli.Options := Cli.mkOptions None (Some false).

(** A solver that throws. *)
Definition noSolver : string → option ILP.Solution := λ _, None.

(** * Names made from numbers *)

(** The key of a period in the occupancy tables,
    [`${period.day}-${period.slot}`]. *)
Definition periodKey (p : Period) : string := pretty p.1 +:+ "-" +:+ pretty p.2.

(** The id [createSections] gives to section number [i] of a course,
    [`${course.id}-${i + 1}`]. *)
Definition sectionName (cid : CourseId) (i : nat) : SectionId :=
  cid +:+ "-" +:+ pretty (i + 1).

(** A character occurs in a string. *)
Fixpoint occurs (c : Ascii.ascii) (s : string) : Prop :=
  match s with
  | EmptyString => False
  | String c' s' => c = c' ∨ occurs c s'
  end.

(** The separators of the names. *)
Definition dash : Ascii.ascii := Ascii.ascii_of_nat 45.
Definition underscore : Ascii.ascii := Ascii.ascii_of_nat 95.

(** * Properties *)

(** ** The stable sort *)

Section SortBy.
Context {A : Type} (key : A → nat).

Lemma insertBy_perm x l : insertBy key x l ≡ₚ x :: l.
Proof.
  induction l as [|y l IH]; simpl; [done|].
  case_decide; [done|]. rewrite IH. apply Permutation_swap.
Qed.

Lemma sortBy_perm l : sortBy key l ≡ₚ l.
Proof.
  induction l as [|x l IH]; simpl; [done|].
  rewrite insertBy_perm. by rewrite IH.
Qed.

Lemma sortBy_elem x l : x ∈ sortBy key l ↔ x ∈ l.
Proof. by rewrite sortBy_perm. Qed.

Lemma sortBy_length l : length (sortBy key l) = length l.
Proof. by rewrite sortBy_perm. Qed.

Lemma ascending_cons x l :
  ascending key (x :: l) ↔ Forall (λ y, key x ≤ key y) l ∧ ascending key l.
Proof.
  split.
  - intros H. split.
    + apply Forall_lookup. intros i y Hy. apply (H 0 (S i) x y); [done|done|lia].
    + intros i j a b Ha Hb Hij. apply (H (S i) (S j) a b); [done|done|lia].
  - intros [Hall Hl] i j a b Ha Hb Hij.
    destruct i as [|i], j as [|j]; simpl in *; try lia.
    + injection Ha as <-. rewrite Forall_lookup in Hall. eauto.
    + apply (Hl i j); [done|done|lia].
Qed.

Lemma insertBy_ascending x l : ascending key l → ascending key (insertBy key x l).
Proof.
  induction l as [|y l IH]; simpl; intros Hl.
  - apply ascending_cons. split; [constructor|]. intros i j ??. by rewrite lookup_nil.
  - apply ascending_cons in Hl as [Hy Hl]. case_decide.
    + apply ascending_cons. split.
      * constructor; [done|]. eapply Forall_impl; [exact Hy|]. simpl. intros; lia.
      * apply ascending_cons. done.
    + apply ascending_cons. split; [|by apply IH].
      rewrite insertBy_perm. constructor; [lia|done].
Qed.

Lemma sortBy_ascending l : ascending key (sortBy key l).
Proof.
  induction l as [|x l IH]; simpl.
  - intros i j ??. by rewrite lookup_nil.
  - by apply insertBy_ascending.
Qed.

(** Stability: elements with the same key keep their relative order. *)
Lemma insertBy_stable k x l :
  filter (λ y, key y = k) (insertBy key x l) = filter (λ y, key y = k) (x :: l).
Proof.
  induction l as [|y l IH]; simpl; [done|].
  case_decide as Hxy; [done|].
  rewrite filter_cons, IH, !filter_cons.
  repeat case_decide; try done; lia.
Qed.

Lemma sortBy_stable k l :
  filter (λ y, key y = k) (sortBy key l) = filter (λ y, key y = k) l.
Proof.
  induction l as [|x l IH]; simpl; [done|].
  rewrite insertBy_stable, !filter_cons, IH. done.
Qed.

(** Filtering commutes with the stable sort. *)
Lemma insertBy_filter (P : A → Prop) `{!∀ x, Decision (P x)} x l :
  ascending key l →
  filter P (insertBy key x l) =
    if decide (P x) then insertBy key x (filter P l) else filter P l.
Proof.
  induction l as [|y l IH]; simpl; intros Hl.
  - rewrite filter_cons. by case_decide.
  - apply ascending_cons in Hl as [Hy Hl].
    destruct (decide (key x ≤ key y)) as [Hxy|Hxy].
    + rewrite !filter_cons. destruct (decide (P x)) as [Hx|Hx]; [|done].
      destruct (decide (P y)) as [Hpy|Hpy]; simpl.
      * by rewrite decide_True.
      * assert (Forall (λ z, key x ≤ key z) (filter P l)) as Hall.
        { apply Forall_forall. intros z [_ Hz]%list_elem_of_filter.
          rewrite Forall_forall in Hy. specialize (Hy z Hz). lia. }
        destruct (filter P l) as [|z l']; simpl; [done|].
        rewrite decide_True; [done|]. by inversion Hall.
    + rewrite !filter_cons, IH by done.
      destruct (decide (P x)) as [Hx|Hx], (decide (P y)) as [Hpy|Hpy]; simpl; try done.
      by rewrite decide_False.
Qed.

Lemma sortBy_filter (P : A → Prop) `{!∀ x, Decision (P x)} l :
  filter P (sortBy key l) = sortBy key (filter P l).
Proof.
  induction l as [|x l IH]; simpl; [done|].
  rewrite insertBy_filter by apply sortBy_ascending.
  rewrite filter_cons, IH. by case_decide.
Qed.

(** The head of the sorted list is the first minimum of the input. *)
Lemma insertBy_head x l :
  ascending key l →
  head (insertBy key x l) =
    match head l with
    | Some y => if decide (key x ≤ key y) then Some x else Some y
    | None => Some x
    end.
Proof.
  destruct l as [|y l]; simpl; [done|]. intros _. by case_decide.
Qed.

Lemma sortBy_head l x :
  head (sortBy key l) = Some x → ∃ i, firstMin key l i x.
Proof.
  revert x. induction l as [|a l IH]; simpl; intros x; [done|].
  rewrite insertBy_head by apply sortBy_ascending.
  destruct (head (sortBy key l)) as [y|] eqn:Hy.
  - destruct (IH y eq_refl) as (i & Hi & Hmin). case_decide as Hay; intros [= <-].
    + exists 0. split; [done|]. intros [|j] z Hz; simpl in Hz.
      * injection Hz as <-. right. split; [done|lia].
      * destruct (Hmin j z Hz) as [?|[? ?]]; [left; lia|].
        destruct (decide (key a = key z)); [right; split; [done|lia]|left; lia].
    + exists (S i). split; [done|]. intros [|j] z Hz; simpl in Hz.
      * injection Hz as <-. left. lia.
      * destruct (Hmin j z Hz) as [?|[? ?]]; [by left|right; split; [done|lia]].
  - intros [= <-]. exists 0. split; [done|].
    assert (l = []) as ->.
    { destruct l as [|b l]; [done|]. exfalso.
      assert (b ∈ sortBy key (b :: l)) as Hb by (apply sortBy_elem; left).
      destruct (sortBy key (b :: l)); [by apply elem_of_nil in Hb|done]. }
    intros [|j] z Hz; simpl in Hz; [|by rewrite lookup_nil in Hz].
    injection Hz as <-. right. split; [done|lia].
Qed.

Lemma sortBy_head_None l : head (sortBy key l) = None ↔ l = [].
Proof.
  split; [|by intros ->].
  destruct l as [|b l]; [done|]. intros Hh. exfalso.
  assert (b ∈ sortBy key (b :: l)) as Hb by (apply sortBy_elem; left).
  destruct (sortBy key (b :: l)); [by apply elem_of_nil in Hb|done].
Qed.

End SortBy.

(** ** Loops in the error monad *)

Lemma foldM_app {A B} (f : B → A → option B) b l1 l2 :
  foldM f b (l1 ++ l2) = foldM f b l1 ≫= λ b', foldM f b' l2.
Proof.
  revert b. induction l1 as [|x l1 IH]; intros b; simpl; [done|].
  destruct (f b x); simpl; [apply IH|done].
Qed.

(** An invariant that every successful step keeps is kept by the loop. *)
Lemma foldM_inv {A B} (P : B → Prop) (f : B → A → option B) l b b' :
  (∀ b x b', P b → f b x = Some b' → P b') →
  P b → foldM f b l = Some b' → P b'.
Proof.
  intros Hstep. revert b. induction l as [|x l IH]; simpl; intros b Hb Hf.
  - by injection Hf as <-.
  - destruct (f b x) as [b1|] eqn:E; simpl in Hf; [|done]. eauto.
Qed.

(** If under the invariant no step fails, the loop does not fail. *)
Lemma foldM_total {A B} (P : B → Prop) (f : B → A → option B) l b :
  (∀ b x, P b → ∃ b', f b x = Some b' ∧ P b') →
  P b → ∃ b', foldM f b l = Some b' ∧ P b'.
Proof.
  intros Hstep. revert b. induction l as [|x l IH]; simpl; intros b Hb; [eauto|].
  destruct (Hstep b x Hb) as (b1 & -> & Hb1). simpl. eauto.
Qed.

(** ** Phase 1 *)

Lemma createSection_fold course qualified l acc :
  foldl (createSection course qualified) acc l =
  ((foldl (createSection course qualified) acc l).1,
   (foldl (createSection course qualified) acc l).2) ∧
  (foldl (createSection course qualified) acc l).1 =
    acc.1 ++ ((λ i, newSection course (pickTeacher qualified i) i) <$> l).
Proof.
  split; [by destruct (foldl _ _ _)|].
  revert acc. induction l as [|i l IH]; intros acc; simpl.
  - by rewrite app_nil_r.
  - rewrite IH. simpl. by rewrite <- app_assoc.
Qed.

Lemma createCourseSections_sections teachers acc course :
  (createCourseSections teachers acc course).1 =
    acc.1 ++ ((λ i, newSection course
                      (pickTeacher (qualifiedTeachers teachers acc.2 course) i) i)
                <$> seq 0 (Course.sections course)).
Proof. unfold createCourseSections. apply createSection_fold. Qed.

Lemma createSectionsFrom_app teachers acc cs1 cs2 :
  createSectionsFrom teachers acc (cs1 ++ cs2) =
    createSectionsFrom teachers (createSectionsFrom teachers acc cs1) cs2.
Proof. unfold createSectionsFrom. apply foldl_app. Qed.

Lemma createSectionsFrom_prefix teachers cs acc :
  ∃ new, (createSectionsFrom teachers acc cs).1 = acc.1 ++ new ∧
         Forall unfurnished new ∧
         courseId <$> new =
           cs ≫= (λ c, replicate (Course.sections c) (Course.id c)).
Proof.
  revert acc. induction cs as [|c cs IH]; intros acc; simpl.
  - exists []. by rewrite app_nil_r.
  - destruct (IH (createCourseSections teachers acc c)) as (new & Heq & Hall & Hids).
    unfold createSectionsFrom in *. simpl. rewrite Heq.
    rewrite createCourseSections_sections, <- app_assoc.
    eexists. split; [done|]. split.
    + apply Forall_app. split; [|done].
      apply Forall_fmap, Forall_forall. intros i _. by repeat split.
    + rewrite fmap_app, Hids. f_equal.
      rewrite <- list_fmap_compose. simpl.
      generalize (Course.sections c) 0. clear.
      intros n. induction n as [|n IH]; intros k; simpl; [done|]. by rewrite IH.
Qed.

Lemma createSections_unfurnished cs teachers :
  Forall unfurnished (createSections cs teachers).
Proof.
  unfold createSections.
  destruct (createSectionsFrom_prefix teachers cs ([], ∅)) as (new & -> & H & _).
  done.
Qed.


(** The sections of a course whose pool is empty. *)
Lemma createSections_empty_pool teachers pre c post :
  let acc := createSectionsFrom teachers ([], ∅) pre in
  qualifiedTeachers teachers acc.2 c = [] →
  ∃ rest,
    createSections (pre ++ c :: post) teachers =
      acc.1 ++ ((λ i, newSection c None i) <$> seq 0 (Course.sections c)) ++ rest.
Proof.
  intros acc Hpool. unfold createSections.
  rewrite createSectionsFrom_app. fold acc.
  change (createSectionsFrom teachers acc (c :: post))
    with (createSectionsFrom teachers (createCourseSections teachers acc c) post).
  destruct (createSectionsFrom_prefix teachers post (createCourseSections teachers acc c))
    as (rest & -> & _ & _).
  rewrite createCourseSections_sections, Hpool, <- app_assoc.
  by exists rest.
Qed.

(** ** Grouping the sections by course *)

Lemma filter_ext_elem {A} (P Q : A → Prop) `{!∀ x, Decision (P x)} `{!∀ x, Decision (Q x)}
    (l : list A) :
  (∀ x, x ∈ l → (P x ↔ Q x)) → filter P l = filter Q l.
Proof.
  induction l as [|x l IH]; intros Hext; [done|].
  rewrite !filter_cons.
  assert (P x ↔ Q x) as Hx by (apply Hext; left).
  rewrite IH by (intros y Hy; apply Hext; by right).
  destruct (decide (P x)), (decide (Q x)); tauto.
Qed.

Lemma courseSectionIdxs_snoc secs s cid :
  courseSectionIdxs (secs ++ [s]) cid =
    courseSectionIdxs secs cid ++ (if decide (courseId s = cid) then [length secs] else []).
Proof.
  unfold courseSectionIdxs.
  rewrite length_app. simpl. rewrite seq_app, filter_app. simpl. f_equal.
  - apply filter_ext_elem. intros i Hi. apply elem_of_seq in Hi.
    rewrite lookup_app_l by lia. done.
  - rewrite filter_cons, filter_nil.
    rewrite lookup_app_r, Nat.sub_diag by lia. simpl.
    destruct (decide (courseId s = cid)) as [->|Hne].
    + by rewrite decide_True.
    + rewrite decide_False; [done|]. intros [= ?]. done.
Qed.

Lemma courseSectionIdxs_elem secs cid i :
  i ∈ courseSectionIdxs secs cid ↔ courseId <$> secs !! i = Some cid.
Proof.
  unfold courseSectionIdxs. rewrite list_elem_of_filter, elem_of_seq.
  split; [tauto|]. intros H. split; [done|].
  destruct (secs !! i) eqn:E; [|done]. apply lookup_lt_Some in E. lia.
Qed.

Lemma courseSectionIdxs_nil secs cid :
  courseSectionIdxs secs cid = [] ↔ cid ∉ courseId <$> secs.
Proof.
  split.
  - intros Hnil Hin. apply list_elem_of_fmap in Hin as (s & -> & Hs).
    apply list_elem_of_lookup in Hs as [i Hi].
    assert (i ∈ courseSectionIdxs secs (courseId s)) as Hi'.
    { apply courseSectionIdxs_elem. by rewrite Hi. }
    rewrite Hnil in Hi'. by apply elem_of_nil in Hi'.
  - intros Hnot. destruct (courseSectionIdxs secs cid) as [|i l] eqn:E; [done|].
    exfalso. apply Hnot.
    assert (i ∈ courseSectionIdxs secs cid) as Hi by (rewrite E; left).
    apply courseSectionIdxs_elem in Hi.
    destruct (secs !! i) as [s|] eqn:Es; [|done]. injection Hi as <-.
    apply list_elem_of_fmap. exists s. split; [done|]. by eapply list_elem_of_lookup_2.
Qed.

Lemma courseSectionIdxs_NoDup secs cid : NoDup (courseSectionIdxs secs cid).
Proof. apply NoDup_filter, NoDup_seq. Qed.

Lemma glookup_groupInsert k k' i g :
  glookup k' (groupInsert k i g) =
    if decide (k' = k) then Some (default [] (glookup k g) ++ [i]) else glookup k' g.
Proof.
  induction g as [|[k0 l] g IH]; simpl; [done|].
  destruct (decide (k = k0)) as [->|Hne]; simpl.
  - repeat case_decide; simplify_eq; done.
  - rewrite IH. repeat case_decide; simplify_eq; done.
Qed.

Lemma groupInsert_keys k i g :
  (groupInsert k i g).*1 = if decide (k ∈ g.*1) then g.*1 else g.*1 ++ [k].
Proof.
  induction g as [|[k0 l] g IH]; [done|].
  cbn [groupInsert]. destruct (decide (k = k0)) as [->|Hne].
  - rewrite !fmap_cons. cbn [fst]. rewrite decide_True; [done|]. left.
  - rewrite !fmap_cons, IH. cbn [fst].
    destruct (decide (k ∈ g.*1)) as [Hin|Hnin].
    + rewrite decide_True; [done|]. by right.
    + rewrite decide_False; [done|]. rewrite elem_of_cons. tauto.
Qed.

Lemma groupInsert_concat k i g :
  concat (groupInsert k i g).*2 ≡ₚ i :: concat g.*2.
Proof.
  induction g as [|[k0 l] g IH]; simpl; [done|].
  destruct (decide (k = k0)) as [->|Hne]; simpl.
  - rewrite <- app_assoc. simpl. by rewrite <- Permutation_middle.
  - rewrite IH. by rewrite <- Permutation_middle.
Qed.

Lemma sectionsByCourse_snoc secs s :
  sectionsByCourse (secs ++ [s]) =
    groupInsert (courseId s) (length secs) (sectionsByCourse secs).
Proof.
  unfold sectionsByCourse. rewrite imap_app, foldl_app. simpl.
  by rewrite Nat.add_0_r.
Qed.

Lemma firstOccurrences_snoc l k :
  firstOccurrences (l ++ [k]) =
    if decide (k ∈ firstOccurrences l) then firstOccurrences l
    else firstOccurrences l ++ [k].
Proof. unfold firstOccurrences. by rewrite foldl_app. Qed.

Lemma firstOccurrences_elem l k : k ∈ firstOccurrences l ↔ k ∈ l.
Proof.
  induction l as [|x l IH] using rev_ind; [done|].
  rewrite firstOccurrences_snoc, elem_of_app, list_elem_of_singleton.
  case_decide as Hx; rewrite ?elem_of_app, ?list_elem_of_singleton, IH.
  - split; [tauto|]. intros [?| ->]; [done|]. by apply IH.
  - done.
Qed.

Lemma firstOccurrences_NoDup l : NoDup (firstOccurrences l).
Proof.
  induction l as [|x l IH] using rev_ind; [constructor|].
  rewrite firstOccurrences_snoc. case_decide as Hx; [done|].
  apply NoDup_app. split; [done|]. split; [|apply NoDup_singleton].
  intros y Hy ->%list_elem_of_singleton. done.
Qed.

Lemma sectionsByCourse_keys secs :
  (sectionsByCourse secs).*1 = firstOccurrences (courseId <$> secs).
Proof.
  induction secs as [|s secs IH] using rev_ind; [done|].
  rewrite sectionsByCourse_snoc, groupInsert_keys, fmap_app.
  change (courseId <$> [s]) with [courseId s].
  by rewrite firstOccurrences_snoc, IH.
Qed.

Lemma sectionsByCourse_lookup secs cid :
  glookup cid (sectionsByCourse secs) =
    if decide (cid ∈ courseId <$> secs) then Some (courseSectionIdxs secs cid) else None.
Proof.
  induction secs as [|s secs IH] using rev_ind.
  - change (courseId <$> []) with (@nil CourseId).
    rewrite decide_False; [done|]. apply not_elem_of_nil.
  - rewrite sectionsByCourse_snoc, glookup_groupInsert, courseSectionIdxs_snoc, fmap_app.
    change (courseId <$> [s]) with [courseId s].
    destruct (decide (cid = courseId s)) as [->|Hne].
    + rewrite decide_True by (rewrite elem_of_app, list_elem_of_singleton; tauto).
      rewrite decide_True by done. rewrite IH.
      case_decide as Hin; simpl; [done|].
      apply courseSectionIdxs_nil in Hin. by rewrite Hin.
    + rewrite (decide_False (P := courseId s = cid)) by congruence.
      rewrite app_nil_r, IH.
      destruct (decide (cid ∈ courseId <$> secs)) as [Hin|Hnin].
      * rewrite decide_True; [done|]. rewrite elem_of_app. tauto.
      * rewrite decide_False; [done|].
        rewrite elem_of_app, list_elem_of_singleton. tauto.
Qed.

Lemma sectionsByCourse_concat secs :
  concat (sectionsByCourse secs).*2 ≡ₚ seq 0 (length secs).
Proof.
  induction secs as [|s secs IH] using rev_ind; [done|].
  rewrite sectionsByCourse_snoc, groupInsert_concat, IH, length_app, seq_app.
  simpl. by rewrite <- Permutation_cons_append.
Qed.

Lemma glookup_elem k l g : NoDup g.*1 → (k, l) ∈ g → glookup k g = Some l.
Proof.
  induction g as [|[k0 l0] g IH]; simpl; intros Hnd Hin.
  - by apply elem_of_nil in Hin.
  - apply NoDup_cons in Hnd as [Hk0 Hnd].
    apply elem_of_cons in Hin as [[= -> ->]|Hin]; [by rewrite decide_True|].
    rewrite decide_False; [by apply IH|].
    intros <-. apply Hk0. apply list_elem_of_fmap. by exists (k, l).
Qed.

(** Each group holds the positions of the sections of one course, in
    ascending order, and the groups come in the order in which the courses
    first appear in the section list. *)
Lemma sectionsByCourse_spec secs :
  sectionsByCourse secs =
    (λ cid, (cid, courseSectionIdxs secs cid)) <$> firstOccurrences (courseId <$> secs).
Proof.
  rewrite <- sectionsByCourse_keys.
  assert (NoDup (sectionsByCourse secs).*1) as Hnd.
  { rewrite sectionsByCourse_keys. apply firstOccurrences_NoDup. }
  assert (∀ k l, (k, l) ∈ sectionsByCourse secs → l = courseSectionIdxs secs k) as Hgrp.
  { intros k l Hin. pose proof (glookup_elem _ _ _ Hnd Hin) as Hl.
    rewrite sectionsByCourse_lookup in Hl. case_decide; congruence. }
  revert Hgrp. generalize (sectionsByCourse secs). clear Hnd.
  intros g. induction g as [|[k l] g IH]; intros Hgrp; simpl; [done|].
  rewrite <- (Hgrp k l) by left. f_equal. apply IH.
  intros k' l' Hin. apply Hgrp. by right.
Qed.

Lemma sectionsByCourse_group secs cid group i :
  (cid, group) ∈ sectionsByCourse secs → i ∈ group →
  courseId <$> secs !! i = Some cid.
Proof.
  rewrite sectionsByCourse_spec. intros Hin Hi.
  apply list_elem_of_fmap in Hin as (k & [= -> ->] & _).
  by apply courseSectionIdxs_elem.
Qed.

(** ** Phase 2: the choice of the slot *)


Lemma slotPenalty_penalty st used grades slot :
  slotPenalty st used grades slot = penalty st used grades slot.
Proof.
  unfold slotPenalty, penalty, usage.
  set (p0 := if decide (slot ∈ used) then _ else _).
  assert (p0 = default 0 (slotUsage st !! slot) + (if decide (slot ∈ used) then 1000 else 0))
    as -> by (subst p0; case_decide; lia).
  generalize (default 0 (slotUsage st !! slot) + (if decide (slot ∈ used) then 1000 else 0)).
  induction grades as [|g grades IH]; intros p; [simpl; lia|].
  cbn [foldl]. rewrite IH, fmap_cons. cbn [sum_list_with id]. unfold gradeUsage at 2.
  destruct (gradeSlotUsage st !! g); cbn [mbind option_bind default];
    unfold Datatypes.id; lia.
Qed.

Lemma filter_seq_increasing (P : nat → Prop) `{!∀ x, Decision (P x)} a n i j x y :
  filter P (seq a n) !! i = Some x → filter P (seq a n) !! j = Some y →
  i ≤ j → x ≤ y.
Proof.
  revert a i j. induction n as [|n IH]; intros a i j; simpl; [by rewrite filter_nil|].
  assert (∀ k z, filter P (seq (S a) n) !! k = Some z → a < z) as Hgt.
  { intros k z Hz. apply list_elem_of_lookup_2, list_elem_of_filter in Hz as [_ Hz].
    apply elem_of_seq in Hz. lia. }
  rewrite filter_cons. destruct (decide (P a)); [|by apply IH].
  destruct i as [|i], j as [|j]; simpl; intros Hi Hj Hij.
  - simplify_eq. lia.
  - injection Hi as <-. apply Hgt in Hj. lia.
  - lia.
  - apply (IH (S a) i j); [done|done|lia].
Qed.

Lemma availableSlots_lookup cfg st used grades sched i slot p :
  availableSlots cfg st used grades sched !! i = Some (slot, p) →
  filter (λ s, teacherAvailable (daysPerWeek cfg) sched s = true)
         (seq 0 (periodsPerDay cfg)) !! i = Some slot ∧
  p = penalty st used grades slot.
Proof.
  unfold availableSlots. rewrite list_lookup_fmap.
  destruct (filter _ _ !! i) as [s|]; simpl; [|done].
  intros [= <- <-]. by rewrite slotPenalty_penalty.
Qed.



Lemma chooseSlot_range cfg st used grades sched :
  0 < periodsPerDay cfg → chooseSlot cfg st used grades sched < periodsPerDay cfg.
Proof.
  intros Hpos. unfold chooseSlot.
  destruct (sortBy snd (availableSlots cfg st used grades sched)) as [|[slot p] rest] eqn:E;
    [done|].
  destruct (sortBy_head snd (availableSlots cfg st used grades sched) (slot, p))
    as (i & Hi & _); [by rewrite E|].
  apply availableSlots_lookup in Hi as [Hi _].
  apply list_elem_of_lookup_2, list_elem_of_filter in Hi as [_ Hin].
  apply elem_of_seq in Hin. lia.
Qed.

(** ** Phase 2: the commit *)

Lemma initSlotUsage_lookup ppd slot :
  initSlotUsage ppd !! slot = if decide (slot < ppd) then Some 0 else None.
Proof.
  unfold initSlotUsage. induction ppd as [|ppd IH].
  - cbn. by rewrite lookup_empty.
  - rewrite seq_S, foldl_app. cbn [foldl]. rewrite lookup_insert, IH.
    repeat case_decide; (done || lia).
Qed.

Lemma commitSlot_defined cfg grades sched slot st s :
  is_Some (slotUsage st !! s) → is_Some (slotUsage (commitSlot cfg grades sched slot st) !! s).
Proof.
  intros Hs. unfold commitSlot. cbn [slotUsage]. apply lookup_insert_is_Some'. by right.
Qed.




Lemma elem_of_weekPeriods days slot p :
  p ∈ weekPeriods days slot ↔ ∃ day, day < days ∧ p = (day, slot).
Proof.
  unfold weekPeriods. rewrite list_elem_of_fmap. split.
  - intros (day & -> & Hday%elem_of_seq). exists day. split; [lia|done].
  - intros (day & Hday & ->). exists day. split; [done|]. apply elem_of_seq. lia.
Qed.


(** ** Stores changed at some positions *)

Lemma touched_nil R secs : touched R [] secs secs.
Proof. split; [done|]. intros i. split; [by intros ?%elem_of_nil|done]. Qed.

Lemma touched_single R secs i s s' :
  secs !! i = Some s → R s s' → touched R [i] secs (<[i := s']> secs).
Proof.
  intros Hs HR. split; [by rewrite length_insert|].
  intros j. rewrite list_elem_of_singleton. split.
  - intros ->. exists s, s'. split; [done|]. split; [|done].
    apply list_lookup_insert_eq. by eapply lookup_lt_Some.
  - intros Hne. by rewrite list_lookup_insert_ne.
Qed.

Lemma touched_app R l1 l2 a b c :
  (∀ i, i ∈ l1 → i ∉ l2) →
  touched R l1 a b → touched R l2 b c → touched R (l1 ++ l2) a c.
Proof.
  intros Hdisj [Hlen1 H1] [Hlen2 H2]. split; [congruence|].
  intros i. rewrite elem_of_app. split.
  - intros [Hi|Hi].
    + destruct (H1 i) as [Hin _]. destruct (Hin Hi) as (s & s' & Hs & Hs' & HR).
      exists s, s'. split; [done|]. split; [|done].
      destruct (H2 i) as [_ Hout]. rewrite Hout; [done|]. by apply Hdisj.
    + destruct (H2 i) as [Hin _]. destruct (Hin Hi) as (s & s' & Hs & Hs' & HR).
      exists s, s'. split; [|done].
      destruct (H1 i) as [_ Hout]. rewrite <- Hout; [done|].
      intros Hi1. by apply (Hdisj i).
  - intros Hnot. destruct (H1 i) as [_ Ho1], (H2 i) as [_ Ho2].
    rewrite Ho2, Ho1; tauto.
Qed.

Lemma touched_all R secs secs' l :
  l ≡ₚ seq 0 (length secs) → touched R l secs secs' → Forall2 R secs secs'.
Proof.
  intros Hperm [Hlen H]. apply Forall2_same_length_lookup. split; [done|].
  intros i x y Hx Hy.
  destruct (H i) as [Hin _].
  destruct Hin as (s & s' & Hs & Hs' & HR).
  { rewrite Hperm. apply elem_of_seq. apply lookup_lt_Some in Hx. lia. }
  congruence.
Qed.

(** ** Phase 2: every section receives the periods of one slot *)

Lemma assignSectionSlot_eq cfg grades secs st used idx section :
  secs !! idx = Some section →
  let sched := lookupTeacherSchedule (teacherSchedules st) (teacherId section) in
  let slot := chooseSlot cfg st used grades sched in
  assignSectionSlot cfg grades (secs, st, used) idx =
    (<[idx := pushPeriods (weekPeriods (daysPerWeek cfg) slot) section]> secs,
     commitSlot cfg grades sched slot st, {[slot]} ∪ used).
Proof. intros Hs. unfold assignSectionSlot. by rewrite Hs. Qed.

Lemma assignSectionSlot_fold cfg grades idxs secs st used :
  NoDup idxs → (∀ i, i ∈ idxs → i < length secs) →
  touched (timed cfg) idxs secs
          (foldl (assignSectionSlot cfg grades) (secs, st, used) idxs).1.1.
Proof.
  revert secs st used. induction idxs as [|idx idxs IH]; intros secs st used Hnd Hlt.
  - apply touched_nil.
  - apply NoDup_cons in Hnd as [Hnotin Hnd].
    destruct (lookup_lt_is_Some_2 secs idx) as [section Hs]; [apply Hlt; left|].
    cbn [foldl]. rewrite (assignSectionSlot_eq _ _ _ _ _ _ _ Hs).
    change (idx :: idxs) with ([idx] ++ idxs). eapply touched_app.
    + by intros i ->%list_elem_of_singleton.
    + eapply touched_single; [exact Hs|]. eexists. split; [done|]. apply chooseSlot_range.
    + apply IH; [done|]. intros i Hi. rewrite length_insert. apply Hlt. by right.
Qed.

Lemma assignCourseSlots_fold cfg courseMap groups secs st :
  NoDup (concat groups.*2) → (∀ i, i ∈ concat groups.*2 → i < length secs) →
  touched (timed cfg) (concat groups.*2) secs
          (foldl (assignCourseSlots cfg courseMap) (secs, st) groups).1.
Proof.
  revert secs st. induction groups as [|[cid group] groups IH]; intros secs st Hnd Hlt.
  - apply touched_nil.
  - rewrite fmap_cons in *. cbn [snd concat] in *.
    apply NoDup_app in Hnd as (Hnd1 & Hdisj & Hnd2).
    cbn [foldl].
    pose proof (assignSectionSlot_fold cfg (courseGrades courseMap cid) group secs st ∅ Hnd1)
      as Hinner.
    unfold assignCourseSlots at 2. cbn [fst snd].
    destruct (foldl (assignSectionSlot cfg (courseGrades courseMap cid)) (secs, st, ∅) group)
      as [[secs1 st1] used1] eqn:E.
    cbn [fst snd] in *.
    assert (touched (timed cfg) group secs secs1) as Ht1.
    { apply Hinner. intros i Hi. apply Hlt. rewrite elem_of_app. by left. }
    eapply touched_app; [done|exact Ht1|].
    apply IH; [done|]. intros i Hi. destruct Ht1 as [-> _]. apply Hlt.
    rewrite elem_of_app. by right.
Qed.

Lemma assignTimeSlots_timed secs teachers cfg courseMap :
  Forall2 (timed cfg) secs (assignTimeSlots secs teachers cfg courseMap).
Proof.
  unfold assignTimeSlots.
  eapply touched_all; [apply sectionsByCourse_concat|].
  apply assignCourseSlots_fold.
  - rewrite sectionsByCourse_concat. apply NoDup_seq.
  - intros i Hi. rewrite sectionsByCourse_concat in Hi. apply elem_of_seq in Hi. lia.
Qed.

(** ** Phase 3 *)

Lemma firstMin_filter {A} (key : A → nat) (P : A → Prop) `{!∀ x, Decision (P x)} l i' x :
  firstMin key (filter P l) i' x →
  ∃ i, l !! i = Some x ∧ P x ∧
       ∀ j y, l !! j = Some y → P y → key x < key y ∨ (key x = key y ∧ i ≤ j).
Proof.
  revert i'. induction l as [|a l IH]; intros i' [Hx Hmin].
  - by rewrite filter_nil, lookup_nil in Hx.
  - rewrite filter_cons in Hx, Hmin. destruct (decide (P a)) as [Ha|Ha].
    + destruct i' as [|i']; simpl in Hx.
      * injection Hx as <-. exists 0. split; [done|]. split; [done|].
        intros [|j] y Hy Py; simpl in Hy.
        { injection Hy as <-. right. split; [done|lia]. }
        assert (y ∈ filter P l) as Hin.
        { apply list_elem_of_filter. split; [done|]. by eapply list_elem_of_lookup_2. }
        apply list_elem_of_lookup in Hin as [b Hb].
        destruct (Hmin (S b) y Hb) as [?|[? ?]]; [by left|right; split; [done|lia]].
      * destruct (IH i') as (i & Hi & Px & Hall).
        { split; [done|]. intros j y Hy.
          destruct (Hmin (S j) y Hy) as [?|[? ?]]; [by left|right; split; [done|lia]]. }
        exists (S i). split; [done|]. split; [done|].
        intros [|j] y Hy Py; simpl in Hy.
        { injection Hy as <-. destruct (Hmin 0 a eq_refl) as [?|[? ?]]; [by left|lia]. }
        destruct (Hall j y Hy Py) as [?|[? ?]]; [by left|right; split; [done|lia]].
    + destruct (IH i') as (i & Hi & Px & Hall); [by split|].
      exists (S i). split; [done|]. split; [done|].
      intros [|j] y Hy Py; simpl in Hy; [by injection Hy as <-|].
      destruct (Hall j y Hy Py) as [?|[? ?]]; [by left|right; split; [done|lia]].
Qed.

Lemma canUse_free schedule section :
  canUse schedule section = true ↔ ∀ p, p ∈ periods section → p ∉ schedule.
Proof.
  unfold canUse. rewrite forallb_forall. split.
  - intros H p Hp. specialize (H p (proj1 (list_elem_of_In _ _) Hp)).
    apply negb_true_iff, bool_decide_eq_false in H. done.
  - intros H p Hp. apply negb_true_iff, bool_decide_eq_false, H.
    by apply list_elem_of_In.
Qed.

(** The walk returns the first candidate that is free. *)
Lemma tryRooms_head section rs candidates :
  (∀ r, r ∈ candidates → is_Some (rs !! Room.id r)) →
  tryRooms section rs candidates =
    Some match head (filter (λ r, canUse (occupied rs (Room.id r)) section = true)
                            candidates) with
         | Some r => (setRoom (Room.id r) section,
                      <[Room.id r := occupied rs (Room.id r) ∪ list_to_set (periods section)]> rs)
         | None => (section, rs)
         end.
Proof.
  induction candidates as [|room rest IH]; intros Hdom; [done|].
  cbn [tryRooms]. rewrite filter_cons.
  destruct (Hdom room) as [schedule Hsched]; [left|].
  assert (occupied rs (Room.id room) = schedule) as Hocc
    by (unfold occupied; by rewrite Hsched).
  rewrite Hsched. cbn [mbind option_bind].
  destruct (canUse schedule section) eqn:Huse.
  - rewrite decide_True by (by rewrite Hocc). cbn [head]. by rewrite Hocc.
  - rewrite decide_False by (by rewrite Hocc, not_true_iff_false).
    apply IH. intros r Hr. apply Hdom. by right.
Qed.

Lemma suitableRooms_elem rooms feats section r :
  r ∈ suitableRooms rooms feats section → r ∈ rooms.
Proof.
  unfold suitableRooms. rewrite sortBy_elem, list_elem_of_filter. tauto.
Qed.

Lemma roomFits_iff courseMap rs section r :
  roomFits courseMap (occupied rs) section r ↔
  canUse (occupied rs (Room.id r)) section = true ∧
  roomSuitable (courseFeatures courseMap (courseId section)) section r.
Proof.
  unfold roomFits, roomSuitable. rewrite canUse_free, Forall_forall.
  split; intros H; repeat split; try apply H; lia.
Qed.

(** One section: the first fitting room, or none. *)
Lemma assignRoom_spec rooms courseMap rs section :
  (∀ r, r ∈ rooms → is_Some (rs !! Room.id r)) →
  ∃ section' rs',
    assignRoom rooms courseMap rs section = Some (section', rs') ∧
    ((∃ i r, firstFit rooms (roomFits courseMap (occupied rs) section) i r ∧
             section' = setRoom (Room.id r) section ∧
             rs' = <[Room.id r := occupied rs (Room.id r) ∪ list_to_set (periods section)]> rs)
     ∨ ((∀ r, r ∈ rooms → ¬ roomFits courseMap (occupied rs) section r) ∧
        section' = section ∧ rs' = rs)).
Proof.
  intros Hdom. unfold assignRoom.
  rewrite tryRooms_head by (intros r Hr%suitableRooms_elem; by apply Hdom).
  unfold suitableRooms. rewrite sortBy_filter, list_filter_filter.
  set (fit := λ r, canUse (occupied rs (Room.id r)) section = true ∧
                   roomSuitable (courseFeatures courseMap (courseId section)) section r).
  destruct (head (sortBy Room.capacity (filter fit rooms))) as [r|] eqn:Hhead.
  - eexists _, _. split; [done|]. left.
    apply sortBy_head in Hhead as [i' Hmin].
    apply firstMin_filter in Hmin as (i & Hi & Hfit & Hall).
    exists i, r. split; [|done].
    split; [done|]. split; [by apply roomFits_iff|].
    intros j r' Hj Hfits. apply Hall; [done|]. by apply roomFits_iff.
  - eexists _, _. split; [done|]. right. split; [|done].
    apply sortBy_head_None in Hhead. intros r Hr Hfits.
    eapply (filter_nil_not_elem_of fit); [exact Hhead| |exact Hr].
    by apply roomFits_iff.
Qed.

Lemma initRoomSchedules_lookup rooms rid :
  initRoomSchedules rooms !! rid =
    (λ r, list_to_set (Room.unavailable r)) <$> last (filter (λ r, Room.id r = rid) rooms).
Proof.
  unfold initRoomSchedules.
  induction rooms as [|r rooms IH] using rev_ind; [done|].
  rewrite foldl_app, filter_app. cbn [foldl]. rewrite lookup_insert, filter_cons, filter_nil.
  destruct (decide (Room.id r = rid)) as [Heq|Hne].
  - by rewrite last_snoc.
  - by rewrite app_nil_r.
Qed.

Lemma initRoomSchedules_occupied rooms rid :
  occupied (initRoomSchedules rooms) rid = seedOf rooms rid.
Proof.
  unfold occupied, seedOf. rewrite initRoomSchedules_lookup.
  by destruct (last _).
Qed.

Lemma initRoomSchedules_dom rooms r :
  r ∈ rooms → is_Some (initRoomSchedules rooms !! Room.id r).
Proof.
  intros Hr. rewrite initRoomSchedules_lookup.
  assert (r ∈ filter (λ r', Room.id r' = Room.id r) rooms) as Hin
    by (by apply list_elem_of_filter).
  destruct (filter _ rooms) as [|a l] using rev_ind; [by apply elem_of_nil in Hin|].
  rewrite last_snoc. by eexists.
Qed.

Lemma roomFits_ext courseMap occ1 occ2 section r :
  (∀ rid, occ1 rid = occ2 rid) →
  roomFits courseMap occ1 section r ↔ roomFits courseMap occ2 section r.
Proof. intros Hocc. unfold roomFits. by rewrite Hocc. Qed.

Lemma firstFit_ext rooms (fits1 fits2 : Room.t → Prop) i r :
  (∀ r, fits1 r ↔ fits2 r) → firstFit rooms fits1 i r → firstFit rooms fits2 i r.
Proof.
  intros Hiff (Hi & Hfit & Hall). split; [done|]. split; [by apply Hiff|].
  intros j r' Hj Hfits. apply Hall; [done|]. by apply Hiff.
Qed.


Lemma assignedPeriods_cons s secs rid :
  assignedPeriods (s :: secs) rid =
    (if decide (roomId s = Some rid) then list_to_set (periods s) else ∅)
    ∪ assignedPeriods secs rid.
Proof. done. Qed.

(** The loop of phase 3 from any occupancy table that knows every room. *)
Lemma assignRoomsFrom_spec rooms courseMap secs rs :
  (∀ r, r ∈ rooms → is_Some (rs !! Room.id r)) →
  Forall (λ s, roomId s = None) secs →
  ∃ secs' rs',
    assignRoomsFrom rooms courseMap rs secs = Some (secs', rs') ∧
    Forall2 roomed secs secs' ∧
    ∀ k section, secs !! k = Some section →
      ∃ section', secs' !! k = Some section' ∧
        ((∃ i r, firstFit rooms
                   (roomFits courseMap
                      (λ rid, occupied rs rid ∪ assignedPeriods (take k secs') rid) section)
                   i r ∧
                 section' = setRoom (Room.id r) section)
         ∨ ((∀ r, r ∈ rooms →
                  ¬ roomFits courseMap
                      (λ rid, occupied rs rid ∪ assignedPeriods (take k secs') rid)
                      section r) ∧
            section' = section)).
Proof.
  revert rs. induction secs as [|section rest IH]; intros rs Hdom Hnone.
  - exists [], rs. split; [done|]. split; [constructor|]. intros k s Hs.
    by rewrite lookup_nil in Hs.
  - apply Forall_cons in Hnone as [Hnone1 Hnone].
    destruct (assignRoom_spec rooms courseMap rs section Hdom)
      as (section1 & rs1 & Hstep & Hcase).
    assert (roomed section section1 ∧
            (∀ rid, occupied rs1 rid =
                    occupied rs rid ∪
                    (if decide (roomId section1 = Some rid)
                     then list_to_set (periods section1) else ∅)) ∧
            (∀ r, r ∈ rooms → is_Some (rs1 !! Room.id r))) as (Hroomed & Hocc & Hdom1).
    { destruct Hcase as [(i & r & Hfit & -> & ->)|(Hno & -> & ->)].
      - split; [right; eauto|]. split.
        + intros rid. unfold occupied at 1. rewrite lookup_insert. cbn [setRoom roomId periods].
          destruct (decide (Room.id r = rid)) as [->|Hne].
          * rewrite decide_True by done. done.
          * rewrite decide_False by congruence. rewrite union_empty_r_L. done.
        + intros r' Hr'. rewrite lookup_insert. case_decide; [by eexists|by apply Hdom].
      - split; [by left|]. split; [|done].
        intros rid. rewrite Hnone1. rewrite decide_False by done.
        by rewrite union_empty_r_L. }
    destruct (IH rs1 Hdom1 Hnone) as (rest' & rs2 & Hrest & Hall2 & Hspec).
    exists (section1 :: rest'), rs2. split.
    { cbn [assignRoomsFrom]. rewrite Hstep. cbn. rewrite Hrest. done. }
    split; [by constructor|].
    intros [|k] s Hs; cbn in Hs.
    + injection Hs as <-. exists section1. split; [done|].
      assert (∀ r, roomFits courseMap (occupied rs) section r ↔
                   roomFits courseMap
                     (λ rid, occupied rs rid ∪ assignedPeriods (take 0 (section1 :: rest')) rid)
                     section r) as Hext.
      { intros r. apply roomFits_ext. intros rid. cbn. unfold assignedPeriods. cbn.
        by rewrite union_empty_r_L. }
      destruct Hcase as [(i & r & Hfit & -> & _)|(Hno & -> & _)].
      * left. exists i, r. split; [|done]. by eapply firstFit_ext.
      * right. split; [|done]. intros r Hr Hfits. apply (Hno r Hr). by apply Hext.
    + destruct (Hspec k s Hs) as (s' & Hs' & Hcase').
      exists s'. split; [done|].
      assert (∀ r, roomFits courseMap
                     (λ rid, occupied rs1 rid ∪ assignedPeriods (take k rest') rid) s r ↔
                   roomFits courseMap
                     (λ rid, occupied rs rid ∪
                             assignedPeriods (take (S k) (section1 :: rest')) rid) s r)
        as Hext.
      { intros r. apply roomFits_ext. intros rid. cbn [take].
        rewrite assignedPeriods_cons, Hocc. by rewrite union_assoc_L. }
      destruct Hcase' as [(i & r & Hfit & ->)|(Hno & ->)].
      * left. exists i, r. split; [|done]. by eapply firstFit_ext.
      * right. split; [|done]. intros r Hr Hfits. apply (Hno r Hr). by apply Hext.
Qed.

(** ** Phase 4: one enrollment *)

Lemma hasConflict_false sched s :
  hasConflict sched s = false ↔ ∀ p, p ∈ periods s → p ∉ sched.
Proof.
  unfold hasConflict. rewrite <- not_true_iff_false, existsb_exists. split.
  - intros Hno p Hp Hin. apply Hno. exists p. split; [by apply list_elem_of_In|].
    by apply bool_decide_eq_true.
  - intros Hfree (p & Hp%list_elem_of_In & Hin%bool_decide_eq_true). by apply (Hfree p).
Qed.

Lemma list_alter_insert {A} (f : A → A) (l : list A) i x :
  l !! i = Some x → alter f i l = <[i := f x]> l.
Proof.
  intros Hx. apply list_eq. intros j.
  rewrite list_lookup_alter, list_lookup_insert.
  pose proof (lookup_lt_Some _ _ _ Hx).
  destruct (decide (i = j)) as [->|]; [|by rewrite decide_False by tauto].
  rewrite decide_True by done. by rewrite Hx.
Qed.

Lemma fmap_insert_same {A B} (f : A → B) (l : list A) i x y :
  l !! i = Some x → f y = f x → f <$> <[i := y]> l = f <$> l.
Proof.
  intros Hx Hf. rewrite list_fmap_insert, Hf. apply list_insert_id.
  by rewrite list_lookup_fmap, Hx.
Qed.

Lemma findSection_Some secs sched cands i :
  findSection secs sched cands = Some i →
  i ∈ cands ∧
  ∃ s, secs !! i = Some s ∧ length (enrolledStudents s) < capacity s ∧
       hasConflict sched s = false.
Proof.
  induction cands as [|c cands IH]; [done|]. cbn [findSection].
  destruct (secs !! c) as [s|] eqn:Hs.
  - destruct (decide (capacity s ≤ length (enrolledStudents s))) as [Hfull|Hfree].
    { intros [Hin H]%IH. split; [by right|done]. }
    destruct (hasConflict sched s) eqn:Hc.
    { intros [Hin H]%IH. split; [by right|done]. }
    intros [= <-]. split; [left|]. exists s. split; [done|]. split; [lia|done].
  - intros [Hin H]%IH. split; [by right|done].
Qed.

(** The two outcomes of [assignStudentToSection]. *)
Lemma assignStudentToSection_cases sid cid secs scheds sched :
  scheds !! sid = Some sched →
  (∃ i s, secs !! i = Some s ∧ courseId s = cid ∧
          length (enrolledStudents s) < capacity s ∧ hasConflict sched s = false ∧
          assignStudentToSection sid cid secs scheds =
            Some (true, <[i := enroll sid s]> secs,
                  <[sid := sched ∪ list_to_set (periods s)]> scheds))
  ∨ assignStudentToSection sid cid secs scheds = Some (false, secs, scheds).
Proof.
  intros Hsched. unfold assignStudentToSection. rewrite Hsched. cbn [mbind option_bind].
  destruct (findSection secs sched _) as [i|] eqn:Hfind; [left|by right].
  apply findSection_Some in Hfind as (Hin & s & Hs & Hcap & Hconf).
  exists i, s. split; [done|].
  apply sortBy_elem, courseSectionIdxs_elem in Hin. rewrite Hs in Hin.
  split; [by injection Hin|]. split; [done|]. split; [done|].
  unfold sectionPeriods. rewrite Hs. cbn. by rewrite (list_alter_insert _ _ _ _ Hs).
Qed.

Lemma schedule_grows (scheds : gmap StudentId (gset Period)) sid sid' sched new p :
  scheds !! sid = Some sched → sched ⊆ new →
  (∃ sched', scheds !! sid' = Some sched' ∧ p ∈ sched') →
  ∃ sched', <[sid := new]> scheds !! sid' = Some sched' ∧ p ∈ sched'.
Proof.
  intros Hsched Hsub (sched' & Hs' & Hp). rewrite lookup_insert.
  destruct (decide (sid = sid')) as [->|]; [|eauto].
  exists new. split; [done|]. apply Hsub. congruence.
Qed.

(** Enrolling a student in a section that does not collide with the
    student's schedule keeps the state consistent. *)
Lemma enroll_consistent secs scheds i s sid sched :
  consistent secs scheds → secs !! i = Some s → scheds !! sid = Some sched →
  hasConflict sched s = false →
  consistent (<[i := enroll sid s]> secs)
             (<[sid := sched ∪ list_to_set (periods s)]> scheds).
Proof.
  intros [Hcov Hno] Hs Hsched Hfree. rewrite hasConflict_false in Hfree.
  assert (∀ j s' p, j ≠ i → secs !! j = Some s' → sid ∈ enrolledStudents s' →
                    p ∈ periods s' → p ∉ periods s) as Hnew.
  { intros j s' p Hne Hs' Hin Hp Hp'.
    destruct (Hcov j s' sid p Hs' Hin Hp) as (sched' & Hsch & Hps).
    apply (Hfree p Hp'). congruence. }
  split.
  - intros j s' sid' p Hj Hin Hp.
    apply list_lookup_insert_Some in Hj as [(-> & <- & Hlt)|(Hne & Hj)].
    + cbn in Hin, Hp. apply elem_of_app in Hin as [Hin| ->%list_elem_of_singleton].
      * eapply schedule_grows; [done|set_solver|]. by eapply Hcov.
      * rewrite lookup_insert_eq. eexists. split; [done|]. set_solver.
    + eapply schedule_grows; [done|set_solver|]. by eapply Hcov.
  - intros a b sa sb sid' p Hab Ha Hb Hina Hinb Hp Hp'.
    apply list_lookup_insert_Some in Ha as [(<- & <- & Hlta)|(Hnea & Ha)];
      apply list_lookup_insert_Some in Hb as [(<- & <- & Hltb)|(Hneb & Hb)];
      cbn in *; try done.
    + apply elem_of_app in Hina as [Hina| ->%list_elem_of_singleton].
      * by apply (Hno i b s sb sid' p).
      * by apply (Hnew b sb p).
    + apply elem_of_app in Hinb as [Hinb| ->%list_elem_of_singleton].
      * by apply (Hno a i sa s sid' p).
      * by apply (Hnew a sa p).
    + by apply (Hno a b sa sb sid' p).
Qed.

Lemma assignStudentToSection_consistent sid cid secs scheds b secs' scheds' :
  consistent secs scheds →
  assignStudentToSection sid cid secs scheds = Some (b, secs', scheds') →
  consistent secs' scheds'.
Proof.
  intros Hcons Hrun.
  destruct (scheds !! sid) as [sched|] eqn:Hsched;
    [|by unfold assignStudentToSection in Hrun; rewrite Hsched in Hrun].
  destruct (assignStudentToSection_cases sid cid secs scheds sched Hsched)
    as [(i & s & Hs & _ & _ & Hfree & Heq)|Heq];
    rewrite Heq in Hrun; injection Hrun as <- <- <-; [|done].
  by apply enroll_consistent.
Qed.

Lemma assignStudentToSection_fixed sid cid secs scheds b secs' scheds' :
  assignStudentToSection sid cid secs scheds = Some (b, secs', scheds') →
  fixedPart <$> secs' = fixedPart <$> secs.
Proof.
  intros Hrun.
  destruct (scheds !! sid) as [sched|] eqn:Hsched;
    [|by unfold assignStudentToSection in Hrun; rewrite Hsched in Hrun].
  destruct (assignStudentToSection_cases sid cid secs scheds sched Hsched)
    as [(i & s & Hs & _ & _ & Hfree & Heq)|Heq];
    rewrite Heq in Hrun; injection Hrun as <- <- <-; [|done].
  by eapply fmap_insert_same.
Qed.

Lemma foldM_total_elem {A B} (P : B → Prop) (f : B → A → option B) l b :
  (∀ b x, x ∈ l → P b → ∃ b', f b x = Some b' ∧ P b') →
  P b → ∃ b', foldM f b l = Some b' ∧ P b'.
Proof.
  revert b. induction l as [|x l IH]; simpl; intros b Hstep Hb; [eauto|].
  destruct (Hstep b x) as (b1 & -> & Hb1); [left|done|]. simpl.
  apply IH; [|done]. intros b' y Hy. apply Hstep. by right.
Qed.

(** ** Phase 4: the two passes *)

Lemma list_elem_of_insert_inv {A} (l : list A) i x y :
  y ∈ <[i := x]> l → y = x ∨ y ∈ l.
Proof.
  intros [j Hj]%list_elem_of_lookup.
  apply list_lookup_insert_Some in Hj as [(_ & -> & _)|(_ & Hj)]; [by left|right].
  by eapply list_elem_of_lookup_2.
Qed.

Lemma assignStudentToSection_inv sts F student cid st :
  student ∈ sts → greedyInv sts F st →
  ∃ b secs scheds,
    assignStudentToSection (Student.id student) cid (g_sections st) (g_schedules st) =
      Some (b, secs, scheds) ∧
    ∀ un, greedyInv sts F (mkGreedy secs scheds un).
Proof.
  intros Hstudent (Hdom & Hcons & Hids & Hfix).
  destruct (Hdom student Hstudent) as [sched Hsched].
  destruct (assignStudentToSection_cases (Student.id student) cid (g_sections st)
              (g_schedules st) sched Hsched)
    as [(i & s & Hs & _ & _ & Hfree & Heq)|Heq]; rewrite Heq; eexists _, _, _;
    (split; [done|]); intros un;
    [|by unfold greedyInv; cbn [g_sections g_schedules]].
  split; [|split; [|split]]; cbn [g_sections g_schedules].
  - intros s' Hs'. apply lookup_insert_is_Some'. right. by apply Hdom.
  - by apply enroll_consistent.
  - intros sec sid' [->|Hsec]%list_elem_of_insert_inv Hin.
    + cbn in Hin. apply elem_of_app in Hin as [Hin| ->%list_elem_of_singleton].
      * eapply Hids; [|done]. by eapply list_elem_of_lookup_2.
      * apply list_elem_of_fmap. by exists student.
    + by eapply Hids.
  - rewrite <- Hfix. by eapply fmap_insert_same.
Qed.

Lemma requiredStep_inv courseMap sts F student st cid :
  student ∈ sts → greedyInv sts F st →
  ∃ st', requiredStep courseMap student st cid = Some st' ∧ greedyInv sts F st'.
Proof.
  intros Hstudent Hinv. unfold requiredStep.
  destruct (courseMap !! cid) as [course|]; [|by eexists].
  destruct (gradeExcluded course (Student.grade student)); [by eexists|].
  destruct (assignStudentToSection_inv sts F student cid st Hstudent Hinv)
    as (b & secs & scheds & -> & Hinv').
  cbn. destruct b; eexists; (split; [done|]); apply Hinv'.
Qed.

Lemma electiveStep_inv courseMap sts F student st cid :
  student ∈ sts → greedyInv sts F st →
  ∃ st', electiveStep courseMap student st cid = Some st' ∧ greedyInv sts F st'.
Proof.
  intros Hstudent Hinv. unfold electiveStep.
  destruct (courseMap !! cid) as [course|]; [|by eexists].
  destruct (gradeExcluded course (Student.grade student)); [by eexists|].
  destruct (assignStudentToSection_inv sts F student cid st Hstudent Hinv)
    as (b & secs & scheds & -> & Hinv').
  cbn. eexists. split; [done|]. apply Hinv'.
Qed.

Lemma initStudentSchedules_lookup sts sid :
  initStudentSchedules sts !! sid =
    if decide (sid ∈ Student.id <$> sts) then Some ∅ else None.
Proof.
  unfold initStudentSchedules.
  induction sts as [|s sts IH] using rev_ind; [done|].
  rewrite foldl_app, fmap_app. cbn [foldl]. rewrite lookup_insert, IH.
  change (Student.id <$> [s]) with [Student.id s].
  destruct (decide (Student.id s = sid)) as [->|Hne].
  - rewrite decide_True; [done|]. rewrite elem_of_app, list_elem_of_singleton. tauto.
  - destruct (decide (sid ∈ Student.id <$> sts)) as [Hin|Hnin].
    + rewrite decide_True; [done|]. rewrite elem_of_app. tauto.
    + rewrite decide_False; [done|].
      rewrite elem_of_app, list_elem_of_singleton. intros [?|?]; congruence.
Qed.

Lemma consistent_unenrolled secs scheds :
  Forall (λ s, enrolledStudents s = []) secs → consistent secs scheds.
Proof.
  intros Hempty. rewrite Forall_forall in Hempty.
  assert (∀ i s sid, secs !! i = Some s → sid ∉ enrolledStudents s) as Hno.
  { intros i s sid Hs. rewrite (Hempty s); [apply not_elem_of_nil|].
    by eapply list_elem_of_lookup_2. }
  split.
  - intros i s sid p Hs Hin. exfalso. by apply (Hno i s sid Hs).
  - intros i j s s' sid p _ Hs _ Hin. exfalso. by apply (Hno i s sid Hs).
Qed.

Lemma greedyInv_init sts secs un :
  Forall (λ s, enrolledStudents s = []) secs →
  greedyInv sts (fixedPart <$> secs) (mkGreedy secs (initStudentSchedules sts) un).
Proof.
  intros Hempty. rewrite Forall_forall in Hempty.
  assert (∀ i s sid, secs !! i = Some s → sid ∉ enrolledStudents s) as Hno.
  { intros i s sid Hs. rewrite (Hempty s); [apply not_elem_of_nil|].
    by eapply list_elem_of_lookup_2. }
  split; [|split; [|split]]; cbn [g_sections g_schedules].
  - intros s Hs. rewrite initStudentSchedules_lookup, decide_True; [by eexists|].
    apply list_elem_of_fmap. by exists s.
  - split.
    + intros i s sid p Hs Hin. exfalso. by apply (Hno i s sid Hs).
    + intros i j s s' sid p _ Hs _ Hin. exfalso. by apply (Hno i s sid Hs).
  - intros sec sid Hsec Hin. rewrite (Hempty sec Hsec) in Hin. by apply elem_of_nil in Hin.
  - done.
Qed.

(** Phase 4 runs to the end and keeps the invariant. *)
Lemma runGreedyAssignment_inv secs input courseMap un :
  Forall (λ s, enrolledStudents s = []) secs →
  ∃ st, runGreedyAssignment secs input courseMap un = Some st ∧
        greedyInv (students input) (fixedPart <$> secs) st.
Proof.
  intros Hempty. unfold runGreedyAssignment, requiredPass, electivePass.
  set (P := greedyInv (students input) (fixedPart <$> secs)).
  destruct (foldM_total_elem P
              (λ st student, foldM (requiredStep courseMap student) st
                                   (Student.requiredCourses student))
              (students input)
              (mkGreedy secs (initStudentSchedules (students input)) un))
    as (st1 & -> & Hst1).
  { intros st student Hstudent Hst. apply (foldM_total P); [|done].
    intros st' cid Hst'. by apply requiredStep_inv. }
  { by apply greedyInv_init. }
  cbn. apply (foldM_total_elem P); [|done].
  intros st student Hstudent Hst. apply (foldM_total P); [|done].
  intros st' cid Hst'. by apply electiveStep_inv.
Qed.

(** ** Phase 5: the schedule table is rebuilt from the sections *)

Lemma addSectionPeriods_grows section m sid' sid p :
  (∃ sched, m !! sid = Some sched ∧ p ∈ sched) →
  ∃ sched, addSectionPeriods section m sid' !! sid = Some sched ∧ p ∈ sched.
Proof.
  intros Hhas. unfold addSectionPeriods.
  destruct (m !! sid') as [sched'|] eqn:Hs'; [|done].
  eapply schedule_grows; [done|set_solver|done].
Qed.

Lemma addSectionPeriods_is_Some section m sid' sid :
  is_Some (m !! sid) → is_Some (addSectionPeriods section m sid' !! sid).
Proof.
  intros Hsome. unfold addSectionPeriods.
  destruct (m !! sid') as [sched'|] eqn:Hs'; [|done].
  apply lookup_insert_is_Some'. by right.
Qed.

Lemma addSectionPeriods_fold_grows section l m sid p :
  (∃ sched, m !! sid = Some sched ∧ p ∈ sched) →
  ∃ sched, foldl (addSectionPeriods section) m l !! sid = Some sched ∧ p ∈ sched.
Proof.
  revert m. induction l as [|x l IH]; intros m Hhas; [done|].
  cbn [foldl]. by apply IH, addSectionPeriods_grows.
Qed.

Lemma addSectionPeriods_fold_is_Some section l m sid :
  is_Some (m !! sid) → is_Some (foldl (addSectionPeriods section) m l !! sid).
Proof.
  revert m. induction l as [|x l IH]; intros m Hsome; [done|].
  cbn [foldl]. by apply IH, addSectionPeriods_is_Some.
Qed.

Lemma addSectionPeriods_fold_adds section l m sid p :
  is_Some (m !! sid) → sid ∈ l → p ∈ periods section →
  ∃ sched, foldl (addSectionPeriods section) m l !! sid = Some sched ∧ p ∈ sched.
Proof.
  revert m. induction l as [|x l IH]; intros m Hsome Hin Hp; [by apply elem_of_nil in Hin|].
  cbn [foldl]. apply elem_of_cons in Hin as [->|Hin].
  - apply addSectionPeriods_fold_grows. unfold addSectionPeriods.
    destruct Hsome as [sched ->]. rewrite lookup_insert_eq.
    eexists. split; [done|]. set_solver.
  - apply IH; [|done|done]. by apply addSectionPeriods_is_Some.
Qed.

Lemma buildStudentSchedules_from_grows secs m sid p :
  (∃ sched, m !! sid = Some sched ∧ p ∈ sched) →
  ∃ sched,
    foldl (λ m section, foldl (addSectionPeriods section) m (enrolledStudents section))
          m secs !! sid = Some sched ∧ p ∈ sched.
Proof.
  revert m. induction secs as [|x secs IH]; intros m Hhas; [done|].
  cbn [foldl]. by apply IH, addSectionPeriods_fold_grows.
Qed.

Lemma buildStudentSchedules_from_covered secs m :
  (∀ s sid, s ∈ secs → sid ∈ enrolledStudents s → is_Some (m !! sid)) →
  covered secs
    (foldl (λ m section, foldl (addSectionPeriods section) m (enrolledStudents section))
           m secs) ∧
  ∀ sid, is_Some (m !! sid) →
    is_Some (foldl (λ m section, foldl (addSectionPeriods section) m
                                       (enrolledStudents section)) m secs !! sid).
Proof.
  revert m. induction secs as [|section secs IH]; intros m Hknown.
  - split; [|done]. intros i s sid p Hs. by rewrite lookup_nil in Hs.
  - cbn [foldl].
    set (m1 := foldl (addSectionPeriods section) m (enrolledStudents section)).
    assert (∀ sid, is_Some (m !! sid) → is_Some (m1 !! sid)) as Hmono
      by (intros sid; apply addSectionPeriods_fold_is_Some).
    destruct (IH m1) as [Hcov Hsome].
    { intros s sid Hs Hin. apply Hmono. eapply Hknown; [by right|done]. }
    split; [|intros sid Hsid; by apply Hsome, Hmono].
    intros [|i] s sid p Hs Hin Hp; cbn in Hs.
    + injection Hs as <-. apply buildStudentSchedules_from_grows.
      apply addSectionPeriods_fold_adds; [|done|done]. eapply Hknown; [left|done].
    + by eapply Hcov.
Qed.

Lemma buildStudentSchedules_covered secs sts :
  (∀ s sid, s ∈ secs → sid ∈ enrolledStudents s → sid ∈ Student.id <$> sts) →
  covered secs (buildStudentSchedules secs sts) ∧
  enrolledKnown secs (buildStudentSchedules secs sts).
Proof.
  intros Hids.
  assert (∀ s sid, s ∈ secs → sid ∈ enrolledStudents s →
                   is_Some (initStudentSchedules sts !! sid)) as Hknown.
  { intros s sid Hs Hin. rewrite initStudentSchedules_lookup, decide_True; [by eexists|].
    by eapply Hids. }
  destruct (buildStudentSchedules_from_covered secs _ Hknown) as [Hcov Hsome].
  split; [done|]. intros s sid Hs Hin. apply Hsome. by eapply Hknown.
Qed.

(** ** Phase 5: one tentative move *)

Lemma lookup_insert_known (scheds : gmap StudentId (gset Period)) sid new secs :
  enrolledKnown secs scheds → enrolledKnown secs (<[sid := new]> scheds).
Proof.
  intros Hknown s sid' Hs Hin. apply lookup_insert_is_Some'. right. by eapply Hknown.
Qed.

Lemma tryMove_core smallest largest sm lg st sid sched :
  consistent (o_sections st) (o_schedules st) →
  o_sections st !! smallest = Some sm → o_sections st !! largest = Some lg →
  smallest ≠ largest → sid ∈ enrolledStudents lg →
  o_schedules st !! sid = Some sched →
  ∃ b st', tryMove smallest largest sm lg st sid = Some (b, st') ∧
           consistent (o_sections st') (o_schedules st') ∧
           fixedPart <$> o_sections st' = fixedPart <$> o_sections st ∧
           (b = false → o_sections st' = o_sections st) ∧
           (∀ x, is_Some (o_schedules st !! x) → is_Some (o_schedules st' !! x)) ∧
           (∀ s x, s ∈ o_sections st' → x ∈ enrolledStudents s →
                   x = sid ∨ ∃ s0, s0 ∈ o_sections st ∧ x ∈ enrolledStudents s0).
Proof.
  intros [Hcov Hno] Hsm Hlg Hne Hin Hsched.
  unfold tryMove. rewrite Hsched. cbn [mbind option_bind].
  set (removed := sched ∖ list_to_set (periods lg)).
  assert (∀ j s p, j ≠ largest → o_sections st !! j = Some s → sid ∈ enrolledStudents s →
                   p ∈ periods s → p ∈ removed) as Hrem.
  { intros j s p Hj Hs Hins Hp. apply elem_of_difference. split.
    - destruct (Hcov j s sid p Hs Hins Hp) as (sched' & Hs' & Hp'). congruence.
    - rewrite elem_of_list_to_set. by apply (Hno j largest s lg sid p). }
  destruct (negb (hasConflict removed sm) &&
            bool_decide (length (enrolledStudents sm) < capacity sm)) eqn:Hok.
  - apply andb_true_iff in Hok as [Hfree%negb_true_iff _].
    rewrite hasConflict_false in Hfree.
    eexists _, _. split; [done|].
    set (lg' := setEnrolled (filter (λ x, x ≠ sid) (enrolledStudents lg)) lg).
    assert (∀ j s, <[smallest := enroll sid sm]> (<[largest := lg']> (o_sections st)) !! j
                   = Some s →
                   (j = smallest ∧ s = enroll sid sm) ∨
                   (j = largest ∧ j ≠ smallest ∧ s = lg') ∨
                   (j ≠ smallest ∧ j ≠ largest ∧ o_sections st !! j = Some s)) as Hcases.
    { intros j s Hj.
      apply list_lookup_insert_Some in Hj as [(<- & <- & _)|(Hj1 & Hj)]; [by left|].
      apply list_lookup_insert_Some in Hj as [(<- & <- & _)|(Hj2 & Hj)]; [right; by left|].
      right. right. done. }
    assert (∀ j s sid', <[smallest := enroll sid sm]> (<[largest := lg']> (o_sections st)) !! j
                        = Some s → sid' ∈ enrolledStudents s → sid' ≠ sid →
                        ∃ s0, o_sections st !! j = Some s0 ∧ sid' ∈ enrolledStudents s0 ∧
                              periods s0 = periods s) as Hold.
    { intros j s sid' Hj Hins Hsid.
      destruct (Hcases j s Hj) as [[-> ->]|[(-> & _ & ->)|(_ & _ & Hj')]].
      - exists sm. split; [done|]. split; [|done]. cbn in Hins.
        apply elem_of_app in Hins as [?|?%list_elem_of_singleton]; done.
      - exists lg. split; [done|]. split; [|done]. cbn in Hins.
        by apply list_elem_of_filter in Hins as [_ ?].
      - by exists s. }
    assert (∀ j s, <[smallest := enroll sid sm]> (<[largest := lg']> (o_sections st)) !! j
                   = Some s → sid ∈ enrolledStudents s →
                   ∀ p, p ∈ periods s →
                        (j = smallest ∧ p ∈ periods sm) ∨ (j ≠ smallest ∧ p ∈ removed))
      as Hmine.
    { intros j s Hj Hins p Hp.
      destruct (Hcases j s Hj) as [[-> ->]|[(-> & _ & ->)|(Hj1 & Hj2 & Hj')]].
      - by left.
      - cbn in Hins. apply list_elem_of_filter in Hins as [? _]. done.
      - right. split; [done|]. by eapply Hrem. }
    split; [split|split; [|split; [done|split]]]; cbn [o_sections o_schedules].
    + intros j s sid' p Hj Hins Hp.
      destruct (decide (sid' = sid)) as [->|Hsid].
      * rewrite lookup_insert_eq. eexists. split; [done|].
        destruct (Hmine j s Hj Hins p Hp) as [[_ ?]|[_ ?]]; set_solver.
      * rewrite lookup_insert_ne by done.
        destruct (Hold j s sid' Hj Hins Hsid) as (s0 & Hs0 & Hin0 & Hper).
        rewrite <- Hper in Hp. by eapply Hcov.
    + intros a b sa sb sid' p Hab Ha Hb Hina Hinb Hp Hp'.
      destruct (decide (sid' = sid)) as [->|Hsid].
      * destruct (Hmine a sa Ha Hina p Hp) as [[-> Hpa]|[Hna Hpa]];
          destruct (Hmine b sb Hb Hinb p Hp') as [[-> Hpb]|[Hnb Hpb]]; try done.
        -- by apply (Hfree p).
        -- by apply (Hfree p).
        -- destruct (Hcases a sa Ha) as [[-> _]|[(-> & _ & ->)|(_ & Ha2 & Ha')]]; [done| |].
           { cbn in Hina. by apply list_elem_of_filter in Hina as [? _]. }
           destruct (Hcases b sb Hb) as [[-> _]|[(-> & _ & ->)|(_ & Hb2 & Hb')]]; [done| |].
           { cbn in Hinb. by apply list_elem_of_filter in Hinb as [? _]. }
           by apply (Hno a b sa sb sid p).
      * destruct (Hold a sa sid' Ha Hina Hsid) as (sa0 & Hsa0 & Hina0 & Hpera).
        destruct (Hold b sb sid' Hb Hinb Hsid) as (sb0 & Hsb0 & Hinb0 & Hperb).
        rewrite <- Hpera in Hp. rewrite <- Hperb in Hp'.
        by apply (Hno a b sa0 sb0 sid' p).
    + rewrite (fmap_insert_same fixedPart _ smallest sm); [| |done].
      * by eapply fmap_insert_same.
      * by rewrite list_lookup_insert_ne.
    + intros x Hx. apply lookup_insert_is_Some'. by right.
    + intros s sid' [j Hj]%list_elem_of_lookup Hins.
      destruct (decide (sid' = sid)) as [|Hsid]; [by left|right].
      destruct (Hold j s sid' Hj Hins) as (s0 & Hs0 & Hin0 & _); [done|].
      exists s0. split; [|done]. by eapply list_elem_of_lookup_2.
  - eexists _, _. split; [done|].
    split; [split|split; [|split; [done|split]]]; cbn [o_sections o_schedules];
      [|done|done| |].
    + intros j s sid' p Hj Hins Hp.
      eapply schedule_grows; [done| |by eapply Hcov].
      subst removed. intros q Hq.
      destruct (decide (q ∈ (list_to_set (periods lg) : gset Period))); set_solver.
    + intros x Hx. apply lookup_insert_is_Some'. by right.
    + intros s x Hs Hx. right. by exists s.
Qed.

Lemma tryMove_inv F smallest largest sm lg st sid :
  optInv F st →
  o_sections st !! smallest = Some sm → o_sections st !! largest = Some lg →
  smallest ≠ largest → sid ∈ enrolledStudents lg →
  ∃ b st', tryMove smallest largest sm lg st sid = Some (b, st') ∧ optInv F st' ∧
           (b = false → o_sections st' = o_sections st).
Proof.
  intros (Hcons & Hknown & Hfix) Hsm Hlg Hne Hin.
  destruct (Hknown lg sid) as [sched Hsched]; [by eapply list_elem_of_lookup_2|done|].
  destruct (tryMove_core smallest largest sm lg st sid sched Hcons Hsm Hlg Hne Hin Hsched)
    as (b & st' & Hrun & Hcons' & Hfix' & Hsame & Hmono & Hids).
  exists b, st'. split; [done|]. split; [|done].
  split; [done|]. split; [|congruence].
  intros s x Hs Hx. destruct (Hids s x Hs Hx) as [->|(s0 & Hs0 & Hx0)].
  - apply Hmono. by rewrite Hsched.
  - apply Hmono. by eapply Hknown.
Qed.

(** ** Phase 5: the loops *)

Lemma tryMoves_inv F smallest largest sm lg cands st :
  optInv F st →
  o_sections st !! smallest = Some sm → o_sections st !! largest = Some lg →
  smallest ≠ largest → (∀ sid, sid ∈ cands → sid ∈ enrolledStudents lg) →
  ∃ b st', tryMoves smallest largest sm lg st cands = Some (b, st') ∧ optInv F st'.
Proof.
  revert st. induction cands as [|sid cands IH]; intros st Hinv Hsm Hlg Hne Hcands.
  - by eexists _, _.
  - cbn [tryMoves].
    destruct (tryMove_inv F smallest largest sm lg st sid Hinv Hsm Hlg Hne)
      as (b & st1 & -> & Hinv1 & Hsame); [apply Hcands; left|].
    cbn. destruct b; [by eexists _, _|].
    rewrite <- (Hsame eq_refl) in Hsm, Hlg.
    apply IH; try done. intros sid' Hin. apply Hcands. by right.
Qed.

Lemma optimizeCourse_inv F st group :
  optInv F st →
  ∃ b st' group', optimizeCourse st group = Some (b, st', group') ∧ optInv F st' ∧
                  group' ≡ₚ group.
Proof.
  intros Hinv. unfold optimizeCourse.
  destruct (decide (length group < 2)); [by eexists _, _, _|].
  set (sorted := sortBy (enrolledCount (o_sections st)) group).
  assert (sorted ≡ₚ group) as Hperm by apply sortBy_perm.
  destruct (head sorted) as [smallest|]; cbn [mbind option_bind];
    [|by eexists _, _, _].
  destruct (o_sections st !! smallest) as [sm|] eqn:Hsm; cbn [fmap option_fmap option_map];
    [|by eexists _, _, _].
  destruct (last sorted) as [largest|]; cbn [mbind option_bind];
    [|by eexists _, _, _].
  destruct (o_sections st !! largest) as [lg|] eqn:Hlg; cbn [fmap option_fmap option_map];
    [|by eexists _, _, _].
  destruct (decide (length (enrolledStudents lg) - length (enrolledStudents sm) ≤ 1))
    as [|Hdiff]; [by eexists _, _, _|].
  assert (smallest ≠ largest) as Hne.
  { intros ->. rewrite Hsm in Hlg. injection Hlg as ->. lia. }
  destruct (tryMoves_inv F smallest largest sm lg (enrolledStudents lg) st Hinv Hsm Hlg Hne)
    as (b & st' & -> & Hinv'); [done|].
  cbn. by eexists _, _, _.
Qed.

Lemma optimizePass_inv F groups st :
  optInv F st →
  ∃ b st' groups', optimizePass st groups = Some (b, st', groups') ∧ optInv F st' ∧
                   Forall2 (λ g g', g'.1 = g.1 ∧ g'.2 ≡ₚ g.2) groups groups'.
Proof.
  revert st. induction groups as [|[cid group] groups IH]; intros st Hinv.
  - eexists _, _, _. split; [done|]. split; [done|constructor].
  - cbn [optimizePass].
    destruct (optimizeCourse_inv F st group Hinv) as (b1 & st1 & group' & -> & Hinv1 & Hperm).
    cbn. destruct (IH st1 Hinv1) as (b2 & st2 & groups' & -> & Hinv2 & Hall).
    cbn. eexists _, _, _. split; [done|]. split; [done|]. by constructor.
Qed.

Lemma optimizeLoop_inv F n groups st :
  optInv F st → ∃ k st', optimizeLoop n st groups = Some (k, st') ∧ optInv F st'.
Proof.
  revert st groups. induction n as [|n IH]; intros st groups Hinv.
  - by eexists _, _.
  - cbn [optimizeLoop].
    destruct (optimizePass_inv F groups st Hinv) as (b & st1 & groups' & -> & Hinv1 & _).
    cbn. destruct b; [|by eexists _, _].
    destruct (IH st1 groups' Hinv1) as (k & st2 & -> & Hinv2).
    cbn. by eexists _, _.
Qed.

(** ** The pipeline runs to the end *)

Lemma timed_unfurnished cfg s s' :
  timed cfg s s' → unfurnished s → roomId s' = None ∧ enrolledStudents s' = [].
Proof. intros (slot & -> & _) (Hr & _ & He). done. Qed.

Lemma roomed_enrolled s s' : roomed s s' → enrolledStudents s' = enrolledStudents s.
Proof. by intros [->|[r ->]]. Qed.

Lemma roomed_periods s s' : roomed s s' → periods s' = periods s.
Proof. by intros [->|[r ->]]. Qed.

Lemma pipeline_runs input options :
  let courseMap := buildCourseMap (courses input) in
  let secs1 := createSections (courses input) (teachers input) in
  let secs2 := assignTimeSlots secs1 (teachers input) (config input) courseMap in
  ∃ secs3 rs g k o,
    assignRoomsFrom (rooms input) courseMap (initRoomSchedules (rooms input)) secs2 =
      Some (secs3, rs) ∧
    runGreedyAssignment secs3 input courseMap [] = Some g ∧
    assignmentPhases input = Some g ∧
    rebalancePhase input options (g_sections g) = Some (k, o) ∧
    Forall2 (timed (config input)) secs1 secs2 ∧
    Forall2 roomed secs2 secs3 ∧
    greedyInv (students input) (fixedPart <$> secs3) g ∧
    optInv (fixedPart <$> secs3) o.
Proof.
  intros courseMap secs1 secs2.
  pose proof (createSections_unfurnished (courses input) (teachers input)) as H1.
  fold secs1 in H1.
  pose proof (assignTimeSlots_timed secs1 (teachers input) (config input) courseMap) as H2.
  fold secs2 in H2.
  assert (Forall (λ s, roomId s = None ∧ enrolledStudents s = []) secs2) as H2'.
  { apply Forall_lookup. intros i s' Hs'.
    destruct (Forall2_lookup_r _ _ _ _ _ H2 Hs') as (s & Hs & Ht).
    eapply timed_unfurnished; [done|].
    rewrite Forall_lookup in H1. by eapply H1. }
  destruct (assignRoomsFrom_spec (rooms input) courseMap secs2 (initRoomSchedules (rooms input)))
    as (secs3 & rs & Hrooms & H3 & _).
  { apply initRoomSchedules_dom. }
  { eapply Forall_impl; [exact H2'|]. by intros s [? _]. }
  assert (Forall (λ s, enrolledStudents s = []) secs3) as H3'.
  { apply Forall_lookup. intros i s' Hs'.
    destruct (Forall2_lookup_r _ _ _ _ _ H3 Hs') as (s & Hs & Ht).
    rewrite (roomed_enrolled _ _ Ht).
    rewrite Forall_lookup in H2'. by eapply H2'. }
  destruct (runGreedyAssignment_inv secs3 input courseMap [] H3') as (g & Hg & Hginv).
  assert (assignmentPhases input = Some g) as Hphases.
  { unfold assignmentPhases, assignRooms. fold courseMap secs1 secs2.
    rewrite Hrooms. done. }
  destruct Hginv as (Hdom & Hcons & Hids & Hfix).
  destruct (buildStudentSchedules_covered (g_sections g) (students input) Hids)
    as [Hcov Hknown].
  destruct (optimizeLoop_inv (fixedPart <$> secs3)
              (default 500 (maxOptimizationIterations options))
              (sectionsByCourse (g_sections g))
              (mkOpt (g_sections g) (buildStudentSchedules (g_sections g) (students input))))
    as (k & o & Hloop & Hoinv).
  { split; [split; [done|apply Hcons]|]. split; done. }
  exists secs3, rs, g, k, o.
  split; [done|]. split; [done|]. split; [done|]. split; [exact Hloop|].
  split; [done|]. split; [done|]. split; [|done].
  split; [done|]. split; [done|]. split; done.
Qed.

(** ** The number of iterations of the rebalancing loop *)

Lemma optimizeLoop_bound n st groups k st' :
  optimizeLoop n st groups = Some (k, st') →
  k ≤ n ∧
  (0 < n → 0 < k) ∧
  (∃ g', afterPasses k st groups = Some (st', g')) ∧
  (∀ i, S i < k → passImproved i st groups true) ∧
  (k < n → ∃ i, k = S i ∧ passImproved i st groups false).
Proof.
  revert st groups k st'. induction n as [|n IH]; intros st groups k st'.
  - intros [= <- <-]. split; [done|]. split; [lia|]. split; [by eexists|].
    split; intros; lia.
  - cbn [optimizeLoop].
    destruct (optimizePass st groups) as [[[improved st1] groups1]|] eqn:Hpass; [|done].
    cbn. destruct improved.
    + destruct (optimizeLoop n st1 groups1) as [[k1 st2]|] eqn:Hloop; [|done].
      cbn. intros [= <- <-].
      destruct (IH _ _ _ _ Hloop) as (Hle & Hpos & [g' Hafter] & Himp & Hstop).
      split; [lia|]. split; [lia|]. split.
      { exists g'. cbn [afterPasses]. by rewrite Hpass. }
      split.
      * intros [|i] Hi.
        -- exists st, groups, st1, groups1. by split.
        -- destruct (Himp i) as (sti & gi & sti' & gi' & Ha & Hp); [lia|].
           exists sti, gi, sti', gi'. split; [|done]. cbn [afterPasses]. by rewrite Hpass.
      * intros Hlt. destruct Hstop as (i & -> & sti & gi & sti' & gi' & Ha & Hp); [lia|].
        exists (S i). split; [done|]. exists sti, gi, sti', gi'. split; [|done].
        cbn [afterPasses]. by rewrite Hpass.
    + intros [= <- <-]. split; [lia|]. split; [lia|]. split.
      { exists groups1. cbn [afterPasses]. by rewrite Hpass. }
      split; [intros i Hi; lia|].
      intros _. exists 0. split; [done|]. exists st, groups, st1, groups1. by split.
Qed.

(** ** What the later phases leave of the sections of phase 1 *)

Lemma static_fixedPart (l l' : list Section) :
  fixedPart <$> l' = fixedPart <$> l → static <$> l' = static <$> l.
Proof.
  intros H.
  assert (∀ l0 : list Section,
            static <$> l0 = (λ f, (f.1.1.1.1.1, f.1.1.1.1.2, f.1.1.1.2, f.2)) <$>
                              (fixedPart <$> l0)) as Heq.
  { intros l0. rewrite <- list_fmap_compose. by apply list_fmap_ext. }
  by rewrite !Heq, H.
Qed.

Lemma static_Forall2 (R : Section → Section → Prop) (l l' : list Section) :
  (∀ s s', R s s' → static s' = static s) →
  Forall2 R l l' → static <$> l' = static <$> l.
Proof. intros HR Hall. induction Hall; cbn; [done|]. f_equal; eauto. Qed.

Lemma pipeline_static input options g k o :
  assignmentPhases input = Some g →
  rebalancePhase input options (g_sections g) = Some (k, o) →
  static <$> o_sections o = static <$> createSections (courses input) (teachers input).
Proof.
  intros Hphases Hreb.
  destruct (pipeline_runs input options)
    as (secs3 & rs & g0 & k0 & o0 & _ & _ & Hphases0 & Hreb0 & H2 & H3 & Hg & Ho).
  rewrite Hphases in Hphases0. injection Hphases0 as <-.
  rewrite Hreb in Hreb0. injection Hreb0 as <- <-.
  destruct Ho as (_ & _ & Hfix).
  rewrite (static_fixedPart _ _ Hfix).
  rewrite (static_Forall2 roomed _ _ ltac:(by intros s s' [->|[r ->]]) H3).
  apply (static_Forall2 (timed (config input))); [|done].
  by intros s s' (slot & -> & _).
Qed.

(** ** The seed of the occupancy table *)


(** ** The rebalancer as a sequence of tentative moves *)

Lemma tryMove_sections smallest largest sm lg st sid b st' :
  o_sections st !! smallest = Some sm → o_sections st !! largest = Some lg →
  smallest ≠ largest →
  tryMove smallest largest sm lg st sid = Some (b, st') →
  o_sections st' =
    (if b then moveStudent smallest largest sid (o_sections st) else o_sections st).
Proof.
  intros Hsm Hlg Hne. unfold tryMove.
  destruct (o_schedules st !! sid) as [sched|]; [|done]. cbn [mbind option_bind].
  destruct (_ && _); intros [= <- <-]; [|done].
  cbn [o_sections]. unfold moveStudent.
  rewrite (list_alter_insert _ _ _ _ Hlg).
  rewrite (list_alter_insert _ _ smallest sm); [done|].
  by rewrite list_lookup_insert_ne.
Qed.

Lemma moveStudent_fixed smallest largest sid (secs : list Section) :
  fixedPart <$> moveStudent smallest largest sid secs = fixedPart <$> secs.
Proof.
  unfold moveStudent. apply list_eq. intros i.
  rewrite !list_lookup_fmap, !list_lookup_alter.
  destruct (decide (smallest = i)) as [->|]; destruct (decide (largest = i)) as [->|];
    rewrite ?list_lookup_alter_eq, ?list_lookup_alter_ne by done;
    by destruct (secs !! i).
Qed.

Lemma oneMove_fixed st st' :
  oneMove st st' → fixedPart <$> o_sections st' = fixedPart <$> o_sections st.
Proof.
  intros (smallest & largest & sm & lg & sid & b & _ & _ & _ & _ & _ & _ & ->).
  destruct b; [apply moveStudent_fixed|done].
Qed.

Lemma moves_fixed st st' :
  rtc oneMove st st' → fixedPart <$> o_sections st' = fixedPart <$> o_sections st.
Proof.
  induction 1 as [|st st1 st2 Hmove _ IH]; [done|].
  rewrite IH. by apply oneMove_fixed.
Qed.

Lemma fixedPart_courseId (l l' : list Section) i :
  fixedPart <$> l' = fixedPart <$> l → courseId <$> l' !! i = courseId <$> l !! i.
Proof.
  intros H. assert ((fixedPart <$> l') !! i = (fixedPart <$> l) !! i) as Hi by (by rewrite H).
  rewrite !list_lookup_fmap in Hi.
  destruct (l' !! i) as [s'|], (l !! i) as [s|]; cbn in *; try done.
  by injection Hi as _ -> _ _ _ _.
Qed.

Lemma groupsOK_fixed secs secs' groups groups' :
  fixedPart <$> secs' = fixedPart <$> secs →
  Forall2 (λ g g', g'.1 = g.1 ∧ g'.2 ≡ₚ g.2) groups groups' →
  groupsOK secs groups → groupsOK secs' groups'.
Proof.
  intros Hfix Hall Hok cid group' i Hin Hi.
  apply list_elem_of_lookup in Hin as [n Hn].
  destruct (Forall2_lookup_r _ _ _ _ _ Hall Hn) as ([cid0 group] & Hn0 & Hcid & Hperm).
  cbn in Hcid, Hperm. subst cid0.
  rewrite (fixedPart_courseId _ _ _ Hfix). eapply Hok.
  - by eapply list_elem_of_lookup_2.
  - by rewrite <- Hperm.
Qed.

Lemma tryMoves_moves smallest largest sm lg cands st b st' :
  o_sections st !! smallest = Some sm → o_sections st !! largest = Some lg →
  courseId sm = courseId lg →
  length (enrolledStudents sm) + 2 ≤ length (enrolledStudents lg) →
  (∀ sid, sid ∈ cands → sid ∈ enrolledStudents lg) →
  tryMoves smallest largest sm lg st cands = Some (b, st') →
  rtc oneMove st st'.
Proof.
  intros Hsm Hlg Hcourse Hdiff.
  assert (smallest ≠ largest) as Hne.
  { intros ->. rewrite Hsm in Hlg. injection Hlg as ->. lia. }
  revert st Hsm Hlg. induction cands as [|sid cands IH]; intros st Hsm Hlg Hcands.
  - intros [= <- <-]. done.
  - cbn [tryMoves].
    destruct (tryMove smallest largest sm lg st sid) as [[moved st1]|] eqn:Hmove; [|done].
    cbn. pose proof (tryMove_sections _ _ _ _ _ _ _ _ Hsm Hlg Hne Hmove) as Hsecs.
    assert (oneMove st st1) as Hone.
    { exists smallest, largest, sm, lg, sid, moved.
      repeat (split; [done|]). split; [apply Hcands; left|]. by split. }
    destruct moved.
    + intros [= <- <-]. by apply rtc_once.
    + intros Hrest. eapply rtc_l; [exact Hone|].
      apply IH; [by rewrite Hsecs|by rewrite Hsecs| |done].
      intros sid' Hin. apply Hcands. by right.
Qed.

Lemma optimizeCourse_moves cid st group b st' group' :
  (∀ i, i ∈ group → courseId <$> o_sections st !! i = Some cid) →
  optimizeCourse st group = Some (b, st', group') →
  rtc oneMove st st' ∧ group' ≡ₚ group.
Proof.
  intros Hgroup. unfold optimizeCourse.
  destruct (decide (length group < 2)); [by intros [= <- <- <-]|].
  set (sorted := sortBy (enrolledCount (o_sections st)) group).
  assert (sorted ≡ₚ group) as Hperm by apply sortBy_perm.
  destruct (head sorted) as [smallest|] eqn:Hhead; cbn [mbind option_bind];
    [|by intros [= <- <- <-]].
  destruct (o_sections st !! smallest) as [sm|] eqn:Hsm; cbn [fmap option_fmap option_map];
    [|by intros [= <- <- <-]].
  destruct (last sorted) as [largest|] eqn:Hlast; cbn [mbind option_bind];
    [|by intros [= <- <- <-]].
  destruct (o_sections st !! largest) as [lg|] eqn:Hlg; cbn [fmap option_fmap option_map];
    [|by intros [= <- <- <-]].
  destruct (decide (length (enrolledStudents lg) - length (enrolledStudents sm) ≤ 1))
    as [|Hdiff]; [by intros [= <- <- <-]|].
  destruct (tryMoves smallest largest sm lg st (enrolledStudents lg)) as [[moved st1]|] eqn:Hm;
    [|done].
  cbn. intros [= <- <- <-]. split; [|done].
  assert (courseId sm = cid ∧ courseId lg = cid) as [Hcs Hcl].
  { split.
    - apply head_Some_elem_of in Hhead. rewrite Hperm in Hhead.
      specialize (Hgroup _ Hhead). rewrite Hsm in Hgroup. by injection Hgroup.
    - apply last_Some_elem_of in Hlast. rewrite Hperm in Hlast.
      specialize (Hgroup _ Hlast). rewrite Hlg in Hgroup. by injection Hgroup. }
  eapply tryMoves_moves; [exact Hsm|exact Hlg|congruence|lia|done|exact Hm].
Qed.

Lemma optimizePass_moves groups st b st' groups' :
  groupsOK (o_sections st) groups →
  optimizePass st groups = Some (b, st', groups') →
  rtc oneMove st st' ∧ Forall2 (λ g g', g'.1 = g.1 ∧ g'.2 ≡ₚ g.2) groups groups'.
Proof.
  revert st b st' groups'. induction groups as [|[cid group] groups IH];
    intros st b st' groups' Hok.
  - intros [= <- <- <-]. split; [done|constructor].
  - cbn [optimizePass].
    destruct (optimizeCourse st group) as [[[moved st1] group1]|] eqn:Hcourse; [|done].
    cbn. destruct (optimizePass st1 groups) as [[[improved st2] groups2]|] eqn:Hpass; [|done].
    cbn. intros [= <- <- <-].
    destruct (optimizeCourse_moves cid st group moved st1 group1) as [Hm1 Hperm]; [|done|].
    { intros i Hi. eapply Hok; [left|done]. }
    destruct (IH st1 improved st2 groups2) as [Hm2 Hall]; [|done|].
    { intros cid' group' i Hin Hi.
      rewrite (fixedPart_courseId _ _ _ (moves_fixed _ _ Hm1)).
      eapply Hok; [by right|done]. }
    split; [by etrans|]. by constructor.
Qed.

Lemma optimizeLoop_moves n groups st k st' :
  groupsOK (o_sections st) groups →
  optimizeLoop n st groups = Some (k, st') → rtc oneMove st st'.
Proof.
  revert groups st k st'. induction n as [|n IH]; intros groups st k st' Hok.
  - by intros [= <- <-].
  - cbn [optimizeLoop].
    destruct (optimizePass st groups) as [[[improved st1] groups1]|] eqn:Hpass; [|done].
    cbn. destruct (optimizePass_moves _ _ _ _ _ Hok Hpass) as [Hm1 Hall].
    destruct improved; [|by intros [= <- <-]].
    destruct (optimizeLoop n st1 groups1) as [[k1 st2]|] eqn:Hloop; [|done].
    cbn. intros [= <- <-]. etrans; [exact Hm1|].
    eapply IH; [|exact Hloop].
    eapply groupsOK_fixed; [by apply moves_fixed|exact Hall|exact Hok].
Qed.

Lemma sectionsByCourse_groupsOK secs : groupsOK secs (sectionsByCourse secs).
Proof. intros cid group i Hin Hi. by eapply sectionsByCourse_group. Qed.

(** ** The students of a course under a move *)

Lemma courseStudents_cons a secs cid :
  courseStudents (a :: secs) cid =
    (if decide (courseId a = cid) then list_to_set_disj (enrolledStudents a) else ∅)
    ⊎ courseStudents secs cid.
Proof. done. Qed.

Lemma courseStudents_alter (secs : list Section) i s (f : Section → Section) cid :
  secs !! i = Some s → courseId (f s) = courseId s →
  courseStudents (alter f i secs) cid ⊎
    (if decide (courseId s = cid) then list_to_set_disj (enrolledStudents s) else ∅) =
  courseStudents secs cid ⊎
    (if decide (courseId s = cid) then list_to_set_disj (enrolledStudents (f s)) else ∅).
Proof.
  revert i. induction secs as [|a secs IH]; intros i Hs Hcourse; [done|].
  destruct i as [|i]; cbn in Hs.
  - injection Hs as ->. change (alter f 0 (s :: secs)) with (f s :: secs).
    rewrite !courseStudents_cons, Hcourse.
    destruct (decide (courseId s = cid)); multiset_solver.
  - change (alter f (S i) (a :: secs)) with (a :: alter f i secs).
    rewrite !courseStudents_cons. specialize (IH i Hs Hcourse).
    destruct (decide (courseId a = cid)), (decide (courseId s = cid)); multiset_solver.
Qed.

Lemma list_to_set_disj_remove (l : list StudentId) sid :
  NoDup l → sid ∈ l →
  list_to_set_disj (filter (λ x, x ≠ sid) l) ⊎ {[+ sid +]} =@{gmultiset StudentId}
  list_to_set_disj l.
Proof.
  induction l as [|a l IH]; intros Hnd Hin; [by apply elem_of_nil in Hin|].
  apply NoDup_cons in Hnd as [Ha Hnd]. rewrite filter_cons.
  apply elem_of_cons in Hin as [<-|Hin].
  - rewrite decide_False by (intros H; by apply H). rewrite list_to_set_disj_cons.
    assert (filter (λ x, x ≠ sid) l = l) as ->; [|multiset_solver].
    clear IH Hnd. induction l as [|b l IH]; [done|].
    rewrite filter_cons, decide_True.
    + f_equal. apply IH. intros Hin. apply Ha. by right.
    + intros ->. apply Ha. left.
  - rewrite decide_True by (intros ->; done). rewrite !list_to_set_disj_cons.
    rewrite <- (IH Hnd Hin). multiset_solver.
Qed.

Lemma courseStudents_move (secs : list Section) smallest largest sm lg sid cid :
  secs !! smallest = Some sm → secs !! largest = Some lg → smallest ≠ largest →
  courseId sm = courseId lg → NoDup (enrolledStudents lg) → sid ∈ enrolledStudents lg →
  courseStudents (moveStudent smallest largest sid secs) cid = courseStudents secs cid.
Proof.
  intros Hsm Hlg Hne Hcourse Hnd Hin. unfold moveStudent.
  set (g := λ lg, setEnrolled (filter (λ x, x ≠ sid) (enrolledStudents lg)) lg).
  pose proof (courseStudents_alter secs largest lg g cid Hlg eq_refl) as H1.
  assert (alter g largest secs !! smallest = Some sm) as Hsm'
    by (by rewrite list_lookup_alter_ne).
  pose proof (courseStudents_alter _ smallest sm (enroll sid) cid Hsm' eq_refl) as H2.
  cbn [g enroll setEnrolled enrolledStudents] in H1, H2.
  rewrite list_to_set_disj_app in H2.
  pose proof (list_to_set_disj_remove _ sid Hnd Hin) as H3.
  rewrite Hcourse in H2.
  rewrite list_to_set_disj_cons, list_to_set_disj_nil in H2.
  destruct (decide (courseId lg = cid)); multiset_solver.
Qed.

(** ** Moves when the sections meet: no student is listed twice *)

Lemma tryMove_commit_free smallest largest sm lg st sid st' :
  tryMove smallest largest sm lg st sid = Some (true, st') →
  ∃ sched, o_schedules st !! sid = Some sched ∧
           hasConflict (sched ∖ list_to_set (periods lg)) sm = false ∧
           length (enrolledStudents sm) < capacity sm.
Proof.
  unfold tryMove. destruct (o_schedules st !! sid) as [sched|]; [|done].
  cbn [mbind option_bind].
  destruct (negb _ && _) eqn:Hok; [|done]. intros _.
  apply andb_true_iff in Hok as [Hfree%negb_true_iff Hcap%bool_decide_eq_true].
  by exists sched.
Qed.

Lemma oneMove_distinct st st' :
  oneMove st st' →
  consistent (o_sections st) (o_schedules st) → distinctEnrolled (o_sections st) →
  consistent (o_sections st') (o_schedules st') ∧ distinctEnrolled (o_sections st') ∧
  ∀ cid, courseStudents (o_sections st') cid = courseStudents (o_sections st) cid.
Proof.
  intros (smallest & largest & sm & lg & sid & b & Hsm & Hlg & Hcourse & Hdiff & Hin &
          Hrun & Hsecs) Hcons Hdist.
  assert (smallest ≠ largest) as Hne.
  { intros ->. rewrite Hsm in Hlg. injection Hlg as ->. lia. }
  assert (consistent (o_sections st') (o_schedules st')) as Hcons'.
  { destruct (o_schedules st !! sid) as [sched|] eqn:Hsched;
      [|by unfold tryMove in Hrun; rewrite Hsched in Hrun].
    destruct (tryMove_core smallest largest sm lg st sid sched Hcons Hsm Hlg Hne Hin Hsched)
      as (b0 & st0 & Hrun0 & Hc & _).
    rewrite Hrun in Hrun0. by injection Hrun0 as <- <-. }
  split; [done|]. rewrite Hsecs.
  destruct b; [|done].
  destruct (Hdist sm) as [Hpsm Hndsm]; [by eapply list_elem_of_lookup_2|].
  destruct (Hdist lg) as [Hplg Hndlg]; [by eapply list_elem_of_lookup_2|].
  split; [|intros cid; by eapply courseStudents_move].
  assert (sid ∉ enrolledStudents sm) as Hnotin.
  { intros Hinsm.
    destruct (tryMove_commit_free _ _ _ _ _ _ _ Hrun) as (sched & Hsched & Hfree & _).
    rewrite hasConflict_false in Hfree.
    destruct Hcons as [Hcov Hno].
    assert (∃ p, p ∈ periods sm) as [p Hp].
    { destruct (periods sm) as [|p ps]; [done|]. exists p. left. }
    apply (Hfree p Hp).
    apply elem_of_difference. split.
    - destruct (Hcov smallest sm sid p Hsm Hinsm Hp) as (sched' & Hs' & Hps). congruence.
    - rewrite elem_of_list_to_set.
      by apply (Hno smallest largest sm lg sid p Hne Hsm Hlg Hinsm Hin). }
  intros s [i Hi]%list_elem_of_lookup. unfold moveStudent in Hi.
  rewrite list_lookup_alter in Hi. destruct (decide (smallest = i)) as [<-|Hi1].
  - rewrite list_lookup_alter_ne, Hsm in Hi by done. injection Hi as <-.
    split; [done|]. cbn. apply NoDup_app. split; [done|].
    split; [|apply NoDup_singleton]. by intros x Hx ->%list_elem_of_singleton.
  - rewrite list_lookup_alter in Hi. destruct (decide (largest = i)) as [<-|Hi2].
    + rewrite Hlg in Hi. injection Hi as <-. split; [done|]. cbn. by apply NoDup_filter.
    + apply Hdist. by eapply list_elem_of_lookup_2.
Qed.

Lemma moves_distinct st st' :
  rtc oneMove st st' →
  consistent (o_sections st) (o_schedules st) → distinctEnrolled (o_sections st) →
  ∀ cid, courseStudents (o_sections st') cid = courseStudents (o_sections st) cid.
Proof.
  induction 1 as [|st st1 st2 Hmove _ IH]; intros Hcons Hdist cid; [done|].
  destruct (oneMove_distinct _ _ Hmove Hcons Hdist) as (Hcons1 & Hdist1 & Heq).
  by rewrite IH, Heq.
Qed.

(** ** Moves when no section with spare capacity lags behind: none commits *)

Lemma oneMove_full st st' :
  oneMove st st' → fullBeforeUneven (o_sections st) → o_sections st' = o_sections st.
Proof.
  intros (smallest & largest & sm & lg & sid & b & Hsm & Hlg & Hcourse & Hdiff & Hin &
          Hrun & Hsecs) Hfull.
  destruct b; [|done]. exfalso.
  destruct (tryMove_commit_free _ _ _ _ _ _ _ Hrun) as (sched & _ & _ & Hcap).
  pose proof (Hfull smallest largest sm lg Hsm Hlg Hcourse Hdiff). lia.
Qed.

Lemma moves_full st st' :
  rtc oneMove st st' → fullBeforeUneven (o_sections st) → o_sections st' = o_sections st.
Proof.
  induction 1 as [|st st1 st2 Hmove _ IH]; intros Hfull; [done|].
  pose proof (oneMove_full _ _ Hmove Hfull) as Heq.
  rewrite IH; [done|]. by rewrite Heq.
Qed.

(** ** What phase 4 hands to the rebalancer *)

(** A property of the sections and the schedule table that every call of
    [assignStudentToSection] keeps is kept by the two passes. *)
Lemma runGreedyAssignment_preserves
    (Q : list Section → gmap StudentId (gset Period) → Prop) secs input courseMap un g :
  (∀ sid cid secs scheds b secs' scheds',
     Q secs scheds → assignStudentToSection sid cid secs scheds = Some (b, secs', scheds') →
     Q secs' scheds') →
  Q secs (initStudentSchedules (students input)) →
  runGreedyAssignment secs input courseMap un = Some g →
  Q (g_sections g) (g_schedules g).
Proof.
  intros Hstep Hinit. unfold runGreedyAssignment, requiredPass, electivePass.
  set (P := λ st, Q (g_sections st) (g_schedules st)).
  destruct (foldM _ _ (students input)) as [st1|] eqn:Hreq; [|done]. cbn.
  intros Helec.
  assert (P st1) as Hst1.
  { eapply (foldM_inv P _ _ (mkGreedy secs (initStudentSchedules (students input)) un));
      [|exact Hinit|exact Hreq].
    intros st student st' Hst. apply (foldM_inv P); [|done].
    clear -Hstep. intros st cid st' Hst. unfold requiredStep.
    destruct (courseMap !! cid) as [course|]; [|by intros [= <-]].
    destruct (gradeExcluded _ _); [by intros [= <-]|].
    destruct (assignStudentToSection _ _ _ _) as [[[b secs'] scheds']|] eqn:Hrun; [|done].
    cbn. intros [= <-]. pose proof (Hstep _ _ _ _ _ _ _ Hst Hrun). by destruct b. }
  eapply (foldM_inv P); [|exact Hst1|exact Helec].
  intros st student st' Hst. apply (foldM_inv P); [|done].
  clear -Hstep. intros st cid st' Hst. unfold electiveStep.
  destruct (courseMap !! cid) as [course|]; [|by intros [= <-]].
  destruct (gradeExcluded _ _); [by intros [= <-]|].
  destruct (assignStudentToSection _ _ _ _) as [[[b secs'] scheds']|] eqn:Hrun; [|done].
  cbn. intros [= <-]. by apply (Hstep _ _ _ _ _ _ _ Hst Hrun).
Qed.

Lemma assignStudentToSection_distinct sid cid secs scheds b secs' scheds' :
  consistent secs scheds ∧ distinctEnrolled secs →
  assignStudentToSection sid cid secs scheds = Some (b, secs', scheds') →
  consistent secs' scheds' ∧ distinctEnrolled secs'.
Proof.
  intros [Hcons Hdist] Hrun.
  split; [by eapply assignStudentToSection_consistent|].
  destruct (scheds !! sid) as [sched|] eqn:Hsched;
    [|by unfold assignStudentToSection in Hrun; rewrite Hsched in Hrun].
  destruct (assignStudentToSection_cases sid cid secs scheds sched Hsched)
    as [(i & s & Hs & _ & _ & Hfree & Heq)|Heq];
    rewrite Heq in Hrun; injection Hrun as <- <- <-; [|done].
  intros s' [->|Hs']%list_elem_of_insert_inv; [|by apply Hdist].
  destruct (Hdist s) as [Hp Hnd]; [by eapply list_elem_of_lookup_2|].
  split; [done|]. cbn. apply NoDup_app. split; [done|].
  split; [|apply NoDup_singleton].
  intros x Hx ->%list_elem_of_singleton.
  assert (∃ p, p ∈ periods s) as [p Hpin].
  { destruct (periods s) as [|p ps]; [done|]. exists p. left. }
  rewrite hasConflict_false in Hfree. apply (Hfree p Hpin).
  destruct Hcons as [Hcov _].
  destruct (Hcov i s sid p Hs Hx Hpin) as (sched' & Hs' & Hps). congruence.
Qed.

Lemma findSection_first secs sched cands i :
  findSection secs sched cands = Some i →
  ∃ n, cands !! n = Some i ∧
       ∀ m c s, m < n → cands !! m = Some c → secs !! c = Some s →
                capacity s ≤ length (enrolledStudents s) ∨ hasConflict sched s = true.
Proof.
  induction cands as [|c0 cands IH]; [done|]. cbn [findSection].
  assert (findSection secs sched cands = Some i →
          (∀ s, secs !! c0 = Some s →
                capacity s ≤ length (enrolledStudents s) ∨ hasConflict sched s = true) →
          ∃ n, (c0 :: cands) !! n = Some i ∧
               ∀ m c s, m < n → (c0 :: cands) !! m = Some c → secs !! c = Some s →
                        capacity s ≤ length (enrolledStudents s) ∨
                        hasConflict sched s = true) as Hskip.
  { intros (n & Hn & Hbefore)%IH Hc0. exists (S n). split; [done|].
    intros [|m] c s Hm Hc Hs; cbn in Hc.
    - injection Hc as <-. by apply Hc0.
    - apply (Hbefore m c s); [lia|done|done]. }
  destruct (secs !! c0) as [s0|] eqn:Hs0; [|intros H; by apply Hskip].
  destruct (decide (capacity s0 ≤ length (enrolledStudents s0))) as [Hfull|Hfree].
  { intros H. apply Hskip; [done|]. intros s [= <-]. by left. }
  destruct (hasConflict sched s0) eqn:Hc.
  { intros H. apply Hskip; [done|]. intros s [= <-]. by right. }
  intros [= <-]. exists 0. split; [done|]. intros m c s Hm. lia.
Qed.

(** When a student is enrolled, every smaller section of the course was
    rejected. *)
Lemma assignStudentToSection_smaller sid cid secs scheds sched i s :
  scheds !! sid = Some sched →
  assignStudentToSection sid cid secs scheds =
    Some (true, <[i := enroll sid s]> secs,
          <[sid := sched ∪ list_to_set (periods s)]> scheds) →
  secs !! i = Some s →
  findSection secs sched (sortBy (enrolledCount secs) (courseSectionIdxs secs cid)) = Some i.
Proof.
  intros Hsched Hrun Hs. unfold assignStudentToSection in Hrun.
  rewrite Hsched in Hrun. cbn [mbind option_bind] in Hrun.
  destruct (findSection secs sched _) as [j|] eqn:Hfind; [|done].
  injection Hrun as Hsecs _.
  destruct (findSection_Some _ _ _ _ Hfind) as (_ & sj & Hsj & _).
  rewrite (list_alter_insert _ _ _ _ Hsj) in Hsecs.
  destruct (decide (i = j)) as [->|Hne]; [done|]. exfalso.
  assert (<[j := enroll sid sj]> secs !! j = <[i := enroll sid s]> secs !! j) as Hj
    by (by rewrite Hsecs).
  rewrite list_lookup_insert_eq in Hj by (by eapply lookup_lt_Some).
  rewrite list_lookup_insert_ne, Hsj in Hj by done.
  injection Hj as Hj. apply (f_equal (λ x, length (enrolledStudents x))) in Hj.
  cbn in Hj. rewrite length_app in Hj. cbn in Hj. lia.
Qed.

Lemma enrolledCount_lookup secs i s :
  secs !! i = Some s → enrolledCount secs i = length (enrolledStudents s).
Proof. intros Hs. unfold enrolledCount. by rewrite Hs. Qed.

Lemma assignStudentToSection_full sid cid secs scheds b secs' scheds' :
  (∀ s, s ∈ secs → periods s = []) ∧ fullBeforeUneven secs →
  assignStudentToSection sid cid secs scheds = Some (b, secs', scheds') →
  (∀ s, s ∈ secs' → periods s = []) ∧ fullBeforeUneven secs'.
Proof.
  intros [Hempty Hfull] Hrun.
  destruct (scheds !! sid) as [sched|] eqn:Hsched;
    [|by unfold assignStudentToSection in Hrun; rewrite Hsched in Hrun].
  destruct (assignStudentToSection_cases sid cid secs scheds sched Hsched)
    as [(i & s & Hs & Hcid & Hcap & Hfree & Heq)|Heq];
    rewrite Heq in Hrun; injection Hrun as <- <- <-; [|done].
  split.
  { intros s' [->|Hs']%list_elem_of_insert_inv; [|by apply Hempty].
    cbn. apply Hempty. by eapply list_elem_of_lookup_2. }
  pose proof (assignStudentToSection_smaller _ _ _ _ _ _ _ Hsched Heq Hs) as Hfind.
  apply findSection_first in Hfind as (n & Hn & Hbefore).
  assert (∀ x sx, secs !! x = Some sx → courseId sx = cid →
                  length (enrolledStudents sx) < length (enrolledStudents s) →
                  capacity sx ≤ length (enrolledStudents sx)) as Hsmaller.
  { intros x sx Hx Hcx Hlen.
    assert (x ∈ sortBy (enrolledCount secs) (courseSectionIdxs secs cid)) as Hin.
    { apply sortBy_elem, courseSectionIdxs_elem. rewrite Hx. cbn. by rewrite Hcx. }
    apply list_elem_of_lookup in Hin as [m Hm].
    destruct (decide (m < n)) as [Hlt|Hge].
    - destruct (Hbefore m x sx Hlt Hm Hx) as [?|Hconf]; [done|].
      exfalso. apply not_false_iff_true in Hconf. apply Hconf, hasConflict_false.
      intros p Hp. rewrite (Hempty sx) in Hp; [by apply elem_of_nil in Hp|].
      by eapply list_elem_of_lookup_2.
    - exfalso. destruct (decide (m = n)) as [->|Hne].
      + rewrite Hm in Hn. injection Hn as ->. rewrite Hx in Hs. injection Hs as ->. lia.
      + pose proof (sortBy_ascending (enrolledCount secs) (courseSectionIdxs secs cid)
                      n m i x Hn Hm ltac:(lia)) as Hle.
        rewrite (enrolledCount_lookup _ _ _ Hs), (enrolledCount_lookup _ _ _ Hx) in Hle.
        lia. }
  intros a b sa sb Ha Hb Hcourse Hdiff.
  apply list_lookup_insert_Some in Ha as [(<- & <- & _)|(Hnea & Ha)];
    apply list_lookup_insert_Some in Hb as [(<- & <- & _)|(Hneb & Hb)];
    cbn in *; rewrite ?length_app in *; cbn in *.
  - lia.
  - pose proof (Hfull i b s sb Hs Hb Hcourse ltac:(lia)). lia.
  - apply (Hsmaller a sa Ha); [congruence|lia].
  - by apply (Hfull a b sa sb).
Qed.

Lemma fullBeforeUneven_unenrolled secs :
  Forall (λ s, enrolledStudents s = []) secs → fullBeforeUneven secs.
Proof.
  intros Hempty i j a b Ha Hb _ Hdiff. rewrite Forall_lookup in Hempty.
  rewrite (Hempty j b Hb) in Hdiff. cbn in Hdiff. lia.
Qed.

Lemma pipeline_periods (input : ScheduleInput) :
  let courseMap := buildCourseMap (courses input) in
  let secs2 :=
    assignTimeSlots (createSections (courses input) (teachers input))
                    (teachers input) (config input) courseMap in
  ∀ secs3 rs,
    assignRoomsFrom (rooms input) courseMap (initRoomSchedules (rooms input)) secs2 =
      Some (secs3, rs) →
    Forall (λ s, enrolledStudents s = [] ∧
                 ∃ slot, periods s = weekPeriods (daysPerWeek (config input)) slot) secs3.
Proof.
  intros courseMap secs2 secs3 rs Hrooms.
  destruct (pipeline_runs input (mkOptions None))
    as (secs3' & rs' & g & k & o & Hrooms' & _ & _ & _ & H2 & H3 & _).
  fold courseMap secs2 in Hrooms'. rewrite Hrooms in Hrooms'. injection Hrooms' as <- <-.
  pose proof (createSections_unfurnished (courses input) (teachers input)) as H1.
  apply Forall_lookup. intros i s3 Hs3.
  destruct (Forall2_lookup_r _ _ _ _ _ H3 Hs3) as (s2 & Hs2 & Hr).
  destruct (Forall2_lookup_r _ _ _ _ _ H2 Hs2) as (s1 & Hs1 & (slot & -> & _)).
  rewrite Forall_lookup in H1. destruct (H1 i s1 Hs1) as (_ & Hp & He).
  rewrite (roomed_enrolled _ _ Hr), (roomed_periods _ _ Hr). cbn.
  split; [done|]. exists slot. by rewrite Hp.
Qed.

(** * The objective of the ILP model *)

Lemma indexOf_range (x : string) (l : list string) :
  (indexOf x l = -1 ∨ 0 ≤ indexOf x l)%Z.
Proof.
  induction l as [|y l IH]; cbn; [by left|].
  destruct (decide (y = x)); [right; lia|].
  destruct (decide (indexOf x l = (-1)%Z)); [by left|right; lia].
Qed.

Lemma indexOf_absent (x : string) (l : list string) :
  x ∉ l → indexOf x l = (-1)%Z.
Proof.
  induction l as [|y l IH]; cbn; [done|]. intros Hnot.
  apply not_elem_of_cons in Hnot as [Hne Hnot].
  destruct (decide (y = x)); [congruence|].
  rewrite (IH Hnot). by destruct (decide _).
Qed.

Lemma indexOf_first (x : string) (l : list string) (rank : nat) :
  l !! rank = Some x → (∀ j, j < rank → l !! j ≠ Some x) →
  indexOf x l = Z.of_nat rank.
Proof.
  revert rank. induction l as [|y l IH]; intros rank Hr Hfirst; [done|]. cbn.
  destruct rank as [|rank].
  - injection Hr as ->. by destruct (decide _).
  - destruct (decide (y = x)) as [->|Hne]; [by destruct (Hfirst 0 ltac:(lia))|].
    rewrite (IH rank Hr) by (intros j Hj; apply (Hfirst (S j)); lia).
    destruct (decide _); lia.
Qed.

(** What [solveScheduleILP] emits for a pair that passes the grade test:
    the rank of the course among the electives decides whenever the course
    is an elective; the required list is looked at only otherwise. *)
Lemma objectiveCoefficient_cases (courseMap : gmap CourseId Course.t)
    (student : Student.t) (section : Section) :
  gradeSkipped courseMap student section = false →
  (∀ rank, Student.electivePreferences student !! rank = Some (courseId section) →
           (∀ j, j < rank → Student.electivePreferences student !! j ≠ Some (courseId section)) →
           objectiveCoefficient courseMap student section =
             if decide (rank < 10) then Some (10 - Z.of_nat rank)%Z else None) ∧
  (courseId section ∉ Student.electivePreferences student →
   objectiveCoefficient courseMap student section =
     if decide (courseId section ∈ Student.requiredCourses student)
     then Some 1000%Z else None).
Proof.
  intros Hgrade. unfold objectiveCoefficient, preferenceWeight. rewrite Hgrade. split.
  - intros rank Hr Hfirst. rewrite (indexOf_first _ _ rank Hr Hfirst).
    destruct (decide (Z.of_nat rank ≠ (-1)%Z)) as [_|]; [|lia].
    destruct (decide (rank < 10)), (decide (0 < 10 - Z.of_nat rank)%Z); done || lia.
  - intros Hnot. rewrite (indexOf_absent _ _ Hnot).
    destruct (decide ((-1)%Z ≠ (-1)%Z)) as [|_]; [done|].
    by destruct (decide (courseId section ∈ _)).
Qed.

(** * Scenarios of the specification *)

(** Two courses restricted to the same grade land on different slots, and
    both students are enrolled in both courses. *)
Example grade_aware_slots :
  (λ r, (λ s, (id s, periods s !! 0, enrolledStudents s)) <$> r_sections r) <$>
    generateSchedule Examples.seniors Examples.noOptions Examples.noon =
  Some [("GOV-1", Some (0, 0), ["s1"; "s2"]); ("ENG12-1", Some (0, 1), ["s1"; "s2"])].
Proof. vm_compute. reflexivity. Qed.

(** A teacher who is unavailable at slot 0 is given slot 1. *)
Example busy_teacher_slot :
  chooseSlot (mkConfig 3 1) Examples.busyState ∅ [12]
             (lookupTeacherSchedule (teacherSchedules Examples.busyState) (Some "B")) = 1.
Proof. vm_compute. reflexivity. Qed.

(** The room with the required feature is chosen, not the larger one. *)
Example lab_room :
  (λ r, roomId <$> r_sections r) <$>
    generateSchedule Examples.oneLab Examples.noOptions Examples.noon =
  Some [Some "LAB"].
Proof. vm_compute. reflexivity. Qed.

(** Six students for two sections of four seats: three and three, nobody
    unassigned. *)
Example balanced_sections :
  (λ r, (enrolledStudents <$> r_sections r, unassignedStudents r)) <$>
    generateSchedule Examples.crowded Examples.noOptions Examples.noon =
  Some ([["s1"; "s3"; "s5"]; ["s2"; "s4"; "s6"]], []).
Proof. vm_compute. reflexivity. Qed.

(** * The claims *)

(** ** Phase 2: the slot of a section *)




(** ** One section per course and student *)

(** C2. The claim: in every returned schedule a student is in at most one
    section of a course, also when the course is both required and an
    elective of the student.  The greedy passes do not look at the course
    of the sections a student is already in: on [Examples.twoSlots] the
    student is enrolled in ALG-1 by the required pass and in ALG-2, which
    meets at another slot, by the elective pass. *)
Theorem greedy_enrolls_twice_in_one_course :
  ∃ r s1 s2,
    generateSchedule Examples.twoSlots Examples.noOptions Examples.noon = Some r ∧
    r_sections r !! 0 = Some s1 ∧ r_sections r !! 1 = Some s2 ∧
    courseId s1 = courseId s2 ∧
    "ada" ∈ enrolledStudents s1 ∧ "ada" ∈ enrolledStudents s2.
Proof.
  eexists _, _, _. split; [vm_compute; reflexivity|].
  simpl. repeat split; apply list_elem_of_In; simpl; auto.
Qed.

(** ** The section cap of a teacher *)

(** C3. The claim: no teacher is the teacher of more than [maxSections]
    sections.  The pool of a course is computed once, before the sections
    of the course are created, so a teacher with one section left is given
    every section of a course with a single qualified teacher. *)
Theorem createSections_exceeds_maxSections :
  let t := Examples.teacherT 1 in
  let secs := createSections [Examples.algebra] [t] in
  length (filter (λ s, teacherId s = Some (Teacher.id t)) secs) = 2 ∧
  Teacher.maxSections t = 1.
Proof. split; reflexivity. Qed.

(** ** The objective of the ILP model *)

(** C4. The claim: the coefficient of a pair whose course is required is
    1000.  The elective weight is assigned after the required weight and
    replaces it: for a course that is required and also the first elective
    the coefficient is 10. *)
Theorem objective_required_overwritten_by_elective :
  let course := Examples.algebra in
  let section := newSection course None 0 in
  courseId section ∈ Student.requiredCourses Examples.ada ∧
  gradeSkipped (buildCourseMap [course]) Examples.ada section = false ∧
  objectiveCoefficient (buildCourseMap [course]) Examples.ada section = Some 10%Z.
Proof.
  repeat split; [|vm_compute; reflexivity..].
  apply list_elem_of_In. simpl. auto.
Qed.

(** ** No overlapping enrollments *)

(** C5. Every returned schedule is free of overlaps: no two sections with a
    common student share a period.  The property is kept, together with the
    coverage of the schedule table, by every call of
    [assignStudentToSection] in the greedy passes and by every tentative
    move of the rebalancer, committed or rolled back. *)
Theorem no_student_overlap
    (input : ScheduleInput) (options : SchedulerOptions) (clock : Clock) :
  (∃ r, generateSchedule input options clock = Some r ∧ noOverlap (r_sections r)) ∧
  (∀ sid cid secs scheds b secs' scheds',
     consistent secs scheds →
     assignStudentToSection sid cid secs scheds = Some (b, secs', scheds') →
     consistent secs' scheds') ∧
  (∀ smallest largest sm lg st sid b st',
     consistent (o_sections st) (o_schedules st) →
     o_sections st !! smallest = Some sm → o_sections st !! largest = Some lg →
     smallest ≠ largest → sid ∈ enrolledStudents lg →
     tryMove smallest largest sm lg st sid = Some (b, st') →
     consistent (o_sections st') (o_schedules st')).
Proof.
  split; [|split].
  - destruct (pipeline_runs input options)
      as (secs3 & rs & g & k & o & _ & _ & Hphases & Hreb & _ & _ & _ & Hoinv).
    eexists. split.
    { unfold generateSchedule. rewrite Hphases. cbn. rewrite Hreb. cbn. done. }
    cbn. apply Hoinv.
  - intros sid cid secs scheds b secs' scheds'. apply assignStudentToSection_consistent.
  - intros smallest largest sm lg st sid b st' Hcons Hsm Hlg Hne Hin Hrun.
    destruct (o_schedules st !! sid) as [sched|] eqn:Hsched;
      [|by unfold tryMove in Hrun; rewrite Hsched in Hrun].
    destruct (tryMove_core smallest largest sm lg st sid sched Hcons Hsm Hlg Hne Hin Hsched)
      as (b0 & st0 & Hrun0 & Hcons' & _).
    rewrite Hrun in Hrun0. by injection Hrun0 as <- <-.
Qed.

Lemma unbalanced_consistent :
  consistent (o_sections Examples.unbalanced) (o_schedules Examples.unbalanced).
Proof.
  split.
  - intros [|[|i]] s sid p Hs Hin Hp; cbn in Hs; [| |done];
      injection Hs as <-; cbn in Hin, Hp; [|by apply elem_of_nil in Hin].
    apply list_elem_of_singleton in Hp as ->.
    apply elem_of_cons in Hin as [->|Hin].
    + exists {[ (0, 0) ]}. split; [done|]. by apply elem_of_singleton.
    + apply list_elem_of_singleton in Hin as ->.
      exists {[ (0, 0) ]}. split; [done|]. by apply elem_of_singleton.
  - intros [|[|i]] [|[|j]] s s' sid p Hij Hs Hs' Hin Hin' Hp; cbn in Hs, Hs'; try done;
      injection Hs as <-; injection Hs' as <-; cbn in Hin, Hin';
      by (apply elem_of_nil in Hin || apply elem_of_nil in Hin').
Qed.

Lemma no_student_overlap_witness :
  (∃ r, generateSchedule Examples.twoSlots Examples.noOptions Examples.noon = Some r ∧
        noOverlap (r_sections r)) ∧
  consistent [enroll "ada" (Examples.algAt 1 0 [])]
             (<["ada" := ∅ ∪ list_to_set [(0, 0)]]> (<["ada" := ∅]> ∅)) ∧
  consistent (o_sections Examples.rebalanced) (o_schedules Examples.rebalanced).
Proof.
  destruct (no_student_overlap Examples.twoSlots Examples.noOptions Examples.noon)
    as (Hrun & Hstep & Hmove).
  split; [exact Hrun|]. split.
  - apply (Hstep "ada" "ALG" [Examples.algAt 1 0 []] (<["ada" := ∅]> ∅) true).
    + apply consistent_unenrolled. by repeat constructor.
    + reflexivity.
  - apply (Hmove 1 0 (Examples.algAt 2 1 []) (Examples.algAt 1 0 ["ada"; "bob"])
                 Examples.unbalanced "ada" true Examples.rebalanced).
    + apply unbalanced_consistent.
    + reflexivity.
    + reflexivity.
    + done.
    + left.
    + reflexivity.
Defined.

(** ** Phase 3: the room of a section *)




(** ** The rebalancing loop is bounded *)

(** C7. The rebalancing loop of [generateSchedule] runs [k] iterations
    with [k] at most [maxOptimizationIterations], which is 500 when the
    option is absent; every iteration before the last one committed a move,
    and when the loop stops before the bound, it stops after the first pass
    that committed no move.  Phases 1 to 4 and the loop return, and so does
    [generateSchedule]. *)
Theorem rebalancing_terminates_within_bound
    (input : ScheduleInput) (options : SchedulerOptions) (clock : Clock) :
  let bound := default 500 (maxOptimizationIterations options) in
  ∃ g k o,
    assignmentPhases input = Some g ∧
    rebalancePhase input options (g_sections g) = Some (k, o) ∧
    is_Some (generateSchedule input options clock) ∧
    let st := mkOpt (g_sections g) (buildStudentSchedules (g_sections g) (students input)) in
    let groups := sectionsByCourse (g_sections g) in
    optimizeLoop bound st groups = Some (k, o) ∧
    k ≤ bound ∧
    (∀ i, S i < k → passImproved i st groups true) ∧
    (k < bound → ∃ i, k = S i ∧ passImproved i st groups false).
Proof.
  intros bound.
  destruct (pipeline_runs input options)
    as (secs3 & rs & g & k & o & _ & _ & Hphases & Hreb & _).
  exists g, k, o. split; [done|]. split; [done|]. split.
  { unfold generateSchedule. rewrite Hphases. cbn. rewrite Hreb. cbn. by eexists. }
  cbn zeta. split; [exact Hreb|].
  destruct (optimizeLoop_bound _ _ _ _ _ Hreb) as (Hle & _ & _ & Himp & Hstop).
  done.
Qed.

Lemma rebalancing_bound_witness :
  ∃ g k o,
    assignmentPhases Examples.twoSlots = Some g ∧
    rebalancePhase Examples.twoSlots Examples.noOptions (g_sections g) = Some (k, o) ∧
    k ≤ 500.
Proof.
  destruct (rebalancing_terminates_within_bound Examples.twoSlots Examples.noOptions
              Examples.noon) as (g & k & o & Hphases & Hreb & _ & _ & Hle & _).
  by exists g, k, o.
Defined.

(** ** Two runs on the same input *)

(** Two runs on the same input and options, at different times, return
    different values: the metadata block differs. *)
Lemma two_runs_differ :
  generateSchedule Examples.twoSlots Examples.noOptions Examples.noon ≠
  generateSchedule Examples.twoSlots Examples.noOptions Examples.later.
Proof.
  intros H.
  assert (clockFields <$> generateSchedule Examples.twoSlots Examples.noOptions Examples.noon =
          clockFields <$> generateSchedule Examples.twoSlots Examples.noOptions Examples.later)
    as H' by (by rewrite H).
  vm_compute in H'. discriminate H'.
Qed.

(** C8, amended. Two runs on identical inputs and options return the same
    sections, the same unassigned list and the same metadata except for
    [generatedAt] and [solveTimeMs]; these two fields are the readings of
    the clock ([new Date().toISOString()] and the difference of the two
    [Date.now()]), whatever the input. *)
Theorem generateSchedule_deterministic_up_to_clock
    (input : ScheduleInput) (options : SchedulerOptions) (clock1 clock2 : Clock) :
  clockFree <$> generateSchedule input options clock1 =
    clockFree <$> generateSchedule input options clock2 ∧
  clockFields <$> generateSchedule input options clock1 =
    (λ _, (isoNow clock1, (endNow clock1 - startNow clock1)%Z)) <$>
      generateSchedule input options clock1.
Proof.
  unfold generateSchedule.
  destruct (assignmentPhases input) as [g|]; simpl; [|done].
  destruct (rebalancePhase input options (g_sections g)) as [[k o]|]; simpl; done.
Qed.

(** ** Courses without a qualified teacher *)

(** C9. If, when a course is reached, no teacher is both qualified for it
    and below the cap, then phase 1 creates [course.sections] sections for
    it, all without a teacher; [generateSchedule] returns a schedule, and
    in it these sections are in place, still without a teacher. *)
Theorem teacherless_course_is_scheduled
    (input : ScheduleInput) (options : SchedulerOptions) (clock : Clock)
    (pre post : list Course.t) (c : Course.t) :
  courses input = pre ++ c :: post →
  let acc := createSectionsFrom (teachers input) ([], ∅) pre in
  qualifiedTeachers (teachers input) acc.2 c = [] →
  ∃ rest r,
    createSections (courses input) (teachers input) =
      acc.1 ++ ((λ i, newSection c None i) <$> seq 0 (Course.sections c)) ++ rest ∧
    generateSchedule input options clock = Some r ∧
    ∀ i, i < Course.sections c →
         ∃ s, r_sections r !! (length acc.1 + i) = Some s ∧
              id s = Course.id c +:+ "-" +:+ pretty (i + 1) ∧
              courseId s = Course.id c ∧
              teacherId s = None.
Proof.
  intros Hcourses acc Hpool.
  destruct (createSections_empty_pool (teachers input) pre c post Hpool) as [rest Hsecs].
  rewrite <- Hcourses in Hsecs. fold acc in Hsecs.
  destruct (pipeline_runs input options)
    as (secs3 & rs & g & k & o & _ & _ & Hphases & Hreb & _).
  pose proof (pipeline_static input options g k o Hphases Hreb) as Hstatic.
  exists rest. eexists. split; [done|]. split.
  { unfold generateSchedule. rewrite Hphases. cbn. rewrite Hreb. cbn. done. }
  cbn [r_sections]. intros i Hi.
  assert ((static <$> o_sections o) !! (length acc.1 + i) =
          Some (static (newSection c None i))) as Hlook.
  { rewrite Hstatic, Hsecs, list_lookup_fmap.
    rewrite lookup_app_r by lia.
    replace (length acc.1 + i - length acc.1) with i by lia.
    rewrite lookup_app_l by (rewrite length_fmap, length_seq; lia).
    rewrite list_lookup_fmap, lookup_seq_lt by done. done. }
  rewrite list_lookup_fmap in Hlook.
  destruct (o_sections o !! (length acc.1 + i)) as [s|]; [|done].
  injection Hlook as Hid Hcourse Hteacher _. by exists s.
Qed.

Lemma teacherless_course_witness :
  ∃ rest r,
    createSections [Examples.art] [Examples.teacherT 2] =
      [] ++ ((λ i, newSection Examples.art None i) <$> seq 0 2) ++ rest ∧
    generateSchedule Examples.artOnly Examples.noOptions Examples.noon = Some r ∧
    ∀ i, i < 2 →
         ∃ s, r_sections r !! (0 + i) = Some s ∧
              id s = "ART" +:+ "-" +:+ pretty (i + 1) ∧
              courseId s = "ART" ∧ teacherId s = None.
Proof.
  apply (teacherless_course_is_scheduled Examples.artOnly Examples.noOptions Examples.noon
           [] [] Examples.art); reflexivity.
Defined.

(** ** The frame of the rebalancer *)

(** C10. The rebalancer is a sequence of tentative moves, each between two
    sections of the same course; a committed move takes the student out
    of the larger section and appends the student to the smaller one
    ([moveStudent]), a rolled-back move leaves the sections as they were.
    Phase 5 keeps the list of sections and, of every section, the id, the
    course, the teacher, the room, the periods and the capacity; and for
    every course the multiset of the students enrolled in the sections of
    the course is the same before and after. *)
Theorem rebalancing_keeps_courses (input : ScheduleInput) (options : SchedulerOptions) :
  ∃ g k o,
    assignmentPhases input = Some g ∧
    rebalancePhase input options (g_sections g) = Some (k, o) ∧
    rtc oneMove
        (mkOpt (g_sections g) (buildStudentSchedules (g_sections g) (students input))) o ∧
    fixedPart <$> o_sections o = fixedPart <$> g_sections g ∧
    ∀ cid, courseStudents (o_sections o) cid = courseStudents (g_sections g) cid.
Proof.
  destruct (pipeline_runs input options)
    as (secs3 & rs & g & k & o & Hrooms & Hgreedy & Hphases & Hreb & _ & _ & Hg & _).
  pose proof (pipeline_periods input secs3 rs Hrooms) as Hshape.
  exists g, k, o. split; [done|]. split; [done|].
  set (st0 := mkOpt (g_sections g) (buildStudentSchedules (g_sections g) (students input))).
  assert (rtc oneMove st0 o) as Hmoves.
  { eapply optimizeLoop_moves; [|exact Hreb]. apply sectionsByCourse_groupsOK. }
  split; [done|]. split; [by apply (moves_fixed st0 o)|].
  assert (Forall (λ s, enrolledStudents s = []) secs3) as Hunenrolled.
  { eapply Forall_impl; [exact Hshape|]. by intros s [? _]. }
  destruct (daysPerWeek (config input)) as [|days] eqn:Hdays.
  - (* no section meets: the sections are balanced as far as capacity allows *)
    assert ((∀ s, s ∈ g_sections g → periods s = []) ∧ fullBeforeUneven (g_sections g))
      as [_ Hfull].
    { apply (runGreedyAssignment_preserves
               (λ secs _, (∀ s, s ∈ secs → periods s = []) ∧ fullBeforeUneven secs)
               secs3 input (buildCourseMap (courses input)) [] g);
        [intros sid cid secs scheds b secs' scheds'; apply assignStudentToSection_full| |done].
      split; [|by apply fullBeforeUneven_unenrolled].
      intros s Hs. rewrite Forall_forall in Hshape.
      by destruct (Hshape s Hs) as (_ & slot & ->). }
    intros cid. by rewrite (moves_full st0 o Hmoves Hfull).
  - (* every section meets: no section lists a student twice *)
    assert (consistent (g_sections g) (g_schedules g) ∧ distinctEnrolled (g_sections g))
      as [[_ Hno] Hdist].
    { apply (runGreedyAssignment_preserves
               (λ secs scheds, consistent secs scheds ∧ distinctEnrolled secs)
               secs3 input (buildCourseMap (courses input)) [] g);
        [intros sid cid secs scheds b secs' scheds'; apply assignStudentToSection_distinct
        | |done].
      split; [by apply consistent_unenrolled|].
      intros s Hs. rewrite Forall_forall in Hshape.
      destruct (Hshape s Hs) as (He & slot & Hp). rewrite He, Hp.
      split; [done|constructor]. }
    destruct Hg as (_ & _ & Hids & _).
    destruct (buildStudentSchedules_covered (g_sections g) (students input) Hids) as [Hcov _].
    intros cid. by apply (moves_distinct st0 o Hmoves).
Qed.

(** * Further properties of phase 1 *)

Lemma heldBy_snoc secs s tid :
  heldBy (secs ++ [s]) tid =
    heldBy secs tid + (if decide (teacherId s = Some tid) then 1 else 0).
Proof.
  unfold heldBy. rewrite filter_app, length_app. f_equal.
  rewrite filter_cons, filter_nil. by destruct (decide _).
Qed.

Lemma createSection_count course qualified acc i :
  (∀ tid, default 0 (acc.2 !! tid) = heldBy acc.1 tid) →
  ∀ tid, default 0 ((createSection course qualified acc i).2 !! tid) =
         heldBy (createSection course qualified acc i).1 tid.
Proof.
  intros Hacc tid. unfold createSection. cbn [fst snd]. rewrite heldBy_snoc.
  destruct (pickTeacher qualified i) as [t|]; cbn [newSection teacherId fmap option_fmap option_map].
  - destruct (decide (Teacher.id t = tid)) as [->|Hne].
    + rewrite lookup_insert_eq. cbn. rewrite Hacc.
      destruct (decide (Some tid = Some tid)); [done|congruence].
    + rewrite lookup_insert_ne by done. rewrite Hacc.
      destruct (decide (Some (Teacher.id t) = Some tid)); [congruence|lia].
  - rewrite Hacc. destruct (decide (None = Some tid)); [done|lia].
Qed.

Lemma createCourseSections_count teachers acc course :
  (∀ tid, default 0 (acc.2 !! tid) = heldBy acc.1 tid) →
  ∀ tid, default 0 ((createCourseSections teachers acc course).2 !! tid) =
         heldBy (createCourseSections teachers acc course).1 tid.
Proof.
  unfold createCourseSections.
  generalize (qualifiedTeachers teachers acc.2 course) (seq 0 (Course.sections course)).
  intros qualified l. revert acc.
  induction l as [|i l IH]; intros acc Hacc; [done|]. cbn [foldl].
  apply IH. by apply createSection_count.
Qed.

Lemma createSectionsFrom_count teachers cs acc :
  (∀ tid, default 0 (acc.2 !! tid) = heldBy acc.1 tid) →
  ∀ tid, default 0 ((createSectionsFrom teachers acc cs).2 !! tid) =
         heldBy (createSectionsFrom teachers acc cs).1 tid.
Proof.
  revert acc. induction cs as [|c cs IH]; intros acc Hacc; [done|].
  apply IH. by apply createCourseSections_count.
Qed.

Lemma pickTeacher_elem qualified i t : pickTeacher qualified i = Some t → t ∈ qualified.
Proof.
  unfold pickTeacher. destruct (decide _); [done|]. apply list_elem_of_lookup_2.
Qed.

(** The sections phase 1 adds for a list of courses. *)
Lemma createSectionsFrom_new teachers cs acc :
  ∃ new, (createSectionsFrom teachers acc cs).1 = acc.1 ++ new ∧
         length new = sum_list (Course.sections <$> cs) ∧
         ∀ s, s ∈ new →
           (∃ c i, c ∈ cs ∧ i < Course.sections c ∧
                   id s = Course.id c +:+ "-" +:+ pretty (i + 1) ∧
                   courseId s = Course.id c ∧ capacity s = Course.maxStudents c) ∧
           (∀ tid, teacherId s = Some tid →
              ∃ t, t ∈ teachers ∧ Teacher.id t = tid ∧ courseId s ∈ Teacher.subjects t).
Proof.
  revert acc. induction cs as [|c cs IH]; intros acc.
  - exists []. cbn. rewrite app_nil_r. split; [done|]. split; [done|].
    intros s Hs. by apply elem_of_nil in Hs.
  - destruct (IH (createCourseSections teachers acc c)) as (new & Heq & Hlen & Hall).
    change (createSectionsFrom teachers acc (c :: cs))
      with (createSectionsFrom teachers (createCourseSections teachers acc c) cs).
    rewrite Heq, createCourseSections_sections, <- app_assoc.
    eexists. split; [done|]. split.
    { rewrite length_app, length_fmap, length_seq, Hlen. done. }
    intros s Hs. apply elem_of_app in Hs as [Hs|Hs].
    + apply list_elem_of_fmap in Hs as (i & -> & Hi).
      apply elem_of_seq in Hi. split.
      * exists c, i. split; [left|]. split; [lia|]. done.
      * intros tid Htid. cbn in Htid.
        destruct (pickTeacher _ i) as [t|] eqn:Hpick; [|done].
        injection Htid as <-. apply pickTeacher_elem in Hpick.
        apply list_elem_of_filter in Hpick as [[Hsub _] Ht]. by exists t.
    + destruct (Hall s Hs) as [(c' & i & Hc' & Hrest) Ht]. split; [|done].
      exists c', i. split; [by right|done].
Qed.

(** The id, the course and the capacity of the sections, in order. *)
Lemma createSections_labels cs teachers :
  (λ s, (id s, courseId s, capacity s)) <$> createSections cs teachers =
  cs ≫= (λ c, (λ i, (Course.id c +:+ "-" +:+ pretty (i + 1), Course.id c,
                     Course.maxStudents c)) <$> seq 0 (Course.sections c)).
Proof.
  unfold createSections.
  enough (∀ acc,
            (λ s, (id s, courseId s, capacity s)) <$> (createSectionsFrom teachers acc cs).1 =
            ((λ s, (id s, courseId s, capacity s)) <$> acc.1) ++
            (cs ≫= (λ c, (λ i, (Course.id c +:+ "-" +:+ pretty (i + 1), Course.id c,
                                Course.maxStudents c)) <$> seq 0 (Course.sections c))))
    as H by (by rewrite H).
  induction cs as [|c cs IH]; intros acc; cbn [createSectionsFrom foldl].
  { cbn. by rewrite app_nil_r. }
  unfold createSectionsFrom in IH. rewrite IH, createCourseSections_sections.
  rewrite fmap_app, <- app_assoc. f_equal. cbn [mbind list_bind].
  change (foldr _ _ _) with
    (((λ i, (Course.id c +:+ "-" +:+ pretty (i + 1), Course.id c, Course.maxStudents c))
        <$> seq 0 (Course.sections c)) ++
     (cs ≫= (λ c, (λ i, (Course.id c +:+ "-" +:+ pretty (i + 1), Course.id c,
                         Course.maxStudents c)) <$> seq 0 (Course.sections c)))).
  f_equal. by rewrite <- list_fmap_compose.
Qed.

(** X1. Phase 1 creates the sections course by course, in the order of the
    courses, and for every course exactly [course.sections] sections, in
    the order of their numbers: the ids, courses and capacities of the
    sections are, in order, [`${course.id}-${i + 1}`], [course.id] and
    [course.maxStudents] for [i] from 0 to [course.sections - 1].  A new
    section has no room, no periods and no students; if it has a teacher,
    that is a teacher of the input who lists the course among their
    subjects. *)
Theorem createSections_shape (cs : list Course.t) (teachers : list Teacher.t) :
  (λ s, (id s, courseId s, capacity s)) <$> createSections cs teachers =
    cs ≫= (λ c, (λ i, (Course.id c +:+ "-" +:+ pretty (i + 1), Course.id c,
                       Course.maxStudents c)) <$> seq 0 (Course.sections c)) ∧
  Forall (λ s, roomId s = None ∧ periods s = [] ∧ enrolledStudents s = [])
         (createSections cs teachers) ∧
  ∀ s tid, s ∈ createSections cs teachers → teacherId s = Some tid →
    ∃ t, t ∈ teachers ∧ Teacher.id t = tid ∧ courseId s ∈ Teacher.subjects t.
Proof.
  split; [apply createSections_labels|]. split; [apply createSections_unfurnished|].
  unfold createSections.
  destruct (createSectionsFrom_new teachers cs ([], ∅)) as (new & -> & Hlen & Hall).
  intros s tid Hs Htid. destruct (Hall s Hs) as [_ Ht]. by apply Ht.
Qed.

(** X2. The running count of phase 1 is the number of sections a teacher
    holds so far.  The pool of a course therefore consists of the teachers
    who list the course and who hold, when the course is reached, fewer
    sections than their [maxSections]; the pool is not revised while the
    sections of the course are created, and section [i] of the course gets
    the teacher [pool[i mod |pool|]], or none if the pool is empty. *)
Theorem createSections_round_robin
    (teachers : list Teacher.t) (pre post : list Course.t) (c : Course.t) (i : nat) :
  let before := createSections pre teachers in
  let pool :=
    filter (λ t, Course.id c ∈ Teacher.subjects t ∧
                 heldBy before (Teacher.id t) < Teacher.maxSections t) teachers in
  i < Course.sections c →
  createSections (pre ++ c :: post) teachers !! (length before + i) =
    Some (newSection c (pickTeacher pool i) i).
Proof.
  intros before pool Hi. unfold createSections.
  rewrite createSectionsFrom_app.
  set (acc := createSectionsFrom teachers ([], ∅) pre).
  change (createSectionsFrom teachers acc (c :: post))
    with (createSectionsFrom teachers (createCourseSections teachers acc c) post).
  destruct (createSectionsFrom_prefix teachers post (createCourseSections teachers acc c))
    as (rest & -> & _ & _).
  rewrite createCourseSections_sections, <- app_assoc.
  change (createSections pre teachers) with acc.1 in before.
  rewrite lookup_app_r by (unfold before; lia).
  replace (length before + i - length acc.1) with i by (unfold before; lia).
  rewrite lookup_app_l by (rewrite length_fmap, length_seq; lia).
  rewrite list_lookup_fmap, lookup_seq_lt by done. cbn. do 3 f_equal.
  unfold qualifiedTeachers, pool. apply filter_ext_elem. intros t _.
  unfold before, acc.
  by rewrite (createSectionsFrom_count teachers pre ([], ∅)) by done.
Qed.

Lemma createSections_round_robin_witness :
  createSections ([] ++ Examples.algebra :: []) [Examples.teacherT 1] !! (0 + 1) =
    Some (newSection Examples.algebra (Some (Examples.teacherT 1)) 1).
Proof.
  apply (createSections_round_robin [Examples.teacherT 1] [] [] Examples.algebra 1).
  cbn. lia.
Defined.

(** * Further properties of the pipeline *)

(** The stages of a run of [generateSchedule]. *)
Lemma pipeline_stages input options :
  let courseMap := buildCourseMap (courses input) in
  ∃ secs3 g k o,
    assignRooms (assignTimeSlots (createSections (courses input) (teachers input))
                                 (teachers input) (config input) courseMap)
                (rooms input) courseMap = Some secs3 ∧
    Forall (λ s, enrolledStudents s = [] ∧
                 ∃ slot, periods s = weekPeriods (daysPerWeek (config input)) slot) secs3 ∧
    runGreedyAssignment secs3 input courseMap [] = Some g ∧
    rebalancePhase input options (g_sections g) = Some (k, o) ∧
    rtc oneMove
        (mkOpt (g_sections g) (buildStudentSchedules (g_sections g) (students input))) o ∧
    greedyInv (students input) (fixedPart <$> secs3) g ∧
    optInv (fixedPart <$> secs3) o ∧
    (∀ clock, ∃ r, generateSchedule input options clock = Some r ∧
                   r_sections r = o_sections o ∧
                   unassignedStudents r = g_unassigned g) ∧
    assignmentPhases input = Some g.
Proof.
  intros courseMap.
  destruct (pipeline_runs input options)
    as (secs3 & rs & g & k & o & Hrooms & Hgreedy & Hphases & Hreb & _ & _ & Hg & Ho).
  pose proof (pipeline_periods input secs3 rs Hrooms) as Hshape.
  exists secs3, g, k, o.
  split; [unfold assignRooms; subst courseMap; by rewrite Hrooms|].
  split; [done|]. split; [done|]. split; [done|]. split.
  { eapply optimizeLoop_moves; [|exact Hreb]. apply sectionsByCourse_groupsOK. }
  split; [done|]. split; [done|]. split; [|done].
  intros clock. eexists. split.
  { unfold generateSchedule. rewrite Hphases. cbn. rewrite Hreb. cbn. done. }
  done.
Qed.

(** ** Capacity *)

Lemma assignStudentToSection_capacity sid cid secs scheds b secs' scheds' :
  withinCapacity secs →
  assignStudentToSection sid cid secs scheds = Some (b, secs', scheds') →
  withinCapacity secs'.
Proof.
  intros Hcap Hrun.
  destruct (scheds !! sid) as [sched|] eqn:Hsched;
    [|by unfold assignStudentToSection in Hrun; rewrite Hsched in Hrun].
  destruct (assignStudentToSection_cases sid cid secs scheds sched Hsched)
    as [(i & s & Hs & _ & Hlt & _ & Heq)|Heq];
    rewrite Heq in Hrun; injection Hrun as <- <- <-; [|done].
  apply Forall_insert; [done|]. cbn. rewrite length_app. cbn. lia.
Qed.

Lemma oneMove_neq (secs : list Section) smallest largest sm lg :
  secs !! smallest = Some sm → secs !! largest = Some lg →
  length (enrolledStudents sm) + 2 ≤ length (enrolledStudents lg) → smallest ≠ largest.
Proof. intros Hsm Hlg Hdiff ->. rewrite Hsm in Hlg. injection Hlg as ->. lia. Qed.

Lemma oneMove_capacity st st' :
  oneMove st st' → withinCapacity (o_sections st) → withinCapacity (o_sections st').
Proof.
  intros (smallest & largest & sm & lg & sid & b & Hsm & Hlg & Hcourse & Hdiff & Hin &
          Hrun & Hsecs) Hcap.
  rewrite Hsecs. destruct b; [|done].
  destruct (tryMove_commit_free _ _ _ _ _ _ _ Hrun) as (sched & _ & _ & Hlt).
  assert (smallest ≠ largest) as Hne by (by eapply oneMove_neq).
  unfold moveStudent.
  rewrite (list_alter_insert _ _ smallest sm)
    by (by rewrite list_lookup_alter_ne).
  apply Forall_insert.
  - rewrite (list_alter_insert _ _ largest lg) by done.
    apply Forall_insert; [done|]. cbn.
    unfold withinCapacity in Hcap. rewrite Forall_lookup in Hcap.
    pose proof (Hcap largest lg Hlg) as Hle. cbn in Hle.
    pose proof (length_filter (λ x, x ≠ sid) (enrolledStudents lg)). lia.
  - cbn. rewrite length_app. cbn. lia.
Qed.

Lemma moves_capacity st st' :
  rtc oneMove st st' → withinCapacity (o_sections st) → withinCapacity (o_sections st').
Proof. induction 1; [done|]. intros. eauto using oneMove_capacity. Qed.

(** X3. No section of a schedule of the web engine holds more students
    than its capacity; every enrollment of the greedy passes and every move
    of the rebalancer keeps the bound. *)
Theorem capacity_respected
    (input : ScheduleInput) (options : SchedulerOptions) (clock : Clock) :
  ∃ r, generateSchedule input options clock = Some r ∧
       ∀ s, s ∈ r_sections r → length (enrolledStudents s) ≤ capacity s.
Proof.
  destruct (pipeline_stages input options)
    as (secs3 & g & k & o & _ & Hshape & Hgreedy & _ & Hmoves & _ & _ & Hres & _).
  destruct (Hres clock) as (r & Hr & Hsecs & _).
  exists r. split; [done|]. rewrite Hsecs. apply Forall_forall.
  apply (moves_capacity _ _ Hmoves). cbn.
  apply (runGreedyAssignment_preserves (λ secs _, withinCapacity secs)
           secs3 input (buildCourseMap (courses input)) [] g);
    [intros sid cid secs scheds b secs' scheds'; apply assignStudentToSection_capacity| |done].
  eapply Forall_impl; [exact Hshape|]. intros s [-> _]. cbn. lia.
Qed.

(** ** Rooms *)

Lemma elem_of_assignedPeriods secs rid p :
  p ∈ assignedPeriods secs rid ↔
  ∃ s, s ∈ secs ∧ roomId s = Some rid ∧ p ∈ periods s.
Proof.
  induction secs as [|a secs IH].
  - unfold assignedPeriods. cbn. split; [set_solver|].
    intros (s & Hs & _). by apply elem_of_nil in Hs.
  - rewrite assignedPeriods_cons, elem_of_union, IH. split.
    + intros [Ha|(s & Hs & Hrest)].
      * destruct (decide (roomId a = Some rid)); [|set_solver].
        exists a. split; [left|]. split; [done|]. by apply elem_of_list_to_set in Ha.
      * exists s. split; [by right|done].
    + intros (s & [->|Hs]%elem_of_cons & Hr & Hp).
      * left. rewrite decide_True by done. by apply elem_of_list_to_set.
      * right. by exists s.
Qed.

Lemma phase2_unroomed (input : ScheduleInput) :
  Forall (λ s, roomId s = None)
         (assignTimeSlots (createSections (courses input) (teachers input))
                          (teachers input) (config input)
                          (buildCourseMap (courses input))).
Proof.
  apply Forall_lookup. intros i s' Hs'.
  pose proof (assignTimeSlots_timed (createSections (courses input) (teachers input))
                (teachers input) (config input) (buildCourseMap (courses input))) as H2.
  destruct (Forall2_lookup_r _ _ _ _ _ H2 Hs') as (s & Hs & Ht).
  eapply timed_unfurnished; [done|].
  pose proof (createSections_unfurnished (courses input) (teachers input)) as H1.
  rewrite Forall_lookup in H1. by eapply H1.
Qed.

(** What phase 3 guarantees for the sections it returns. *)
Lemma assignRooms_sound rooms courseMap secs secs' :
  Forall (λ s, roomId s = None) secs →
  assignRooms secs rooms courseMap = Some secs' →
  roomsFree secs' ∧
  ∀ s rid, s ∈ secs' → roomId s = Some rid →
    (∀ p, p ∈ periods s → p ∉ seedOf rooms rid) ∧
    ∃ room, room ∈ rooms ∧ Room.id room = rid ∧
            capacity s ≤ Room.capacity room ∧
            ∀ f, f ∈ courseFeatures courseMap (courseId s) → f ∈ Room.features room.
Proof.
  intros Hnone Hrun. unfold assignRooms in Hrun.
  destruct (assignRoomsFrom_spec rooms courseMap secs (initRoomSchedules rooms))
    as (secs0 & rs & Hrun0 & Hall & Hspec); [apply initRoomSchedules_dom|done|].
  rewrite Hrun0 in Hrun. injection Hrun as <-.
  assert (∀ k s rid, secs0 !! k = Some s → roomId s = Some rid →
            ∃ room, room ∈ rooms ∧ Room.id room = rid ∧
              roomFits courseMap
                (λ rid, occupied (initRoomSchedules rooms) rid ∪
                        assignedPeriods (take k secs0) rid) s room) as Hfit.
  { intros k s rid Hk Hrid.
    destruct (Forall2_lookup_r _ _ _ _ _ Hall Hk) as (s0 & Hs0 & _).
    destruct (Hspec k s0 Hs0) as (s' & Hk' & Hcase).
    rewrite Hk in Hk'. injection Hk' as <-.
    rewrite Forall_lookup in Hnone. pose proof (Hnone k s0 Hs0) as Hn.
    destruct Hcase as [(i & room & (Hi & Hfits & _) & ->)|(_ & ->)]; [|congruence].
    cbn in Hrid. injection Hrid as <-.
    exists room. split; [by eapply list_elem_of_lookup_2|]. split; [done|].
    destruct Hfits as (Hc & Hf & Hp). done. }
  split.
  - assert (∀ i j s s' rid p, i < j → secs0 !! i = Some s → secs0 !! j = Some s' →
              roomId s = Some rid → roomId s' = Some rid →
              p ∈ periods s → p ∉ periods s') as Hlt.
    { intros i j s s' rid p Hij Hi Hj Hr Hr' Hp Hp'.
      destruct (Hfit j s' rid Hj Hr') as (room & _ & Hid & _ & _ & Hfree).
      apply (Hfree p Hp'). rewrite Hid. apply elem_of_union. right.
      apply elem_of_assignedPeriods. exists s. split; [|done].
      apply list_elem_of_lookup. exists i. by rewrite lookup_take_lt. }
    intros i j s s' rid p Hij Hi Hj Hr Hr' Hp Hp'.
    destruct (decide (i < j)); [by eapply (Hlt i j s s')|].
    eapply (Hlt j i s' s); [lia|done..].
  - intros s rid [k Hk]%list_elem_of_lookup Hrid.
    destruct (Hfit k s rid Hk Hrid) as (room & Hroom & Hid & Hc & Hf & Hfree).
    split.
    + intros p Hp Hseed. apply (Hfree p Hp). rewrite Hid. apply elem_of_union. left.
      by rewrite initRoomSchedules_occupied.
    + by exists room.
Qed.

Lemma fixedPart_lookup (l l' : list Section) i s' :
  fixedPart <$> l' = fixedPart <$> l → l' !! i = Some s' →
  ∃ s, l !! i = Some s ∧ fixedPart s = fixedPart s'.
Proof.
  intros Heq Hs'.
  assert ((fixedPart <$> l) !! i = Some (fixedPart s')) as H
    by (by rewrite <- Heq, list_lookup_fmap, Hs').
  rewrite list_lookup_fmap in H. destruct (l !! i) as [s|]; [|done].
  exists s. split; [done|]. cbn in H. congruence.
Qed.


(** ** Enrollments and requests *)

Lemma foldM_inv_elem {A B} (P : B → Prop) (f : B → A → option B) l b b' :
  (∀ b x b', x ∈ l → P b → f b x = Some b' → P b') →
  P b → foldM f b l = Some b' → P b'.
Proof.
  revert b. induction l as [|x l IH]; intros b Hstep Hb; simpl.
  - by intros [= <-].
  - destruct (f b x) as [b1|] eqn:Hf; [|done]. simpl. apply IH.
    + intros b0 y b0' Hy. apply Hstep. by right.
    + eapply Hstep; [left|done..].
Qed.

(** A property that is kept by the calls of [assignStudentToSection] the
    two passes make (for a student of the input, a course the student
    lists, found in the table and open to the grade) is kept by the
    passes. *)
Lemma runGreedyAssignment_preserves_requests
    (Q : list Section → gmap StudentId (gset Period) → Prop) secs input courseMap un g :
  (∀ student cid course secs scheds b secs' scheds',
     student ∈ students input →
     cid ∈ Student.requiredCourses student ∨ cid ∈ Student.electivePreferences student →
     courseMap !! cid = Some course →
     gradeExcluded course (Student.grade student) = false →
     Q secs scheds →
     assignStudentToSection (Student.id student) cid secs scheds = Some (b, secs', scheds') →
     Q secs' scheds') →
  Q secs (initStudentSchedules (students input)) →
  runGreedyAssignment secs input courseMap un = Some g →
  Q (g_sections g) (g_schedules g).
Proof.
  intros Hstep Hinit. unfold runGreedyAssignment, requiredPass, electivePass.
  set (P := λ st, Q (g_sections st) (g_schedules st)).
  destruct (foldM _ _ (students input)) as [st1|] eqn:Hreq; [|done]. cbn.
  intros Helec.
  assert (P st1) as Hst1.
  { eapply (foldM_inv_elem P _ _ (mkGreedy secs (initStudentSchedules (students input)) un));
      [|exact Hinit|exact Hreq].
    intros st student st' Hstudent Hst. apply (foldM_inv_elem P); [|done].
    intros st0 cid st0' Hcid Hst0. unfold requiredStep.
    destruct (courseMap !! cid) as [course|] eqn:Hcourse; [|by intros [= <-]].
    destruct (gradeExcluded _ _) eqn:Hgrade; [by intros [= <-]|].
    destruct (assignStudentToSection _ _ _ _) as [[[b secs'] scheds']|] eqn:Hrun; [|done].
    cbn. intros [= <-].
    pose proof (Hstep _ _ _ _ _ _ _ _ Hstudent (or_introl Hcid) Hcourse Hgrade Hst0 Hrun).
    by destruct b. }
  eapply (foldM_inv_elem P); [|exact Hst1|exact Helec].
  intros st student st' Hstudent Hst. apply (foldM_inv_elem P); [|done].
  intros st0 cid st0' Hcid Hst0. unfold electiveStep.
  destruct (courseMap !! cid) as [course|] eqn:Hcourse; [|by intros [= <-]].
  destruct (gradeExcluded _ _) eqn:Hgrade; [by intros [= <-]|].
  destruct (assignStudentToSection _ _ _ _) as [[[b secs'] scheds']|] eqn:Hrun; [|done].
  cbn. intros [= <-].
  by apply (Hstep _ _ _ _ _ _ _ _ Hstudent (or_intror Hcid) Hcourse Hgrade Hst0 Hrun).
Qed.

Lemma oneMove_requested input st st' :
  oneMove st st' → onlyRequested input (o_sections st) →
  onlyRequested input (o_sections st').
Proof.
  intros (smallest & largest & sm & lg & sid & b & Hsm & Hlg & Hcourse & Hdiff & Hin &
          Hrun & Hsecs) Hreq.
  rewrite Hsecs. destruct b; [|done].
  assert (smallest ≠ largest) as Hne by (by eapply oneMove_neq).
  intros s x [i Hi]%list_elem_of_lookup Hx. unfold moveStudent in Hi.
  rewrite list_lookup_alter in Hi. destruct (decide (smallest = i)) as [<-|Hi1].
  - rewrite list_lookup_alter_ne, Hsm in Hi by done. injection Hi as <-.
    cbn in Hx. cbn. apply elem_of_app in Hx as [Hx| ->%list_elem_of_singleton].
    + by apply (Hreq sm); [eapply list_elem_of_lookup_2|].
    + rewrite Hcourse. by apply (Hreq lg); [eapply list_elem_of_lookup_2|].
  - rewrite list_lookup_alter in Hi. destruct (decide (largest = i)) as [<-|Hi2].
    + rewrite Hlg in Hi. injection Hi as <-. cbn in Hx. cbn.
      apply list_elem_of_filter in Hx as [_ Hx].
      by apply (Hreq lg); [eapply list_elem_of_lookup_2|].
    + by apply (Hreq s); [eapply list_elem_of_lookup_2|].
Qed.

Lemma moves_requested input st st' :
  rtc oneMove st st' → onlyRequested input (o_sections st) →
  onlyRequested input (o_sections st').
Proof. induction 1; [done|]. intros. eauto using oneMove_requested. Qed.

(** X5. A schedule of the web engine holds no enrollment that was not
    asked for: a student in a section is a student of the input who lists the course of
    the section as required or as an elective, the course is in the course
    table, and the grade of the student is not excluded by the course. *)
Theorem enrollments_are_requests
    (input : ScheduleInput) (options : SchedulerOptions) (clock : Clock) :
  ∃ r, generateSchedule input options clock = Some r ∧
       ∀ s sid, s ∈ r_sections r → sid ∈ enrolledStudents s →
                requested input sid (courseId s).
Proof.
  destruct (pipeline_stages input options)
    as (secs3 & g & k & o & _ & Hshape & Hgreedy & _ & Hmoves & _ & _ & Hres & _).
  destruct (Hres clock) as (r & Hr & Hsecs & _).
  exists r. split; [done|]. rewrite Hsecs.
  apply (moves_requested input _ _ Hmoves). cbn.
  apply (runGreedyAssignment_preserves_requests (λ secs _, onlyRequested input secs)
           secs3 input (buildCourseMap (courses input)) [] g); [| |done].
  - intros student cid course secs scheds b secs' scheds' Hstudent Hcid Hcourse Hgrade
           Hreq Hrun.
    destruct (scheds !! Student.id student) as [sched|] eqn:Hsched;
      [|by unfold assignStudentToSection in Hrun; rewrite Hsched in Hrun].
    destruct (assignStudentToSection_cases _ cid secs scheds sched Hsched)
      as [(i & s & Hs & Hc & _ & _ & Heq)|Heq];
      rewrite Heq in Hrun; injection Hrun as <- <- <-; [|done].
    intros s' x Hs' Hx. apply list_elem_of_insert_inv in Hs' as [->|Hs']; [|by apply Hreq].
    cbn in Hx. cbn. apply elem_of_app in Hx as [Hx| ->%list_elem_of_singleton].
    + by apply (Hreq s); [eapply list_elem_of_lookup_2|].
    + rewrite Hc. by exists student, course.
  - intros s sid Hs Hsid. rewrite Forall_forall in Hshape.
    destruct (Hshape s Hs) as [He _]. rewrite He in Hsid. by apply elem_of_nil in Hsid.
Qed.

(** ** The account of the required courses *)

Lemma foldM_prefix {A B} (P : list A → B → Prop) (f : B → A → option B) l b b' :
  (∀ pre x b b', x ∈ l → P pre b → f b x = Some b' → P (pre ++ [x]) b') →
  P [] b → foldM f b l = Some b' → P l b'.
Proof.
  intros Hstep.
  enough (∀ l0 pre b, (∀ x, x ∈ l0 → x ∈ l) → P pre b →
                      foldM f b l0 = Some b' → P (pre ++ l0) b') as H.
  { intros Hb Hrun. by apply (H l [] b). }
  induction l0 as [|x l0 IH]; intros pre b0 Hsub Hb; simpl.
  - intros [= <-]. by rewrite app_nil_r.
  - destruct (f b0 x) as [b1|] eqn:Hf; [|done]. simpl. intros Hrun.
    rewrite (cons_middle x pre l0), app_assoc. apply (IH (pre ++ [x]) b1); [| |done].
    + intros y Hy. apply Hsub. by right.
    + apply (Hstep pre x b0 b1); [apply Hsub; left|done|done].
Qed.

Lemma grows_refl st : grows st st.
Proof. by split. Qed.

Lemma grows_trans st1 st2 st3 : grows st1 st2 → grows st2 st3 → grows st1 st3.
Proof. intros [H1 H2] [H3 H4]. split; eauto. Qed.

Lemma enrolledIn_insert secs i s sid x cid :
  secs !! i = Some s → enrolledIn secs x cid → enrolledIn (<[i := enroll sid s]> secs) x cid.
Proof.
  intros Hs (s0 & [j Hj]%list_elem_of_lookup & Hc & Hx).
  destruct (decide (i = j)) as [->|Hne].
  - rewrite Hs in Hj. injection Hj as ->. exists (enroll sid s0).
    split; [|split; [done|cbn; apply elem_of_app; by left]].
    apply list_elem_of_lookup. exists j. rewrite list_lookup_insert_eq; [done|].
    by eapply lookup_lt_Some.
  - exists s0. split; [|done]. apply list_elem_of_lookup. exists j.
    by rewrite list_lookup_insert_ne.
Qed.

Lemma assignStudentToSection_enrolls sid cid secs scheds b secs' scheds' :
  assignStudentToSection sid cid secs scheds = Some (b, secs', scheds') →
  (∀ x c, enrolledIn secs x c → enrolledIn secs' x c) ∧
  (b = true → enrolledIn secs' sid cid).
Proof.
  intros Hrun.
  destruct (scheds !! sid) as [sched|] eqn:Hsched;
    [|by unfold assignStudentToSection in Hrun; rewrite Hsched in Hrun].
  destruct (assignStudentToSection_cases sid cid secs scheds sched Hsched)
    as [(i & s & Hs & Hc & _ & _ & Heq)|Heq];
    rewrite Heq in Hrun; injection Hrun as <- <- <-; [|done].
  split; [intros x c; by apply enrolledIn_insert|]. intros _.
  exists (enroll sid s). split; [|split; [done|cbn; apply elem_of_app; right; left]].
  apply list_elem_of_lookup. exists i. rewrite list_lookup_insert_eq; [done|].
  by eapply lookup_lt_Some.
Qed.

Lemma requiredStep_grows courseMap student st cid st' :
  requiredStep courseMap student st cid = Some st' →
  grows st st' ∧
  accounted courseMap (g_sections st') (g_unassigned st') student cid ∧
  ∀ u, u ∈ g_unassigned st' →
       u ∈ g_unassigned st ∨
       (u_studentId u = Student.id student ∧ u_courseId u = cid ∧
        match courseMap !! cid with
        | None => u_reason u = "Course not found"
        | Some course =>
            gradeExcluded course (Student.grade student) = false ∧
            u_reason u = "No available section (conflict or capacity)"
        end).
Proof.
  unfold requiredStep, accounted.
  destruct (courseMap !! cid) as [course|] eqn:Hcourse.
  - destruct (gradeExcluded _ _) eqn:Hgrade.
    { intros [= <-]. split; [apply grows_refl|]. split; [done|]. by left. }
    destruct (assignStudentToSection _ _ _ _) as [[[b secs'] scheds']|] eqn:Hrun; [|done].
    cbn. intros [= <-].
    destruct (assignStudentToSection_enrolls _ _ _ _ _ _ _ Hrun) as [Hmono Hnew].
    destruct b; cbn.
    + split; [by split|]. split; [intros _; left; by apply Hnew|]. by left.
    + split; [split; [intros u Hu; apply elem_of_app; by left|done]|].
      split; [intros _; right; apply elem_of_app; right; left|].
      intros u [Hu| ->%list_elem_of_singleton]%elem_of_app; [by left|by right].
  - intros [= <-]. cbn. split; [split; [intros u Hu; apply elem_of_app; by left|done]|].
    split; [apply elem_of_app; right; left|].
    intros u [Hu| ->%list_elem_of_singleton]%elem_of_app; [by left|by right].
Qed.

Lemma electiveStep_grows courseMap student st cid st' :
  electiveStep courseMap student st cid = Some st' →
  grows st st' ∧ g_unassigned st' = g_unassigned st.
Proof.
  unfold electiveStep.
  destruct (courseMap !! cid) as [course|]; [|by intros [= <-]; split; [apply grows_refl|]].
  destruct (gradeExcluded _ _); [by intros [= <-]; split; [apply grows_refl|]|].
  destruct (assignStudentToSection _ _ _ _) as [[[b secs'] scheds']|] eqn:Hrun; [|done].
  cbn. intros [= <-].
  destruct (assignStudentToSection_enrolls _ _ _ _ _ _ _ Hrun) as [Hmono _].
  by split; [split|].
Qed.

Lemma accounted_grows courseMap st st' student cid :
  grows st st' →
  accounted courseMap (g_sections st) (g_unassigned st) student cid →
  accounted courseMap (g_sections st') (g_unassigned st') student cid.
Proof.
  intros [Hun Hen]. unfold accounted. destruct (courseMap !! cid); [|by apply Hun].
  intros Hacc Hgrade. destruct (Hacc Hgrade) as [H|H]; [left; by apply Hen|right; by apply Hun].
Qed.

(** What the two passes leave behind. *)
Lemma runGreedyAssignment_account secs input courseMap g :
  runGreedyAssignment secs input courseMap [] = Some g →
  (∀ student cid, student ∈ students input → cid ∈ Student.requiredCourses student →
                  accounted courseMap (g_sections g) (g_unassigned g) student cid) ∧
  (∀ u, u ∈ g_unassigned g → justified courseMap (students input) u).
Proof.
  unfold runGreedyAssignment, requiredPass, electivePass.
  set (st0 := mkGreedy secs (initStudentSchedules (students input)) []).
  destruct (foldM _ st0 (students input)) as [st1|] eqn:Hreq; [|done]. cbn.
  intros Helec.
  set (P := λ (pre : list Student.t) st,
         (∀ student cid, student ∈ pre → cid ∈ Student.requiredCourses student →
                         accounted courseMap (g_sections st) (g_unassigned st) student cid) ∧
         (∀ u, u ∈ g_unassigned st → justified courseMap (students input) u)).
  assert (P (students input) st1) as [Hacc1 Hjust1].
  { eapply (foldM_prefix P _ _ st0);
      [|split; [intros ? ? []%elem_of_nil|intros ? []%elem_of_nil]|exact Hreq].
    intros pre student st st' Hstudent [HaccP HjustP] Hinner.
    set (R := λ (cs : list CourseId) st',
           grows st st' ∧
           (∀ cid, cid ∈ cs →
                   accounted courseMap (g_sections st') (g_unassigned st') student cid) ∧
           (∀ u, u ∈ g_unassigned st' → justified courseMap (students input) u)).
    assert (R (Student.requiredCourses student) st') as (Hgrow & HaccR & HjustR).
    { eapply (foldM_prefix R _ _ st);
        [|split; [apply grows_refl|split; [intros ? []%elem_of_nil|done]]|exact Hinner].
      intros cs cid sta stb Hcid (Hg & Ha & Hj) Hstep.
      destruct (requiredStep_grows _ _ _ _ _ Hstep) as (Hg' & Ha' & Hu').
      split; [by eapply grows_trans|]. split.
      - intros c [Hc| ->%list_elem_of_singleton]%elem_of_app; [|done].
        eapply accounted_grows; [exact Hg'|by apply Ha].
      - intros u Hu. destruct (Hu' u Hu) as [Hold|(Hid & Hc & Hreason)]; [by apply Hj|].
        exists student. rewrite Hc. done. }
    split; [|done].
    intros s cid [Hs| ->%list_elem_of_singleton]%elem_of_app Hcid; [|by apply HaccR].
    eapply accounted_grows; [exact Hgrow|by apply HaccP]. }
  assert (grows st1 g ∧ g_unassigned g = g_unassigned st1) as [Hgrow Hun].
  { eapply (foldM_inv (λ st, grows st1 st ∧ g_unassigned st = g_unassigned st1));
      [|split; [apply grows_refl|done]|exact Helec].
    intros st student st' Hst. apply (foldM_inv (λ st, grows st1 st ∧ g_unassigned st = g_unassigned st1)); [|done].
    intros sta cid stb [Hg Hu] Hstep.
    destruct (electiveStep_grows _ _ _ _ _ Hstep) as [Hg' Hu'].
    split; [by eapply grows_trans|congruence]. }
  split.
  - intros student cid Hs Hc. eapply accounted_grows; [exact Hgrow|by apply Hacc1].
  - rewrite Hun. done.
Qed.

Lemma oneMove_enrolledIn st st' x cid :
  oneMove st st' → enrolledIn (o_sections st) x cid → enrolledIn (o_sections st') x cid.
Proof.
  intros (smallest & largest & sm & lg & sid & b & Hsm & Hlg & Hcourse & Hdiff & Hin &
          Hrun & Hsecs) (s0 & [j Hj]%list_elem_of_lookup & Hc & Hx).
  rewrite Hsecs. destruct b; [|exists s0; split; [by eapply list_elem_of_lookup_2|done]].
  assert (smallest ≠ largest) as Hne by (by eapply oneMove_neq).
  assert (moveStudent smallest largest sid (o_sections st) !! smallest =
          Some (enroll sid sm)) as Hnew.
  { unfold moveStudent. rewrite list_lookup_alter_eq, list_lookup_alter_ne, Hsm by done. done. }
  destruct (decide (j = smallest)) as [->|Hj1].
  - rewrite Hsm in Hj. injection Hj as ->. exists (enroll sid s0).
    split; [by eapply list_elem_of_lookup_2|]. split; [done|].
    cbn. apply elem_of_app. by left.
  - destruct (decide (j = largest)) as [->|Hj2].
    + rewrite Hlg in Hj. injection Hj as ->.
      destruct (decide (x = sid)) as [->|Hxs].
      * exists (enroll sid sm). split; [by eapply list_elem_of_lookup_2|].
        split; [cbn; congruence|]. cbn. apply elem_of_app. right. left.
      * exists (setEnrolled (filter (λ y, y ≠ sid) (enrolledStudents s0)) s0).
        split; [|split; [done|cbn; by apply list_elem_of_filter]].
        apply list_elem_of_lookup. exists largest. unfold moveStudent.
        rewrite list_lookup_alter_ne, list_lookup_alter_eq, Hlg by done. done.
    + exists s0. split; [|done]. apply list_elem_of_lookup. exists j. unfold moveStudent.
      by rewrite !list_lookup_alter_ne by done.
Qed.

Lemma moves_enrolledIn st st' x cid :
  rtc oneMove st st' → enrolledIn (o_sections st) x cid → enrolledIn (o_sections st') x cid.
Proof. induction 1; [done|]. intros. eauto using oneMove_enrolledIn. Qed.

(** X6. Every required course of every student is accounted for in the
    schedule of the web engine.  If the course is not in the course table, the unassigned list
    has the entry [Course not found]; if the course excludes the grade of
    the student, nothing is recorded; otherwise the student is in a section
    of the course, or the unassigned list has the entry [No available
    section (conflict or capacity)].  Conversely every entry of the
    unassigned list stems from a required course of a student of the input
    in one of these two ways; electives never produce an entry. *)
Theorem required_courses_accounted
    (input : ScheduleInput) (options : SchedulerOptions) (clock : Clock) :
  let courseMap := buildCourseMap (courses input) in
  ∃ r, generateSchedule input options clock = Some r ∧
       (∀ student cid,
          student ∈ students input → cid ∈ Student.requiredCourses student →
          accounted courseMap (r_sections r) (unassignedStudents r) student cid) ∧
       (∀ u, u ∈ unassignedStudents r → justified courseMap (students input) u).
Proof.
  intros courseMap.
  destruct (pipeline_stages input options)
    as (secs3 & g & k & o & _ & _ & Hgreedy & _ & Hmoves & _ & _ & Hres & _).
  destruct (Hres clock) as (r & Hr & Hsecs & Hun).
  exists r. split; [done|]. rewrite Hsecs, Hun.
  destruct (runGreedyAssignment_account _ _ _ _ Hgreedy) as [Hacc Hjust].
  split; [|done].
  intros student cid Hs Hc. pose proof (Hacc student cid Hs Hc) as H.
  unfold accounted in *. fold courseMap in H. destruct (courseMap !! cid); [|done].
  intros Hgrade. destruct (H Hgrade) as [Hen|Hu]; [left|by right].
  by apply (moves_enrolledIn _ _ _ _ Hmoves).
Qed.

(** * The score *)

Lemma score_fold secs groups (q : Q) :
  Qeq (foldl (λ score group,
              if decide (length group.2 < 2) then score
              else (score - inject_Z (sizeSpread secs group.2) * (1 # 2))%Q) q groups)
      (q - inject_Z (spreadSum secs groups) * (1 # 2))%Q.
Proof.
  revert q. induction groups as [|g groups IH]; intros q; cbn [foldl foldr spreadSum].
  - change (inject_Z 0) with 0%Q. ring.
  - rewrite IH. fold (spreadSum secs groups). rewrite inject_Z_plus.
    destruct (decide (length g.2 < 2)).
    + change (inject_Z 0) with 0%Q. ring.
    + ring.
Qed.

(** The score is 100 less half the double penalty, cut off at 0 and 100. *)
Lemma calculateScore_closed secs :
  (calculateScore secs ==
   Qmax 0 (Qmin 100 (inject_Z (200 - doublePenalty secs) * (1 # 2))))%Q.
Proof.
  unfold calculateScore. cbv zeta.
  apply Q.max_compat; [reflexivity|]. apply Q.min_compat; [reflexivity|].
  rewrite score_fold. unfold doublePenalty.
  cbv zeta. rewrite <- Z.add_opp_r.
  rewrite !inject_Z_plus, inject_Z_opp, !inject_Z_plus, !inject_Z_mult.
  change (inject_Z 200) with 200%Q. change (inject_Z 10) with 10%Q.
  change (inject_Z 20) with 20%Q. ring.
Qed.

Lemma foldr_max_ge (l : list nat) x : x ∈ l → x ≤ foldr Nat.max 0 l.
Proof.
  induction l as [|y l IH]; [by intros ?%elem_of_nil|].
  intros [->|Hx]%elem_of_cons; cbn; [lia|]. specialize (IH Hx). lia.
Qed.

Lemma foldr_max_le (l : list nat) v : (∀ x, x ∈ l → x ≤ v) → foldr Nat.max 0 l ≤ v.
Proof.
  induction l as [|y l IH]; intros H; cbn; [lia|].
  pose proof (H y ltac:(left)). pose proof (IH (λ x Hx, H x ltac:(by right))). lia.
Qed.

Lemma foldr_min_le (l : list nat) M :
  foldr Nat.min M l ≤ M ∧ ∀ x, x ∈ l → foldr Nat.min M l ≤ x.
Proof.
  induction l as [|y l [IH1 IH2]]; cbn.
  - split; [lia|]. by intros x ?%elem_of_nil.
  - split; [lia|]. intros x [->|Hx]%elem_of_cons; [lia|]. specialize (IH2 x Hx). lia.
Qed.

Lemma foldr_min_ge (l : list nat) M v :
  v ≤ M → (∀ x, x ∈ l → v ≤ x) → v ≤ foldr Nat.min M l.
Proof.
  intros HM. induction l as [|y l IH]; intros H; cbn; [done|].
  pose proof (H y ltac:(left)). pose proof (IH (λ x Hx, H x ltac:(by right))). lia.
Qed.

Lemma sizeSpread_nonneg secs group : (0 ≤ sizeSpread secs group)%Z.
Proof.
  unfold sizeSpread. cbv zeta.
  pose proof (foldr_min_le (enrolledCount secs <$> group)
                (foldr Nat.max 0 (enrolledCount secs <$> group))) as [H _]. lia.
Qed.

Lemma sizeSpread_zero secs group :
  sizeSpread secs group = 0%Z ↔
  ∀ i j, i ∈ group → j ∈ group → enrolledCount secs i = enrolledCount secs j.
Proof.
  unfold sizeSpread. cbv zeta.
  set (sizes := enrolledCount secs <$> group).
  pose proof (foldr_min_le sizes (foldr Nat.max 0 sizes)) as [Hle Hmin].
  split.
  - intros H i j Hi Hj.
    assert (∀ x, x ∈ sizes → x = foldr Nat.max 0 sizes) as Hall.
    { intros x Hx. pose proof (foldr_max_ge sizes x Hx). pose proof (Hmin x Hx). lia. }
    rewrite (Hall (enrolledCount secs i)), (Hall (enrolledCount secs j));
      [done|by apply list_elem_of_fmap_2..].
  - intros H. destruct group as [|i group]; [done|].
    set (v := enrolledCount secs i).
    assert (∀ x, x ∈ sizes → x = v) as Hall.
    { intros x (j & -> & Hj)%list_elem_of_fmap. apply H; [done|left]. }
    assert (foldr Nat.max 0 sizes = v) as HM.
    { apply Nat.le_antisymm.
      - apply foldr_max_le. intros x Hx. by rewrite (Hall x Hx).
      - apply foldr_max_ge. left. }
    assert (v ≤ foldr Nat.min (foldr Nat.max 0 sizes) sizes).
    { apply foldr_min_ge; [lia|]. intros x Hx. by rewrite (Hall x Hx). }
    lia.
Qed.

Lemma spreadSum_nonneg secs groups : (0 ≤ spreadSum secs groups)%Z.
Proof.
  induction groups as [|g groups IH]; cbn; [done|].
  fold (spreadSum secs groups). pose proof (sizeSpread_nonneg secs g.2).
  destruct (decide _); lia.
Qed.

Lemma spreadSum_zero secs groups :
  spreadSum secs groups = 0%Z ↔
  ∀ g, g ∈ groups → 2 ≤ length g.2 → sizeSpread secs g.2 = 0%Z.
Proof.
  induction groups as [|g groups IH]; cbn.
  - split; [|done]. by intros _ g ?%elem_of_nil.
  - fold (spreadSum secs groups).
    pose proof (spreadSum_nonneg secs groups). pose proof (sizeSpread_nonneg secs g.2).
    split.
    + intros Hsum g' [->|Hg']%elem_of_cons Hlen.
      * destruct (decide (length g.2 < 2)); lia.
      * apply IH; [|done..]. destruct (decide _); lia.
    + intros Hall.
      assert (spreadSum secs groups = 0%Z) as ->.
      { apply IH. intros g' Hg'. apply Hall. by right. }
      destruct (decide (length g.2 < 2)); [done|].
      rewrite (Hall g); [done|left|lia].
Qed.

Lemma countWhere_nonneg {A} (p : A → bool) l : (0 ≤ countWhere p l)%Z.
Proof. unfold countWhere. lia. Qed.

Lemma countWhere_zero {A} (p : A → bool) l :
  countWhere p l = 0%Z ↔ Forall (λ x, p x = false) l.
Proof.
  unfold countWhere. induction l as [|x l IH].
  - split; [constructor|done].
  - rewrite filter_cons. destruct (decide (p x = true)) as [Hp|Hp]; cbn.
    + split; [lia|]. intros [H _]%Forall_cons. congruence.
    + rewrite IH. rewrite Forall_cons. apply not_true_is_false in Hp. tauto.
Qed.

Lemma doublePenalty_nonneg secs : (0 ≤ doublePenalty secs)%Z.
Proof.
  unfold doublePenalty. cbv zeta.
  pose proof (countWhere_nonneg (λ s, bool_decide (length (enrolledStudents s) = 0)) secs).
  pose proof (countWhere_nonneg (λ s, falsy (roomId s)) secs).
  pose proof (countWhere_nonneg (λ s, falsy (teacherId s)) secs).
  pose proof (spreadSum_nonneg secs (sectionsByCourse secs)). lia.
Qed.

Lemma balanced_groups secs :
  (∀ g, g ∈ sectionsByCourse secs → 2 ≤ length g.2 → sizeSpread secs g.2 = 0%Z) ↔
  ∀ i j s s', secs !! i = Some s → secs !! j = Some s' → courseId s = courseId s' →
              length (enrolledStudents s) = length (enrolledStudents s').
Proof.
  split.
  - intros Hall i j s s' Hi Hj Hc.
    destruct (decide (i = j)) as [->|Hne]; [congruence|].
    set (cid := courseId s).
    assert ((cid, courseSectionIdxs secs cid) ∈ sectionsByCourse secs) as Hg.
    { rewrite sectionsByCourse_spec. apply list_elem_of_fmap.
      exists cid. split; [done|]. apply firstOccurrences_elem.
      apply list_elem_of_fmap. exists s. split; [done|]. by eapply list_elem_of_lookup_2. }
    assert (i ∈ courseSectionIdxs secs cid) as Hi'
      by (apply courseSectionIdxs_elem; by rewrite Hi).
    assert (j ∈ courseSectionIdxs secs cid) as Hj'
      by (apply courseSectionIdxs_elem; rewrite Hj; cbn; by rewrite <- Hc).
    assert (2 ≤ length (courseSectionIdxs secs cid)) as Hlen.
    { destruct (courseSectionIdxs secs cid) as [|a [|b l]]; cbn; [| |lia].
      - by apply elem_of_nil in Hi'.
      - apply list_elem_of_singleton in Hi', Hj'. congruence. }
    pose proof (Hall _ Hg Hlen) as Hz. cbn in Hz. rewrite sizeSpread_zero in Hz.
    specialize (Hz i j Hi' Hj').
    by rewrite (enrolledCount_lookup _ _ _ Hi), (enrolledCount_lookup _ _ _ Hj) in Hz.
  - intros Hall [cid group] Hg Hlen. cbn. apply sizeSpread_zero. intros i j Hi Hj.
    pose proof (sectionsByCourse_group _ _ _ _ Hg Hi) as Hci.
    pose proof (sectionsByCourse_group _ _ _ _ Hg Hj) as Hcj.
    destruct (secs !! i) as [s|] eqn:Hsi; [|done].
    destruct (secs !! j) as [s'|] eqn:Hsj; [|done].
    rewrite (enrolledCount_lookup _ _ _ Hsi), (enrolledCount_lookup _ _ _ Hsj).
    apply (Hall i j); [done..|]. cbn in Hci, Hcj. congruence.
Qed.

Lemma doublePenalty_zero secs : doublePenalty secs = 0%Z ↔ flawless secs.
Proof.
  unfold doublePenalty, flawless. cbv zeta.
  pose proof (countWhere_nonneg (λ s, bool_decide (length (enrolledStudents s) = 0)) secs).
  pose proof (countWhere_nonneg (λ s, falsy (roomId s)) secs).
  pose proof (countWhere_nonneg (λ s, falsy (teacherId s)) secs).
  pose proof (spreadSum_nonneg secs (sectionsByCourse secs)).
  rewrite <- balanced_groups, <- spreadSum_zero.
  split.
  - intros Hsum.
    assert (countWhere (λ s, bool_decide (length (enrolledStudents s) = 0)) secs = 0%Z) as He
      by lia.
    assert (countWhere (λ s, falsy (roomId s)) secs = 0%Z) as Hr by lia.
    assert (countWhere (λ s, falsy (teacherId s)) secs = 0%Z) as Ht by lia.
    split; [|lia].
    apply countWhere_zero in He, Hr, Ht.
    rewrite Forall_forall in He, Hr, Ht. apply Forall_forall. intros s Hs.
    split; [|split; [by apply Hr|by apply Ht]].
    intros Hnil. pose proof (He s Hs) as Hb. cbn in Hb.
    rewrite Hnil in Hb. by apply bool_decide_eq_false in Hb.
  - intros [Hall Hs]. rewrite Hs.
    rewrite Forall_forall in Hall.
    assert (countWhere (λ s, bool_decide (length (enrolledStudents s) = 0)) secs = 0%Z) as ->.
    { apply countWhere_zero, Forall_forall. intros s Hsec.
      destruct (Hall s Hsec) as (Hne & _). apply bool_decide_eq_false.
      by destruct (enrolledStudents s). }
    assert (countWhere (λ s, falsy (roomId s)) secs = 0%Z) as ->.
    { apply countWhere_zero, Forall_forall. intros s Hsec. by apply Hall. }
    assert (countWhere (λ s, falsy (teacherId s)) secs = 0%Z) as ->.
    { apply countWhere_zero, Forall_forall. intros s Hsec. by apply Hall. }
    done.
Qed.

(** X7. The score lies between 0 and 100, and it is 100 exactly for a
    schedule without blemish: no section is empty, every section has a room
    and a teacher (an id that is present and not the empty string), and all
    sections of a course have the same number of students. *)
Theorem score_perfect_iff_flawless (secs : list Section) :
  Qle 0 (calculateScore secs) ∧ Qle (calculateScore secs) 100 ∧
  (Qeq (calculateScore secs) 100 ↔ flawless secs).
Proof.
  pose proof (calculateScore_closed secs) as Hclosed.
  pose proof (doublePenalty_nonneg secs) as Hnn.
  set (x := (inject_Z (200 - doublePenalty secs) * (1 # 2))%Q) in Hclosed.
  assert (Qle x 100) as Hx.
  { unfold x. unfold Qle. cbn. lia. }
  assert (Qeq (Qmin 100 x) x) as Hmin by (by apply Q.min_r).
  rewrite Hclosed, Hmin. split; [apply Q.le_max_l|].
  split; [apply Q.max_lub; [done|exact Hx]|].
  rewrite <- doublePenalty_zero. split.
  - intros Heq.
    destruct (Q.max_spec 0 x) as [[_ Hm]|[Hle Hm]]; rewrite Hm in Heq.
    + unfold x in Heq. unfold Qeq in Heq. cbn in Heq. lia.
    + discriminate Heq.
  - intros Hz. unfold x. rewrite Hz. reflexivity.
Qed.

(** ** The rebalancer and the score *)

Lemma length_filter_remove (l : list StudentId) sid :
  NoDup l → sid ∈ l → length (filter (λ x, x ≠ sid) l) + 1 = length l.
Proof.
  induction l as [|y l IH]; [by intros _ ?%elem_of_nil|].
  intros [Hy Hnd]%NoDup_cons Hin. rewrite filter_cons.
  destruct (decide (y ≠ sid)) as [Hne|Heq%dec_stable]; cbn.
  - apply elem_of_cons in Hin as [->|Hin]; [done|]. rewrite IH; done.
  - subst y. f_equal. rewrite Nat.add_1_r. f_equal.
    clear IH Hin. induction l as [|z l IH]; [done|].
    apply not_elem_of_cons in Hy as [Hz Hy]. apply NoDup_cons in Hnd as [_ Hnd].
    rewrite filter_cons, decide_True by done. cbn. f_equal. by apply IH.
Qed.

Lemma courseSectionIdxs_ext (secs secs' : list Section) cid :
  courseId <$> secs' = courseId <$> secs →
  courseSectionIdxs secs' cid = courseSectionIdxs secs cid.
Proof.
  intros Heq. unfold courseSectionIdxs.
  assert (length secs' = length secs) as ->
    by (by rewrite <- (length_fmap courseId secs'), Heq, length_fmap).
  apply filter_ext_elem. intros i _.
  by rewrite <- !list_lookup_fmap, Heq.
Qed.

Lemma sectionsByCourse_ext (secs secs' : list Section) :
  courseId <$> secs' = courseId <$> secs →
  sectionsByCourse secs' = sectionsByCourse secs.
Proof.
  intros Heq. rewrite !sectionsByCourse_spec, Heq.
  apply list_fmap_ext. intros _ cid _. by rewrite (courseSectionIdxs_ext secs secs').
Qed.

Lemma countWhere_fmap {A B} (f : A → B) (p : B → bool) (l : list A) :
  countWhere (λ x, p (f x)) l = countWhere p (f <$> l).
Proof.
  unfold countWhere. f_equal. induction l as [|x l IH]; [done|].
  rewrite fmap_cons, !filter_cons. destruct (decide (p (f x) = true)); cbn; by rewrite IH.
Qed.

Lemma countWhere_mono {A} (p : A → bool) (l l' : list A) :
  Forall2 (λ x x', p x' = true → p x = true) l l' →
  (countWhere p l' ≤ countWhere p l)%Z.
Proof.
  unfold countWhere. induction 1 as [|x x' l l' Hx _ IH]; [done|].
  rewrite !filter_cons.
  destruct (decide (p x' = true)) as [Hp'|Hp'].
  - rewrite decide_True by auto. cbn. lia.
  - destruct (decide (p x = true)); cbn; lia.
Qed.

(** If the new sizes of a group lie between the least and the greatest of
    the old sizes, the spread of the group does not grow. *)
Lemma sizeSpread_shrink secs secs' group :
  (∀ i, i ∈ group →
        ∃ j k, j ∈ group ∧ k ∈ group ∧
               enrolledCount secs j ≤ enrolledCount secs' i ≤ enrolledCount secs k) →
  (sizeSpread secs' group ≤ sizeSpread secs group)%Z.
Proof.
  intros Hall. unfold sizeSpread. cbv zeta.
  set (sizes := enrolledCount secs <$> group).
  set (sizes' := enrolledCount secs' <$> group).
  destruct group as [|i0 group]; [done|].
  pose proof (foldr_min_le sizes (foldr Nat.max 0 sizes)) as [_ Hmin].
  pose proof (foldr_min_le sizes' (foldr Nat.max 0 sizes')) as [Hle' _].
  assert (∀ x', x' ∈ sizes' →
            foldr Nat.min (foldr Nat.max 0 sizes) sizes ≤ x' ≤ foldr Nat.max 0 sizes)
    as Hin.
  { intros x' (i & -> & Hi)%list_elem_of_fmap.
    destruct (Hall i Hi) as (j & k & Hj & Hk & Hjk).
    pose proof (Hmin (enrolledCount secs j) ltac:(by apply list_elem_of_fmap_2)).
    pose proof (foldr_max_ge sizes (enrolledCount secs k)
                  ltac:(by apply list_elem_of_fmap_2)). lia. }
  assert (foldr Nat.max 0 sizes' ≤ foldr Nat.max 0 sizes) as HM.
  { apply foldr_max_le. intros x' Hx'. by apply Hin. }
  assert (foldr Nat.min (foldr Nat.max 0 sizes) sizes ≤
          foldr Nat.min (foldr Nat.max 0 sizes') sizes') as Hm.
  { apply foldr_min_ge; [|intros x' Hx'; by apply Hin].
    pose proof (Hin (enrolledCount secs' i0) ltac:(left)).
    pose proof (foldr_max_ge sizes' (enrolledCount secs' i0) ltac:(left)). lia. }
  lia.
Qed.

Lemma spreadSum_mono secs secs' groups :
  (∀ g, g ∈ groups → (sizeSpread secs' g.2 ≤ sizeSpread secs g.2)%Z) →
  (spreadSum secs' groups ≤ spreadSum secs groups)%Z.
Proof.
  induction groups as [|g groups IH]; intros Hall; cbn; [done|].
  fold (spreadSum secs groups) (spreadSum secs' groups).
  pose proof (Hall g ltac:(left)). pose proof (IH (λ g' Hg', Hall g' ltac:(by right))).
  destruct (decide _); lia.
Qed.

Lemma moveStudent_lookup smallest largest sid (secs : list Section) sm lg i :
  secs !! smallest = Some sm → secs !! largest = Some lg → smallest ≠ largest →
  moveStudent smallest largest sid secs !! i =
    if decide (i = smallest) then Some (enroll sid sm)
    else if decide (i = largest)
         then Some (setEnrolled (filter (λ x, x ≠ sid) (enrolledStudents lg)) lg)
         else secs !! i.
Proof.
  intros Hsm Hlg Hne. unfold moveStudent.
  destruct (decide (i = smallest)) as [->|H1].
  - by rewrite list_lookup_alter_eq, list_lookup_alter_ne, Hsm by done.
  - rewrite list_lookup_alter_ne by done.
    destruct (decide (i = largest)) as [->|H2].
    + by rewrite list_lookup_alter_eq, Hlg.
    + by rewrite list_lookup_alter_ne by done.
Qed.

(** A committed move between two sections of a course, the larger one
    without a repeated student, does not raise the penalty. *)
Lemma moveStudent_penalty smallest largest sid (secs : list Section) sm lg :
  secs !! smallest = Some sm → secs !! largest = Some lg →
  courseId sm = courseId lg →
  length (enrolledStudents sm) + 2 ≤ length (enrolledStudents lg) →
  NoDup (enrolledStudents lg) → sid ∈ enrolledStudents lg →
  (doublePenalty (moveStudent smallest largest sid secs) ≤ doublePenalty secs)%Z.
Proof.
  intros Hsm Hlg Hcourse Hdiff Hnd Hin.
  assert (smallest ≠ largest) as Hne by (by eapply oneMove_neq).
  set (secs' := moveStudent smallest largest sid secs).
  pose proof (moveStudent_fixed smallest largest sid secs) as Hfix. fold secs' in Hfix.
  pose proof (length_filter_remove _ _ Hnd Hin) as Hlen.
  assert (∀ i, secs' !! i = _) as Hlook
    by (intros i; apply (moveStudent_lookup smallest largest sid secs sm lg i Hsm Hlg Hne)).
  assert (courseId <$> secs' = courseId <$> secs) as Hcids.
  { apply list_eq. intros i. rewrite !list_lookup_fmap. by apply fixedPart_courseId. }
  assert (roomId <$> secs' = roomId <$> secs) as Hrooms.
  { replace (roomId <$> secs') with ((λ f, f.1.1.2) <$> (fixedPart <$> secs'))
      by (by rewrite <- list_fmap_compose).
    rewrite Hfix. by rewrite <- list_fmap_compose. }
  assert (teacherId <$> secs' = teacherId <$> secs) as Hteachers.
  { replace (teacherId <$> secs') with ((λ f, f.1.1.1.2) <$> (fixedPart <$> secs'))
      by (by rewrite <- list_fmap_compose).
    rewrite Hfix. by rewrite <- list_fmap_compose. }
  assert (length secs' = length secs) as Hlength
    by (by rewrite <- (length_fmap courseId secs'), Hcids, length_fmap).
  unfold doublePenalty. cbv zeta.
  rewrite (countWhere_fmap roomId falsy secs'), (countWhere_fmap teacherId falsy secs').
  rewrite (countWhere_fmap roomId falsy secs), (countWhere_fmap teacherId falsy secs).
  rewrite Hrooms, Hteachers, (sectionsByCourse_ext secs secs' Hcids).
  assert (Z.le (countWhere (λ s, bool_decide (length (enrolledStudents s) = 0)) secs')
               (countWhere (λ s, bool_decide (length (enrolledStudents s) = 0)) secs))
    as Hempty.
  { apply countWhere_mono. apply Forall2_same_length_lookup. split; [done|].
    intros i s s' Hs Hs'. rewrite Hlook in Hs'.
    destruct (decide (i = smallest)) as [->|H1].
    - injection Hs' as <-. cbn. rewrite length_app. cbn.
      intros Hb%bool_decide_eq_true. lia.
    - destruct (decide (i = largest)) as [->|H2];
        [|rewrite Hs in Hs'; by injection Hs' as <-].
      injection Hs' as <-. cbn. intros Hb%bool_decide_eq_true. lia. }
  assert (spreadSum secs' (sectionsByCourse secs) ≤
          spreadSum secs (sectionsByCourse secs))%Z as Hspread.
  { apply spreadSum_mono. intros [cid group] Hg. cbn.
    apply sizeSpread_shrink. intros i Hi.
    pose proof (sectionsByCourse_group _ _ _ _ Hg Hi) as Hci.
    assert (i = smallest ∨ i = largest → smallest ∈ group ∧ largest ∈ group) as Hboth.
    { intros Hcase.
      assert (cid = courseId sm) as ->.
      { destruct Hcase as [->| ->]; [rewrite Hsm in Hci|rewrite Hlg in Hci];
          cbn in Hci; congruence. }
      rewrite sectionsByCourse_spec in Hg.
      apply list_elem_of_fmap in Hg as (c & [= <- ->] & _).
      split; apply courseSectionIdxs_elem; [by rewrite Hsm|rewrite Hlg; cbn; congruence]. }
    unfold enrolledCount at 2 3. rewrite Hlook.
    destruct (decide (i = smallest)) as [->|H1].
    - destruct Hboth as [Hs Hl]; [by left|].
      exists smallest, largest. split; [done|]. split; [done|].
      rewrite (enrolledCount_lookup _ _ _ Hsm), (enrolledCount_lookup _ _ _ Hlg).
      cbn. rewrite length_app. cbn. lia.
    - destruct (decide (i = largest)) as [->|H2].
      + destruct Hboth as [Hs Hl]; [by right|].
        exists smallest, largest. split; [done|]. split; [done|].
        rewrite (enrolledCount_lookup _ _ _ Hsm), (enrolledCount_lookup _ _ _ Hlg).
        cbn. lia.
      + exists i, i. split; [done|]. split; [done|]. unfold enrolledCount. lia. }
  lia.
Qed.

Lemma moves_penalty st st' :
  rtc oneMove st st' →
  consistent (o_sections st) (o_schedules st) → distinctEnrolled (o_sections st) →
  (doublePenalty (o_sections st') ≤ doublePenalty (o_sections st))%Z.
Proof.
  induction 1 as [|x y z Hstep _ IH]; [done|]. intros Hcons Hdist.
  destruct (oneMove_distinct _ _ Hstep Hcons Hdist) as (Hcons' & Hdist' & _).
  specialize (IH Hcons' Hdist').
  enough (doublePenalty (o_sections y) ≤ doublePenalty (o_sections x))%Z by lia.
  destruct Hstep as (smallest & largest & sm & lg & sid & b & Hsm & Hlg & Hcourse & Hdiff &
                     Hin & Hrun & Hsecs).
  rewrite Hsecs. destruct b; [|done].
  apply (moveStudent_penalty smallest largest sid _ sm lg); [done..| |done].
  apply Hdist. by eapply list_elem_of_lookup_2.
Qed.

(** What phase 4 hands over: either no section has a free seat while a
    section of the same course has two students more (then the rebalancer
    moves nobody), or the sections meet, overlap for no student and list no
    student twice. *)
Lemma greedy_handover input secs3 g :
  Forall (λ s, enrolledStudents s = [] ∧
               ∃ slot, periods s = weekPeriods (daysPerWeek (config input)) slot) secs3 →
  runGreedyAssignment secs3 input (buildCourseMap (courses input)) [] = Some g →
  fullBeforeUneven (g_sections g) ∨
  (consistent (g_sections g) (g_schedules g) ∧ distinctEnrolled (g_sections g)).
Proof.
  intros Hshape Hgreedy.
  assert (Forall (λ s, enrolledStudents s = []) secs3) as Hunenrolled.
  { eapply Forall_impl; [exact Hshape|]. by intros s [? _]. }
  destruct (daysPerWeek (config input)) as [|days] eqn:Hdays.
  - left.
    assert ((∀ s, s ∈ g_sections g → periods s = []) ∧ fullBeforeUneven (g_sections g))
      as [_ Hfull]; [|done].
    apply (runGreedyAssignment_preserves
             (λ secs _, (∀ s, s ∈ secs → periods s = []) ∧ fullBeforeUneven secs)
             secs3 input (buildCourseMap (courses input)) [] g);
      [intros sid cid secs scheds b secs' scheds'; apply assignStudentToSection_full| |done].
    split; [|by apply fullBeforeUneven_unenrolled].
    intros s Hs. rewrite Forall_forall in Hshape.
    by destruct (Hshape s Hs) as (_ & slot & ->).
  - right.
    apply (runGreedyAssignment_preserves
             (λ secs scheds, consistent secs scheds ∧ distinctEnrolled secs)
             secs3 input (buildCourseMap (courses input)) [] g);
      [intros sid cid secs scheds b secs' scheds'; apply assignStudentToSection_distinct
      | |done].
    split; [by apply consistent_unenrolled|].
    intros s Hs. rewrite Forall_forall in Hshape.
    destruct (Hshape s Hs) as (He & slot & Hp). rewrite He, Hp.
    split; [done|constructor].
Qed.

(** The penalty of the outcome of the rebalancer against that of its
    input. *)
Lemma pipeline_penalty input options :
  ∃ g k o,
    assignmentPhases input = Some g ∧
    rebalancePhase input options (g_sections g) = Some (k, o) ∧
    (doublePenalty (o_sections o) ≤ doublePenalty (g_sections g))%Z.
Proof.
  destruct (pipeline_stages input options)
    as (secs3 & g & k & o & _ & Hshape & Hgreedy & Hreb & Hmoves & Hg & _ & _ & Hphases).
  exists g, k, o. split; [done|]. split; [done|].
  destruct (greedy_handover input secs3 g Hshape Hgreedy) as [Hfull|[[_ Hno] Hdist]].
  - by rewrite (moves_full _ _ Hmoves Hfull).
  - destruct Hg as (_ & _ & Hids & _).
    destruct (buildStudentSchedules_covered (g_sections g) (students input) Hids) as [Hcov _].
    by apply (moves_penalty _ _ Hmoves).
Qed.

(** X8. The rebalancer never lowers the score: the score of the sections
    it returns is at least the score of the sections phase 4 handed to it.
    A committed move takes a student from a section to a section of the
    same course that has at least two students less, which neither empties
    a section nor widens the spread of the course. *)
Theorem rebalancing_never_lowers_score (input : ScheduleInput) (options : SchedulerOptions) :
  ∃ g k o,
    assignmentPhases input = Some g ∧
    rebalancePhase input options (g_sections g) = Some (k, o) ∧
    Qle (calculateScore (g_sections g)) (calculateScore (o_sections o)).
Proof.
  destruct (pipeline_penalty input options) as (g & k & o & Hphases & Hreb & Hle).
  exists g, k, o. split; [done|]. split; [done|].
  rewrite !calculateScore_closed.
  apply Q.max_le_compat_l, Q.min_le_compat_l.
  unfold Qle. cbn. lia.
Qed.

(** * The choice of a section *)

Lemma findSection_head secs sched cands :
  findSection secs sched cands = head (filter (λ i, accepts secs sched i = true) cands).
Proof.
  induction cands as [|c cands IH]; [done|]. cbn [findSection]. rewrite filter_cons.
  destruct (accepts secs sched c) eqn:Hacc.
  - rewrite decide_True by done. cbn. unfold accepts in Hacc.
    destruct (secs !! c) as [s|]; [|done].
    apply andb_true_iff in Hacc as [H1%bool_decide_eq_true H2%negb_true_iff].
    rewrite decide_False by lia. by rewrite H2.
  - rewrite decide_False by done. rewrite <- IH. unfold accepts in Hacc.
    destruct (secs !! c) as [s|]; [|done].
    destruct (decide (capacity s ≤ length (enrolledStudents s))); [done|].
    rewrite bool_decide_eq_true_2 in Hacc by lia. cbn in Hacc.
    apply negb_false_iff in Hacc. by rewrite Hacc.
Qed.

Lemma accepts_admits secs sched cid i :
  i ∈ courseSectionIdxs secs cid →
  accepts secs sched i = true ↔ admits secs sched cid i.
Proof.
  rewrite courseSectionIdxs_elem. unfold accepts, admits.
  destruct (secs !! i) as [s|]; cbn; [|intros [=]].
  intros [= Hc]. rewrite andb_true_iff, bool_decide_eq_true, negb_true_iff, hasConflict_false.
  split.
  - intros [Hcap Hfree]. by exists s.
  - intros (s' & [= <-] & _ & Hcap & Hfree). done.
Qed.

Lemma admits_course secs sched cid i :
  admits secs sched cid i → i ∈ courseSectionIdxs secs cid.
Proof.
  intros (s & Hs & Hc & _). apply courseSectionIdxs_elem. by rewrite Hs, <- Hc.
Qed.

(** X9. For a student who has an entry in the schedule table (as every
    student has for whom the engine calls it), [assignStudentToSection]
    enrolls the student in the section of the course that comes first in
    ascending order of enrollment, sections of equal enrollment in list
    order, among the sections with a free seat that meet at no period of
    the student's schedule; the student is appended to that section and the
    periods of the section are added to the schedule.  If the course has no
    such section, the call returns [false] and changes nothing. *)
Theorem assignStudentToSection_choice
    (sid : StudentId) (cid : CourseId) (secs : list Section)
    (scheds : gmap StudentId (gset Period)) (sched : gset Period) :
  scheds !! sid = Some sched →
  (∃ i s,
     secs !! i = Some s ∧ admits secs sched cid i ∧
     (∀ j, admits secs sched cid j →
           enrolledCount secs i < enrolledCount secs j ∨
           (enrolledCount secs i = enrolledCount secs j ∧ i ≤ j)) ∧
     assignStudentToSection sid cid secs scheds =
       Some (true, <[i := enroll sid s]> secs,
             <[sid := sched ∪ list_to_set (periods s)]> scheds))
  ∨ ((∀ j, ¬ admits secs sched cid j) ∧
     assignStudentToSection sid cid secs scheds = Some (false, secs, scheds)).
Proof.
  intros Hsched. unfold assignStudentToSection.
  rewrite Hsched. cbn [mbind option_bind].
  rewrite findSection_head, sortBy_filter.
  set (l := courseSectionIdxs secs cid).
  destruct (head (sortBy _ (filter _ l))) as [i|] eqn:Hhead.
  - left. apply sortBy_head in Hhead as [i' Hmin].
    apply firstMin_filter in Hmin as (n & Hn & Hacc & Hfirst).
    assert (i ∈ l) as Hi by (by eapply list_elem_of_lookup_2).
    pose proof (proj1 (accepts_admits secs sched cid i Hi) Hacc) as Hadm.
    destruct Hadm as (s & Hs & Hrest).
    exists i, s. split; [done|]. split; [by exists s|]. split.
    + intros j Hj. pose proof (admits_course _ _ _ _ Hj) as Hjl.
      pose proof (proj2 (accepts_admits secs sched cid j Hjl) Hj) as Hjacc.
      apply list_elem_of_lookup in Hjl as [m Hm].
      destruct (Hfirst m j Hm Hjacc) as [Hlt|[Heq Hle]]; [by left|right].
      split; [done|]. unfold l, courseSectionIdxs in Hn, Hm.
      eapply filter_seq_increasing; [exact Hn|exact Hm|done].
    + rewrite (list_alter_insert _ _ _ _ Hs). unfold sectionPeriods. by rewrite Hs.
  - right. apply sortBy_head_None in Hhead. split; [|done].
    intros j Hj. pose proof (admits_course _ _ _ _ Hj) as Hjl.
    pose proof (proj2 (accepts_admits secs sched cid j Hjl) Hj) as Hjacc.
    assert (j ∈ filter (λ i, accepts secs sched i = true) l) as Hin
      by (by apply list_elem_of_filter).
    rewrite Hhead in Hin. by apply elem_of_nil in Hin.
Qed.

Lemma assignStudentToSection_choice_witness :
  (∃ i s,
     o_sections Examples.unbalanced !! i = Some s ∧
     admits (o_sections Examples.unbalanced) {[ (0, 0) ]} "ALG" i ∧
     (∀ j, admits (o_sections Examples.unbalanced) {[ (0, 0) ]} "ALG" j →
           enrolledCount (o_sections Examples.unbalanced) i <
             enrolledCount (o_sections Examples.unbalanced) j ∨
           (enrolledCount (o_sections Examples.unbalanced) i =
              enrolledCount (o_sections Examples.unbalanced) j ∧ i ≤ j)) ∧
     assignStudentToSection "ada" "ALG" (o_sections Examples.unbalanced)
                            (o_schedules Examples.unbalanced) =
       Some (true, <[i := enroll "ada" s]> (o_sections Examples.unbalanced),
             <["ada" := {[ (0, 0) ]} ∪ list_to_set (periods s)]>
               (o_schedules Examples.unbalanced)))
  ∨ ((∀ j, ¬ admits (o_sections Examples.unbalanced) {[ (0, 0) ]} "ALG" j) ∧
     assignStudentToSection "ada" "ALG" (o_sections Examples.unbalanced)
                            (o_schedules Examples.unbalanced) =
       Some (false, o_sections Examples.unbalanced, o_schedules Examples.unbalanced)).
Proof.
  apply (assignStudentToSection_choice "ada" "ALG" (o_sections Examples.unbalanced)
           (o_schedules Examples.unbalanced) {[ (0, 0) ]}).
  vm_compute. reflexivity.
Defined.

(** * The schedule table of phase 4 and its reconstruction *)

Lemma periodsOf_cons s secs sid :
  periodsOf (s :: secs) sid =
    (if decide (sid ∈ enrolledStudents s) then list_to_set (periods s) else ∅)
    ∪ periodsOf secs sid.
Proof. done. Qed.

Lemma periodsOf_snoc secs s sid :
  periodsOf (secs ++ [s]) sid =
    periodsOf secs sid ∪
    (if decide (sid ∈ enrolledStudents s) then list_to_set (periods s) else ∅).
Proof.
  induction secs as [|a secs IH].
  - rewrite app_nil_l, !periodsOf_cons. unfold periodsOf. cbn. set_solver.
  - rewrite <- app_comm_cons, !periodsOf_cons, IH. set_solver.
Qed.

Lemma periodsOf_enroll secs i s sid x :
  secs !! i = Some s →
  periodsOf (<[i := enroll sid s]> secs) x =
    periodsOf secs x ∪ (if decide (x = sid) then list_to_set (periods s) else ∅).
Proof.
  revert i. induction secs as [|a secs IH]; intros i Hi; [done|].
  destruct i as [|i]; cbn in Hi.
  - injection Hi as ->.
    change (<[0 := enroll sid s]> (s :: secs)) with (enroll sid s :: secs).
    rewrite !periodsOf_cons. cbn.
    destruct (decide (x = sid)) as [->|Hne].
    + rewrite decide_True by (apply elem_of_app; right; left).
      destruct (decide (sid ∈ enrolledStudents s)); set_solver.
    + destruct (decide (x ∈ enrolledStudents s)) as [Hin|Hin].
      * rewrite decide_True by (apply elem_of_app; by left). set_solver.
      * rewrite decide_False; [set_solver|].
        intros [?| ->%list_elem_of_singleton]%elem_of_app; done.
  - change (<[S i := enroll sid s]> (a :: secs)) with (a :: <[i := enroll sid s]> secs).
    rewrite !periodsOf_cons, (IH i Hi). set_solver.
Qed.

Lemma assignStudentToSection_exact sts sid cid secs scheds b secs' scheds' :
  exactSchedules sts secs scheds →
  assignStudentToSection sid cid secs scheds = Some (b, secs', scheds') →
  exactSchedules sts secs' scheds'.
Proof.
  intros Hex Hrun.
  destruct (scheds !! sid) as [sched|] eqn:Hsched;
    [|by unfold assignStudentToSection in Hrun; rewrite Hsched in Hrun].
  destruct (assignStudentToSection_cases sid cid secs scheds sched Hsched)
    as [(i & s & Hs & _ & _ & _ & Heq)|Heq];
    rewrite Heq in Hrun; injection Hrun as <- <- <-; [|done].
  intros x. rewrite (periodsOf_enroll _ _ _ _ _ Hs).
  pose proof (Hex sid) as Hsid. rewrite Hsched in Hsid.
  destruct (decide (x = sid)) as [->|Hne].
  - rewrite lookup_insert_eq. destruct (decide (sid ∈ Student.id <$> sts)); [|done].
    injection Hsid as ->. done.
  - rewrite lookup_insert_ne by done. rewrite (Hex x).
    destruct (decide (x ∈ Student.id <$> sts)); [|done].
    by rewrite (right_id_L ∅ (∪)).
Qed.

Lemma addSectionPeriods_fold_lookup (section : Section) (l : list StudentId)
    (m : gmap StudentId (gset Period)) (sid : StudentId) :
  foldl (addSectionPeriods section) m l !! sid =
    (λ sched, sched ∪ (if decide (sid ∈ l) then list_to_set (periods section) else ∅))
      <$> m !! sid.
Proof.
  revert m. induction l as [|x l IH]; intros m; cbn [foldl].
  - destruct (m !! sid) as [sched|]; cbn; [|done]. f_equal. set_solver.
  - rewrite IH. unfold addSectionPeriods.
    destruct (decide (x = sid)) as [->|Hne].
    + destruct (m !! sid) as [sched|] eqn:Hm.
      * rewrite lookup_insert_eq. cbn. f_equal.
        rewrite (decide_True (P := sid ∈ sid :: l)) by left.
        destruct (decide (sid ∈ l)); set_solver.
      * by rewrite Hm.
    + assert (∀ m', (if m !! x is Some schedule
                     then <[x := schedule ∪ list_to_set (periods section)]> m else m) = m' →
                    m' !! sid = m !! sid) as Hsame.
      { intros m' <-. destruct (m !! x); [by rewrite lookup_insert_ne|done]. }
      rewrite (Hsame _ eq_refl).
      destruct (m !! sid) as [sched|]; cbn; [|done]. f_equal.
      destruct (decide (sid ∈ l)) as [Hin|Hin].
      * by rewrite decide_True by (by right).
      * rewrite decide_False; [done|]. by intros [?|?]%elem_of_cons.
Qed.

Lemma buildStudentSchedules_from_lookup (secs : list Section)
    (m : gmap StudentId (gset Period)) (sid : StudentId) :
  foldl (λ m section, foldl (addSectionPeriods section) m (enrolledStudents section))
        m secs !! sid =
    (λ sched, sched ∪ periodsOf secs sid) <$> m !! sid.
Proof.
  revert m. induction secs as [|s secs IH]; intros m; cbn [foldl].
  - destruct (m !! sid); cbn; [|done]. f_equal. unfold periodsOf. cbn. set_solver.
  - rewrite IH, addSectionPeriods_fold_lookup, periodsOf_cons.
    destruct (m !! sid); cbn; [|done]. f_equal. set_solver.
Qed.

Lemma buildStudentSchedules_exact secs sts :
  exactSchedules sts secs (buildStudentSchedules secs sts).
Proof.
  intros sid. unfold buildStudentSchedules.
  rewrite buildStudentSchedules_from_lookup, initStudentSchedules_lookup.
  destruct (decide _); cbn; [|done]. f_equal. set_solver.
Qed.

(** X10. The schedule table that [buildStudentSchedules] reconstructs for
    the rebalancer is the table the greedy passes ended with: entries for
    the students of the input, each holding the periods of the sections
    the student is enrolled in. *)
Theorem rebuilt_schedules_agree (input : ScheduleInput) :
  ∃ g, assignmentPhases input = Some g ∧
       buildStudentSchedules (g_sections g) (students input) = g_schedules g ∧
       exactSchedules (students input) (g_sections g) (g_schedules g).
Proof.
  destruct (pipeline_stages input (mkOptions None))
    as (secs3 & g & k & o & _ & Hshape & Hgreedy & _ & _ & _ & _ & _ & Hphases).
  exists g. split; [done|].
  assert (exactSchedules (students input) (g_sections g) (g_schedules g)) as Hex.
  { apply (runGreedyAssignment_preserves (exactSchedules (students input))
             secs3 input (buildCourseMap (courses input)) [] g);
      [intros sid cid secs scheds b secs' scheds'; apply assignStudentToSection_exact| |done].
    intros sid. rewrite initStudentSchedules_lookup.
    destruct (decide _); [|done]. f_equal.
    assert (∀ l : list Section, Forall (λ s, enrolledStudents s = []) l →
                                periodsOf l sid = ∅) as Hnone.
    { induction 1 as [|s l Hs _ IH]; [done|].
      rewrite periodsOf_cons, IH, Hs. rewrite decide_False by apply not_elem_of_nil.
      set_solver. }
    symmetry. apply Hnone. eapply Forall_impl; [exact Hshape|]. by intros s [? _]. }
  split; [|done].
  apply map_eq. intros sid.
  by rewrite (buildStudentSchedules_exact (g_sections g) (students input) sid), (Hex sid).
Qed.

(** * The time slots of the command-line scheduler *)

Lemma firstFreeSlot_Some ppd k day occ slot :
  Legacy.firstFreeSlot ppd k day occ = Some slot →
  slot < ppd ∧ Legacy.teacherBusy occ (day, slot) = false.
Proof.
  unfold Legacy.firstFreeSlot. intros Hh.
  assert (slot ∈ filter (λ slot, Legacy.teacherBusy occ (day, slot) = false)
                        ((λ attempt, (k + attempt) mod ppd) <$> seq 0 ppd)) as Hin.
  { destruct (filter _ _) as [|x l]; [done|]. injection Hh as ->. left. }
  apply list_elem_of_filter in Hin as [Hfree (a & -> & Ha)%list_elem_of_fmap].
  apply elem_of_seq in Ha. split; [|done]. apply Nat.mod_upper_bound. lia.
Qed.

Lemma firstFreeSlot_None ppd k day :
  0 < ppd → Legacy.firstFreeSlot ppd k day None = Some (k mod ppd).
Proof.
  intros Hppd. unfold Legacy.firstFreeSlot. destruct ppd as [|n]; [lia|].
  cbn [seq fmap list_fmap]. rewrite filter_cons. cbn. by rewrite Nat.add_0_r.
Qed.

(** The loop over the days, from day [a] on. *)
Lemma assignDay_fold cfg k occ0 a n ps0 :
  ∃ ps, foldl (Legacy.assignDay (periodsPerDay cfg) k) (ps0, occ0) (seq a n) =
          (ps0 ++ ps, (λ occ, occ ∪ list_to_set ps) <$> occ0) ∧
        (∀ day slot, (day, slot) ∈ ps →
           a ≤ day < a + n ∧ slot < periodsPerDay cfg ∧
           Legacy.teacherBusy occ0 (day, slot) = false) ∧
        (∀ i j p q, ps !! i = Some p → ps !! j = Some q → i < j → p.1 < q.1) ∧
        (occ0 = None → 0 < periodsPerDay cfg →
         ps = (λ day, (day, k mod periodsPerDay cfg)) <$> seq a n).
Proof.
  revert a ps0 occ0. induction n as [|n IH]; intros a ps0 occ0.
  - exists []. cbn. rewrite app_nil_r. split.
    { f_equal. destruct occ0; cbn; [|done]. f_equal. set_solver. }
    split; [by intros ?? ?%elem_of_nil|]. split; [by intros [|?] ??? [=]|done].
  - cbn [seq foldl].
    destruct (Legacy.firstFreeSlot (periodsPerDay cfg) k a occ0) as [slot|] eqn:Hslot.
    + assert (Legacy.assignDay (periodsPerDay cfg) k (ps0, occ0) a =
              (ps0 ++ [(a, slot)], (λ occ, occ ∪ {[(a, slot)]}) <$> occ0)) as ->
        by (unfold Legacy.assignDay; cbn [fst snd]; by rewrite Hslot).
      destruct (firstFreeSlot_Some _ _ _ _ _ Hslot) as [Hlt Hfree].
      destruct (IH (S a) (ps0 ++ [(a, slot)]) ((λ occ, occ ∪ {[(a, slot)]}) <$> occ0))
        as (ps & -> & Hall & Hsorted & Hnone).
      exists ((a, slot) :: ps). split.
      { rewrite <- app_assoc. f_equal. destruct occ0; cbn; [|done]. f_equal. set_solver. }
      split.
      { intros day s [[= -> ->]|Hin]%elem_of_cons; [split; [lia|done]|].
        destruct (Hall day s Hin) as (Hday & Hs & Hbusy). split; [lia|]. split; [done|].
        destruct occ0 as [occ|]; [|done]. cbn in Hbusy |- *.
        apply bool_decide_eq_false in Hbusy. apply bool_decide_eq_false. set_solver. }
      split.
      { intros [|i] [|j] p q Hp Hq Hij; cbn in Hp, Hq; [lia| |lia|].
        - injection Hp as <-. destruct q as [d s].
          destruct (Hall d s (list_elem_of_lookup_2 _ _ _ Hq)) as (Hd & _). cbn. lia.
        - apply (Hsorted i j); [done|done|lia]. }
      intros -> Hppd. rewrite firstFreeSlot_None in Hslot by done. injection Hslot as <-.
      cbn. f_equal. by apply Hnone.
    + assert (Legacy.assignDay (periodsPerDay cfg) k (ps0, occ0) a = (ps0, occ0)) as ->
        by (unfold Legacy.assignDay; cbn [fst snd]; by rewrite Hslot).
      destruct (IH (S a) ps0 occ0) as (ps & -> & Hall & Hsorted & Hnone).
      exists ps. split; [done|]. split.
      { intros day s Hin. destruct (Hall day s Hin) as (Hday & Hrest). split; [lia|done]. }
      split; [done|]. intros -> Hppd. by rewrite firstFreeSlot_None in Hslot.
Qed.

Lemma sectionDays_spec cfg k occ0 :
  ∃ ps, Legacy.sectionDays cfg k occ0 = (ps, (λ occ, occ ∪ list_to_set ps) <$> occ0) ∧
        oncePerDay cfg ps ∧
        (∀ p, p ∈ ps → Legacy.teacherBusy occ0 p = false) ∧
        (occ0 = None → 0 < periodsPerDay cfg →
         ps = (λ day, (day, k mod periodsPerDay cfg)) <$> seq 0 (daysPerWeek cfg)).
Proof.
  unfold Legacy.sectionDays.
  destruct (assignDay_fold cfg k occ0 0 (daysPerWeek cfg) [])
    as (ps & Hps & Hall & Hsorted & Hnone).
  exists ps. split; [|split; [split|split]].
  - by rewrite Hps.
  - intros day slot Hin. destruct (Hall day slot Hin) as (? & ? & _). split; [lia|done].
  - done.
  - intros [day slot] Hin. by destruct (Hall day slot Hin) as (_ & _ & ?).
  - done.
Qed.

Lemma lookup_scheduled (teachers : list Teacher.t) (ts : gmap TeacherId (gset Period))
    (s : Section) :
  (∀ tid, is_Some (ts !! tid) ↔ tid ∈ Teacher.id <$> teachers) →
  lookupTeacherSchedule ts (teacherId s) =
    tid ← scheduledTeacher teachers s; occ ← ts !! tid; Some (tid, occ).
Proof.
  intros Hdom. unfold lookupTeacherSchedule, scheduledTeacher.
  destruct (teacherId s) as [tid|]; [|done].
  destruct (decide (tid = EmptyString)); [done|].
  destruct (decide (tid ∈ Teacher.id <$> teachers)) as [Hin|Hin]; cbn.
  - apply Hdom in Hin as [occ ->]. done.
  - destruct (ts !! tid) eqn:Hts; [|done]. exfalso. apply Hin, Hdom. by eexists.
Qed.

Lemma scheduledTeacher_pushPeriods teachers ps s :
  scheduledTeacher teachers (pushPeriods ps s) = scheduledTeacher teachers s.
Proof. done. Qed.

Lemma assignSectionPeriods_inv teachers cfg secs ts k idx s :
  legacyInv teachers cfg secs ts → secs !! idx = Some s → periods s = [] →
  ∃ s' ts', Legacy.assignSectionPeriods cfg (secs, ts) (k, idx) = (<[idx := s']> secs, ts') ∧
            rotated teachers cfg k s s' ∧
            legacyInv teachers cfg (<[idx := s']> secs) ts'.
Proof.
  intros (Hdom & Hseed & Hcov & [Hfree Hun] & Honce) Hs Hnil.
  unfold Legacy.assignSectionPeriods. cbn [fst snd]. rewrite Hs.
  rewrite (lookup_scheduled teachers ts s Hdom).
  assert (∀ ps, periods (pushPeriods ps s) = ps) as Hper
    by (intros ps; cbn; by rewrite Hnil).
  assert (∀ ps s0, s0 ∈ <[idx := pushPeriods ps s]> secs →
                   s0 = pushPeriods ps s ∨ s0 ∈ secs) as Hins
    by (intros ps s0; apply list_elem_of_insert_inv).
  destruct (scheduledTeacher teachers s) as [tid|] eqn:Hteacher; cbn [mbind option_bind].
  - assert (is_Some (ts !! tid)) as [occ Hocc].
    { apply Hdom. unfold scheduledTeacher in Hteacher.
      destruct (teacherId s); [|done]. destruct (decide _); [done|].
      destruct (decide _); [|done]. by injection Hteacher as <-. }
    rewrite Hocc. cbn [mbind option_bind fmap option_fmap option_map snd].
    destruct (sectionDays_spec cfg k (Some occ)) as (ps & -> & Hps & Hbusy & _).
    cbn [fmap option_fmap option_map].
    exists (pushPeriods ps s), (<[tid := occ ∪ list_to_set ps]> ts).
    split; [done|]. split; [exists ps; split; [done|]; by rewrite Hteacher|].
    assert (∀ p, p ∈ ps → p ∉ occ) as Hnew.
    { intros p Hp. specialize (Hbusy p Hp). cbn in Hbusy.
      by apply bool_decide_eq_false in Hbusy. }
    split; [|split; [|split; [|split]]].
    + intros t. rewrite <- Hdom. destruct (decide (t = tid)) as [->|Hne].
      * rewrite lookup_insert_eq, Hocc. split; by eexists.
      * by rewrite lookup_insert_ne.
    + intros t o. destruct (decide (t = tid)) as [->|Hne].
      * rewrite lookup_insert_eq. intros [= <-]. specialize (Hseed tid occ Hocc). set_solver.
      * rewrite lookup_insert_ne by done. apply Hseed.
    + intros t o s0 p Ht Hs0 Hts0 Hp. destruct (decide (t = tid)) as [->|Hne].
      * rewrite lookup_insert_eq in Ht. injection Ht as <-.
        apply Hins in Hs0 as [->|Hs0].
        -- rewrite Hper in Hp. set_solver.
        -- pose proof (Hcov tid occ s0 p Hocc Hs0 Hts0 Hp). set_solver.
      * rewrite lookup_insert_ne in Ht by done.
        apply Hins in Hs0 as [->|Hs0]; [|by eapply Hcov].
        rewrite scheduledTeacher_pushPeriods in Hts0. congruence.
    + split.
      * intros i j s1 s2 t p Hij Hi Hj Ht1 Ht2 Hp.
        destruct (decide (i = idx)) as [->|Hi'].
        -- rewrite list_lookup_insert_eq in Hi by (by eapply lookup_lt_Some).
           injection Hi as <-. rewrite list_lookup_insert_ne in Hj by done.
           rewrite Hper in Hp. rewrite scheduledTeacher_pushPeriods in Ht1.
           assert (t = tid) as -> by congruence.
           intros Hp2. apply (Hnew p Hp).
           apply (Hcov tid occ s2 p Hocc); [by eapply list_elem_of_lookup_2|done..].
        -- rewrite list_lookup_insert_ne in Hi by done.
           destruct (decide (j = idx)) as [->|Hj'].
           ++ rewrite list_lookup_insert_eq in Hj by (by eapply lookup_lt_Some).
              injection Hj as <-. rewrite Hper.
              rewrite scheduledTeacher_pushPeriods in Ht2.
              assert (t = tid) as -> by congruence.
              intros Hp2. apply (Hnew p Hp2).
              apply (Hcov tid occ s1 p Hocc); [by eapply list_elem_of_lookup_2|done..].
           ++ rewrite list_lookup_insert_ne in Hj by done. by eapply (Hfree i j).
      * intros s0 t p Hs0 Ht Hp. apply Hins in Hs0 as [->|Hs0]; [|by eapply Hun].
        rewrite Hper in Hp. rewrite scheduledTeacher_pushPeriods in Ht.
        assert (t = tid) as -> by congruence.
        intros Hp2. apply (Hnew p Hp). by apply (Hseed tid occ Hocc).
    + apply Forall_insert; [done|]. by rewrite Hper.
  - cbn [fmap option_fmap option_map].
    destruct (sectionDays_spec cfg k None) as (ps & -> & Hps & _ & Hrot).
    cbn [fmap option_fmap option_map].
    exists (pushPeriods ps s), ts.
    split; [done|]. split; [exists ps; split; [done|]; intros _; by apply Hrot|].
    split; [done|]. split; [done|]. split; [|split; [split|]].
    + intros t o s0 p Ht Hs0 Hts0 Hp. apply Hins in Hs0 as [->|Hs0]; [|by eapply Hcov].
      rewrite scheduledTeacher_pushPeriods in Hts0. congruence.
    + intros i j s1 s2 t p Hij Hi Hj Ht1 Ht2 Hp.
      destruct (decide (i = idx)) as [->|Hi'].
      { rewrite list_lookup_insert_eq in Hi by (by eapply lookup_lt_Some).
        injection Hi as <-. rewrite scheduledTeacher_pushPeriods in Ht1. congruence. }
      rewrite list_lookup_insert_ne in Hi by done.
      destruct (decide (j = idx)) as [->|Hj'].
      { rewrite list_lookup_insert_eq in Hj by (by eapply lookup_lt_Some).
        injection Hj as <-. rewrite scheduledTeacher_pushPeriods in Ht2. congruence. }
      rewrite list_lookup_insert_ne in Hj by done. by eapply (Hfree i j).
    + intros s0 t p Hs0 Ht Hp. apply Hins in Hs0 as [->|Hs0]; [|by eapply Hun].
      rewrite scheduledTeacher_pushPeriods in Ht. congruence.
    + apply Forall_insert; [done|]. by rewrite Hper.
Qed.

Lemma assignSectionPeriods_fold teachers cfg entries secs ts :
  NoDup entries.*2 →
  (∀ e, e ∈ entries → ∃ s, secs !! e.2 = Some s ∧ periods s = []) →
  legacyInv teachers cfg secs ts →
  ∃ secs' ts',
    foldl (Legacy.assignSectionPeriods cfg) (secs, ts) entries = (secs', ts') ∧
    legacyInv teachers cfg secs' ts' ∧ length secs' = length secs ∧
    (∀ k i, (k, i) ∈ entries →
       ∃ s s', secs !! i = Some s ∧ secs' !! i = Some s' ∧ rotated teachers cfg k s s') ∧
    (∀ i, i ∉ entries.*2 → secs' !! i = secs !! i).
Proof.
  revert secs ts. induction entries as [|[k idx] entries IH]; intros secs ts Hnd Hnil Hinv.
  - exists secs, ts. split; [done|]. split; [done|]. split; [done|].
    split; [by intros ?? ?%elem_of_nil|done].
  - cbn in Hnd. apply NoDup_cons in Hnd as [Hidx Hnd].
    destruct (Hnil (k, idx) ltac:(left)) as (s & Hs & Hps). cbn in Hs.
    destruct (assignSectionPeriods_inv teachers cfg secs ts k idx s Hinv Hs Hps)
      as (s' & ts1 & Hstep & Hrot & Hinv1).
    cbn [foldl]. rewrite Hstep.
    destruct (IH (<[idx := s']> secs) ts1 Hnd) as (secs' & ts' & Hrun & Hinv' & Hlen & Hin & Hout);
      [|done|].
    { intros e He. destruct (Hnil e ltac:(by right)) as (s0 & Hs0 & Hp0).
      exists s0. split; [|done]. rewrite list_lookup_insert_ne; [done|].
      intros ->. apply Hidx. apply list_elem_of_fmap. by exists e. }
    exists secs', ts'. split; [done|]. split; [done|].
    split; [by rewrite Hlen, length_insert|]. split.
    + intros k' i [[= -> ->]|He]%elem_of_cons.
      * exists s, s'. split; [done|]. split; [|done].
        rewrite (Hout idx Hidx). apply list_lookup_insert_eq. by eapply lookup_lt_Some.
      * destruct (Hin k' i He) as (s0 & s0' & Hs0 & Hs0' & Hr).
        exists s0, s0'. split; [|done].
        rewrite list_lookup_insert_ne in Hs0; [done|].
        intros ->. apply Hidx. apply list_elem_of_fmap. by exists (k', i).
    + intros i Hi. cbn in Hi. apply not_elem_of_cons in Hi as [Hne Hi].
      rewrite (Hout i Hi). by rewrite list_lookup_insert_ne.
Qed.

Lemma foldl_concat {A B C} (f : B → C → B) (h : A → list C) (b : B) (l : list A) :
  foldl (λ acc x, foldl f acc (h x)) b l = foldl f b (concat (h <$> l)).
Proof.
  revert b. induction l as [|x l IH]; intros b; [done|].
  cbn. by rewrite foldl_app, IH.
Qed.

Lemma elem_of_concat {A} (x : A) (ls : list (list A)) :
  x ∈ concat ls ↔ ∃ l, x ∈ l ∧ l ∈ ls.
Proof.
  induction ls as [|l ls IH]; cbn.
  - split; [by intros ?%elem_of_nil|]. intros (l & _ & Hl). by apply elem_of_nil in Hl.
  - rewrite elem_of_app, IH. split.
    + intros [Hx|(l' & Hx & Hl')]; [exists l; split; [done|left]|].
      exists l'. split; [done|by right].
    + intros (l' & Hx & [->|Hl']%elem_of_cons); [by left|right; by exists l'].
Qed.

Lemma imap_pair_snd {A} (l : list A) : (imap pair l).*2 = l.
Proof.
  enough (∀ (f : nat → nat), (imap (λ i x, (f i, x)) l).*2 = l) as H by apply (H (λ i, i)).
  induction l as [|x l IH]; intros f; [done|]. cbn. f_equal. apply (IH (λ i, f (S i))).
Qed.

Lemma elem_of_imap_pair {A} (l : list A) k x : (k, x) ∈ imap pair l ↔ l !! k = Some x.
Proof.
  rewrite list_elem_of_lookup. split.
  - intros [i Hi]. rewrite list_lookup_imap in Hi.
    destruct (l !! i) eqn:Hl; [|done]. cbn in Hi. by injection Hi as <- <-.
  - intros Hk. exists k. by rewrite list_lookup_imap, Hk.
Qed.

Lemma legacy_entries_snd (groups : list (CourseId * list nat)) :
  (concat ((λ g, imap pair g.2) <$> groups)).*2 = concat groups.*2.
Proof.
  induction groups as [|g groups IH]; [done|].
  cbn. by rewrite fmap_app, imap_pair_snd, IH.
Qed.

Lemma initTeacherSchedules_lookup teachers tid :
  initTeacherSchedules teachers !! tid =
    (λ t, list_to_set (Teacher.unavailable t)) <$> last (filter (λ t, Teacher.id t = tid) teachers).
Proof.
  unfold initTeacherSchedules.
  induction teachers as [|t teachers IH] using rev_ind; [done|].
  rewrite foldl_app, filter_app. cbn [foldl]. rewrite lookup_insert, filter_cons, filter_nil.
  destruct (decide (Teacher.id t = tid)) as [Heq|Hne].
  - by rewrite last_snoc.
  - by rewrite app_nil_r.
Qed.

Lemma legacyInv_init teachers cfg secs :
  Forall (λ s, periods s = []) secs →
  legacyInv teachers cfg secs (initTeacherSchedules teachers).
Proof.
  intros Hnil. rewrite Forall_forall in Hnil.
  split; [|split; [|split; [|split; [split|]]]].
  - intros tid. rewrite initTeacherSchedules_lookup, fmap_is_Some. split.
    + intros [t Ht]. apply last_Some_elem_of, list_elem_of_filter in Ht as [<- Ht].
      by apply list_elem_of_fmap_2.
    + intros (t & -> & Ht)%list_elem_of_fmap.
      assert (t ∈ filter (λ t', Teacher.id t' = Teacher.id t) teachers) as Hin
        by (by apply list_elem_of_filter).
      destruct (filter _ teachers) as [|a l] using rev_ind; [by apply elem_of_nil in Hin|].
      rewrite last_snoc. by eexists.
  - intros tid occ. rewrite initTeacherSchedules_lookup. unfold teacherSeed.
    destruct (last _); cbn; [|done]. by intros [= <-].
  - intros tid occ s p _ Hs _ Hp. rewrite (Hnil s Hs) in Hp. by apply elem_of_nil in Hp.
  - intros i j s s' tid p _ Hi _ _ _ Hp.
    rewrite (Hnil s) in Hp by (by eapply list_elem_of_lookup_2). by apply elem_of_nil in Hp.
  - intros s tid p Hs _ Hp. rewrite (Hnil s Hs) in Hp. by apply elem_of_nil in Hp.
  - apply Forall_forall. intros s Hs. rewrite (Hnil s Hs).
    split; [by intros ?? ?%elem_of_nil|by intros [|?] ??? [=]].
Qed.

Lemma length_courseSectionIdxs secs cid :
  length (courseSectionIdxs secs cid) = length (filter (λ s, courseId s = cid) secs).
Proof.
  induction secs as [|s secs IH] using rev_ind; [done|].
  rewrite courseSectionIdxs_snoc, filter_app, !length_app, IH. f_equal.
  rewrite filter_cons, filter_nil. by destruct (decide _).
Qed.

Lemma courseSectionIdxs_index secs cid k i :
  courseSectionIdxs secs cid !! k = Some i →
  ∃ s, secs !! i = Some s ∧ courseId s = cid ∧
       k = length (filter (λ s', courseId s' = cid) (take i secs)).
Proof.
  revert k i. induction secs as [|s secs IH] using rev_ind; intros k i; [done|].
  rewrite courseSectionIdxs_snoc. intros Hk.
  apply lookup_app_Some in Hk as [Hk|[Hge Hk]].
  - destruct (IH k i Hk) as (s0 & Hs0 & Hc & ->).
    pose proof (lookup_lt_Some _ _ _ Hs0) as Hlt.
    exists s0. split; [by rewrite lookup_app_l|]. split; [done|].
    by rewrite take_app_le by lia.
  - destruct (decide (courseId s = cid)) as [Hc|Hc]; [|by rewrite lookup_nil in Hk].
    apply list_lookup_singleton_Some in Hk as [Hk <-].
    exists s. split; [by rewrite lookup_app_r, Nat.sub_diag|]. split; [done|].
    rewrite take_app_length. rewrite <- length_courseSectionIdxs. lia.
Qed.

(** What the command-line [assignTimeSlots] makes of sections without
    periods. *)
Lemma legacy_assignTimeSlots_spec teachers cfg secs :
  Forall (λ s, periods s = []) secs →
  let secs' := Legacy.assignTimeSlots secs teachers cfg in
  length secs' = length secs ∧
  teachersFree teachers secs' ∧
  Forall (λ s, oncePerDay cfg (periods s)) secs' ∧
  ∀ i s, secs !! i = Some s →
         ∃ s', secs' !! i = Some s' ∧ rotated teachers cfg (indexInCourse secs i) s s'.
Proof.
  intros Hnil secs'. subst secs'. unfold Legacy.assignTimeSlots.
  assert (∀ acc groups,
            foldl (Legacy.assignCoursePeriods cfg) acc groups =
            foldl (Legacy.assignSectionPeriods cfg) acc
                  (concat ((λ g : CourseId * list nat, imap pair g.2) <$> groups))) as ->
    by (intros acc groups; apply (foldl_concat _ (λ g : CourseId * list nat, imap pair g.2))).
  set (entries := concat ((λ g : CourseId * list nat, imap pair g.2) <$> sectionsByCourse secs)).
  assert (entries.*2 ≡ₚ seq 0 (length secs)) as Hperm
    by (unfold entries; rewrite legacy_entries_snd; apply sectionsByCourse_concat).
  destruct (assignSectionPeriods_fold teachers cfg entries secs (initTeacherSchedules teachers))
    as (secs' & ts' & -> & (_ & _ & _ & Hfree & Honce) & Hlen & Hin & _).
  { rewrite Hperm. apply NoDup_seq. }
  { intros e He.
    assert (e.2 ∈ entries.*2) as H2 by (by apply list_elem_of_fmap_2).
    rewrite Hperm in H2. apply elem_of_seq in H2.
    destruct (lookup_lt_is_Some_2 secs e.2 ltac:(lia)) as [s Hs].
    exists s. split; [done|]. rewrite Forall_forall in Hnil.
    apply Hnil. by eapply list_elem_of_lookup_2. }
  { by apply legacyInv_init. }
  cbn [fst]. split; [done|]. split; [done|]. split; [done|].
  intros i s Hs.
  assert (∃ k, (k, i) ∈ entries) as [k Hk].
  { assert (i ∈ entries.*2) as H2.
    { rewrite Hperm. apply elem_of_seq. pose proof (lookup_lt_Some _ _ _ Hs). lia. }
    apply list_elem_of_fmap in H2 as ([k i'] & -> & He). by exists k. }
  destruct (Hin k i Hk) as (s0 & s' & Hs0 & Hs' & Hrot).
  rewrite Hs in Hs0. injection Hs0 as <-.
  exists s'. split; [done|].
  enough (k = indexInCourse secs i) as <- by done.
  unfold entries in Hk. apply elem_of_concat in Hk as (l & Hkl & Hl).
  apply list_elem_of_fmap in Hl as ([cid group] & -> & Hg). cbn in Hkl.
  apply elem_of_imap_pair in Hkl.
  rewrite sectionsByCourse_spec in Hg.
  apply list_elem_of_fmap in Hg as (c & [= <- ->] & _).
  destruct (courseSectionIdxs_index _ _ _ _ Hkl) as (s1 & Hs1 & Hc & ->).
  unfold indexInCourse. rewrite Hs1. by rewrite Hc.
Qed.

Lemma createSections_teacher_known cs teachers s tid :
  s ∈ createSections cs teachers → teacherId s = Some tid → tid ∈ Teacher.id <$> teachers.
Proof.
  unfold createSections.
  destruct (createSectionsFrom_new teachers cs ([], ∅)) as (new & -> & _ & Hall).
  intros Hs Htid. destruct (Hall s Hs) as [_ Ht].
  destruct (Ht tid Htid) as (t & Hin & <- & _). by apply list_elem_of_fmap_2.
Qed.

Lemma createSections_no_periods cs teachers :
  Forall (λ s, periods s = []) (createSections cs teachers).
Proof.
  eapply Forall_impl; [apply createSections_unfurnished|]. by intros s (_ & ? & _).
Qed.

Lemma teacherSeed_unique teachers t :
  NoDup (Teacher.id <$> teachers) → t ∈ teachers →
  teacherSeed teachers (Teacher.id t) = list_to_set (Teacher.unavailable t).
Proof.
  intros Hnd Ht. unfold teacherSeed.
  assert (filter (λ t', Teacher.id t' = Teacher.id t) teachers = [t]) as ->; [|done].
  induction teachers as [|a teachers IH]; [by apply elem_of_nil in Ht|].
  rewrite fmap_cons in Hnd. apply NoDup_cons in Hnd as [Ha Hnd].
  rewrite filter_cons. apply elem_of_cons in Ht as [<-|Ht].
  - rewrite decide_True by done. f_equal.
    destruct (filter _ teachers) as [|b l] eqn:E; [done|]. exfalso.
    assert (b ∈ filter (λ t', Teacher.id t' = Teacher.id t) teachers) as Hb
      by (rewrite E; left).
    apply list_elem_of_filter in Hb as [Hid Hb]. apply Ha. rewrite <- Hid.
    apply list_elem_of_fmap. by exists b.
  - rewrite decide_False; [by apply IH|].
    intros Heq. apply Ha. rewrite Heq. apply list_elem_of_fmap. by exists t.
Qed.

(** X11. The time slots of the command-line scheduler never double-book
    a teacher id: after its [assignTimeSlots], two sections with the same
    teacher id share no period.  No section meets at a period that is
    unavailable for the teacher of its teacher id (for the last teacher of
    the input with that id, should several carry it); so, when the teachers
    of the input have distinct ids, no section meets at a period at which
    its teacher is unavailable.  A section gets at most one period a day, in
    the order of the days, each within the week and the day; on a day on
    which every slot is taken for the teacher the section gets no period.
    Nothing but the periods of a section is changed.  (A teacher id that is
    the empty string counts as no teacher.) *)
Theorem legacy_teachers_never_double_booked
    (cs : list Course.t) (teachers : list Teacher.t) (cfg : ScheduleConfig) :
  let secs := createSections cs teachers in
  let secs' := Legacy.assignTimeSlots secs teachers cfg in
  (∀ i j s s' tid p,
     i ≠ j → secs' !! i = Some s → secs' !! j = Some s' →
     teacherId s = Some tid → teacherId s' = Some tid → tid ≠ EmptyString →
     p ∈ periods s → p ∉ periods s') ∧
  (∀ s tid p,
     s ∈ secs' → teacherId s = Some tid → tid ≠ EmptyString →
     p ∈ periods s → p ∉ teacherSeed teachers tid) ∧
  (NoDup (Teacher.id <$> teachers) →
   ∀ s t p,
     s ∈ secs' → t ∈ teachers → teacherId s = Some (Teacher.id t) →
     Teacher.id t ≠ EmptyString → p ∈ periods s → p ∉ Teacher.unavailable t) ∧
  Forall2 (λ s s', oncePerDay cfg (periods s') ∧
                   (id s', courseId s', teacherId s', roomId s', enrolledStudents s',
                    capacity s') =
                   (id s, courseId s, teacherId s, roomId s, enrolledStudents s,
                    capacity s)) secs secs'.
Proof.
  intros secs secs'.
  destruct (legacy_assignTimeSlots_spec teachers cfg secs (createSections_no_periods _ _))
    as (Hlen & [Hfree Hun] & Honce & Hrot). fold secs' in Hlen, Hfree, Hun, Honce, Hrot.
  assert (∀ i s, secs' !! i = Some s →
                 ∃ s0, secs !! i = Some s0 ∧ teacherId s = teacherId s0 ∧
                       (id s, courseId s, teacherId s, roomId s, enrolledStudents s,
                        capacity s) =
                       (id s0, courseId s0, teacherId s0, roomId s0, enrolledStudents s0,
                        capacity s0)) as Hback.
  { intros i s Hs. pose proof (lookup_lt_Some _ _ _ Hs) as Hlt. rewrite Hlen in Hlt.
    destruct (lookup_lt_is_Some_2 secs i Hlt) as [s0 Hs0].
    destruct (Hrot i s0 Hs0) as (s' & Hs' & ps & -> & _).
    rewrite Hs in Hs'. injection Hs' as ->. by exists s0. }
  assert (∀ i s tid, secs' !! i = Some s → teacherId s = Some tid → tid ≠ EmptyString →
                     scheduledTeacher teachers s = Some tid) as Hsched.
  { intros i s tid Hs Htid Hne. destruct (Hback i s Hs) as (s0 & Hs0 & Ht & _).
    unfold scheduledTeacher. rewrite Htid, decide_False by done.
    rewrite decide_True; [done|].
    apply (createSections_teacher_known cs teachers s0);
      [by eapply list_elem_of_lookup_2|congruence]. }
  assert (∀ s tid p, s ∈ secs' → teacherId s = Some tid → tid ≠ EmptyString →
                     p ∈ periods s → p ∉ teacherSeed teachers tid) as Hseed.
  { intros s tid p [i Hi]%list_elem_of_lookup Ht Hne.
    apply (Hun s tid); [by eapply list_elem_of_lookup_2|eauto]. }
  split; [|split; [done|split]].
  - intros i j s s' tid p Hij Hi Hj Ht Ht' Hne. apply (Hfree i j s s' tid); eauto.
  - intros Hnd s t p Hs Ht Htid Hne Hp Hin.
    apply (Hseed s (Teacher.id t) p Hs Htid Hne Hp).
    rewrite (teacherSeed_unique _ _ Hnd Ht). by apply elem_of_list_to_set.
  - apply Forall2_same_length_lookup. split; [done|].
    intros i s0 s Hs0 Hs. destruct (Hback i s Hs) as (s1 & Hs1 & _ & Heq).
    rewrite Hs0 in Hs1. injection Hs1 as <-. split; [|done].
    rewrite Forall_forall in Honce. apply Honce. by eapply list_elem_of_lookup_2.
Qed.

(** X12. A section without a teacher is given, by the command-line
    [assignTimeSlots], the same slot on every day of the week: slot
    [k mod periodsPerDay] for the section that has [k] earlier sections of
    the same course.  With no period in the day it gets no period. *)
Theorem legacy_teacherless_rotation
    (cs : list Course.t) (teachers : list Teacher.t) (cfg : ScheduleConfig)
    (i : nat) (s : Section) :
  let secs := createSections cs teachers in
  Legacy.assignTimeSlots secs teachers cfg !! i = Some s →
  teacherId s = None ∨ teacherId s = Some EmptyString →
  periods s =
    if decide (0 < periodsPerDay cfg)
    then (λ day, (day, indexInCourse secs i mod periodsPerDay cfg))
           <$> seq 0 (daysPerWeek cfg)
    else [].
Proof.
  intros secs Hs Hteacher.
  destruct (legacy_assignTimeSlots_spec teachers cfg secs (createSections_no_periods _ _))
    as (Hlen & _ & Honce & Hrot).
  pose proof (lookup_lt_Some _ _ _ Hs) as Hlt. rewrite Hlen in Hlt.
  destruct (lookup_lt_is_Some_2 secs i Hlt) as [s0 Hs0].
  destruct (Hrot i s0 Hs0) as (s' & Hs' & ps & -> & Hps).
  rewrite Hs in Hs'. injection Hs' as ->.
  pose proof (createSections_no_periods cs teachers) as Hnil.
  rewrite Forall_forall in Hnil.
  assert (periods s0 = []) as Hp0 by (apply Hnil; by eapply list_elem_of_lookup_2).
  cbn. rewrite Hp0. cbn.
  destruct (decide (0 < periodsPerDay cfg)) as [Hppd|Hppd].
  - apply Hps; [|done]. unfold scheduledTeacher. cbn in Hteacher.
    destruct Hteacher as [->| ->]; [done|]. by rewrite decide_True.
  - rewrite Forall_forall in Honce.
    pose proof (Honce _ (list_elem_of_lookup_2 _ _ _ Hs)) as [Hrange _].
    cbn in Hrange. rewrite Hp0 in Hrange. cbn in Hrange.
    destruct ps as [|[d sl] ps]; [done|].
    destruct (Hrange d sl ltac:(left)). lia.
Qed.

Lemma legacy_teacherless_rotation_witness :
  periods (mkSection "ART-2" "ART" None None [(0, 1); (1, 1)] [] 12) =
    (λ day, (day, indexInCourse (createSections [Examples.algebra; Examples.art]
                                                [Examples.teacherT 2]) 3 mod 2))
      <$> seq 0 2.
Proof.
  apply (legacy_teacherless_rotation [Examples.algebra; Examples.art] [Examples.teacherT 2]
           (mkConfig 2 2) 3 (mkSection "ART-2" "ART" None None [(0, 1); (1, 1)] [] 12)).
  - vm_compute. reflexivity.
  - by left.
Defined.

(** * The constraints of the ILP model *)

Lemma elem_of_mjoin_imap {A B} (f : nat → A → list B) (l : list A) (y : B) :
  y ∈ mjoin (imap f l) ↔ ∃ i x, l !! i = Some x ∧ y ∈ f i x.
Proof.
  rewrite list_elem_of_join. split.
  - intros (ys & Hy & [i Hi]%list_elem_of_lookup). rewrite list_lookup_imap in Hi.
    destruct (l !! i) as [x|] eqn:Hx; [|done]. injection Hi as <-. by exists i, x.
  - intros (i & x & Hx & Hy). exists (f i x). split; [done|].
    apply list_elem_of_lookup. exists i. by rewrite list_lookup_imap, Hx.
Qed.

Lemma load_cons x t ts : load x (t :: ts) = (if x t.1 t.2 then 1 else 0) + load x ts.
Proof. done. Qed.

Lemma load_app x ts1 ts2 : load x (ts1 ++ ts2) = load x ts1 + load x ts2.
Proof.
  induction ts1 as [|t ts1 IH]; [done|].
  rewrite <- app_comm_cons, !load_cons, IH. lia.
Qed.

Lemma load_elem x ts s k : (s, k) ∈ ts → x s k = true → 1 ≤ load x ts.
Proof.
  induction ts as [|t ts IH]; [by intros ?%elem_of_nil|].
  rewrite load_cons. intros [<-|Hin]%elem_of_cons Hx; cbn.
  - rewrite Hx. lia.
  - specialize (IH Hin Hx). lia.
Qed.

Lemma load_two x ts s k1 k2 :
  k1 ≠ k2 → (s, k1) ∈ ts → (s, k2) ∈ ts → x s k1 = true → x s k2 = true → 2 ≤ load x ts.
Proof.
  intros Hne. induction ts as [|t ts IH]; [by intros ?%elem_of_nil|].
  rewrite load_cons. intros [Ht1|H1]%elem_of_cons [Ht2|H2]%elem_of_cons Hx1 Hx2;
    try subst t; cbn.
  - congruence.
  - rewrite Hx1. pose proof (load_elem x ts s k2 H2 Hx2). lia.
  - rewrite Hx2. pose proof (load_elem x ts s k1 H1 Hx1). lia.
  - specialize (IH H1 H2 Hx1 Hx2). lia.
Qed.

Lemma gradeSkipped_course courseMap student section :
  gradeSkipped courseMap student section =
    ILP.courseExcluded courseMap student (courseId section).
Proof. done. Qed.

(** ** One section of a course *)

Lemma courseConstraint_sound prefix courseMap secs s student cid x k1 k2 sec1 sec2 :
  (∀ c, c ∈ ILP.courseConstraint prefix courseMap secs (sectionsByCourse secs) s student cid →
        satisfies x c) →
  ILP.courseExcluded courseMap student cid = false →
  k1 ≠ k2 → secs !! k1 = Some sec1 → secs !! k2 = Some sec2 →
  courseId sec1 = cid → courseId sec2 = cid →
  ¬ (x s k1 = true ∧ x s k2 = true).
Proof.
  intros Hsat Hgrade Hne Hk1 Hk2 Hc1 Hc2 [Hx1 Hx2].
  unfold ILP.courseConstraint in Hsat.
  rewrite sectionsByCourse_lookup in Hsat.
  rewrite decide_True in Hsat
    by (apply list_elem_of_fmap; exists sec1; split; [done|by eapply list_elem_of_lookup_2]).
  assert (k1 ∈ courseSectionIdxs secs cid) as Hin1
    by (apply courseSectionIdxs_elem; by rewrite Hk1, <- Hc1).
  assert (k2 ∈ courseSectionIdxs secs cid) as Hin2
    by (apply courseSectionIdxs_elem; by rewrite Hk2, <- Hc2).
  rewrite decide_False in Hsat
    by (destruct (courseSectionIdxs secs cid); [by apply elem_of_nil in Hin1|done]).
  rewrite Hgrade in Hsat. cbv zeta in Hsat.
  set (valid := filter (λ i, ILP.validSection courseMap student secs i = true)
                       (courseSectionIdxs secs cid)) in Hsat.
  assert (k1 ∈ valid) as Hv1.
  { apply list_elem_of_filter. split; [|done]. unfold ILP.validSection.
    by rewrite Hk1, Hc1, Hgrade. }
  assert (k2 ∈ valid) as Hv2.
  { apply list_elem_of_filter. split; [|done]. unfold ILP.validSection.
    by rewrite Hk2, Hc2, Hgrade. }
  rewrite decide_False in Hsat
    by (destruct valid; [by apply elem_of_nil in Hv1|done]).
  specialize (Hsat _ ltac:(left)). unfold satisfies in Hsat. cbn in Hsat.
  fold (load x ((λ i, (s, i)) <$> valid)) in Hsat.
  pose proof (load_two x ((λ i, (s, i)) <$> valid) s k1 k2 Hne
                ltac:(by apply list_elem_of_fmap_2 with (f := λ i, (s, i)))
                ltac:(by apply list_elem_of_fmap_2 with (f := λ i, (s, i))) Hx1 Hx2).
  lia.
Qed.

(** X13. The course constraints of the ILP model are sound: in a 0/1
    valuation that satisfies the constraints of the model, no student is
    put into two sections of the same course, for the pairs the model is
    about (the course of the section admits the grade of the student, and
    the student lists the course as required or as an elective). *)
Theorem ilp_one_section_per_course
    (courseMap : gmap CourseId Course.t) (sts : list Student.t) (secs : list Section)
    (x : nat → nat → bool) (s k1 k2 : nat) (sec1 sec2 : Section) :
  (∀ c, c ∈ ILP.constraints courseMap sts secs → satisfies x c) →
  k1 ≠ k2 → eligible courseMap sts secs s k1 →
  secs !! k1 = Some sec1 → secs !! k2 = Some sec2 → courseId sec1 = courseId sec2 →
  ¬ (x s k1 = true ∧ x s k2 = true).
Proof.
  intros Hsat Hne (student & sec & Hs & Hk & Hgrade & Hreq) Hk1 Hk2 Hc.
  rewrite Hk1 in Hk. injection Hk as <-.
  rewrite gradeSkipped_course in Hgrade.
  unfold ILP.requests in Hreq. apply orb_true_iff in Hreq as [Hr|Hr];
    apply bool_decide_eq_true in Hr.
  - apply (courseConstraint_sound "req_" courseMap secs s student (courseId sec1)
             x k1 k2 sec1 sec2); [|done..].
    intros c Hc'. apply Hsat. unfold ILP.constraints. apply elem_of_app. left.
    unfold ILP.requiredConstraints. apply elem_of_mjoin_imap. exists s, student.
    split; [done|]. apply list_elem_of_join. eexists. split; [exact Hc'|].
    by apply list_elem_of_fmap_2.
  - apply (courseConstraint_sound "elec_" courseMap secs s student (courseId sec1)
             x k1 k2 sec1 sec2); [|done..].
    intros c Hc'. apply Hsat. unfold ILP.constraints.
    apply elem_of_app. right. apply elem_of_app. left.
    unfold ILP.electiveConstraints. apply elem_of_mjoin_imap. exists s, student.
    split; [done|]. apply list_elem_of_join. eexists. split; [exact Hc'|].
    by apply list_elem_of_fmap_2.
Qed.

Lemma model_valuation_satisfies :
  ∀ c, c ∈ ILP.constraints ModelExamples.courseMap ModelExamples.students
                           ModelExamples.sections →
       satisfies ModelExamples.valuation c.
Proof. apply Forall_forall. unfold satisfies. vm_compute. repeat constructor. Qed.

Lemma ilp_one_section_per_course_witness :
  ¬ (ModelExamples.valuation 0 0 = true ∧ ModelExamples.valuation 0 1 = true).
Proof.
  apply (ilp_one_section_per_course ModelExamples.courseMap ModelExamples.students
           ModelExamples.sections ModelExamples.valuation 0 0 1
           (Examples.algAt 1 0 []) (Examples.algAt 2 0 [])).
  - apply model_valuation_satisfies.
  - done.
  - exists Examples.ada, (Examples.algAt 1 0 []). by vm_compute.
  - reflexivity.
  - reflexivity.
  - reflexivity.
Defined.

(** ** Capacity *)

Lemma eligibleb_eligible courseMap sts secs s k :
  eligibleb courseMap sts secs s k = true ↔ eligible courseMap sts secs s k.
Proof.
  unfold eligibleb, eligible. split.
  - destruct (sts !! s) as [student|]; [|done].
    destruct (secs !! k) as [section|]; [|done].
    intros [Hg%negb_true_iff Hr]%andb_true_iff. by exists student, section.
  - intros (student & section & -> & -> & -> & ->). done.
Qed.

Lemma capacityTerms_load courseMap sts secs k section x :
  secs !! k = Some section →
  load x (ILP.capacityTerms courseMap sts k section) =
    length (filter (λ s, eligibleb courseMap sts secs s k && x s k = true)
                   (seq 0 (length sts))).
Proof.
  intros Hk. unfold ILP.capacityTerms.
  induction sts as [|student sts IH] using rev_ind; [done|].
  rewrite imap_app, join_app, load_app, IH. clear IH.
  rewrite length_app. cbn [length imap]. rewrite Nat.add_1_r, seq_S, filter_app, length_app.
  cbn [plus].
  f_equal.
  - f_equal. apply filter_ext_elem. intros s Hs%elem_of_seq.
    unfold eligibleb. by rewrite lookup_app_l by lia.
  - rewrite filter_cons, filter_nil. rewrite Nat.add_0_r.
    assert (eligibleb courseMap (sts ++ [student]) secs (length sts) k =
            negb (gradeSkipped courseMap student section) &&
            ILP.requests student (courseId section)) as ->.
    { unfold eligibleb. rewrite (lookup_app_r sts [student] (length sts)) by lia.
      by rewrite Nat.sub_diag, Hk. }
    destruct (gradeSkipped courseMap student section); cbn; [done|].
    destruct (ILP.requests student (courseId section)); cbn; [|done].
    unfold load. cbn. destruct (x (length sts) k); cbn; done.
Qed.

(** X14. The capacity constraints of the ILP model are sound: in a 0/1
    valuation that satisfies the constraints of the model, the students
    that are put into a section, among those the model considers for it,
    are no more than the capacity of the section. *)
Theorem ilp_capacity_respected
    (courseMap : gmap CourseId Course.t) (sts : list Student.t) (secs : list Section)
    (x : nat → nat → bool) (k : nat) (section : Section) (chosen : list nat) :
  (∀ c, c ∈ ILP.constraints courseMap sts secs → satisfies x c) →
  secs !! k = Some section →
  NoDup chosen →
  (∀ s, s ∈ chosen → eligible courseMap sts secs s k ∧ x s k = true) →
  length chosen ≤ capacity section.
Proof.
  intros Hsat Hk Hnd Hall.
  set (ts := ILP.capacityTerms courseMap sts k section).
  assert (length chosen ≤ load x ts) as Hle.
  { unfold ts. rewrite (capacityTerms_load courseMap sts secs k section x Hk).
    apply submseteq_length, NoDup_submseteq; [done|].
    intros s Hs. destruct (Hall s Hs) as [Hel Hx].
    apply list_elem_of_filter. split.
    - apply eligibleb_eligible in Hel. by rewrite Hel, Hx.
    - apply elem_of_seq. destruct Hel as (student & _ & Hs' & _).
      pose proof (lookup_lt_Some _ _ _ Hs'). lia. }
  destruct (decide (0 < length ts)) as [Hpos|Hzero].
  - assert (satisfies x (ILP.mkConstraint ("cap_" +:+ pretty k) ts (capacity section)))
      as Hc.
    { apply Hsat. unfold ILP.constraints.
      apply elem_of_app. right. apply elem_of_app. right. apply elem_of_app. left.
      unfold ILP.capacityConstraints. apply elem_of_mjoin_imap. exists k, section.
      split; [done|]. cbv zeta. fold ts. rewrite decide_True by done. left. }
    unfold satisfies in Hc. cbn in Hc. fold (load x ts) in Hc. lia.
  - assert (ts = []) as Hnil by (destruct ts; [done|cbn in Hzero; lia]).
    rewrite Hnil in Hle. cbn in Hle. lia.
Qed.

Lemma ilp_capacity_respected_witness :
  length [0] ≤ capacity (Examples.algAt 1 0 []).
Proof.
  apply (ilp_capacity_respected ModelExamples.courseMap ModelExamples.students
           ModelExamples.sections ModelExamples.valuation 0 (Examples.algAt 1 0 []) [0]).
  - apply model_valuation_satisfies.
  - reflexivity.
  - apply NoDup_singleton.
  - intros s ->%list_elem_of_singleton. split; [|done].
    exists Examples.ada, (Examples.algAt 1 0 []). by vm_compute.
Defined.

(** ** Sections at the same time *)

Lemma timeInsert_elem p k g p' k' :
  (∃ ks, (p', ks) ∈ ILP.timeInsert p k g ∧ k' ∈ ks) ↔
  (p' = p ∧ k' = k) ∨ (∃ ks, (p', ks) ∈ g ∧ k' ∈ ks).
Proof.
  induction g as [|[q l] g IH]; cbn.
  - split.
    + intros (ks & [= -> ->]%list_elem_of_singleton & ->%list_elem_of_singleton). by left.
    + intros [[-> ->]|(ks & []%elem_of_nil & _)]. exists [k]. split; left.
  - destruct (decide (p = q)) as [->|Hne].
    + split.
      * intros (ks & [[= -> ->]|Hin]%elem_of_cons & Hk).
        -- apply elem_of_app in Hk as [Hk| ->%list_elem_of_singleton]; [|by left].
           right. exists l. split; [left|done].
        -- right. exists ks. split; [by right|done].
      * intros [[-> ->]|(ks & [[= -> ->]|Hin]%elem_of_cons & Hk)].
        -- exists (l ++ [k]). split; [left|]. apply elem_of_app. right. left.
        -- exists (l ++ [k]). split; [left|]. apply elem_of_app. by left.
        -- exists ks. split; [by right|done].
    + split.
      * intros (ks & [[= -> ->]|Hin]%elem_of_cons & Hk).
        -- right. exists l. split; [left|done].
        -- destruct (proj1 IH (ex_intro _ ks (conj Hin Hk))) as [?|(ks' & ? & ?)];
             [by left|]. right. exists ks'. split; [by right|done].
      * intros [Heq|(ks & [[= -> ->]|Hin]%elem_of_cons & Hk)].
        -- destruct (proj2 IH (or_introl Heq)) as (ks & ? & ?).
           exists ks. split; [by right|done].
        -- exists l. split; [left|done].
        -- destruct (proj2 IH (or_intror (ex_intro _ ks (conj Hin Hk)))) as (ks' & ? & ?).
           exists ks'. split; [by right|done].
Qed.

Lemma timeInsert_keys p k g :
  (ILP.timeInsert p k g).*1 = if decide (p ∈ g.*1) then g.*1 else g.*1 ++ [p].
Proof.
  induction g as [|[q l] g IH]; cbn; [done|].
  destruct (decide (p = q)) as [->|Hne]; cbn.
  - by rewrite decide_True by left.
  - rewrite IH. destruct (decide (p ∈ g.*1)) as [Hin|Hin].
    + by rewrite decide_True by (by right).
    + rewrite decide_False; [done|]. by intros [?|?]%elem_of_cons.
Qed.

Lemma timeInsert_fold entries g p k :
  NoDup g.*1 →
  NoDup (foldl (λ g e, ILP.timeInsert e.1 e.2 g) g entries).*1 ∧
  ((∃ ks, (p, ks) ∈ foldl (λ g e, ILP.timeInsert e.1 e.2 g) g entries ∧ k ∈ ks) ↔
   (p, k) ∈ entries ∨ (∃ ks, (p, ks) ∈ g ∧ k ∈ ks)).
Proof.
  revert g. induction entries as [|[q j] entries IH]; intros g Hnd; cbn [foldl].
  - split; [done|]. split; [by right|]. by intros [?%elem_of_nil|?].
  - destruct (IH (ILP.timeInsert q j g)) as [Hnd' Hiff].
    { rewrite timeInsert_keys. destruct (decide (q ∈ g.*1)); [done|].
      apply NoDup_app. split; [done|]. split; [|apply NoDup_singleton].
      by intros y Hy ->%list_elem_of_singleton. }
    split; [done|]. rewrite Hiff, timeInsert_elem. cbn. rewrite elem_of_cons.
    split.
    + intros [?|[[-> ->]|?]]; [left; by right|left; by left|by right].
    + intros [[[= -> ->]|?]|?]; [right; by left|by left|right; by right].
Qed.

Lemma studentTimeSlots_entries courseMap student secs :
  ILP.studentTimeSlots courseMap student secs =
    foldl (λ g e, ILP.timeInsert e.1 e.2 g) [] (timeEntries courseMap student secs).
Proof.
  unfold ILP.studentTimeSlots, timeEntries.
  induction secs as [|section secs IH] using rev_ind; [done|].
  rewrite !imap_app, join_app, !foldl_app, IH. cbn [imap foldl mjoin list_join].
  rewrite Nat.add_0_r, app_nil_r.
  destruct (gradeSkipped courseMap student section); [done|].
  destruct (negb (ILP.requests student (courseId section))); [done|].
  generalize (foldl (λ g e, ILP.timeInsert e.1 e.2 g) []
                (mjoin (imap (λ k section0,
                   if gradeSkipped courseMap student section0 then []
                   else if negb (ILP.requests student (courseId section0)) then []
                   else (λ period, (period, k)) <$> periods section0) secs))).
  intros g. generalize (periods section). intros ps. revert g.
  induction ps as [|q ps IHps]; intros g; [done|]. cbn. apply IHps.
Qed.

Lemma assoc_unique {K V} (g : list (K * V)) k a b :
  NoDup g.*1 → (k, a) ∈ g → (k, b) ∈ g → a = b.
Proof.
  induction g as [|[k' v] g IH]; [by intros _ ?%elem_of_nil|]. cbn.
  intros [Hk Hnd]%NoDup_cons Ha Hb.
  apply elem_of_cons in Ha as [Ha|Ha]; apply elem_of_cons in Hb as [Hb|Hb].
  - congruence.
  - exfalso. injection Ha as -> ->. apply Hk. apply list_elem_of_fmap. by exists (k', b).
  - exfalso. injection Hb as -> ->. apply Hk. apply list_elem_of_fmap. by exists (k', a).
  - by apply IH.
Qed.

(** X15. The time constraints of the ILP model are sound: in a 0/1
    valuation that satisfies the constraints of the model, no student is
    put into two sections that share a period, for the pairs the model is
    about. *)
Theorem ilp_no_time_conflict
    (courseMap : gmap CourseId Course.t) (sts : list Student.t) (secs : list Section)
    (x : nat → nat → bool) (s k1 k2 : nat) (sec1 sec2 : Section) (p : Period) :
  (∀ c, c ∈ ILP.constraints courseMap sts secs → satisfies x c) →
  k1 ≠ k2 →
  eligible courseMap sts secs s k1 → eligible courseMap sts secs s k2 →
  secs !! k1 = Some sec1 → secs !! k2 = Some sec2 →
  p ∈ periods sec1 → p ∈ periods sec2 →
  ¬ (x s k1 = true ∧ x s k2 = true).
Proof.
  intros Hsat Hne (student & s1 & Hs & Hk1' & Hg1 & Hr1) (student' & s2 & Hs' & Hk2' & Hg2 & Hr2)
         Hk1 Hk2 Hp1 Hp2 [Hx1 Hx2].
  rewrite Hs in Hs'. injection Hs' as <-.
  rewrite Hk1 in Hk1'. injection Hk1' as <-. rewrite Hk2 in Hk2'. injection Hk2' as <-.
  assert (∀ k sec, secs !! k = Some sec → gradeSkipped courseMap student sec = false →
                   ILP.requests student (courseId sec) = true → p ∈ periods sec →
                   (p, k) ∈ timeEntries courseMap student secs) as Hentry.
  { intros k sec Hk Hg Hr Hp. unfold timeEntries. apply elem_of_mjoin_imap.
    exists k, sec. split; [done|]. rewrite Hg, Hr. cbn.
    by apply list_elem_of_fmap_2 with (f := λ period, (period, k)). }
  destruct (timeInsert_fold (timeEntries courseMap student secs) [] p k1 ltac:(constructor))
    as [Hnd Hiff1].
  destruct (timeInsert_fold (timeEntries courseMap student secs) [] p k2 ltac:(constructor))
    as [_ Hiff2].
  rewrite <- studentTimeSlots_entries in Hnd, Hiff1, Hiff2.
  destruct (proj2 Hiff1 (or_introl (Hentry k1 sec1 Hk1 Hg1 Hr1 Hp1))) as (ks & Hks & Hin1).
  destruct (proj2 Hiff2 (or_introl (Hentry k2 sec2 Hk2 Hg2 Hr2 Hp2))) as (ks' & Hks' & Hin2).
  assert (ks' = ks) as -> by (by eapply assoc_unique).
  assert (1 < length ks) as Hlen.
  { destruct ks as [|a [|b ks]]; cbn; [by apply elem_of_nil in Hin1| |lia].
    apply list_elem_of_singleton in Hin1, Hin2. congruence. }
  assert (satisfies x (ILP.mkConstraint
                         ("time_" +:+ pretty s +:+ "_" +:+ pretty p.1 +:+ "_" +:+ pretty p.2)
                         ((λ k, (s, k)) <$> ks) 1)) as Hc.
  { apply Hsat. unfold ILP.constraints. do 3 (apply elem_of_app; right).
    unfold ILP.timeConstraints. apply elem_of_mjoin_imap. exists s, student.
    split; [done|]. apply list_elem_of_join. eexists. split; [|
      apply (list_elem_of_fmap_2 _ _ (p, ks)); exact Hks].
    cbn. rewrite decide_True by done. left. }
  unfold satisfies in Hc. cbn in Hc. fold (load x ((λ k, (s, k)) <$> ks)) in Hc.
  pose proof (load_two x ((λ k, (s, k)) <$> ks) s k1 k2 Hne
                ltac:(by apply list_elem_of_fmap_2 with (f := λ k, (s, k)))
                ltac:(by apply list_elem_of_fmap_2 with (f := λ k, (s, k))) Hx1 Hx2).
  lia.
Qed.

Lemma ilp_no_time_conflict_witness :
  ¬ (ModelExamples.valuation 1 1 = true ∧ ModelExamples.valuation 1 2 = true).
Proof.
  apply (ilp_no_time_conflict ModelExamples.courseMap ModelExamples.students
           ModelExamples.sections ModelExamples.valuation 1 1 2
           (Examples.algAt 2 0 [])
           (mkSection "ART-1" "ART" None None [(0, 0); (0, 1)] [] 3) (0, 0)).
  - apply model_valuation_satisfies.
  - done.
  - exists ModelExamples.bob, (Examples.algAt 2 0 []). by vm_compute.
  - exists ModelExamples.bob, (mkSection "ART-1" "ART" None None [(0, 0); (0, 1)] [] 3).
    by vm_compute.
  - reflexivity.
  - reflexivity.
  - left.
  - left.
Defined.

(** ** The pairs the model says nothing about *)

Lemma constraints_terms_eligible courseMap sts secs c s k :
  c ∈ ILP.constraints courseMap sts secs → (s, k) ∈ ILP.terms c →
  eligible courseMap sts secs s k.
Proof.
  assert (∀ prefix s0 student cid c,
            sts !! s0 = Some student → ILP.requests student cid = true →
            c ∈ ILP.courseConstraint prefix courseMap secs (sectionsByCourse secs)
                                     s0 student cid →
            (s, k) ∈ ILP.terms c → eligible courseMap sts secs s k) as Hcourse.
  { intros prefix s0 student cid c0 Hs0 Hreq Hc Hterm. unfold ILP.courseConstraint in Hc.
    rewrite sectionsByCourse_lookup in Hc.
    destruct (decide (cid ∈ courseId <$> secs)); [|by apply elem_of_nil in Hc].
    destruct (decide (length _ = 0)); [by apply elem_of_nil in Hc|].
    destruct (ILP.courseExcluded courseMap student cid) eqn:Hgrade;
      [by apply elem_of_nil in Hc|].
    cbv zeta in Hc. destruct (decide (length _ = 0)); [by apply elem_of_nil in Hc|].
    apply list_elem_of_singleton in Hc as ->. cbn in Hterm.
    apply list_elem_of_fmap in Hterm as (i & [= -> ->] & Hi).
    apply list_elem_of_filter in Hi as [Hvalid Hi].
    apply courseSectionIdxs_elem in Hi. destruct (secs !! i) as [sec|] eqn:Hsec; [|done].
    injection Hi as Hi. exists student, sec. split; [done|]. split; [done|].
    rewrite gradeSkipped_course, Hi. done. }
  unfold ILP.constraints. rewrite !elem_of_app. intros [Hc|[Hc|[Hc|Hc]]] Hterm.
  - unfold ILP.requiredConstraints in Hc.
    apply elem_of_mjoin_imap in Hc as (s0 & student & Hs0 & Hc).
    apply list_elem_of_join in Hc as (cs & Hc & Hcs).
    apply list_elem_of_fmap in Hcs as (cid & -> & Hcid).
    apply (Hcourse "req_" s0 student cid c); [done| |done..].
    unfold ILP.requests. by rewrite bool_decide_eq_true_2.
  - unfold ILP.electiveConstraints in Hc.
    apply elem_of_mjoin_imap in Hc as (s0 & student & Hs0 & Hc).
    apply list_elem_of_join in Hc as (cs & Hc & Hcs).
    apply list_elem_of_fmap in Hcs as (cid & -> & Hcid).
    apply (Hcourse "elec_" s0 student cid c); [done| |done..].
    unfold ILP.requests. rewrite (bool_decide_eq_true_2 (cid ∈ Student.electivePreferences _))
      by done. apply orb_true_r.
  - unfold ILP.capacityConstraints in Hc.
    apply elem_of_mjoin_imap in Hc as (k0 & section & Hk0 & Hc). cbv zeta in Hc.
    destruct (decide _); [|by apply elem_of_nil in Hc].
    apply list_elem_of_singleton in Hc as ->. cbn in Hterm.
    unfold ILP.capacityTerms in Hterm.
    apply elem_of_mjoin_imap in Hterm as (s0 & student & Hs0 & Hterm).
    destruct (gradeSkipped courseMap student section) eqn:Hg; [by apply elem_of_nil in Hterm|].
    destruct (ILP.requests student (courseId section)) eqn:Hr;
      [|by apply elem_of_nil in Hterm].
    apply list_elem_of_singleton in Hterm as [= -> ->]. by exists student, section.
  - unfold ILP.timeConstraints in Hc.
    apply elem_of_mjoin_imap in Hc as (s0 & student & Hs0 & Hc).
    apply list_elem_of_join in Hc as (cs & Hc & Hcs).
    apply list_elem_of_fmap in Hcs as ([p ks] & -> & Hks).
    destruct (decide _); [|by apply elem_of_nil in Hc].
    apply list_elem_of_singleton in Hc as ->. cbn in Hterm.
    apply list_elem_of_fmap in Hterm as (k0 & [= -> ->] & Hk0).
    destruct (timeInsert_fold (timeEntries courseMap student secs) [] p k0 ltac:(constructor))
      as [_ Hiff].
    rewrite <- studentTimeSlots_entries in Hiff.
    destruct (proj1 Hiff (ex_intro _ ks (conj Hks Hk0))) as [Hentry|(? & []%elem_of_nil & _)].
    unfold timeEntries in Hentry.
    apply elem_of_mjoin_imap in Hentry as (k1 & section & Hk1 & Hentry).
    destruct (gradeSkipped courseMap student section) eqn:Hg; [by apply elem_of_nil in Hentry|].
    destruct (ILP.requests student (courseId section)) eqn:Hr; cbn in Hentry;
      [|by apply elem_of_nil in Hentry].
    apply list_elem_of_fmap in Hentry as (q & [= -> ->] & _).
    by exists student, section.
Qed.

Lemma preferenceWeight_requests student cid :
  (0 < preferenceWeight student cid)%Z → ILP.requests student cid = true.
Proof.
  unfold preferenceWeight, ILP.requests. cbv zeta.
  destruct (decide (indexOf cid (Student.electivePreferences student) ≠ (-1)%Z)) as [Hidx|_].
  - intros _. rewrite (bool_decide_eq_true_2 (cid ∈ Student.electivePreferences student));
      [apply orb_true_r|].
    destruct (decide (cid ∈ Student.electivePreferences student)) as [|Hnot]; [done|].
    by rewrite (indexOf_absent _ _ Hnot) in Hidx.
  - destruct (decide (cid ∈ Student.requiredCourses student)); [|lia].
    intros _. by rewrite bool_decide_eq_true_2.
Qed.

Lemma objectiveTerms_eligible courseMap sts secs w s k :
  (w, s, k) ∈ objectiveTerms courseMap sts secs → eligible courseMap sts secs s k.
Proof.
  unfold objectiveTerms. intros (s0 & student & Hs0 & Hin)%elem_of_mjoin_imap.
  apply elem_of_mjoin_imap in Hin as (k0 & section & Hk0 & Hin).
  destruct (objectiveCoefficient courseMap student section) as [w0|] eqn:Hcoef;
    [|by apply elem_of_nil in Hin].
  apply list_elem_of_singleton in Hin as [= -> -> ->].
  unfold objectiveCoefficient in Hcoef.
  destruct (gradeSkipped courseMap student section) eqn:Hg; [done|]. cbv zeta in Hcoef.
  destruct (decide _) as [Hpos|]; [|done].
  exists student, section. split; [done|]. split; [done|]. split; [done|].
  by apply preferenceWeight_requests.
Qed.

Lemma load_ext x x' ts :
  (∀ s k, (s, k) ∈ ts → x' s k = x s k) → load x' ts = load x ts.
Proof.
  induction ts as [|[s k] ts IH]; intros H; [done|].
  rewrite !load_cons, IH by (intros; apply H; by right). cbn.
  by rewrite (H s k) by left.
Qed.

(** X16. The model says nothing about the other pairs: a pair of a student
    and a section whose course excludes the grade of the student, or whose
    course the student does not list, occurs in no constraint and has no
    coefficient in the objective, although its variable is declared in the
    [Binary] section.  Changing a valuation on such pairs keeps every
    constraint satisfied and the value of the objective unchanged. *)
Theorem ilp_other_pairs_unconstrained
    (courseMap : gmap CourseId Course.t) (sts : list Student.t) (secs : list Section)
    (x x' : nat → nat → bool) :
  (∀ c, c ∈ ILP.constraints courseMap sts secs → satisfies x c) →
  (∀ s k, eligible courseMap sts secs s k → x' s k = x s k) →
  (∀ c, c ∈ ILP.constraints courseMap sts secs → satisfies x' c) ∧
  objectiveUnder x' (objectiveTerms courseMap sts secs) =
    objectiveUnder x (objectiveTerms courseMap sts secs) ∧
  ∀ s k, s < length sts → k < length secs →
         ILP.varName s k ∈ ILP.binaryVars (length sts) (length secs).
Proof.
  intros Hsat Hsame. split; [|split].
  - intros c Hc. specialize (Hsat c Hc). unfold satisfies in *.
    fold (load x (ILP.terms c)) in Hsat. fold (load x' (ILP.terms c)).
    rewrite (load_ext x x'); [done|].
    intros s k Hterm. apply Hsame. by eapply constraints_terms_eligible.
  - assert (∀ l, (∀ w s k, (w, s, k) ∈ l → eligible courseMap sts secs s k) →
                 objectiveUnder x' l = objectiveUnder x l) as Hobj.
    { induction l as [|[[w s] k] l IH]; intros Hall; [done|]. cbn.
      fold (objectiveUnder x' l) (objectiveUnder x l).
      rewrite IH by (intros; eapply Hall; by right).
      by rewrite (Hsame s k) by (eapply Hall; left). }
    apply Hobj. intros w s k. apply objectiveTerms_eligible.
  - intros s k Hs Hk. unfold ILP.binaryVars.
    apply list_elem_of_bind. exists s. split; [|apply elem_of_seq; lia].
    apply list_elem_of_bind. exists k. split; [left|apply elem_of_seq; lia].
Qed.

Lemma ilp_other_pairs_unconstrained_witness :
  (∀ c, c ∈ ILP.constraints ModelExamples.courseMap ModelExamples.students
                            ModelExamples.sections →
        satisfies ModelExamples.stray c) ∧
  objectiveUnder ModelExamples.stray
    (objectiveTerms ModelExamples.courseMap ModelExamples.students ModelExamples.sections) =
  objectiveUnder ModelExamples.valuation
    (objectiveTerms ModelExamples.courseMap ModelExamples.students ModelExamples.sections) ∧
  ∀ s k, s < 2 → k < 3 → ILP.varName s k ∈ ILP.binaryVars 2 3.
Proof.
  apply (ilp_other_pairs_unconstrained ModelExamples.courseMap ModelExamples.students
           ModelExamples.sections ModelExamples.valuation ModelExamples.stray).
  - apply model_valuation_satisfies.
  - intros s k (student & section & Hs & Hk & Hg & Hr).
    destruct s as [|[|s]]; cbn in Hs; [| |done]; injection Hs as <-;
      destruct k as [|[|[|k]]]; cbn in Hk; try done; injection Hk as <-;
      try reflexivity.
    vm_compute in Hr. discriminate Hr.
Defined.

(** * Applying the solution of the model *)

Lemma foldl_prefix {A B} (P : list A → B → Prop) (f : B → A → B) l b :
  (∀ pre x b, x ∈ l → P pre b → P (pre ++ [x]) (f b x)) →
  P [] b → P l (foldl f b l).
Proof.
  intros Hstep.
  enough (∀ l0 pre b, (∀ x, x ∈ l0 → x ∈ l) → P pre b → P (pre ++ l0) (foldl f b l0)) as H.
  { intros Hb. by apply (H l [] b). }
  induction l0 as [|x l0 IH]; intros pre b0 Hsub Hb; cbn [foldl].
  - by rewrite app_nil_r.
  - rewrite (cons_middle x pre l0), app_assoc. apply IH.
    + intros y Hy. apply Hsub. by right.
    + apply Hstep; [apply Hsub; left|done].
Qed.

Lemma sectionMap_Some secs sectionId i :
  Cli.sectionMap secs !! sectionId = Some i →
  ∃ s, secs !! i = Some s ∧ id s = sectionId.
Proof.
  unfold Cli.sectionMap.
  induction secs as [|s secs IH] using rev_ind; [done|].
  rewrite imap_app, foldl_app. cbn [imap foldl]. rewrite Nat.add_0_r.
  destruct (decide (id s = sectionId)) as [<-|Hne].
  - rewrite lookup_insert_eq. intros [= <-]. exists s.
    by rewrite lookup_app_r, Nat.sub_diag.
  - rewrite lookup_insert_ne by done. intros (s0 & Hs0 & Hid)%IH.
    exists s0. split; [|done]. apply lookup_app_l_Some. done.
Qed.

(** The loop over the section ids assigned to one student. *)
Lemma appended_snoc positions sid pre z i s :
  appended positions sid (pre ++ [z]) i s ↔
  appended positions sid pre i s ∨ ((sid ∉ enrolledStudents s) ∧ positions !! z = Some i).
Proof.
  unfold appended. split.
  - intros [Hnot (y & [Hy| ->%list_elem_of_singleton]%elem_of_app & Hpos)].
    + left. split; [done|]. by exists y.
    + by right.
  - intros [[Hnot (y & Hy & Hpos)]|[Hnot Hpos]]; (split; [done|]).
    + exists y. split; [apply elem_of_app; by left|done].
    + exists z. split; [apply elem_of_app; right; left|done].
Qed.

Lemma enrollAssigned_fold positions sid ids (secs : list Section) :
  fixedPart <$> foldl (Cli.enrollAssigned positions sid) secs ids = fixedPart <$> secs ∧
  ∀ i s, secs !! i = Some s →
    ∃ s', foldl (Cli.enrollAssigned positions sid) secs ids !! i = Some s' ∧
      ((enrolledStudents s' = enrolledStudents s ++ [sid] ∧ appended positions sid ids i s) ∨
       (enrolledStudents s' = enrolledStudents s ∧ ¬ appended positions sid ids i s)).
Proof.
  apply (foldl_prefix
           (λ pre cur,
              fixedPart <$> cur = fixedPart <$> secs ∧
              ∀ i s, secs !! i = Some s →
                ∃ s', cur !! i = Some s' ∧
                  ((enrolledStudents s' = enrolledStudents s ++ [sid] ∧
                    appended positions sid pre i s) ∨
                   (enrolledStudents s' = enrolledStudents s ∧
                    ¬ appended positions sid pre i s)))).
  - intros pre z cur _ [Hfix Hall]. unfold Cli.enrollAssigned.
    assert (∀ i, positions !! z ≠ Some i →
                 ∀ s, appended positions sid (pre ++ [z]) i s ↔ appended positions sid pre i s)
      as Hother.
    { intros i Hne s. rewrite appended_snoc. split; [|by left].
      intros [?|[_ ?]]; [done|congruence]. }
    assert (∀ i s, secs !! i = Some s → positions !! z ≠ Some i →
              ∃ s', cur !! i = Some s' ∧
                ((enrolledStudents s' = enrolledStudents s ++ [sid] ∧
                  appended positions sid (pre ++ [z]) i s) ∨
                 (enrolledStudents s' = enrolledStudents s ∧
                  ¬ appended positions sid (pre ++ [z]) i s))) as Hrest.
    { intros i s Hs Hne. destruct (Hall i s Hs) as (s' & Hs' & Hcase). exists s'.
      split; [done|]. by rewrite (Hother i Hne s). }
    destruct (positions !! z) as [j|] eqn:Hpos; cbn [mbind option_bind];
      [|split; [done|]; intros i s Hs; by apply Hrest].
    destruct (cur !! j) as [section|] eqn:Hj; cbn [fmap option_fmap option_map].
    + destruct (decide (sid ∈ enrolledStudents section)) as [Hin|Hnot].
      * split; [done|]. intros i s Hs.
        destruct (decide (i = j)) as [->|Hne]; [|apply Hrest; [done|congruence]].
        destruct (Hall j s Hs) as (s' & Hs' & Hcase). exists s'. split; [done|].
        rewrite Hj in Hs'. injection Hs' as <-.
        destruct Hcase as [[He Happ]|[He Hno]].
        -- left. split; [done|]. apply appended_snoc. by left.
        -- right. split; [done|]. rewrite appended_snoc.
           intros [?|[Hn _]]; [done|]. apply Hn. by rewrite <- He.
      * split; [rewrite <- Hfix; by apply (fmap_insert_same fixedPart cur j section)|].
        intros i s Hs.
        destruct (decide (i = j)) as [->|Hne].
        -- exists (enroll sid section).
           split; [apply list_lookup_insert_eq; by eapply lookup_lt_Some|].
           destruct (Hall j s Hs) as (s' & Hs' & Hcase).
           rewrite Hj in Hs'. injection Hs' as <-.
           destruct Hcase as [[He _]|[He Hno]].
           ++ exfalso. apply Hnot. rewrite He. apply elem_of_app. right. left.
           ++ left. cbn. rewrite He. split; [done|]. apply appended_snoc. right.
              split; [by rewrite <- He|done].
        -- destruct (Hrest i s Hs) as (s' & Hs' & Hcase); [congruence|].
           exists s'. split; [by rewrite list_lookup_insert_ne|done].
    + split; [done|]. intros i s Hs. apply Hrest; [done|].
      intros [= <-]. destruct (Hall j s Hs) as (s' & Hs' & _). congruence.
  - split; [done|]. intros i s Hs. exists s. split; [done|]. right. split; [done|].
    intros [_ (z & []%elem_of_nil & _)].
Qed.

Lemma applyStudent_sections positions assignments sts courseMap acc student :
  (Cli.applyStudent positions assignments sts courseMap acc student).1 =
    foldl (Cli.enrollAssigned positions (Student.id student)) acc.1
          (default [] (assignments !! Student.id student)).
Proof. done. Qed.

(** The sections after the loop over the students. *)
Lemma applyILPAssignments_sections (secs : list Section)
    (assignments : gmap StudentId (list SectionId)) (sts : list Student.t)
    (courseMap : gmap CourseId Course.t) (unassigned : list UnassignedStudent) :
  let secs' := (Cli.applyILPAssignments secs assignments sts courseMap unassigned).1 in
  fixedPart <$> secs' = fixedPart <$> secs ∧
  ∀ i s, secs !! i = Some s →
    ∃ s' new,
      secs' !! i = Some s' ∧ enrolledStudents s' = enrolledStudents s ++ new ∧ NoDup new ∧
      ∀ sid, sid ∈ new ↔ (sid ∉ enrolledStudents s) ∧ assignedTo secs assignments sts sid i.
Proof.
  cbv zeta. unfold Cli.applyILPAssignments, assignedTo.
  set (positions := Cli.sectionMap secs).
  apply (foldl_prefix
           (λ pre (acc : list Section * list UnassignedStudent),
              fixedPart <$> acc.1 = fixedPart <$> secs ∧
              ∀ i s, secs !! i = Some s →
                ∃ s' new,
                  acc.1 !! i = Some s' ∧ enrolledStudents s' = enrolledStudents s ++ new ∧
                  NoDup new ∧
                  ∀ sid, sid ∈ new ↔
                         (sid ∉ enrolledStudents s) ∧
                         (sid ∈ Student.id <$> pre ∧
                          ∃ sectionId, sectionId ∈ default [] (assignments !! sid) ∧
                                       positions !! sectionId = Some i))).
  - intros pre student acc _ [Hfix Hall]. rewrite applyStudent_sections.
    set (sid0 := Student.id student).
    destruct (enrollAssigned_fold positions sid0 (default [] (assignments !! sid0)) acc.1)
      as [Hfix' Hstep].
    split; [by rewrite Hfix'|]. intros i s Hs.
    destruct (Hall i s Hs) as (s1 & new & Hs1 & He1 & Hnd & Hnew).
    destruct (Hstep i s1 Hs1) as (s2 & Hs2 & [[He2 [Hnot Hz]]|[He2 Hno]]).
    + exists s2, (new ++ [sid0]). split; [done|].
      split; [by rewrite He2, He1, app_assoc|].
      rewrite He1 in Hnot. apply not_elem_of_app in Hnot as [Hnot1 Hnot2].
      split.
      { apply NoDup_app. split; [done|]. split; [|apply NoDup_singleton].
        by intros x Hx ->%list_elem_of_singleton. }
      intros sid. rewrite elem_of_app, list_elem_of_singleton, Hnew, fmap_app, elem_of_app.
      cbn. rewrite list_elem_of_singleton. fold sid0. split.
      * intros [(? & ? & ?)| ->]; [split; [done|]; split; [by left|done]|].
        split; [done|]. split; [by right|done].
      * intros (Hs0 & [Hin| ->] & Hz'); [left; done|by right].
    + exists s2, new. split; [done|]. split; [by rewrite He2|]. split; [done|].
      intros sid. rewrite Hnew, fmap_app, elem_of_app. cbn.
      rewrite list_elem_of_singleton. fold sid0. split.
      * intros (? & ? & ?). split; [done|]. split; [by left|done].
      * intros (Hs0 & [Hin| ->] & Hz'); [done|].
        assert (sid0 ∈ enrolledStudents s1) as Hin1.
        { destruct (decide (sid0 ∈ enrolledStudents s1)) as [|Hn]; [done|].
          exfalso. apply Hno. by split. }
        rewrite He1 in Hin1. apply elem_of_app in Hin1 as [?|Hin1]; [done|].
        by apply Hnew in Hin1.
  - split; [done|]. intros i s Hs. exists s, []. split; [done|].
    split; [by rewrite app_nil_r|]. split; [constructor|].
    intros sid. split; [by intros ?%elem_of_nil|]. by intros (_ & ?%elem_of_nil & _).
Qed.

(** X17. [applyILPAssignments] changes nothing of a section but its list
    of students, removes nobody and repeats nobody: to a section it appends,
    once each, the students of the input that are not yet in the section
    and to whom the solver assigned the id of the section (the id refers to
    the last section that carries it). *)
Theorem applyILPAssignments_enrolls
    (secs : list Section) (assignments : gmap StudentId (list SectionId))
    (sts : list Student.t) (courseMap : gmap CourseId Course.t)
    (unassigned : list UnassignedStudent) :
  let secs' := (Cli.applyILPAssignments secs assignments sts courseMap unassigned).1 in
  fixedPart <$> secs' = fixedPart <$> secs ∧
  ∀ i s, secs !! i = Some s →
    ∃ s' new,
      secs' !! i = Some s' ∧ enrolledStudents s' = enrolledStudents s ++ new ∧ NoDup new ∧
      ∀ sid, sid ∈ new ↔ (sid ∉ enrolledStudents s) ∧ assignedTo secs assignments sts sid i.
Proof. apply applyILPAssignments_sections. Qed.

(** ** The account of the required courses *)

Lemma applyStudent_grows positions assignments sts courseMap acc student :
  let acc' := Cli.applyStudent positions assignments sts courseMap acc student in
  (∀ x c, enrolledIn acc.1 x c → enrolledIn acc'.1 x c) ∧
  (∀ u, u ∈ acc.2 → u ∈ acc'.2) ∧
  ∀ cid, cid ∈ Student.requiredCourses student → ilpAccounted sts courseMap acc' student cid.
Proof.
  cbv zeta. set (sid0 := Student.id student).
  set (ids := default [] (assignments !! sid0)).
  set (secs' := foldl (Cli.enrollAssigned positions sid0) acc.1 ids).
  destruct (enrollAssigned_fold positions sid0 ids acc.1) as [Hfix Hstep].
  fold secs' in Hfix, Hstep.
  assert (∀ i s2, secs' !! i = Some s2 →
            ∃ s1, acc.1 !! i = Some s1 ∧ courseId s2 = courseId s1 ∧
                  (∀ x, x ∈ enrolledStudents s1 → x ∈ enrolledStudents s2) ∧
                  ((∃ z, z ∈ ids ∧ positions !! z = Some i) → sid0 ∈ enrolledStudents s2))
    as Hback.
  { intros i s2 Hs2. destruct (fixedPart_lookup _ _ _ _ Hfix Hs2) as (s1 & Hs1 & Hf).
    exists s1. split; [done|]. split; [by injection Hf as _ ? _ _ _ _|].
    destruct (Hstep i s1 Hs1) as (s2' & Hs2' & Hcase).
    rewrite Hs2 in Hs2'. injection Hs2' as <-.
    destruct Hcase as [[He _]|[He Hno]]; rewrite He.
    - split; [intros x Hx; apply elem_of_app; by left|].
      intros _. apply elem_of_app. right. left.
    - split; [done|]. intros Hz.
      destruct (decide (sid0 ∈ enrolledStudents s1)) as [|Hn]; [done|].
      exfalso. apply Hno. by split. }
  split; [|split].
  - intros x c (s1 & [i Hi]%list_elem_of_lookup & Hc & Hx).
    destruct (Hstep i s1 Hi) as (s2 & Hs2 & _).
    destruct (Hback i s2 Hs2) as (s1' & Hs1' & Hc' & Hsub & _).
    rewrite Hi in Hs1'. injection Hs1' as <-.
    exists s2. split; [by eapply list_elem_of_lookup_2|]. split; [congruence|by apply Hsub].
  - unfold Cli.applyStudent. cbn [snd].
    generalize (Student.requiredCourses student). intros cs u.
    apply (foldl_prefix (λ _ un, u ∈ acc.2 → u ∈ un)); [|done].
    intros _ cid un _ IH Hu. destruct (Cli.gradeSkips _ _ _ _); [by apply IH|].
    destruct (decide _); [by apply IH|]. apply elem_of_app. left. by apply IH.
  - unfold ilpAccounted, Cli.applyStudent. cbn [fst snd]. fold sid0 ids secs'.
    set (courses := (λ z, courseId <$> ((positions !! z) ≫= (λ i, secs' !! i))) <$> ids).
    assert (∀ cid, Some cid ∈ courses → enrolledIn secs' sid0 cid) as Hassigned.
    { intros cid (z & Hz & Hin)%list_elem_of_fmap.
      destruct (positions !! z) as [i|] eqn:Hpos; [|done]. cbn in Hz.
      destruct (secs' !! i) as [s2|] eqn:Hs2; [|done]. injection Hz as ->.
      destruct (Hback i s2 Hs2) as (_ & _ & _ & _ & Hmine).
      exists s2. split; [by eapply list_elem_of_lookup_2|]. split; [done|].
      apply Hmine. by exists z. }
    enough (∀ cs un0,
              let un := foldl (λ unassigned cid,
                                 if Cli.gradeSkips sts courseMap sid0 cid then unassigned
                                 else if decide (Some cid ∈ courses) then unassigned
                                 else unassigned ++ [ilpEntry student cid]) un0 cs in
              (∀ u, u ∈ un0 → u ∈ un) ∧
              ∀ cid, cid ∈ cs →
                     Cli.gradeSkips sts courseMap sid0 cid = true ∨
                     Some cid ∈ courses ∨ ilpEntry student cid ∈ un) as Hun.
    { intros cid Hcid. destruct (Hun (Student.requiredCourses student) acc.2) as [_ H].
      destruct (H cid Hcid) as [?|[?|?]]; [by left|right; left; by apply Hassigned|].
      right. by right. }
    induction cs as [|c cs IH]; intros un0; cbn [foldl].
    { split; [done|]. by intros ? ?%elem_of_nil. }
    cbv zeta in IH.
    destruct (Cli.gradeSkips sts courseMap sid0 c) eqn:Hskip.
    { destruct (IH un0) as [Hsub Hall]. split; [done|].
      intros cid [->|Hcid]%elem_of_cons; [by left|by apply Hall]. }
    destruct (decide (Some c ∈ courses)) as [Hin|Hnot].
    { destruct (IH un0) as [Hsub Hall]. split; [done|].
      intros cid [->|Hcid]%elem_of_cons; [right; by left|by apply Hall]. }
    destruct (IH (un0 ++ [ilpEntry student c])) as [Hsub Hall]. split.
    + intros u Hu. apply Hsub. apply elem_of_app. by left.
    + intros cid [->|Hcid]%elem_of_cons; [|by apply Hall].
      right. right. apply Hsub. apply elem_of_app. right. left.
Qed.

(** X18. After [applyILPAssignments] every required course of every student
    is accounted for: the student is in a section of the course, or the
    unassigned list has the entry [ILP could not find feasible assignment
    (conflict or capacity)], or the course has grade restrictions that
    exclude the grade of the student (a grade of 0 is never excluded, and
    the grade is that of the first student of the input with the id). *)
Theorem applyILPAssignments_accounts
    (secs : list Section) (assignments : gmap StudentId (list SectionId))
    (sts : list Student.t) (courseMap : gmap CourseId Course.t)
    (unassigned : list UnassignedStudent) (student : Student.t) (cid : CourseId) :
  student ∈ sts → cid ∈ Student.requiredCourses student →
  ilpAccounted sts courseMap
               (Cli.applyILPAssignments secs assignments sts courseMap unassigned)
               student cid.
Proof.
  intros Hstudent Hcid. unfold Cli.applyILPAssignments.
  set (positions := Cli.sectionMap secs).
  enough (∀ st c, st ∈ sts → c ∈ Student.requiredCourses st →
                  ilpAccounted sts courseMap
                    (foldl (Cli.applyStudent positions assignments sts courseMap)
                           (secs, unassigned) sts) st c) as H by (by apply H).
  apply (foldl_prefix
           (λ pre acc, ∀ st c, st ∈ pre → c ∈ Student.requiredCourses st →
                               ilpAccounted sts courseMap acc st c)).
  - intros pre st0 acc _ IH st c Hst Hc.
    destruct (applyStudent_grows positions assignments sts courseMap acc st0)
      as (Hen & Hun & Hnew).
    apply elem_of_app in Hst as [Hst| ->%list_elem_of_singleton]; [|by apply Hnew].
    destruct (IH st c Hst Hc) as [?|[?|?]]; [by left|right; left; by apply Hen|].
    right. right. by apply Hun.
  - by intros ?? ?%elem_of_nil.
Qed.

Lemma applyILPAssignments_accounts_witness :
  ilpAccounted ModelExamples.students ModelExamples.courseMap
    (Cli.applyILPAssignments ModelExamples.sections adaOnly ModelExamples.students
                             ModelExamples.courseMap [])
    ModelExamples.bob "ART".
Proof.
  apply (applyILPAssignments_accounts ModelExamples.sections adaOnly ModelExamples.students
           ModelExamples.courseMap [] ModelExamples.bob "ART").
  - right. left.
  - left.
Defined.

(** * The validator *)

(** ** Insertion-ordered maps *)

Lemma assocGet_elem {K V} `{EqDecision K} (k : K) (v : V) (l : list (K * V)) :
  NoDup l.*1 → (k, v) ∈ l ↔ assocGet k l = Some v.
Proof.
  induction l as [|[k' v'] l IH]; cbn [assocGet fmap list_fmap fst].
  { intros _. split; [by intros ?%elem_of_nil|done]. }
  intros [Hk' Hnd]%NoDup_cons. rewrite elem_of_cons, (IH Hnd).
  destruct (decide (k = k')) as [->|Hne].
  - split.
    + intros [[= ->]|Hin]; [done|]. exfalso. apply Hk'.
      apply (IH Hnd) in Hin. apply list_elem_of_fmap. by exists (k', v).
    + intros [= ->]. by left.
  - split; [intros [[= ? ?]|?]; [done|done]|by right].
Qed.

Lemma assocGet_None {K V} `{EqDecision K} (k : K) (l : list (K * V)) :
  assocGet k l = None ↔ k ∉ l.*1.
Proof.
  induction l as [|[k' v'] l IH]; cbn [assocGet fmap list_fmap fst].
  { split; [intros _; apply not_elem_of_nil|done]. }
  rewrite not_elem_of_cons. destruct (decide (k = k')) as [->|Hne]; [|by rewrite IH; tauto].
  split; [done|]. by intros [? _].
Qed.

Lemma bind_nil {A B} (f : A → list B) (l : list A) :
  l ≫= f = [] ↔ Forall (λ x, f x = []) l.
Proof.
  induction l as [|x l IH]; [by split|].
  rewrite Forall_cons, <- IH. cbn. split; [by intros [? ?]%app_eq_nil|].
  by intros [-> ->].
Qed.

Section tables.
Context {V : Type}.
Implicit Types (table : Validator.Table V) (schedule : list (Period * list V)).

Lemma slotPush_keys key (v : V) schedule :
  (Validator.slotPush key v schedule).*1 =
  if decide (key ∈ schedule.*1) then schedule.*1 else schedule.*1 ++ [key].
Proof.
  induction schedule as [|[key' l] rest IH]; cbn [Validator.slotPush fmap list_fmap fst].
  { rewrite decide_False; [done|apply not_elem_of_nil]. }
  destruct (decide (key = key')) as [->|Hne].
  - cbn. rewrite decide_True; [done|by left].
  - cbn. fold (fst <$> rest) (fst <$> Validator.slotPush key v rest). rewrite IH.
    destruct (decide (key ∈ rest.*1)) as [Hin|Hnot].
    + rewrite decide_True; [done|by right].
    + rewrite decide_False; [done|]. by intros [?|?]%elem_of_cons.
Qed.

Lemma slotPush_NoDup key (v : V) schedule :
  NoDup schedule.*1 → NoDup (Validator.slotPush key v schedule).*1.
Proof.
  intros Hnd. rewrite slotPush_keys. destruct (decide _) as [|Hnot]; [done|].
  apply NoDup_app. split; [done|]. split; [|apply NoDup_singleton].
  by intros x Hx ->%list_elem_of_singleton.
Qed.

Lemma slotPush_get key (v : V) schedule key' :
  assocGet key' (Validator.slotPush key v schedule) =
  if decide (key' = key) then Some (default [] (assocGet key schedule) ++ [v])
  else assocGet key' schedule.
Proof.
  induction schedule as [|[k l] rest IH]; cbn [Validator.slotPush assocGet].
  { by destruct (decide (key' = key)). }
  destruct (decide (key = k)) as [->|Hne]; cbn [assocGet]; rewrite ?IH;
    repeat case_decide; simplify_eq; try done.
Qed.

Lemma tableEnsure_keys k table :
  (Validator.tableEnsure k table).*1 =
  if decide (k ∈ table.*1) then table.*1 else table.*1 ++ [k].
Proof.
  induction table as [|[k' m] rest IH]; cbn [Validator.tableEnsure fmap list_fmap fst].
  { rewrite decide_False; [done|apply not_elem_of_nil]. }
  destruct (decide (k = k')) as [->|Hne].
  - cbn. rewrite decide_True; [done|by left].
  - cbn. fold (fst <$> rest) (fst <$> Validator.tableEnsure k rest). rewrite IH.
    destruct (decide (k ∈ rest.*1)) as [Hin|Hnot].
    + rewrite decide_True; [done|by right].
    + rewrite decide_False; [done|]. by intros [?|?]%elem_of_cons.
Qed.

Lemma tableEnsure_get k table k' :
  assocGet k' (Validator.tableEnsure k table) =
  match assocGet k' table with
  | Some m => Some m
  | None => if decide (k' = k) then Some [] else None
  end.
Proof.
  induction table as [|[k0 m] rest IH]; cbn [Validator.tableEnsure assocGet].
  { by destruct (decide (k' = k)). }
  destruct (decide (k = k0)) as [->|Hne]; cbn [assocGet].
  - destruct (decide (k' = k0)); [done|]. by destruct (assocGet k' rest).
  - destruct (decide (k' = k0)); [done|]. apply IH.
Qed.

Lemma tableEnsure_elem k table k' m :
  (k', m) ∈ Validator.tableEnsure k table → (k', m) ∈ table ∨ m = [].
Proof.
  induction table as [|[k0 m0] rest IH]; cbn [Validator.tableEnsure].
  { intros [= _ ->]%list_elem_of_singleton. by right. }
  destruct (decide (k = k0)) as [->|Hne]; [by left|].
  intros [->|Hin]%elem_of_cons; [left; by left|].
  destruct (IH Hin); [left; by right|by right].
Qed.

Lemma tableAlter_keys f k table : (Validator.tableAlter f k table).*1 = table.*1.
Proof.
  induction table as [|[k0 m0] rest IH]; cbn [Validator.tableAlter]; [done|].
  destruct (decide (k = k0)); [done|]. cbn. by f_equal.
Qed.

Lemma tableAlter_get f k table k' :
  assocGet k' (Validator.tableAlter f k table) =
  if decide (k' = k) then f <$> assocGet k table else assocGet k' table.
Proof.
  induction table as [|[k0 m0] rest IH]; cbn [Validator.tableAlter assocGet].
  { by destruct (decide _). }
  destruct (decide (k = k0)) as [->|Hne]; cbn [assocGet]; rewrite ?IH;
    repeat case_decide; simplify_eq; try done.
Qed.

Lemma tableAlter_elem f k table k' m :
  (k', m) ∈ Validator.tableAlter f k table →
  (k', m) ∈ table ∨ ∃ m0, (k', m0) ∈ table ∧ m = f m0.
Proof.
  induction table as [|[k0 m0] rest IH]; cbn [Validator.tableAlter]; [by left|].
  destruct (decide (k = k0)) as [->|Hne].
  - intros [[= -> ->]|Hin]%elem_of_cons; [|left; by right].
    right. exists m0. split; [by left|done].
  - intros [->|Hin]%elem_of_cons; [left; by left|].
    destruct (IH Hin) as [?|(m1 & ? & ->)]; [left; by right|].
    right. exists m1. split; [by right|done].
Qed.

Lemma tableOK_ensure k table : tableOK table → tableOK (Validator.tableEnsure k table).
Proof.
  intros [Hnd Hin]. split.
  - rewrite tableEnsure_keys. destruct (decide _) as [|Hnot]; [done|].
    apply NoDup_app. split; [done|]. split; [|apply NoDup_singleton].
    by intros x Hx ->%list_elem_of_singleton.
  - intros k' m [?| ->]%tableEnsure_elem; [by eapply Hin|apply NoDup_nil_2].
Qed.

Lemma tableOK_alter key (v : V) k table :
  tableOK table → tableOK (Validator.tableAlter (Validator.slotPush key v) k table).
Proof.
  intros [Hnd Hin]. split; [by rewrite tableAlter_keys|].
  intros k' m [?|(m0 & ? & ->)]%tableAlter_elem; [by eapply Hin|].
  apply slotPush_NoDup. by eapply Hin.
Qed.

Lemma cell_ensure k table k' p :
  cell (Validator.tableEnsure k table) k' p = cell table k' p.
Proof.
  unfold cell. rewrite tableEnsure_get. destruct (assocGet k' table); [done|].
  by destruct (decide _).
Qed.

Lemma cell_alter key (v : V) k table k' p :
  is_Some (assocGet k table) →
  cell (Validator.tableAlter (Validator.slotPush key v) k table) k' p =
  cell table k' p ++ (if decide ((k', p) = (k, key)) then [v] else []).
Proof.
  intros [m Hm]. unfold cell. rewrite tableAlter_get.
  destruct (decide (k' = k)) as [->|Hne].
  - rewrite Hm. cbn. rewrite slotPush_get.
    destruct (decide (p = key)) as [->|Hp].
    + by rewrite decide_True.
    + rewrite decide_False by congruence. by rewrite app_nil_r.
  - rewrite decide_False by congruence. by rewrite app_nil_r.
Qed.

Lemma tablePush_spec k (v : V) ps table :
  tableOK table →
  tableOK (Validator.tablePush k v ps table) ∧
  is_Some (assocGet k (Validator.tablePush k v ps table)) ∧
  ∀ k' p, length (cell (Validator.tablePush k v ps table) k' p) =
          length (cell table k' p) + length (filter (λ e, e = (k', p)) (pair k <$> ps)).
Proof.
  intros Hok. unfold Validator.tablePush.
  assert (tableOK (Validator.tableEnsure k table)) as Hok1 by (by apply tableOK_ensure).
  assert (is_Some (assocGet k (Validator.tableEnsure k table))) as Hsome.
  { rewrite tableEnsure_get. destruct (assocGet k table); [by eexists|].
    rewrite decide_True by done. by eexists. }
  enough (∀ t, tableOK t → is_Some (assocGet k t) →
            let t' := foldl (λ table period,
                               Validator.tableAlter (Validator.slotPush period v) k table)
                            t ps in
            tableOK t' ∧ is_Some (assocGet k t') ∧
            ∀ k' p, length (cell t' k' p) =
                    length (cell t k' p) +
                    length (filter (λ e, e = (k', p)) (pair k <$> ps))) as Hfold.
  { destruct (Hfold _ Hok1 Hsome) as (? & ? & Hcell). split; [done|]. split; [done|].
    intros k' p. by rewrite Hcell, cell_ensure. }
  clear. induction ps as [|key ps IH]; intros t Hok Hsome; cbn [foldl].
  { split; [done|]. split; [done|]. intros k' p. cbn. lia. }
  destruct (IH (Validator.tableAlter (Validator.slotPush key v) k t)) as (? & ? & Hcell).
  - by apply tableOK_alter.
  - rewrite tableAlter_get, decide_True by done. destruct Hsome as [m ->]. by eexists.
  - split; [done|]. split; [done|]. intros k' p. rewrite Hcell, cell_alter by done.
    rewrite length_app. cbn [fmap list_fmap]. rewrite filter_cons.
    destruct (decide ((k', p) = (k, key))) as [Heq|Hne].
    + rewrite decide_True by done. cbn. lia.
    + rewrite decide_False by done. cbn. lia.
Qed.

Lemma conflicts_nil (violation : string → Period → list V → Validator.ConstraintViolation)
    table :
  tableOK table →
  Validator.conflicts violation table = [] ↔ ∀ k p, length (cell table k p) ≤ 1.
Proof.
  intros [Hnd Hin]. unfold Validator.conflicts. split.
  - intros Hnil k p. unfold cell.
    destruct (assocGet k table) as [m|] eqn:Hm; [|cbn; lia]. cbn.
    destruct (assocGet p m) as [l|] eqn:Hl; [|cbn; lia]. cbn.
    apply assocGet_elem in Hm; [|done].
    apply assocGet_elem in Hl; [|by eapply Hin].
    destruct (decide (1 < length l)) as [Hbig|]; [|lia]. exfalso.
    assert (violation k p l ∈ @nil Validator.ConstraintViolation) as Habs;
      [|by apply elem_of_nil in Habs].
    rewrite <- Hnil. apply list_elem_of_bind. exists (k, m). split; [|done].
    apply list_elem_of_bind. exists (p, l). split; [|done].
    rewrite decide_True by done. by left.
  - intros Hall. apply bind_nil. rewrite Forall_forall. intros [k m] Hm.
    apply bind_nil. rewrite Forall_forall. intros [p l] Hl.
    rewrite decide_False; [done|]. pose proof (Hall k p) as Hle. unfold cell in Hle.
    apply assocGet_elem in Hm; [|done]. rewrite Hm in Hle. cbn in Hle.
    apply assocGet_elem in Hl; [|by eapply Hin; apply assocGet_elem]. 
    rewrite Hl in Hle. cbn in Hle. lia.
Qed.

End tables.

Lemma NoDup_filter_length {A} `{EqDecision A} (l : list A) :
  NoDup l ↔ ∀ x, length (filter (λ y, y = x) l) ≤ 1.
Proof.
  induction l as [|a l IH].
  { split; [intros _ x; cbn; lia|intros _; apply NoDup_nil_2]. }
  rewrite NoDup_cons, IH. split.
  - intros [Hnot Hall] x. rewrite filter_cons. destruct (decide (a = x)) as [->|]; [|done].
    cbn. enough (filter (λ y, y = x) l = []) as -> by (cbn; lia).
    destruct (filter (λ y, y = x) l) as [|y f] eqn:Hf; [done|]. exfalso.
    assert (y ∈ filter (λ y, y = x) l) as [-> Hy]%list_elem_of_filter
      by (rewrite Hf; by left).
    done.
  - intros Hall. split.
    + intros Hin. pose proof (Hall a) as Ha. rewrite filter_cons, decide_True in Ha by done.
      cbn in Ha. assert (a ∈ filter (λ y, y = a) l) as Hf by (by apply list_elem_of_filter).
      destruct (filter (λ y, y = a) l); [by apply elem_of_nil in Hf|cbn in Ha; lia].
    + intros x. pose proof (Hall x) as Hx. rewrite filter_cons in Hx.
      destruct (decide (a = x)); [cbn in Hx; lia|done].
Qed.

(** ** The tables of the conflict checks *)

(** A table records [entries] on top of [table0]: the list it holds for an
    id and a period has grown by one element for every occurrence of the
    pair in [entries]. *)
Lemma table_fold {V A} (step : Validator.Table V → A → Validator.Table V)
    (ent : A → list (string * Period)) (l : list A) (table : Validator.Table V) :
  (∀ t a, tableOK t →
          tableOK (step t a) ∧
          ∀ k p, length (cell (step t a) k p) =
                 length (cell t k p) + length (filter (λ e, e = (k, p)) (ent a))) →
  tableOK table →
  tableOK (foldl step table l) ∧
  ∀ k p, length (cell (foldl step table l) k p) =
         length (cell table k p) + length (filter (λ e, e = (k, p)) (l ≫= ent)).
Proof.
  intros Hstep. revert table. induction l as [|a l IH]; intros table Hok; cbn [foldl].
  { split; [done|]. intros k p. cbn. lia. }
  destruct (Hstep table a Hok) as [Hok1 Hcell1].
  destruct (IH _ Hok1) as [Hok2 Hcell2]. split; [done|].
  intros k p. rewrite Hcell2, Hcell1. cbn [mbind list_bind].
  change (foldr _ _ _) with (ent a ++ (l ≫= ent)).
  rewrite filter_app, length_app. lia.
Qed.

Lemma tableOK_nil {V} : tableOK (@nil (string * list (Period * list V))).
Proof. split; [apply NoDup_nil_2|]. by intros ?? ?%elem_of_nil. Qed.

Lemma teacherTable_spec secs :
  tableOK (Validator.teacherTable secs) ∧
  ∀ k p, length (cell (Validator.teacherTable secs) k p) =
         length (filter (λ e, e = (k, p)) (teacherEntries secs)).
Proof.
  unfold Validator.teacherTable, teacherEntries.
  apply (table_fold _ (λ section, match Validator.truthy (teacherId section) with
                                  | Some tid => pair tid <$> periods section
                                  | None => []
                                  end) secs []); [|apply tableOK_nil].
  intros t section Hok. destruct (Validator.truthy (teacherId section)) as [tid|].
  - destruct (tablePush_spec tid (id section, courseId section) (periods section) t Hok)
      as (? & _ & ?). by split.
  - split; [done|]. intros. cbn. lia.
Qed.

Lemma roomTable_spec secs :
  tableOK (Validator.roomTable secs) ∧
  ∀ k p, length (cell (Validator.roomTable secs) k p) =
         length (filter (λ e, e = (k, p)) (roomEntries secs)).
Proof.
  unfold Validator.roomTable, roomEntries.
  apply (table_fold _ (λ section, match Validator.truthy (roomId section) with
                                  | Some rid => pair rid <$> periods section
                                  | None => []
                                  end) secs []); [|apply tableOK_nil].
  intros t section Hok. destruct (Validator.truthy (roomId section)) as [rid|].
  - destruct (tablePush_spec rid (id section) (periods section) t Hok) as (? & _ & ?).
    by split.
  - split; [done|]. intros. cbn. lia.
Qed.

Lemma studentTable_spec secs :
  tableOK (Validator.studentTable secs) ∧
  ∀ k p, length (cell (Validator.studentTable secs) k p) =
         length (filter (λ e, e = (k, p)) (studentEntries secs)).
Proof.
  unfold Validator.studentTable, studentEntries.
  apply (table_fold _ (λ section, sid ← enrolledStudents section;
                                  pair sid <$> periods section) secs []);
    [|apply tableOK_nil].
  intros t section Hok.
  apply (table_fold _ (λ sid, pair sid <$> periods section)); [|done].
  intros t' sid Hok'.
  destruct (tablePush_spec sid (id section) (periods section) t' Hok') as (? & _ & ?).
  by split.
Qed.

Lemma conflicts_NoDup {V} (violation : string → Period → list V → Validator.ConstraintViolation)
    (table : Validator.Table V) (entries : list (string * Period)) :
  tableOK table →
  (∀ k p, length (cell table k p) = length (filter (λ e, e = (k, p)) entries)) →
  Validator.conflicts violation table = [] ↔ NoDup entries.
Proof.
  intros Hok Hcell. rewrite (conflicts_nil _ _ Hok), NoDup_filter_length. split.
  - intros H [k p]. rewrite <- Hcell. apply H.
  - intros H k p. rewrite Hcell. apply H.
Qed.

Lemma checkTeacherConflicts_nil secs :
  Validator.checkTeacherConflicts secs = [] ↔ NoDup (teacherEntries secs).
Proof. destruct (teacherTable_spec secs). by apply conflicts_NoDup. Qed.

Lemma checkStudentConflicts_nil secs :
  Validator.checkStudentConflicts secs = [] ↔ NoDup (studentEntries secs).
Proof. destruct (studentTable_spec secs). by apply conflicts_NoDup. Qed.

Lemma checkRoomConflicts_nil secs :
  Validator.checkRoomConflicts secs = [] ↔ NoDup (roomEntries secs).
Proof. destruct (roomTable_spec secs). by apply conflicts_NoDup. Qed.

(** X19. The three conflict checks of the validator are exact.
    [checkTeacherConflicts] reports nothing if and only if no teacher has a
    period twice, counted over all periods of all sections with a teacher;
    [checkStudentConflicts] reports nothing if and only if no student has a
    period twice, counted over all periods of all sections and every listing
    of the student; [checkRoomConflicts] reports nothing if and only if no
    room has a period twice.  (An id that is the empty string counts as no
    teacher and no room.) *)
Theorem conflict_checks_exact (secs : list Section) :
  (Validator.checkTeacherConflicts secs = [] ↔ NoDup (teacherEntries secs)) ∧
  (Validator.checkStudentConflicts secs = [] ↔ NoDup (studentEntries secs)) ∧
  (Validator.checkRoomConflicts secs = [] ↔ NoDup (roomEntries secs)).
Proof.
  split; [apply checkTeacherConflicts_nil|].
  split; [apply checkStudentConflicts_nil|apply checkRoomConflicts_nil].
Qed.

(** ** Lookup maps and distinct ids *)

Lemma keyed_lookup {A} (key : A → string) (l : list A) (k : string) :
  foldl (λ m x, <[key x := x]> m) (∅ : gmap string A) l !! k =
  last (filter (λ x, key x = k) l).
Proof.
  induction l as [|x l IH] using rev_ind; [done|].
  rewrite foldl_app, filter_app. cbn [foldl]. rewrite lookup_insert, filter_cons, filter_nil.
  destruct (decide (key x = k)) as [Heq|Hne].
  - by rewrite last_snoc.
  - by rewrite app_nil_r.
Qed.

Lemma keyed_unique {A} (key : A → string) (l : list A) (x : A) :
  NoDup (key <$> l) → x ∈ l → filter (λ y, key y = key x) l = [x].
Proof.
  intros Hnd Hx. induction l as [|a l IH]; [by apply elem_of_nil in Hx|].
  rewrite fmap_cons in Hnd. apply NoDup_cons in Hnd as [Ha Hnd].
  rewrite filter_cons. apply elem_of_cons in Hx as [<-|Hx].
  - rewrite decide_True by done. f_equal.
    destruct (filter _ l) as [|b l'] eqn:E; [done|]. exfalso.
    assert (b ∈ filter (λ y, key y = key x) l) as Hb by (rewrite E; left).
    apply list_elem_of_filter in Hb as [Hid Hb]. apply Ha. rewrite <- Hid.
    apply list_elem_of_fmap. by exists b.
  - rewrite decide_False; [by apply IH|].
    intros Heq. apply Ha. rewrite Heq. apply list_elem_of_fmap. by exists x.
Qed.

Lemma keyed_lookup_unique {A} (key : A → string) (l : list A) (x : A) :
  NoDup (key <$> l) → x ∈ l →
  foldl (λ m x, <[key x := x]> m) (∅ : gmap string A) l !! key x = Some x.
Proof. intros Hnd Hx. by rewrite keyed_lookup, keyed_unique. Qed.

Lemma truthy_Some x tid :
  Validator.truthy x = Some tid ↔ x = Some tid ∧ tid ≠ EmptyString.
Proof.
  unfold Validator.truthy. destruct x as [s|]; [|by split; [|intros [? _]]].
  destruct (decide (s = EmptyString)) as [->|Hne].
  - split; [done|]. by intros [[= <-] ?].
  - split; [by intros [= <-]|]. by intros [[= <-] _].
Qed.

(** ** Lists of entries without a repetition *)

Lemma NoDup_bind_lookup {A B} (f : A → list B) (l : list A) :
  (∀ x, x ∈ l → NoDup (f x)) →
  (∀ i j x y e, i ≠ j → l !! i = Some x → l !! j = Some y → e ∈ f x → e ∉ f y) →
  NoDup (l ≫= f).
Proof.
  induction l as [|a l IH]; intros Hin Hout; [apply NoDup_nil_2|].
  cbn [mbind list_bind]. change (foldr _ _ _) with (f a ++ (l ≫= f)).
  apply NoDup_app. split; [apply Hin; by left|]. split.
  - intros e Ha (y & Hy & [j Hj]%list_elem_of_lookup)%list_elem_of_bind.
    by apply (Hout 0 (S j) a y e).
  - apply IH; [intros x Hx; apply Hin; by right|].
    intros i j x y e Hij Hi Hj. apply (Hout (S i) (S j)); [lia|done|done].
Qed.

Lemma oncePerDay_NoDup cfg ps : oncePerDay cfg ps → NoDup ps.
Proof.
  intros [_ Hinc]. apply NoDup_alt. intros i j p Hi Hj.
  destruct (Nat.lt_trichotomy i j) as [Hlt|[->|Hlt]]; [|done|].
  - pose proof (Hinc i j p p Hi Hj Hlt). lia.
  - pose proof (Hinc j i p p Hj Hi Hlt). lia.
Qed.

Lemma NoDup_pair_fmap {A B} (a : A) (l : list B) : NoDup l → NoDup (pair a <$> l).
Proof.
  intros Hnd. apply NoDup_fmap_2; [|done]. by intros x y [= ->].
Qed.

Lemma timetabled_teacherEntries input secs :
  timetabled input secs → NoDup (teacherEntries secs).
Proof.
  intros (Honce & Hfree & _). rewrite Forall_forall in Honce.
  apply NoDup_bind_lookup.
  - intros s Hs. destruct (Validator.truthy (teacherId s)); [|apply NoDup_nil_2].
    apply NoDup_pair_fmap. by eapply oncePerDay_NoDup, Honce.
  - intros i j s s' [tid p] Hij Hi Hj.
    destruct (Validator.truthy (teacherId s)) as [t|] eqn:Ht; [|by intros ?%elem_of_nil].
    intros (p1 & [= <- <-] & Hp)%list_elem_of_fmap.
    destruct (Validator.truthy (teacherId s')) as [t'|] eqn:Ht'; [|apply not_elem_of_nil].
    intros (p2 & [= <- <-] & Hp')%list_elem_of_fmap.
    by apply (Hfree i j s s' tid p).
Qed.

Lemma roomEntries_NoDup secs :
  Forall (λ s, NoDup (periods s)) secs → roomsFree secs → NoDup (roomEntries secs).
Proof.
  intros Hnd Hfree. rewrite Forall_forall in Hnd.
  apply NoDup_bind_lookup.
  - intros s Hs. destruct (Validator.truthy (roomId s)); [|apply NoDup_nil_2].
    by apply NoDup_pair_fmap, Hnd.
  - intros i j s s' [rid p] Hij Hi Hj.
    destruct (Validator.truthy (roomId s)) as [r|] eqn:Hr; [|by intros ?%elem_of_nil].
    intros (p1 & [= <- <-] & Hp)%list_elem_of_fmap.
    destruct (Validator.truthy (roomId s')) as [r'|] eqn:Hr'; [|apply not_elem_of_nil].
    intros (p2 & [= <- <-] & Hp')%list_elem_of_fmap.
    apply truthy_Some in Hr as [Hr _]. apply truthy_Some in Hr' as [Hr' _].
    by apply (Hfree i j s s' rid p).
Qed.

Lemma timetabled_periods input secs :
  timetabled input secs → Forall (λ s, NoDup (periods s)) secs.
Proof.
  intros [Honce _]. eapply Forall_impl; [exact Honce|]. intros s. apply oncePerDay_NoDup.
Qed.

Lemma timetabled_roomEntries input secs :
  timetabled input secs → NoDup (roomEntries secs).
Proof.
  intros Htable. apply roomEntries_NoDup; [by eapply timetabled_periods|].
  by destruct Htable as (_ & _ & _ & _ & ? & _).
Qed.

Lemma studentEntries_NoDup secs :
  Forall (λ s, NoDup (periods s)) secs →
  noOverlap secs → meetingDistinct secs → NoDup (studentEntries secs).
Proof.
  intros Honce Hno Hmeet. rewrite Forall_forall in Honce.
  apply NoDup_bind_lookup.
  - intros s Hs. destruct (periods s) as [|p0 ps] eqn:Hps.
    + assert (enrolledStudents s ≫= (λ sid, pair sid <$> @nil Period) = []) as ->;
        [|apply NoDup_nil_2].
      apply bind_nil. by apply Forall_forall.
    + rewrite <- Hps. apply NoDup_bind_lookup.
      * intros sid _. by apply NoDup_pair_fmap, Honce.
      * intros i j x y [sid p] Hij Hi Hj (p1 & [= <- <-] & Hp)%list_elem_of_fmap
               (p2 & [= <- <-] & _)%list_elem_of_fmap.
        assert (NoDup (enrolledStudents s)) as Hnd by (apply Hmeet; [done|congruence]).
        apply Hij. by eapply NoDup_lookup.
  - intros i j s s' [sid p] Hij Hi Hj
           (x & (p1 & [= <- <-] & Hp)%list_elem_of_fmap & Hx)%list_elem_of_bind
           (y & (p2 & [= <- <-] & Hp')%list_elem_of_fmap & Hy)%list_elem_of_bind.
    by apply (Hno i j s s' sid p).
Qed.

(** ** The checks on a timetable *)

Lemma timetabled_availability input secs :
  timetabled input secs →
  Validator.checkTeacherAvailability secs (Validator.buildTeacherMap (teachers input)) = [].
Proof.
  intros (_ & _ & Hseed & _). unfold Validator.checkTeacherAvailability.
  apply bind_nil, Forall_forall. intros s Hs.
  destruct (Validator.truthy (teacherId s)) as [tid|] eqn:Htid; [|done].
  unfold Validator.buildTeacherMap. rewrite keyed_lookup.
  destruct (last _) as [teacher|] eqn:Hlast; [|done].
  apply bind_nil, Forall_forall. intros p Hp.
  rewrite decide_False; [done|]. intros Hin.
  apply (Hseed s tid p Hs Htid Hp).
  assert (teacherSeed (teachers input) tid = list_to_set (Teacher.unavailable teacher)) as ->
    by exact (f_equal (from_option (λ t, list_to_set (Teacher.unavailable t)) ∅) Hlast).
  by apply elem_of_list_to_set.
Qed.

Lemma staffed_qualifications input secs :
  staffed input secs → NoDup (Teacher.id <$> teachers input) →
  Validator.checkTeacherQualifications secs (Validator.buildTeacherMap (teachers input)) = [].
Proof.
  intros Hqual Hnd. unfold Validator.checkTeacherQualifications.
  apply bind_nil, Forall_forall. intros s Hs.
  destruct (Validator.truthy (teacherId s)) as [tid|] eqn:Htid; [|done].
  apply truthy_Some in Htid as [Htid _].
  destruct (Hqual s tid Hs Htid) as (t & Ht & <- & Hsub).
  unfold Validator.buildTeacherMap. rewrite (keyed_lookup_unique Teacher.id) by done.
  by rewrite decide_True.
Qed.

Lemma housed_features input secs :
  housed input secs → NoDup (Room.id <$> rooms input) →
  Validator.checkRoomFeatures secs (buildCourseMap (courses input))
                              (Validator.buildRoomMap (rooms input)) = [].
Proof.
  intros Hroom Hnd. unfold Validator.checkRoomFeatures.
  apply bind_nil, Forall_forall. intros s Hs.
  destruct (Validator.truthy (roomId s)) as [rid|] eqn:Hrid; [|done].
  apply truthy_Some in Hrid as [Hrid _].
  destruct (Hroom s rid Hs Hrid) as (room & Hin & <- & _ & Hfeat).
  unfold courseFeatures in Hfeat.
  destruct (buildCourseMap (courses input) !! courseId s) as [course|]; [|done].
  destruct (decide _); [done|].
  unfold Validator.buildRoomMap. rewrite (keyed_lookup_unique Room.id) by done.
  rewrite decide_False; [done|].
  destruct (filter _ _) as [|f fs] eqn:Hf; [cbn; lia|]. exfalso.
  assert (f ∈ filter (λ f, f ∉ Room.features room) (Course.requiredFeatures course))
    as [Hnot Hreq]%list_elem_of_filter by (rewrite Hf; left).
  apply Hnot, Hfeat. done.
Qed.

Lemma housed_capacity input secs :
  housed input secs → NoDup (Room.id <$> rooms input) → withinCapacity secs →
  Validator.checkRoomCapacity secs (Validator.buildRoomMap (rooms input)) = [].
Proof.
  intros Hroom Hnd Hcap. unfold Validator.checkRoomCapacity.
  unfold withinCapacity in Hcap. rewrite Forall_forall in Hcap.
  apply bind_nil, Forall_forall. intros s Hs.
  destruct (Validator.truthy (roomId s)) as [rid|] eqn:Hrid; [|done].
  apply truthy_Some in Hrid as [Hrid _].
  destruct (Hroom s rid Hs Hrid) as (room & Hin & <- & Hle & _).
  unfold Validator.buildRoomMap. rewrite (keyed_lookup_unique Room.id) by done.
  rewrite decide_False; [done|]. pose proof (Hcap s Hs). lia.
Qed.

Lemma requested_grades input secs :
  onlyRequested input secs → NoDup (Student.id <$> students input) →
  Validator.checkGradeRestrictions secs (buildCourseMap (courses input))
                                   (Validator.buildStudentMap (students input)) = [].
Proof.
  intros Hreq Hnd. unfold Validator.checkGradeRestrictions.
  apply bind_nil, Forall_forall. intros s Hs.
  destruct (buildCourseMap (courses input) !! courseId s ≫= Course.gradeRestrictions)
    as [gradeRestrictions|] eqn:Hgr; [|done].
  rewrite decide_False; [done|].
  destruct (filter _ _) as [|sid l] eqn:Hf; [cbn; lia|]. exfalso.
  assert (sid ∈ filter (λ studentId,
                          Validator.invalidGrade (Validator.buildStudentMap (students input))
                                                 gradeRestrictions studentId = true)
                       (enrolledStudents s))
    as [Hbad Hsid]%list_elem_of_filter by (rewrite Hf; left).
  destruct (Hreq s sid Hs Hsid) as (student & course & Hstudent & <- & _ & Hcourse & Hgrade).
  rewrite Hcourse in Hgr. cbn in Hgr.
  unfold gradeExcluded in Hgrade. rewrite Hgr in Hgrade.
  unfold Validator.invalidGrade, Validator.buildStudentMap in Hbad.
  rewrite (keyed_lookup_unique Student.id) in Hbad by done. congruence.
Qed.

Lemma timetabled_fixed input secs secs' :
  fixedPart <$> secs' = fixedPart <$> secs → timetabled input secs → timetabled input secs'.
Proof.
  intros Hfix (Honce & Hteach & Hseed & Hqual & Hrooms & Hroom).
  assert (∀ i s', secs' !! i = Some s' →
            ∃ s, secs !! i = Some s ∧ teacherId s = teacherId s' ∧ roomId s = roomId s' ∧
                 periods s = periods s' ∧ courseId s = courseId s' ∧
                 capacity s = capacity s') as Hback.
  { intros i s' Hs'. destruct (fixedPart_lookup _ _ _ _ Hfix Hs') as (s & Hs & Heq).
    exists s. split; [done|]. unfold fixedPart in Heq. by simplify_eq. }
  assert (∀ s', s' ∈ secs' →
            ∃ s, s ∈ secs ∧ teacherId s = teacherId s' ∧ roomId s = roomId s' ∧
                 periods s = periods s' ∧ courseId s = courseId s' ∧
                 capacity s = capacity s') as Hback'.
  { intros s' [i Hi]%list_elem_of_lookup. destruct (Hback i s' Hi) as (s & Hs & ?).
    exists s. split; [by eapply list_elem_of_lookup_2|done]. }
  rewrite Forall_forall in Honce.
  split; [|split; [|split; [|split; [|split]]]].
  - apply Forall_forall. intros s' (s & Hs & _ & _ & <- & _)%Hback'. by apply Honce.
  - intros i j s1' s2' tid p Hij (s1 & Hs1 & Ht1 & _ & Hp1 & _)%Hback
           (s2 & Hs2 & Ht2 & _ & Hp2 & _)%Hback.
    rewrite <- Ht1, <- Ht2, <- Hp1, <- Hp2. by apply (Hteach i j s1 s2 tid p).
  - intros s' tid p (s & Hs & Ht & _ & Hp & _)%Hback'. rewrite <- Ht, <- Hp. by apply Hseed.
  - intros s' tid (s & Hs & Ht & _ & _ & Hc & _)%Hback'. rewrite <- Ht, <- Hc. by apply Hqual.
  - intros i j s1' s2' rid p Hij (s1 & Hs1 & _ & Hr1 & Hp1 & _)%Hback
           (s2 & Hs2 & _ & Hr2 & Hp2 & _)%Hback.
    rewrite <- Hr1, <- Hr2, <- Hp1, <- Hp2. by apply (Hrooms i j s1 s2 rid p).
  - intros s' rid (s & Hs & _ & Hr & _ & Hc & Hcap)%Hback'.
    rewrite <- Hr, <- Hc, <- Hcap. by apply Hroom.
Qed.

(** ** The first three phases of the command-line engine *)

Lemma timetable_spec input :
  ∃ secs, Cli.timetable input = Some secs ∧
          Forall (λ s, enrolledStudents s = []) secs ∧ timetabled input secs.
Proof.
  unfold Cli.timetable.
  set (secs1 := createSections (courses input) (teachers input)).
  set (secs2 := Legacy.assignTimeSlots secs1 (teachers input) (config input)).
  destruct (legacy_assignTimeSlots_spec (teachers input) (config input) secs1
              (createSections_no_periods _ _)) as (Hlen & [Hfree Hun] & Honce & Hrot).
  fold secs2 in Hlen, Hfree, Hun, Honce, Hrot.
  assert (∀ i s2, secs2 !! i = Some s2 →
            ∃ s1 ps, secs1 !! i = Some s1 ∧ s2 = pushPeriods ps s1) as Hback2.
  { intros i s2 Hs2. pose proof (lookup_lt_Some _ _ _ Hs2) as Hlt. rewrite Hlen in Hlt.
    destruct (lookup_lt_is_Some_2 secs1 i Hlt) as [s1 Hs1].
    destruct (Hrot i s1 Hs1) as (s' & Hs' & ps & -> & _).
    rewrite Hs2 in Hs'. injection Hs' as ->. by exists s1, ps. }
  assert (Forall (λ s, roomId s = None ∧ enrolledStudents s = []) secs2) as Hbare.
  { apply Forall_lookup. intros i s2 Hs2. destruct (Hback2 i s2 Hs2) as (s1 & ps & Hs1 & ->).
    pose proof (createSections_unfurnished (courses input) (teachers input)) as Hun1.
    rewrite Forall_lookup in Hun1. destruct (Hun1 i s1 Hs1) as (? & _ & ?). by split. }
  destruct (assignRoomsFrom_spec (rooms input) (buildCourseMap (courses input)) secs2
              (initRoomSchedules (rooms input)))
    as (secs3 & rs & Hrun & Hroomed & _);
    [apply initRoomSchedules_dom|by eapply Forall_impl; [exact Hbare|]; intros ? [? _]|].
  assert (assignRooms secs2 (rooms input) (buildCourseMap (courses input)) = Some secs3)
    as Hrooms by (unfold assignRooms; by rewrite Hrun).
  exists secs3. split; [done|].
  destruct (assignRooms_sound _ _ _ _
              ltac:(by eapply Forall_impl; [exact Hbare|]; intros ? [? _]) Hrooms)
    as [Hroomsfree Hroom].
  assert (∀ i s3, secs3 !! i = Some s3 →
            ∃ s1 s2, secs1 !! i = Some s1 ∧ secs2 !! i = Some s2 ∧
                     teacherId s3 = teacherId s2 ∧ teacherId s2 = teacherId s1 ∧
                     courseId s3 = courseId s1 ∧ periods s3 = periods s2 ∧
                     enrolledStudents s3 = []) as Hback.
  { intros i s3 Hs3. destruct (Forall2_lookup_r _ _ _ _ _ Hroomed Hs3) as (s2 & Hs2 & Hr).
    destruct (Hback2 i s2 Hs2) as (s1 & ps & Hs1 & ->).
    rewrite Forall_lookup in Hbare. destruct (Hbare i _ Hs2) as [_ He].
    exists s1, (pushPeriods ps s1). destruct Hr as [->|[r ->]]; by repeat split. }
  assert (∀ i s3 tid, secs3 !! i = Some s3 → Validator.truthy (teacherId s3) = Some tid →
            ∃ s2, secs2 !! i = Some s2 ∧ periods s3 = periods s2 ∧
                  scheduledTeacher (teachers input) s2 = Some tid) as Hsched.
  { intros i s3 tid Hs3 [Ht Hne]%truthy_Some.
    destruct (Hback i s3 Hs3) as (s1 & s2 & Hs1 & Hs2 & Ht32 & Ht21 & _ & Hp & _).
    exists s2. split; [done|]. split; [done|].
    unfold scheduledTeacher. rewrite <- Ht32, Ht, decide_False by done.
    rewrite decide_True; [done|].
    apply (createSections_teacher_known (courses input) (teachers input) s1);
      [by eapply list_elem_of_lookup_2|by rewrite <- Ht21, <- Ht32]. }
  split.
  { apply Forall_lookup. intros i s3 Hs3. by destruct (Hback i s3 Hs3) as (? & ? & ? & ? & ? & ? & ? & ? & ?). }
  split; [|split; [|split; [|split; [|split]]]]; [| | | |done|].
  - apply Forall_lookup. intros i s3 Hs3.
    destruct (Hback i s3 Hs3) as (s1 & s2 & _ & Hs2 & _ & _ & _ & -> & _).
    rewrite Forall_lookup in Honce. by apply (Honce i).
  - intros i j s s' tid p Hij Hi Hj Ht Ht'.
    destruct (Hsched i s tid Hi Ht) as (s2 & Hs2 & -> & Hsch).
    destruct (Hsched j s' tid Hj Ht') as (s2' & Hs2' & -> & Hsch').
    by apply (Hfree i j s2 s2' tid p).
  - intros s tid p [i Hi]%list_elem_of_lookup Ht.
    destruct (Hsched i s tid Hi Ht) as (s2 & Hs2 & -> & Hsch).
    apply (Hun s2 tid p); [by eapply list_elem_of_lookup_2|done].
  - intros s tid [i Hi]%list_elem_of_lookup Ht.
    destruct (Hback i s Hi) as (s1 & s2 & Hs1 & _ & Ht32 & Ht21 & -> & _).
    unfold secs1, createSections in Hs1.
    destruct (createSectionsFrom_new (teachers input) (courses input) ([], ∅))
      as (new & Hnew & _ & Hall).
    rewrite Hnew in Hs1. cbn in Hs1.
    destruct (Hall s1) as [_ Hteacher]; [by eapply list_elem_of_lookup_2|].
    apply Hteacher. by rewrite <- Ht21, <- Ht32.
  - intros s rid Hs Hrid. by destruct (Hroom s rid Hs Hrid) as [_ ?].
Qed.

(** ** The greedy assignment of the command-line engine *)

Lemma assignStudentToSection_meeting sid cid secs scheds b secs' scheds' :
  consistent secs scheds ∧ meetingDistinct secs →
  assignStudentToSection sid cid secs scheds = Some (b, secs', scheds') →
  consistent secs' scheds' ∧ meetingDistinct secs'.
Proof.
  intros [Hcons Hdist] Hrun.
  split; [by eapply assignStudentToSection_consistent|].
  destruct (scheds !! sid) as [sched|] eqn:Hsched;
    [|by unfold assignStudentToSection in Hrun; rewrite Hsched in Hrun].
  destruct (assignStudentToSection_cases sid cid secs scheds sched Hsched)
    as [(i & s & Hs & _ & _ & Hfree & Heq)|Heq];
    rewrite Heq in Hrun; injection Hrun as <- <- <-; [|done].
  intros s' [->|Hs']%list_elem_of_insert_inv; [|by apply Hdist].
  cbn. intros Hp. apply NoDup_app. split; [apply Hdist; [by eapply list_elem_of_lookup_2|done]|].
  split; [|apply NoDup_singleton].
  intros x Hx ->%list_elem_of_singleton.
  assert (∃ p, p ∈ periods s) as [p Hpin].
  { destruct (periods s) as [|p ps]; [done|]. exists p. left. }
  rewrite hasConflict_false in Hfree. apply (Hfree p Hpin).
  destruct Hcons as [Hcov _].
  destruct (Hcov i s sid p Hs Hx Hpin) as (sched' & Hs' & Hps). congruence.
Qed.

Lemma assignStudentToSection_requested input student cid course secs scheds b secs' scheds' :
  student ∈ students input →
  cid ∈ Student.requiredCourses student ∨ cid ∈ Student.electivePreferences student →
  buildCourseMap (courses input) !! cid = Some course →
  gradeExcluded course (Student.grade student) = false →
  onlyRequested input secs →
  assignStudentToSection (Student.id student) cid secs scheds = Some (b, secs', scheds') →
  onlyRequested input secs'.
Proof.
  intros Hstudent Hcid Hcourse Hgrade Hreq Hrun.
  destruct (scheds !! Student.id student) as [sched|] eqn:Hsched;
    [|by unfold assignStudentToSection in Hrun; rewrite Hsched in Hrun].
  destruct (assignStudentToSection_cases _ cid secs scheds sched Hsched)
    as [(i & s & Hs & Hc & _ & _ & Heq)|Heq];
    rewrite Heq in Hrun; injection Hrun as <- <- <-; [|done].
  intros s' x Hs' Hx. apply list_elem_of_insert_inv in Hs' as [->|Hs']; [|by apply Hreq].
  cbn in Hx. cbn. apply elem_of_app in Hx as [Hx| ->%list_elem_of_singleton].
  - by apply (Hreq s); [eapply list_elem_of_lookup_2|].
  - rewrite Hc. by exists student, course.
Qed.

Lemma oneMove_meeting st st' :
  oneMove st st' →
  consistent (o_sections st) (o_schedules st) ∧ meetingDistinct (o_sections st) →
  consistent (o_sections st') (o_schedules st') ∧ meetingDistinct (o_sections st').
Proof.
  intros (smallest & largest & sm & lg & sid & b & Hsm & Hlg & Hcourse & Hdiff & Hin &
          Hrun & Hsecs) [Hcons Hdist].
  assert (smallest ≠ largest) as Hne.
  { intros ->. rewrite Hsm in Hlg. injection Hlg as ->. lia. }
  assert (consistent (o_sections st') (o_schedules st')) as Hcons'.
  { destruct (o_schedules st !! sid) as [sched|] eqn:Hsched;
      [|by unfold tryMove in Hrun; rewrite Hsched in Hrun].
    destruct (tryMove_core smallest largest sm lg st sid sched Hcons Hsm Hlg Hne Hin Hsched)
      as (b0 & st0 & Hrun0 & Hc & _).
    rewrite Hrun in Hrun0. by injection Hrun0 as <- <-. }
  split; [done|]. rewrite Hsecs.
  destruct b; [|done].
  intros s [i Hi]%list_elem_of_lookup. unfold moveStudent in Hi.
  rewrite list_lookup_alter in Hi. destruct (decide (smallest = i)) as [<-|Hi1].
  - rewrite list_lookup_alter_ne, Hsm in Hi by done. injection Hi as <-.
    cbn. intros Hp. apply NoDup_app.
    split; [apply Hdist; [by eapply list_elem_of_lookup_2|done]|].
    split; [|apply NoDup_singleton]. intros x Hinsm ->%list_elem_of_singleton.
    destruct (tryMove_commit_free _ _ _ _ _ _ _ Hrun) as (sched & Hsched & Hfree & _).
    rewrite hasConflict_false in Hfree.
    destruct Hcons as [Hcov Hno].
    assert (∃ p, p ∈ periods sm) as [p Hpin].
    { destruct (periods sm) as [|p ps]; [done|]. exists p. left. }
    apply (Hfree p Hpin).
    apply elem_of_difference. split.
    + destruct (Hcov smallest sm sid p Hsm Hinsm Hpin) as (sched' & Hs' & Hps). congruence.
    + rewrite elem_of_list_to_set.
      by apply (Hno smallest largest sm lg sid p Hne Hsm Hlg Hinsm Hin).
  - rewrite list_lookup_alter in Hi. destruct (decide (largest = i)) as [<-|Hi2].
    + rewrite Hlg in Hi. injection Hi as <-. cbn. intros Hp. apply NoDup_filter.
      apply Hdist; [by eapply list_elem_of_lookup_2|done].
    + apply Hdist. by eapply list_elem_of_lookup_2.
Qed.

Lemma moves_meeting st st' :
  rtc oneMove st st' →
  consistent (o_sections st) (o_schedules st) ∧ meetingDistinct (o_sections st) →
  consistent (o_sections st') (o_schedules st') ∧ meetingDistinct (o_sections st').
Proof.
  induction 1 as [|st st1 st2 Hmove _ IH]; [done|].
  intros H. by apply IH, (oneMove_meeting st).
Qed.

Lemma cli_greedy input secs :
  Forall (λ s, enrolledStudents s = []) secs →
  ∃ secs' unassigned,
    Cli.runGreedyAssignment secs input (buildCourseMap (courses input)) [] =
      Some (secs', unassigned) ∧
    fixedPart <$> secs' = fixedPart <$> secs ∧
    noOverlap secs' ∧ meetingDistinct secs' ∧ withinCapacity secs' ∧
    onlyRequested input secs'.
Proof.
  intros Hempty. unfold Cli.runGreedyAssignment.
  set (courseMap := buildCourseMap (courses input)).
  destruct (runGreedyAssignment_inv secs input courseMap [] Hempty)
    as (g & Hg & Hknown & Hcons & Hfrom & Hfix).
  rewrite Hg. cbn [mbind option_bind].
  assert ((consistent (g_sections g) (g_schedules g) ∧ meetingDistinct (g_sections g)) ∧
          withinCapacity (g_sections g) ∧ onlyRequested input (g_sections g))
    as ([_ Hmeet] & Hcap & Hreq).
  { apply (runGreedyAssignment_preserves_requests
             (λ secs scheds, (consistent secs scheds ∧ meetingDistinct secs) ∧
                             withinCapacity secs ∧ onlyRequested input secs)
             secs input courseMap [] g); [| |done].
    - intros student cid course secs0 scheds b secs' scheds' Hstudent Hcid Hcourse Hgrade
             (Hcm & Hc & Hr) Hrun.
      split; [by eapply assignStudentToSection_meeting|].
      split; [by eapply assignStudentToSection_capacity|].
      by eapply assignStudentToSection_requested.
    - rewrite Forall_forall in Hempty. split; [split|split].
      + by apply consistent_unenrolled, Forall_forall.
      + intros s Hs _. rewrite (Hempty s Hs). apply NoDup_nil_2.
      + apply Forall_forall. intros s Hs. rewrite (Hempty s Hs). cbn. lia.
      + intros s sid Hs Hsid. rewrite (Hempty s Hs) in Hsid. by apply elem_of_nil in Hsid. }
  unfold optimizeSections.
  destruct (optimizeLoop_inv (fixedPart <$> secs) 500 (sectionsByCourse (g_sections g))
              (mkOpt (g_sections g) (g_schedules g)))
    as (k & o & Hloop & Hcons' & _ & Hfix').
  { split; [done|]. split; [|done]. intros s sid Hs Hsid. cbn.
    destruct (proj1 (list_elem_of_fmap _ _ _) (Hfrom s sid Hs Hsid))
      as (student & -> & Hstudent).
    by apply Hknown. }
  rewrite Hloop. cbn [mbind option_bind].
  exists (o_sections o), (g_unassigned g). split; [done|]. split; [done|].
  apply optimizeLoop_moves in Hloop; [|apply sectionsByCourse_groupsOK].
  destruct (moves_meeting _ _ Hloop) as [[_ Hno] Hmeet']; [done|].
  split; [done|]. split; [done|].
  split; [by apply (moves_capacity _ _ Hloop) | by apply (moves_requested _ _ _ Hloop)].
Qed.

(** ** The schedule of the command-line engine *)

Lemma assignStudents_spec solve clock input useILP secs :
  Forall (λ s, enrolledStudents s = []) secs →
  ∃ secs' unassigned algorithm objective,
    Cli.assignStudents solve clock input useILP secs =
      Some (secs', unassigned, algorithm, objective) ∧
    fixedPart <$> secs' = fixedPart <$> secs ∧
    (useILP = false → algorithm = "greedy") ∧
    (algorithm = "greedy" →
     noOverlap secs' ∧ meetingDistinct secs' ∧ withinCapacity secs' ∧
     onlyRequested input secs').
Proof.
  intros Hempty. unfold Cli.assignStudents.
  destruct (cli_greedy input secs Hempty) as (secs' & un & Hrun & Hfix & Hgreedy).
  assert (∃ secs' unassigned algorithm objective,
            ('(secs, unassigned) ←
               Cli.runGreedyAssignment secs input (buildCourseMap (courses input)) [];
             Some (secs, unassigned, "greedy", 0%Q)) =
              Some (secs', unassigned, algorithm, objective) ∧
            fixedPart <$> secs' = fixedPart <$> secs ∧
            (useILP = false → algorithm = "greedy") ∧
            (algorithm = "greedy" →
             noOverlap secs' ∧ meetingDistinct secs' ∧ withinCapacity secs' ∧
             onlyRequested input secs')) as Hfallback.
  { rewrite Hrun. cbn. by exists secs', un, "greedy", 0%Q. }
  destruct useILP; [|done].
  destruct (ILP.solveScheduleILP solve clock secs input) as [ilpResult|]; [|done].
  destruct (ILP.success ilpResult); [|done].
  destruct (Cli.applyILPAssignments secs (ILP.assignments ilpResult) (students input)
              (buildCourseMap (courses input)) []) as [secs1 un1] eqn:Happly.
  exists secs1, un1, "ilp-highs", (ILP.objectiveValue ilpResult).
  split; [done|]. split; [|split; [done|done]].
  destruct (applyILPAssignments_sections secs (ILP.assignments ilpResult) (students input)
              (buildCourseMap (courses input)) []) as [Hfix1 _].
  by rewrite Happly in Hfix1.
Qed.

Lemma generateSchedule_spec solve clock input options :
  ∃ schedule,
    Cli.generateSchedule solve clock input options = Some schedule ∧
    timetabled (Cli.data input) (Cli.sections schedule) ∧
    (Cli.useILP options = Some false → Cli.algorithm (Cli.metadata schedule) = "greedy") ∧
    (Cli.algorithm (Cli.metadata schedule) = "greedy" →
     noOverlap (Cli.sections schedule) ∧ meetingDistinct (Cli.sections schedule) ∧
     withinCapacity (Cli.sections schedule) ∧
     onlyRequested (Cli.data input) (Cli.sections schedule)).
Proof.
  unfold Cli.generateSchedule.
  destruct (timetable_spec (Cli.data input)) as (secs & -> & Hempty & Htable).
  cbn [mbind option_bind].
  destruct (assignStudents_spec solve clock (Cli.data input)
              (default true (Cli.useILP options)) secs Hempty)
    as (secs' & un & alg & obj & -> & Hfix & Huse & Hgreedy).
  cbn [mbind option_bind]. eexists. split; [done|]. cbn.
  split; [by apply (timetabled_fixed _ secs)|]. split; [|done].
  intros Hopt. apply Huse. by rewrite Hopt.
Qed.

(** X20. Whatever the solver answers, the command-line engine returns a
    schedule, and the validator finds no teacher conflict, no room conflict
    and no teacher assigned at an unavailable period in it. *)
Theorem cli_schedule_passes_timetable_checks
    (solve : string → option ILP.Solution) (clock : Clock) (input : Cli.Input)
    (options : Cli.Options) :
  ∃ schedule,
    Cli.generateSchedule solve clock input options = Some schedule ∧
    Validator.checkTeacherConflicts (Cli.sections schedule) = [] ∧
    Validator.checkRoomConflicts (Cli.sections schedule) = [] ∧
    Validator.checkTeacherAvailability
      (Cli.sections schedule)
      (Validator.buildTeacherMap (teachers (Cli.data input))) = [].
Proof.
  destruct (generateSchedule_spec solve clock input options) as (schedule & Hrun & Htable & _).
  exists schedule. split; [done|]. split; [|split].
  - by eapply checkTeacherConflicts_nil, timetabled_teacherEntries.
  - by eapply checkRoomConflicts_nil, timetabled_roomEntries.
  - by apply timetabled_availability.
Qed.

(** X21. If the teachers of the input have distinct ids and the rooms have
    distinct ids, then, whatever the solver answers, the validator finds
    every teacher of the schedule of the command-line engine qualified for
    the course of their section, and every room equipped with the features
    the course of its section requires. *)
Theorem cli_schedule_passes_resource_checks
    (solve : string → option ILP.Solution) (clock : Clock) (input : Cli.Input)
    (options : Cli.Options) :
  NoDup (Teacher.id <$> teachers (Cli.data input)) →
  NoDup (Room.id <$> rooms (Cli.data input)) →
  ∃ schedule,
    Cli.generateSchedule solve clock input options = Some schedule ∧
    Validator.checkTeacherQualifications
      (Cli.sections schedule)
      (Validator.buildTeacherMap (teachers (Cli.data input))) = [] ∧
    Validator.checkRoomFeatures
      (Cli.sections schedule)
      (buildCourseMap (courses (Cli.data input)))
      (Validator.buildRoomMap (rooms (Cli.data input))) = [].
Proof.
  intros Hteachers Hrooms.
  destruct (generateSchedule_spec solve clock input options) as (schedule & Hrun & Htable & _).
  exists schedule. split; [done|].
  destruct Htable as (_ & _ & _ & Hstaffed & _ & Hhoused).
  split; [by apply staffed_qualifications|by apply housed_features].
Qed.

Lemma cli_schedule_passes_resource_checks_witness :
  ∃ schedule,
    Cli.generateSchedule noSolver Examples.noon seniorsCli greedyOnly = Some schedule ∧
    Validator.checkTeacherQualifications
      (Cli.sections schedule)
      (Validator.buildTeacherMap (teachers (Cli.data seniorsCli))) = [] ∧
    Validator.checkRoomFeatures
      (Cli.sections schedule)
      (buildCourseMap (courses (Cli.data seniorsCli)))
      (Validator.buildRoomMap (rooms (Cli.data seniorsCli))) = [].
Proof.
  apply (cli_schedule_passes_resource_checks noSolver Examples.noon seniorsCli greedyOnly).
  - apply (bool_decide_unpack _). vm_compute. exact I.
  - apply (bool_decide_unpack _). vm_compute. exact I.
Defined.

(** X22. If the teachers, the rooms and the students of the input have
    distinct ids, the validator certifies the schedule the command-line
    engine makes by its greedy assignment: [validateSchedule] reports it
    valid, with no hard violation.  The greedy assignment is what the engine
    uses when the option [useILP] is false (and when the solver fails or
    finds no solution). *)
Theorem cli_greedy_schedule_is_valid
    (solve : string → option ILP.Solution) (clock : Clock) (input : Cli.Input)
    (options : Cli.Options) :
  distinctIds (Cli.data input) →
  ∃ schedule,
    Cli.generateSchedule solve clock input options = Some schedule ∧
    (Cli.useILP options = Some false → Cli.algorithm (Cli.metadata schedule) = "greedy") ∧
    (Cli.algorithm (Cli.metadata schedule) = "greedy" →
     let result := Validator.validateSchedule (Cli.sections schedule)
                                              (Cli.unassignedStudents schedule)
                                              (Cli.data input) in
     Validator.valid result = true ∧ Validator.hardConstraintViolations result = []).
Proof.
  intros (Hteachers & Hrooms & Hstudents).
  destruct (generateSchedule_spec solve clock input options)
    as (schedule & Hrun & Htable & Huse & Hgreedy).
  exists schedule. split; [done|]. split; [done|].
  intros (Hno & Hmeet & Hcap & Hreq)%Hgreedy. cbv zeta.
  assert (Validator.hardViolations (Cli.sections schedule) (Cli.data input) = []) as Hnil.
  { unfold Validator.hardViolations.
    rewrite (proj2 (checkTeacherConflicts_nil _) (timetabled_teacherEntries _ _ Htable)).
    rewrite (proj2 (checkStudentConflicts_nil _)
               (studentEntries_NoDup _ (timetabled_periods _ _ Htable) Hno Hmeet)).
    rewrite (proj2 (checkRoomConflicts_nil _) (timetabled_roomEntries _ _ Htable)).
    rewrite (timetabled_availability _ _ Htable).
    destruct Htable as (_ & _ & _ & Hstaffed & _ & Hhoused).
    rewrite (housed_capacity _ _ Hhoused Hrooms Hcap).
    rewrite (housed_features _ _ Hhoused Hrooms).
    rewrite (requested_grades _ _ Hreq Hstudents).
    by rewrite (staffed_qualifications _ _ Hstaffed Hteachers). }
  unfold Validator.validateSchedule. cbn [Validator.valid Validator.hardConstraintViolations].
  by rewrite Hnil.
Qed.

Lemma cli_greedy_schedule_is_valid_witness :
  ∃ schedule,
    Cli.generateSchedule noSolver Examples.noon seniorsCli greedyOnly = Some schedule ∧
    (Cli.useILP greedyOnly = Some false → Cli.algorithm (Cli.metadata schedule) = "greedy") ∧
    (Cli.algorithm (Cli.metadata schedule) = "greedy" →
     let result := Validator.validateSchedule (Cli.sections schedule)
                                              (Cli.unassignedStudents schedule)
                                              (Cli.data seniorsCli) in
     Validator.valid result = true ∧ Validator.hardConstraintViolations result = []).
Proof.
  apply (cli_greedy_schedule_is_valid noSolver Examples.noon seniorsCli greedyOnly).
  repeat split; apply (bool_decide_unpack _); vm_compute; exact I.
Defined.

(** ** The soft checks *)

Lemma studentEnrollments_spec secs sid cid :
  cid ∈ default ∅ (Validator.studentEnrollments secs !! sid) ↔ enrolledIn secs sid cid.
Proof.
  unfold Validator.studentEnrollments.
  assert (∀ section l (m : gmap StudentId (gset CourseId)),
            cid ∈ default ∅ (foldl (λ m studentId,
                                      <[studentId := default ∅ (m !! studentId) ∪
                                                     {[courseId section]}]> m) m l !! sid) ↔
            cid ∈ default ∅ (m !! sid) ∨ (sid ∈ l ∧ courseId section = cid)) as Hinner.
  { intros section l. induction l as [|x l IH]; intros m; cbn [foldl].
    { split; [by left|]. by intros [?|[?%elem_of_nil _]]. }
    rewrite IH, elem_of_cons. destruct (decide (sid = x)) as [->|Hne].
    - rewrite lookup_insert_eq. cbn. rewrite elem_of_union, elem_of_singleton. naive_solver.
    - rewrite lookup_insert_ne by done. naive_solver. }
  enough (∀ (m : gmap StudentId (gset CourseId)),
            cid ∈ default ∅ (foldl (λ m section,
                                      foldl (λ m studentId,
                                               <[studentId := default ∅ (m !! studentId) ∪
                                                              {[courseId section]}]> m)
                                            m (enrolledStudents section)) m secs !! sid) ↔
            cid ∈ default ∅ (m !! sid) ∨ enrolledIn secs sid cid) as H.
  { rewrite H, lookup_empty. cbn. split; [by intros [?%elem_of_empty|?]|by right]. }
  induction secs as [|s secs IH]; intros m; cbn [foldl].
  { split; [by left|]. by intros [?|(? & ?%elem_of_nil & _)]. }
  rewrite IH, Hinner. unfold enrolledIn. split.
  - intros [[?|[? ?]]|(s' & Hs' & ? & ?)]; [by left| |].
    + right. exists s. split; [by left|done].
    + right. exists s'. split; [by right|done].
  - intros [?|(s' & [->|Hs']%elem_of_cons & ? & ?)]; [by left; left|by left; right|].
    right. by exists s'.
Qed.

Lemma spread_within (sizes : list nat) (d : nat) :
  Validator.maxOf sizes - Validator.minOf sizes ≤ d ↔
  ∀ x y, x ∈ sizes → y ∈ sizes → x ≤ y + d.
Proof.
  unfold Validator.minOf, Validator.maxOf.
  pose proof (foldr_min_le sizes (foldr Nat.max 0 sizes)) as [Hle Hmin].
  split.
  - intros H x y Hx Hy. pose proof (foldr_max_ge sizes x Hx). pose proof (Hmin y Hy). lia.
  - intros H.
    enough (foldr Nat.max 0 sizes ≤ foldr Nat.min (foldr Nat.max 0 sizes) sizes + d) by lia.
    apply foldr_max_le. intros x Hx.
    enough (x - d ≤ foldr Nat.min (foldr Nat.max 0 sizes) sizes) by lia.
    apply foldr_min_ge; [pose proof (foldr_max_ge sizes x Hx); lia|].
    intros y Hy. pose proof (H x y Hx Hy). lia.
Qed.

Lemma checkBalancedSections_nil secs :
  Validator.checkBalancedSections secs = [] ↔
  ∀ i j a b, secs !! i = Some a → secs !! j = Some b → courseId a = courseId b →
             length (enrolledStudents a) ≤ length (enrolledStudents b) + 5.
Proof.
  unfold Validator.checkBalancedSections. rewrite bind_nil, Forall_forall. split.
  - intros Hall i j a b Hi Hj Hc.
    destruct (decide (i = j)) as [->|Hne]; [rewrite Hi in Hj; injection Hj as ->; lia|].
    set (cid := courseId a).
    assert ((cid, courseSectionIdxs secs cid) ∈ sectionsByCourse secs) as Hg.
    { rewrite sectionsByCourse_spec. apply list_elem_of_fmap.
      exists cid. split; [done|]. apply firstOccurrences_elem.
      apply list_elem_of_fmap. exists a. split; [done|]. by eapply list_elem_of_lookup_2. }
    assert (i ∈ courseSectionIdxs secs cid) as Hi'
      by (apply courseSectionIdxs_elem; by rewrite Hi).
    assert (j ∈ courseSectionIdxs secs cid) as Hj'
      by (apply courseSectionIdxs_elem; rewrite Hj; cbn; by rewrite <- Hc).
    assert (2 ≤ length (courseSectionIdxs secs cid)) as Hlen.
    { destruct (courseSectionIdxs secs cid) as [|x [|y l]]; cbn; [| |lia].
      - by apply elem_of_nil in Hi'.
      - apply list_elem_of_singleton in Hi', Hj'. congruence. }
    pose proof (Hall _ Hg) as Hz. cbn in Hz.
    rewrite decide_False in Hz by lia.
    destruct (decide (5 < _)) as [|Hdiff] in Hz; [done|].
    assert (Validator.maxOf (enrolledCount secs <$> courseSectionIdxs secs cid) -
            Validator.minOf (enrolledCount secs <$> courseSectionIdxs secs cid) ≤ 5)
      as Hspread by lia.
    rewrite spread_within in Hspread.
    rewrite <- (enrolledCount_lookup _ _ _ Hi), <- (enrolledCount_lookup _ _ _ Hj).
    apply Hspread; by apply list_elem_of_fmap_2.
  - intros Hall [cid group] Hg. destruct (decide (length group < 2)); [done|].
    cbv zeta. rewrite decide_False; [done|].
    enough (Validator.maxOf (enrolledCount secs <$> group) -
            Validator.minOf (enrolledCount secs <$> group) ≤ 5) by lia.
    apply spread_within.
    intros x y (i & -> & Hi)%list_elem_of_fmap (j & -> & Hj)%list_elem_of_fmap.
    pose proof (sectionsByCourse_group _ _ _ _ Hg Hi) as Hci.
    pose proof (sectionsByCourse_group _ _ _ _ Hg Hj) as Hcj.
    destruct (secs !! i) as [a|] eqn:Hsi; [|done].
    destruct (secs !! j) as [b|] eqn:Hsj; [|done].
    rewrite (enrolledCount_lookup _ _ _ Hsi), (enrolledCount_lookup _ _ _ Hsj).
    apply (Hall i j); [done..|]. cbn in Hci, Hcj. congruence.
Qed.

Lemma checkMissingRequiredCourses_nil secs sts :
  Validator.checkMissingRequiredCourses secs sts = [] ↔
  ∀ student cid, student ∈ sts → cid ∈ Student.requiredCourses student →
                 enrolledIn secs (Student.id student) cid.
Proof.
  unfold Validator.checkMissingRequiredCourses. cbv zeta.
  set (missing := λ student : Student.t,
         filter (λ c, c ∉ default ∅ (Validator.studentEnrollments secs !! Student.id student))
                (Student.requiredCourses student)).
  set (step := λ '(totalMissing, studentsWithMissing) student,
         if decide (0 < length (missing student))
         then (totalMissing + length (missing student),
               studentsWithMissing ++ [Student.id student])
         else (totalMissing, studentsWithMissing)).
  assert (∀ l acc, (foldl step acc l).1 = acc.1 + sum_list ((length ∘ missing) <$> l))
    as Hsum.
  { induction l as [|x l IH]; intros [n w]; cbn [foldl]; [cbn; lia|].
    rewrite IH. cbn. destruct (decide _); cbn; lia. }
  change (foldl _ (0, []) sts) with (foldl step (0, []) sts).
  pose proof (Hsum sts (0, [])) as Htotal.
  destruct (foldl step (0, []) sts) as [total w]. cbn in Htotal.
  assert (total = 0 ↔ ∀ student, student ∈ sts → missing student = []) as Hzero.
  { rewrite Htotal. clear. induction sts as [|x l IH]; cbn.
    - split; [by intros _ ? ?%elem_of_nil|done].
    - split.
      + intros H student [->|Hin]%elem_of_cons.
        * destruct (missing x); [done|cbn in H; lia].
        * apply IH; [lia|done].
      + intros H. rewrite (H x) by left. cbn. apply IH. intros s Hs. apply H. by right. }
  split.
  - intros Hnil student cid Hstudent Hcid.
    destruct (decide (0 < total)) as [|Hz] in Hnil; [done|].
    assert (total = 0) as Ht by lia. rewrite Hzero in Ht.
    apply studentEnrollments_spec.
    destruct (decide (cid ∈ default ∅ (Validator.studentEnrollments secs !!
                                         Student.id student))) as [|Hnot]; [done|].
    exfalso. assert (cid ∈ missing student) as Hin by (by apply list_elem_of_filter).
    rewrite (Ht student Hstudent) in Hin. by apply elem_of_nil in Hin.
  - intros Hall. rewrite decide_False; [done|].
    enough (total = 0) by lia. apply Hzero. intros student Hstudent.
    destruct (missing student) as [|c l] eqn:Hm; [done|]. exfalso.
    assert (c ∈ missing student) as [Hnot Hc]%list_elem_of_filter by (rewrite Hm; left).
    apply Hnot, studentEnrollments_spec. by apply Hall.
Qed.

Lemma checkElectivePreferences_nil secs sts :
  Validator.checkElectivePreferences secs sts = [] ↔
  ∀ student, student ∈ sts → Student.electivePreferences student ≠ [] →
             ∃ cid, cid ∈ Student.electivePreferences student ∧
                    enrolledIn secs (Student.id student) cid.
Proof.
  unfold Validator.checkElectivePreferences. cbv zeta.
  set (served := λ student : Student.t,
         existsb (λ e, bool_decide
                         (e ∈ default ∅ (Validator.studentEnrollments secs !!
                                           Student.id student)))
                 (Student.electivePreferences student)).
  set (step := λ (n : nat) (student : Student.t),
         if decide (length (Student.electivePreferences student) = 0) then n
         else if served student then n else n + 1).
  change (foldl _ 0 sts) with (foldl step 0 sts).
  assert (∀ student, served student = true ↔
            ∃ cid, cid ∈ Student.electivePreferences student ∧
                   enrolledIn secs (Student.id student) cid) as Hserved.
  { intros student. unfold served. rewrite existsb_exists. split.
    - intros (cid & Hin%list_elem_of_In & Hb%bool_decide_eq_true).
      exists cid. split; [done|]. by apply studentEnrollments_spec.
    - intros (cid & Hin & Hen). exists cid. split; [by apply list_elem_of_In|].
      apply bool_decide_eq_true. by apply studentEnrollments_spec. }
  assert (∀ l n, foldl step n l = n ↔
                 ∀ student, student ∈ l → Student.electivePreferences student ≠ [] →
                            served student = true) as Hcount.
  { assert (∀ l n, n ≤ foldl step n l) as Hmono.
    { induction l as [|x l IH]; intros n; cbn [foldl]; [lia|].
      etrans; [|apply IH]. unfold step. repeat destruct (_ : {_} + {_}); try lia.
      destruct (served x); lia. }
    induction l as [|x l IH]; intros n; cbn [foldl].
    { split; [by intros _ ? ?%elem_of_nil|done]. }
    unfold step at 2.
    destruct (decide (length (Student.electivePreferences x) = 0)) as [Hz|Hnz].
    - rewrite IH. split.
      + intros H student [->|Hin]%elem_of_cons; [|by apply H].
        intros Hne. by destruct (Student.electivePreferences x).
      + intros H student Hin. apply H. by right.
    - destruct (served x) eqn:Hx.
      + rewrite IH. split.
        * intros H student [->|Hin]%elem_of_cons; [done|by apply H].
        * intros H student Hin. apply H. by right.
      + split.
        * intros H. pose proof (Hmono l (n + 1)). lia.
        * intros H. rewrite (H x) in Hx; [done|by left|].
          intros Hnil. by rewrite Hnil in Hnz. }
  split.
  - intros Hnil student Hstudent Hne. apply Hserved.
    destruct (decide (0 < foldl step 0 sts)) as [|Hz] in Hnil; [done|].
    assert (foldl step 0 sts = 0) as H0 by lia. rewrite Hcount in H0. by apply H0.
  - intros Hall. rewrite decide_False; [done|].
    enough (foldl step 0 sts = 0) by lia. apply Hcount.
    intros student Hstudent Hne. apply Hserved. by apply Hall.
Qed.

(** X23. The three soft checks of the validator are exact.
    [checkBalancedSections] reports nothing if and only if no section has
    more than five students more than another section of its course;
    [checkMissingRequiredCourses] reports nothing if and only if every
    student of the list is in a section of each of their required courses;
    [checkElectivePreferences] reports nothing if and only if every student
    with elective preferences is in a section of one of them. *)
Theorem soft_checks_exact (secs : list Section) (sts : list Student.t) :
  (Validator.checkBalancedSections secs = [] ↔
   ∀ i j a b, secs !! i = Some a → secs !! j = Some b → courseId a = courseId b →
              length (enrolledStudents a) ≤ length (enrolledStudents b) + 5) ∧
  (Validator.checkMissingRequiredCourses secs sts = [] ↔
   ∀ student cid, student ∈ sts → cid ∈ Student.requiredCourses student →
                  enrolledIn secs (Student.id student) cid) ∧
  (Validator.checkElectivePreferences secs sts = [] ↔
   ∀ student, student ∈ sts → Student.electivePreferences student ≠ [] →
              ∃ cid, cid ∈ Student.electivePreferences student ∧
                     enrolledIn secs (Student.id student) cid).
Proof.
  split; [apply checkBalancedSections_nil|].
  split; [apply checkMissingRequiredCourses_nil|apply checkElectivePreferences_nil].
Qed.

(** ** The schedule of the web engine before the validator *)

Lemma weekPeriods_NoDup days slot : NoDup (weekPeriods days slot).
Proof.
  unfold weekPeriods. apply NoDup_fmap_2; [|apply NoDup_seq]. by intros x y [= ->].
Qed.

Lemma fixedPart_back (l l' : list Section) s' :
  fixedPart <$> l' = fixedPart <$> l → s' ∈ l' → ∃ s, s ∈ l ∧ fixedPart s = fixedPart s'.
Proof.
  intros Hfix [i Hi]%list_elem_of_lookup.
  destruct (fixedPart_lookup _ _ _ _ Hfix Hi) as (s & Hs & Heq).
  exists s. split; [by eapply list_elem_of_lookup_2|done].
Qed.

Lemma housed_fixed input secs secs' :
  fixedPart <$> secs' = fixedPart <$> secs → housed input secs → housed input secs'.
Proof.
  intros Hfix Hroom s' rid (s & Hs & Heq)%(fixedPart_back secs).
  - unfold fixedPart in Heq. simplify_eq. intros Hrid.
    replace (courseId s') with (courseId s) by done.
    replace (capacity s') with (capacity s) by done.
    apply Hroom; [done|congruence].
  - done.
Qed.

Lemma staffed_static input secs secs' :
  static <$> secs' = static <$> secs → staffed input secs → staffed input secs'.
Proof.
  intros Hst Hqual s' tid [i Hi]%list_elem_of_lookup Htid.
  assert (static <$> secs' !! i = static <$> secs !! i) as Hlook
    by (by rewrite <- !list_lookup_fmap, Hst).
  rewrite Hi in Hlook. destruct (secs !! i) as [s|] eqn:Hs; [|done].
  cbn in Hlook. unfold static in Hlook. simplify_eq.
  replace (courseId s') with (courseId s) by done.
  apply Hqual; [by eapply list_elem_of_lookup_2|congruence].
Qed.

Lemma roomsFree_fixed secs secs' :
  fixedPart <$> secs' = fixedPart <$> secs → roomsFree secs → roomsFree secs'.
Proof.
  intros Hfix Hfree i j s1' s2' rid p Hij Hi Hj.
  destruct (fixedPart_lookup _ _ _ _ Hfix Hi) as (s1 & Hs1 & Heq1).
  destruct (fixedPart_lookup _ _ _ _ Hfix Hj) as (s2 & Hs2 & Heq2).
  unfold fixedPart in Heq1, Heq2. simplify_eq.
  replace (roomId s1') with (roomId s1) by done.
  replace (roomId s2') with (roomId s2) by done.
  replace (periods s1') with (periods s1) by done.
  replace (periods s2') with (periods s2) by done.
  by apply (Hfree i j s1 s2 rid p).
Qed.

Lemma createSections_staffed input :
  staffed input (createSections (courses input) (teachers input)).
Proof.
  intros s tid Hs Htid. unfold createSections in Hs.
  destruct (createSectionsFrom_new (teachers input) (courses input) ([], ∅))
    as (new & Hnew & _ & Hall).
  rewrite Hnew in Hs. cbn in Hs. destruct (Hall s Hs) as [_ Hteacher]. by apply Hteacher.
Qed.

Lemma web_schedule_spec input options clock :
  ∃ r, generateSchedule input options clock = Some r ∧
       Forall (λ s, NoDup (periods s)) (r_sections r) ∧
       noOverlap (r_sections r) ∧ meetingDistinct (r_sections r) ∧
       withinCapacity (r_sections r) ∧ onlyRequested input (r_sections r) ∧
       roomsFree (r_sections r) ∧ housed input (r_sections r) ∧
       staffed input (r_sections r).
Proof.
  destruct (pipeline_stages input options)
    as (secs3 & g & k & o & Hrooms & Hshape & Hgreedy & Hreb & Hmoves & Hginv & Hoinv &
        Hres & Hphases).
  destruct (Hres clock) as (r & Hr & Hsecs & _). exists r. split; [done|]. rewrite Hsecs.
  destruct Hginv as (Hknown & Hgcons & Hfrom & Hgfix).
  destruct Hoinv as ([_ Hno] & _ & Hofix).
  assert (Forall (λ s, enrolledStudents s = []) secs3) as Hempty
    by (eapply Forall_impl; [exact Hshape|]; by intros s [? _]).
  rewrite Forall_forall in Hempty.
  assert ((consistent (g_sections g) (g_schedules g) ∧ meetingDistinct (g_sections g)) ∧
          withinCapacity (g_sections g) ∧ onlyRequested input (g_sections g))
    as ([_ Hmeet] & Hcap & Hreq).
  { apply (runGreedyAssignment_preserves_requests
             (λ secs scheds, (consistent secs scheds ∧ meetingDistinct secs) ∧
                             withinCapacity secs ∧ onlyRequested input secs)
             secs3 input (buildCourseMap (courses input)) [] g); [| |done].
    - intros student cid course secs0 scheds b secs' scheds' Hstudent Hcid Hcourse Hgrade
             (Hcm & Hc & Hq) Hrun.
      split; [by eapply assignStudentToSection_meeting|].
      split; [by eapply assignStudentToSection_capacity|].
      by eapply assignStudentToSection_requested.
    - split; [split|split].
      + by apply consistent_unenrolled, Forall_forall.
      + intros s Hs _. rewrite (Hempty s Hs). apply NoDup_nil_2.
      + apply Forall_forall. intros s Hs. rewrite (Hempty s Hs). cbn. lia.
      + intros s sid Hs Hsid. rewrite (Hempty s Hs) in Hsid. by apply elem_of_nil in Hsid. }
  destruct (buildStudentSchedules_covered (g_sections g) (students input) Hfrom)
    as [Hcov _].
  destruct (moves_meeting _ _ Hmoves) as [_ Hmeet'];
    [split; [split; [done|by destruct Hgcons]|done]|].
  destruct (assignRooms_sound _ _ _ _ (phase2_unroomed input) Hrooms) as [Hfree Hroom].
  split.
  { apply Forall_forall. intros s (s3 & Hs3 & Heq)%(fixedPart_back secs3); [|done].
    rewrite Forall_forall in Hshape. destruct (Hshape s3 Hs3) as (_ & slot & Hp).
    unfold fixedPart in Heq. simplify_eq. replace (periods s) with (periods s3) by done.
    rewrite Hp. apply weekPeriods_NoDup. }
  split; [done|]. split; [done|].
  split; [by apply (moves_capacity _ _ Hmoves)|].
  split; [by apply (moves_requested _ _ _ Hmoves)|].
  split; [by apply (roomsFree_fixed secs3)|].
  split.
  - apply (housed_fixed _ secs3); [done|]. intros s rid Hs Hrid.
    by destruct (Hroom s rid Hs Hrid) as [_ ?].
  - apply (staffed_static _ (createSections (courses input) (teachers input)));
      [by eapply pipeline_static|apply createSections_staffed].
Qed.

(** X24. If the teachers, the rooms and the students of the input have
    distinct ids, the only hard violations the validator can find in a
    schedule of the web engine are teacher conflicts and teachers assigned
    at unavailable periods: the checks for student conflicts, room
    conflicts, room capacity, room features, grade restrictions and teacher
    qualifications report nothing. *)
Theorem web_schedule_hard_violations
    (input : ScheduleInput) (options : SchedulerOptions) (clock : Clock) :
  distinctIds input →
  ∃ r, generateSchedule input options clock = Some r ∧
       Validator.hardViolations (r_sections r) input =
         Validator.checkTeacherConflicts (r_sections r) ++
         Validator.checkTeacherAvailability (r_sections r)
                                            (Validator.buildTeacherMap (teachers input)).
Proof.
  intros (Hteachers & Hrooms & Hstudents).
  destruct (web_schedule_spec input options clock)
    as (r & Hr & Hnd & Hno & Hmeet & Hcap & Hreq & Hfree & Hhoused & Hstaffed).
  exists r. split; [done|]. unfold Validator.hardViolations.
  rewrite (proj2 (checkStudentConflicts_nil _) (studentEntries_NoDup _ Hnd Hno Hmeet)).
  rewrite (proj2 (checkRoomConflicts_nil _) (roomEntries_NoDup _ Hnd Hfree)).
  rewrite (housed_capacity _ _ Hhoused Hrooms Hcap).
  rewrite (housed_features _ _ Hhoused Hrooms).
  rewrite (requested_grades _ _ Hreq Hstudents).
  rewrite (staffed_qualifications _ _ Hstaffed Hteachers).
  cbn [app]. by rewrite app_nil_r.
Qed.

Lemma web_schedule_hard_violations_witness :
  ∃ r, generateSchedule Examples.seniors Examples.noOptions Examples.noon = Some r ∧
       Validator.hardViolations (r_sections r) Examples.seniors =
         Validator.checkTeacherConflicts (r_sections r) ++
         Validator.checkTeacherAvailability
           (r_sections r) (Validator.buildTeacherMap (teachers Examples.seniors)).
Proof.
  apply (web_schedule_hard_violations Examples.seniors Examples.noOptions Examples.noon).
  repeat split; apply (bool_decide_unpack _); vm_compute; exact I.
Defined.

(** * Names made from numbers *)

Lemma occurs_app c s1 s2 : occurs c (s1 +:+ s2) ↔ occurs c s1 ∨ occurs c s2.
Proof.
  induction s1 as [|c' s1 IH]; simpl; [tauto|]. rewrite IH. tauto.
Qed.

Lemma pretty_N_char_digit x c :
  c = dash ∨ c = underscore → pretty_N_char x ≠ c.
Proof.
  intros [-> | ->]; unfold pretty_N_char;
    repeat (discriminate || case_match).
Qed.

Lemma pretty_N_go_free c x s :
  c = dash ∨ c = underscore → ¬ occurs c s → ¬ occurs c (pretty_N_go x s).
Proof.
  intros Hc. revert s. induction (N.lt_wf_0 x) as [x _ IH]; intros s Hs.
  destruct (decide (x = 0)%N) as [->|Hne]; [by rewrite pretty_N_go_0|].
  rewrite pretty_N_go_step by lia. apply IH; [apply N.div_lt; lia|].
  cbn. intros [Heq|Hin]; [|done].
  by apply (pretty_N_char_digit (x `mod` 10)%N c).
Qed.

Lemma pretty_nat_free c (n : nat) :
  c = dash ∨ c = underscore → ¬ occurs c (pretty n).
Proof.
  intros Hc. unfold pretty, pretty_nat, pretty, pretty_N.
  destruct (decide _).
  - cbn. intros [Heq|[]]. destruct Hc as [-> | ->]; discriminate.
  - apply pretty_N_go_free; [done|]. by intros [].
Qed.

(** A string is split in one way only at a separator that does not occur
    before it. *)
Lemma split_first c a b a' b' :
  ¬ occurs c a → ¬ occurs c a' →
  a +:+ String c b = a' +:+ String c b' → a = a' ∧ b = b'.
Proof.
  revert a'. induction a as [|x a IH]; intros [|x' a'] Ha Ha'; cbn.
  - by intros [= ->].
  - intros [= -> _]. exfalso. apply Ha'. by left.
  - intros [= -> _]. exfalso. apply Ha. by left.
  - intros [= -> Heq]. destruct (IH a') as [-> ->]; [| |done|done].
    + intros ?. apply Ha. by right.
    + intros ?. apply Ha'. by right.
Qed.

(** A string is split in one way only at a separator that does not occur
    after it. *)
Lemma split_last c a b a' b' :
  ¬ occurs c b → ¬ occurs c b' →
  a +:+ String c b = a' +:+ String c b' → a = a' ∧ b = b'.
Proof.
  intros Hb Hb'. revert a'. induction a as [|x a IH]; intros [|x' a']; cbn.
  - by intros [= ->].
  - intros [= <- ->]. exfalso. apply Hb, occurs_app. right. by left.
  - intros [= -> <-]. exfalso. apply Hb', occurs_app. right. by left.
  - intros [= -> Heq]. by destruct (IH a' Heq) as [-> ->].
Qed.

(** X25. The names of the variables of the ILP model identify the pair of
    a student index and a section index: [x_s_k] and [x_s'_k'] are the same
    name only if [s = s'] and [k = k']. *)
Theorem varName_injective (s k s' k' : nat) :
  ILP.varName s k = ILP.varName s' k' ↔ (s, k) = (s', k').
Proof.
  split; [|by intros [= -> ->]].
  unfold ILP.varName. cbn. intros [= Heq].
  change (pretty s +:+ String underscore (pretty k) =
          pretty s' +:+ String underscore (pretty k')) in Heq.
  apply split_first in Heq as [Hs Hk];
    [|apply pretty_nat_free; by right..].
  by rewrite (inj pretty _ _ Hs), (inj pretty _ _ Hk).
Qed.

Lemma periodKey_inj p q : periodKey p = periodKey q → p = q.
Proof.
  destruct p as [d s], q as [d' s']. unfold periodKey. cbn [fst snd]. intros Heq.
  change (pretty d +:+ String dash (pretty s) = pretty d' +:+ String dash (pretty s'))
    in Heq.
  apply split_first in Heq as [Hd Hs]; [|apply pretty_nat_free; by left..].
  by rewrite (inj pretty _ _ Hd), (inj pretty _ _ Hs).
Qed.

(** X26. The key of a period in the tables of the teachers, the rooms and
    the students identifies the period: two periods have the same key only
    if they have the same day and the same slot. *)
Theorem periodKey_injective (p q : Period) : periodKey p = periodKey q ↔ p = q.
Proof. split; [apply periodKey_inj|by intros ->]. Qed.

Lemma sectionName_inj cid i cid' i' :
  sectionName cid i = sectionName cid' i' → cid = cid' ∧ i = i'.
Proof.
  unfold sectionName. intros Heq.
  change (cid +:+ String dash (pretty (i + 1)) = cid' +:+ String dash (pretty (i' + 1)))
    in Heq.
  apply split_last in Heq as [Hc Hi]; [|apply pretty_nat_free; by left..].
  split; [done|]. apply (inj pretty) in Hi. lia.
Qed.

Lemma createSections_ids cs teachers :
  id <$> createSections cs teachers =
  cs ≫= (λ c, sectionName (Course.id c) <$> seq 0 (Course.sections c)).
Proof.
  unfold createSections.
  enough (∀ acc, id <$> (createSectionsFrom teachers acc cs).1 =
                 (id <$> acc.1) ++
                 (cs ≫= (λ c, sectionName (Course.id c) <$> seq 0 (Course.sections c))))
    as H by (by rewrite H).
  induction cs as [|c cs IH]; intros acc; cbn [createSectionsFrom foldl].
  { cbn. by rewrite app_nil_r. }
  unfold createSectionsFrom in IH. rewrite IH, createCourseSections_sections.
  rewrite fmap_app, <- app_assoc. f_equal. cbn [mbind list_bind].
  change (foldr _ _ _) with
    ((sectionName (Course.id c) <$> seq 0 (Course.sections c)) ++
     (cs ≫= (λ c, sectionName (Course.id c) <$> seq 0 (Course.sections c)))).
  f_equal. by rewrite <- list_fmap_compose.
Qed.

(** X27. If the courses have distinct ids, the sections [createSections]
    makes have distinct ids. *)
Theorem createSections_ids_distinct (cs : list Course.t) (teachers : list Teacher.t) :
  NoDup (Course.id <$> cs) → NoDup (id <$> createSections cs teachers).
Proof.
  intros Hnd. rewrite createSections_ids. apply NoDup_bind_lookup.
  - intros c _. apply NoDup_fmap_2; [|apply NoDup_seq].
    intros i j Heq. by apply sectionName_inj in Heq as [_ ?].
  - intros i j c c' name Hij Hi Hj (n & -> & _)%list_elem_of_fmap
           (n' & [Hc _]%sectionName_inj & _)%list_elem_of_fmap.
    apply Hij. eapply NoDup_lookup; [exact Hnd| |].
    + by rewrite list_lookup_fmap, Hi.
    + by rewrite list_lookup_fmap, Hj, Hc.
Qed.

Lemma createSections_ids_distinct_witness :
  NoDup (id <$> createSections [Examples.algebra; Examples.art] [Examples.teacherT 2]).
Proof.
  apply (createSections_ids_distinct [Examples.algebra; Examples.art] [Examples.teacherT 2]).
  apply (bool_decide_unpack _). vm_compute. exact I.
Defined.
